(** * The generic graph engine of [graphs/graphs.hpp]

    A shallow embedding of [Graph<T>] and of its specialised sub-classes,
    instantiated at [T = int], followed by the properties of the engine.

    Conventions of the embedding.
    - [std::set<T>] is a [gset Z] and [std::map<T, vector<pair<T,int>>>] a
      [gmap Z (list (Z * Z))]; a range-for over either visits the keys in
      increasing order, which [sorted_elems] makes explicit.
    - [int] values are integers of [Z].  The engine only compares vertices and
      weights; its counters ([numVertices], hop counts) grow by one per stored
      element, and signed overflow being undefined in C++ the embedding
      describes the executions in which they stay below [INT_MAX].
    - A member function that mutates [*this] takes the object and returns the
      new one; a [const] member function only takes it.
    - [throw] is the outcome [Throw]; the object that a mutating call leaves
      behind when it throws is returned next to the outcome.
    - The calls to [cprint] and [cout] write to the console only and are left
      out, as are the private tree printers. *)

From Stdlib Require Import ZArith String.
From stdpp Require Import gmap list sorting strings.

Local Open Scope Z_scope.

(** ** Exceptions and outcomes *)

Inductive exn : Type :=
| logic_error (what : string)
| invalid_argument (what : string)
| out_of_range.

(** The outcome of a call: a value, a thrown exception, or [OutOfFuel] when a
    bounded unfolding of a loop of the source was not long enough. *)
Inductive res (A : Type) : Type :=
| Ret (a : A)
| Throw (e : exn)
| OutOfFuel.
Arguments Ret {A} a.
Arguments Throw {A} e.
Arguments OutOfFuel {A}.

Definition INT_MAX : Z := 2147483647.

(** ** Containers *)

(** The order in which a range-for visits a [std::set<int>]. *)
Definition sorted_elems (s : gset Z) : list Z := merge_sort Z.le (elements s).

(** [s.begin()] and [++it] on a [std::set<int>]; [None] is [s.end()].  The
    successor is taken in the set as it is when the iterator moves. *)
Definition set_begin (s : gset Z) : option Z := head (sorted_elems s).
Definition set_next (s : gset Z) (v : Z) : option Z :=
  head (filter (λ x, v < x) (sorted_elems s)).

(** [m[k]] used as an l-value and then modified in place by [f]: the entry is
    created empty when it is missing. *)
Definition adj_modify (f : list (Z * Z) → list (Z * Z)) (k : Z)
    (m : gmap Z (list (Z * Z))) : gmap Z (list (Z * Z)) :=
  <[k := f (m !!! k)]> m.

(** [v.push_back(e)]. *)
Definition push_back (e : Z * Z) (l : list (Z * Z)) : list (Z * Z) := l ++ [e].

(** [v.erase(remove_if(v.begin(), v.end(), [x](p){ return p.first == x; }), v.end())]. *)
Definition remove_target (x : Z) (l : list (Z * Z)) : list (Z * Z) :=
  filter (λ p, p.1 ≠ x) l.

(** [remove_if(...) != v.end()]: some element has target [x]. *)
Definition has_target (x : Z) (l : list (Z * Z)) : bool :=
  bool_decide (x ∈ l.*1).

(** The range-for over a [std::map]: the entries in increasing key order. *)
Definition map_entries (m : gmap Z (list (Z * Z))) : list (Z * list (Z * Z)) :=
  (λ k, (k, m !!! k)) <$> sorted_elems (dom m).

(** The double loop [for (pair : adjList) for (neighbor : pair.second)] as the
    sequence of triples (src, dest, weight) it goes through. *)
Definition edge_triples (m : gmap Z (list (Z * Z))) : list (Z * Z * Z) :=
  '(src, l) ← map_entries m; (λ p, (src, p.1, p.2)) <$> l.

(** ** The base class [Graph<T>] *)

Module Graph.

Record t : Type := mk {
  numVertices : Z;
  isDirected : bool;
  isWeighted : bool;
  adjList : gmap Z (list (Z * Z));
  vertices : gset Z
}.

#[global] Instance t_eq_dec : EqDecision t.
Proof. solve_decision. Defined.

Definition set_adjList (g : t) (a : gmap Z (list (Z * Z))) : t :=
  mk (numVertices g) (isDirected g) (isWeighted g) a (vertices g).

(** [Graph(bool directed = false, bool weighted = false)] *)
Definition new (directed weighted : bool) : t :=
  mk 0 directed weighted ∅ ∅.

Definition addVertex (g : t) (vertex : Z) : t :=
  if decide (vertex ∈ vertices g) then g
  else mk (numVertices g + 1) (isDirected g) (isWeighted g)
          (<[vertex := []]> (adjList g)) ({[vertex]} ∪ vertices g).

(** [Graph<T>::addEdge], the implementation of the base class. *)
Definition addEdge (g : t) (src dest weight : Z) : t :=
  let g := addVertex (addVertex g src) dest in
  let a := adj_modify (push_back (dest, weight)) src (adjList g) in
  let a := if isDirected g then a
           else adj_modify (push_back (src, weight)) dest a in
  set_adjList g a.

Definition deleteVertex (g : t) (vertex : Z) : t * bool :=
  if decide (vertex ∈ vertices g) then
    (mk (numVertices g - 1) (isDirected g) (isWeighted g)
        (remove_target vertex <$> delete vertex (adjList g))
        (vertices g ∖ {[vertex]}),
     true)
  else (g, false).

Definition deleteEdge (g : t) (src dest : Z) : t * bool :=
  if decide (src ∈ vertices g ∧ dest ∈ vertices g) then
    let found := has_target dest (adjList g !!! src) in
    let a := adj_modify (remove_target dest) src (adjList g) in
    let a := if isDirected g then a
             else adj_modify (remove_target src) dest a in
    (set_adjList g a, found)
  else (g, false).

(** The edge loop of [join]; [vaddEdge] is the virtual [addEdge] of the
    dynamic class of [*this].  The loop stops at the first exception. *)
Fixpoint join_edges (vaddEdge : t → Z → Z → Z → t * res ())
    (g : t) (es : list (Z * Z * Z)) : t * res () :=
  match es with
  | [] => (g, Ret ())
  | (src, dest, weight) :: es =>
      let exists_ :=
        match adjList g !! src with
        | Some l => has_target dest l
        | None => false
        end in
      if exists_ then join_edges vaddEdge g es
      else if decide (isDirected g = true ∨ src < dest) then
        match vaddEdge g src dest weight with
        | (g', Ret _) => join_edges vaddEdge g' es
        | (g', r) => (g', r)
        end
      else join_edges vaddEdge g es
  end.

Definition join (vaddEdge : t → Z → Z → Z → t * res ())
    (g other : t) : t * res () :=
  if decide (isDirected g ≠ isDirected other) then
    (g, Throw (logic_error "Cannot join directed and undirected graphs"))
  else if decide (isWeighted g ≠ isWeighted other) then
    (g, Throw (logic_error "Cannot join weighted and unweighted graphs"))
  else
    let g := foldl addVertex g (sorted_elems (vertices other)) in
    join_edges vaddEdge g (edge_triples (adjList other)).

(** The edge loop of [operator+]; [result] is a plain [Graph<T>]. *)
Definition copy_edges (directed : bool) (result : t)
    (es : list (Z * Z * Z)) : t :=
  foldl (λ r '(src, dest, weight),
           if decide (directed = true ∨ src < dest)
           then addEdge r src dest weight else r)
        result es.

Definition operator_plus (g other : t) : res t :=
  let result := new (isDirected g) (isWeighted g) in
  let result := foldl addVertex result (sorted_elems (vertices g)) in
  let result := copy_edges (isDirected g) result (edge_triples (adjList g)) in
  match join (λ r s d w, (addEdge r s d w, Ret ())) result other with
  | (result, Ret _) => Ret result
  | (_, Throw e) => Throw e
  | (_, OutOfFuel) => OutOfFuel
  end.

Definition getNumVertices (g : t) : Z := numVertices g.

Definition getNumEdges (g : t) : Z :=
  let count := foldl (λ c p, c + Z.of_nat (length p.2)) 0 (map_entries (adjList g)) in
  if isDirected g then count else count `quot` 2.

Definition getDegree (g : t) (vertex : Z) : res Z :=
  if decide (vertex ∈ vertices g) then
    match adjList g !! vertex with
    | None => Ret 0
    | Some l => Ret (Z.of_nat (length l))
    end
  else Throw (invalid_argument "Vertex not found in graph").

(** *** Traversals *)

Record bfs_state : Type := mk_bfs {
  bfs_traversal : list Z;
  bfs_visited : gset Z;
  bfs_q : list Z;
  bfs_parent : gmap Z Z;
  bfs_level : gmap Z Z
}.

(** The loop over the neighbours of [current] in [BFS]. *)
Definition BFS_explore (current : Z) (l : list (Z * Z)) (s : bfs_state) : bfs_state :=
  foldl (λ s neighbor,
           if decide (neighbor.1 ∈ bfs_visited s) then s
           else mk_bfs (bfs_traversal s)
                       ({[neighbor.1]} ∪ bfs_visited s)
                       (bfs_q s ++ [neighbor.1])
                       (<[neighbor.1 := current]> (bfs_parent s))
                       (<[neighbor.1 := bfs_level s !!! current + 1]> (bfs_level s)))
        s l.

(** [for (int i = 0; i < levelSize; i++)]: one level of the queue. *)
Fixpoint BFS_level (adj : gmap Z (list (Z * Z))) (levelSize : nat)
    (s : bfs_state) : bfs_state :=
  match levelSize, bfs_q s with
  | S n, current :: q =>
      let s := mk_bfs (bfs_traversal s ++ [current]) (bfs_visited s) q
                      (bfs_parent s) (bfs_level s) in
      let s := match adj !! current with
               | Some l => BFS_explore current l s
               | None => s
               end in
      BFS_level adj n s
  | _, _ => s
  end.

(** [while (!q.empty())]. *)
Fixpoint BFS_loop (fuel : nat) (adj : gmap Z (list (Z * Z)))
    (s : bfs_state) : res bfs_state :=
  match bfs_q s with
  | [] => Ret s
  | _ :: _ =>
      match fuel with
      | O => OutOfFuel
      | S fuel => BFS_loop fuel adj (BFS_level adj (length (bfs_q s)) s)
      end
  end.

(** The number of stored adjacency entries; every vertex that enters a queue
    after the first one does so through one of them. *)
Definition num_entries (adj : gmap Z (list (Z * Z))) : nat :=
  length (edge_triples adj).

Definition BFS (g : t) (start : Z) : res (list Z) :=
  if decide (start ∈ vertices g) then
    let s := mk_bfs [] {[start]} [start] {[start := start]} {[start := 0]} in
    match BFS_loop (S (num_entries (adjList g))) (adjList g) s with
    | Ret s => Ret (bfs_traversal s)
    | Throw e => Throw e
    | OutOfFuel => OutOfFuel
    end
  else Throw (invalid_argument "Start vertex not found in graph").

Record dfs_state : Type := mk_dfs {
  dfs_visited : gset Z;
  dfs_traversal : list Z;
  dfs_discoveryTime : gmap Z Z;
  dfs_finishTime : gmap Z Z;
  dfs_parent : gmap Z Z;
  dfs_time : Z
}.

(** The loop over the neighbours of [vertex] in [DFSUtil]; [rec] is the
    recursive call. *)
Fixpoint DFSUtil_explore (rec : Z → dfs_state → res dfs_state) (vertex : Z)
    (l : list (Z * Z)) (s : dfs_state) : res dfs_state :=
  match l with
  | [] => Ret s
  | neighbor :: l =>
      if decide (neighbor.1 ∈ dfs_visited s) then DFSUtil_explore rec vertex l s
      else
        let s := mk_dfs (dfs_visited s) (dfs_traversal s) (dfs_discoveryTime s)
                        (dfs_finishTime s) (<[neighbor.1 := vertex]> (dfs_parent s))
                        (dfs_time s) in
        match rec neighbor.1 s with
        | Ret s => DFSUtil_explore rec vertex l s
        | r => r
        end
  end.

Fixpoint DFSUtil (fuel : nat) (adj : gmap Z (list (Z * Z))) (vertex : Z)
    (s : dfs_state) : res dfs_state :=
  match fuel with
  | O => OutOfFuel
  | S fuel =>
      let s := mk_dfs ({[vertex]} ∪ dfs_visited s) (dfs_traversal s ++ [vertex])
                      (<[vertex := dfs_time s + 1]> (dfs_discoveryTime s))
                      (dfs_finishTime s) (dfs_parent s) (dfs_time s + 1) in
      let r := match adj !! vertex with
               | Some l => DFSUtil_explore (DFSUtil fuel adj) vertex l s
               | None => Ret s
               end in
      match r with
      | Ret s =>
          Ret (mk_dfs (dfs_visited s) (dfs_traversal s) (dfs_discoveryTime s)
                      (<[vertex := dfs_time s + 1]> (dfs_finishTime s))
                      (dfs_parent s) (dfs_time s + 1))
      | r => r
      end
  end.

Definition DFS (g : t) (start : Z) : res (list Z) :=
  if decide (start ∈ vertices g) then
    let s := mk_dfs ∅ [] ∅ ∅ {[start := start]} 0 in
    match DFSUtil (S (num_entries (adjList g))) (adjList g) start s with
    | Ret s => Ret (dfs_traversal s)
    | Throw e => Throw e
    | OutOfFuel => OutOfFuel
    end
  else Throw (invalid_argument "Start vertex not found in graph").

(** *** Distance *)

(** The loop over the neighbours of [current] in [getDistance]: [inl d] is
    the early [return d], [inr] the state at the end of the loop. *)
Fixpoint getDistance_scan (dest current : Z) (l : list (Z * Z))
    (visited : gset Z) (distance : gmap Z Z) (q : list Z)
    : Z + (gset Z * gmap Z Z * list Z) :=
  match l with
  | [] => inr (visited, distance, q)
  | neighbor :: l =>
      if decide (neighbor.1 ∈ visited) then
        getDistance_scan dest current l visited distance q
      else
        let visited := {[neighbor.1]} ∪ visited in
        let distance := <[neighbor.1 := distance !!! current + 1]> distance in
        let q := q ++ [neighbor.1] in
        if decide (neighbor.1 = dest) then inl (distance !!! neighbor.1)
        else getDistance_scan dest current l visited distance q
  end.

(** [while (!q.empty())] of [getDistance]. *)
Fixpoint getDistance_loop (fuel : nat) (adj : gmap Z (list (Z * Z))) (dest : Z)
    (visited : gset Z) (distance : gmap Z Z) (q : list Z) : res Z :=
  match q with
  | [] => Ret (-1)
  | current :: q =>
      match fuel with
      | O => OutOfFuel
      | S fuel =>
          match adj !! current with
          | None => getDistance_loop fuel adj dest visited distance q
          | Some l =>
              match getDistance_scan dest current l visited distance q with
              | inl d => Ret d
              | inr (visited, distance, q) =>
                  getDistance_loop fuel adj dest visited distance q
              end
          end
      end
  end.

Definition getDistance (g : t) (src dest : Z) : res Z :=
  if decide (src ∈ vertices g ∧ dest ∈ vertices g) then
    if decide (src = dest) then Ret 0
    else getDistance_loop (S (num_entries (adjList g))) (adjList g) dest
           {[src]} {[src := 0]} [src]
  else Throw (invalid_argument "Vertex not found in graph").

(** *** Girth *)

(** The loop over the neighbours of [current] in [getGirth]. *)
Definition getGirth_scan (current parent : Z) (l : list (Z * Z))
    (st : gmap Z Z * list (Z * Z) * Z) : gmap Z Z * list (Z * Z) * Z :=
  foldl (λ '(distance, q, girth) neighbor,
           if decide (distance !! neighbor.1 = None) then
             (<[neighbor.1 := distance !!! current + 1]> distance,
              q ++ [(neighbor.1, current)], girth)
           else if decide (neighbor.1 ≠ parent) then
             let cycleLength := distance !!! current + distance !!! neighbor.1 + 1 in
             (distance, q, Z.min girth cycleLength)
           else (distance, q, girth))
        st l.

Fixpoint getGirth_loop (fuel : nat) (adj : gmap Z (list (Z * Z)))
    (distance : gmap Z Z) (q : list (Z * Z)) (girth : Z) : res Z :=
  match q with
  | [] => Ret girth
  | (current, parent) :: q =>
      match fuel with
      | O => OutOfFuel
      | S fuel =>
          match adj !! current with
          | None => getGirth_loop fuel adj distance q girth
          | Some l =>
              let '(distance, q, girth) :=
                getGirth_scan current parent l (distance, q, girth) in
              getGirth_loop fuel adj distance q girth
          end
      end
  end.

(** The body of [for (const auto& start : vertices)] in [getGirth]. *)
Definition getGirth_from (adj : gmap Z (list (Z * Z))) (start : Z) (girth : Z) : res Z :=
  let '(distance, q) :=
    match adj !! start with
    | Some l =>
        foldl (λ '(distance, q) neighbor,
                 (<[neighbor.1 := 1]> distance, q ++ [(neighbor.1, start)]))
              ({[start := 0]}, []) l
    | None => ({[start := 0]}, [])
    end in
  getGirth_loop (S (2 * num_entries adj)) adj distance q girth.

Fixpoint getGirth_starts (adj : gmap Z (list (Z * Z))) (starts : list Z)
    (girth : Z) : res Z :=
  match starts with
  | [] => Ret girth
  | start :: starts =>
      match getGirth_from adj start girth with
      | Ret girth => getGirth_starts adj starts girth
      | r => r
      end
  end.

Definition getGirth (g : t) : res Z :=
  if decide (vertices g = ∅) then Ret (-1)
  else
    match getGirth_starts (adjList g) (sorted_elems (vertices g)) INT_MAX with
    | Ret girth => Ret (if decide (girth = INT_MAX) then -1 else girth)
    | r => r
    end.

(** *** Connectivity *)

(** The loop over the neighbours of [vertex] in [isConnected]. *)
Definition isConnected_scan (l : list (Z * Z)) (st : gset Z * list Z)
    : gset Z * list Z :=
  foldl (λ '(visited, q) neighbor,
           if decide (neighbor.1 ∈ visited) then (visited, q)
           else ({[neighbor.1]} ∪ visited, q ++ [neighbor.1]))
        st l.

(** [while (!q.empty())] of [isConnected]; [adjList.at(vertex)] throws when
    [vertex] has no adjacency list. *)
Fixpoint isConnected_loop (fuel : nat) (adj : gmap Z (list (Z * Z)))
    (visited : gset Z) (q : list Z) : res (gset Z) :=
  match q with
  | [] => Ret visited
  | vertex :: q =>
      match fuel with
      | O => OutOfFuel
      | S fuel =>
          match adj !! vertex with
          | None => Throw out_of_range
          | Some l =>
              let '(visited, q) := isConnected_scan l (visited, q) in
              isConnected_loop fuel adj visited q
          end
      end
  end.

(** [vertices.empty()] is [vertices.begin() == vertices.end()]. *)
Definition isConnected (g : t) : res bool :=
  match set_begin (vertices g) with
  | None => Ret true
  | Some start =>
      match isConnected_loop (S (num_entries (adjList g))) (adjList g)
              {[start]} [start] with
      | Ret visited => Ret (bool_decide (size visited = size (vertices g)))
      | Throw e => Throw e
      | OutOfFuel => OutOfFuel
      end
  end.

Definition getVertices (g : t) : gset Z := vertices g.

(** *** Degrees *)

Definition getInDegree (g : t) (vertex : Z) : res Z :=
  if decide (vertex ∈ vertices g) then
    if isDirected g then
      Ret (foldl (λ inDegree '(_, dest, _),
                    if decide (dest = vertex) then inDegree + 1 else inDegree)
                 0 (edge_triples (adjList g)))
    else getDegree g vertex
  else Throw (invalid_argument "Vertex not found in graph").

(** [for (const auto& vertex : vertices) minDeg = min(minDeg, getDegree(vertex))]. *)
Fixpoint getMinDegree_loop (g : t) (vs : list Z) (minDeg : Z) : res Z :=
  match vs with
  | [] => Ret minDeg
  | vertex :: vs =>
      match getDegree g vertex with
      | Ret deg => getMinDegree_loop g vs (Z.min minDeg deg)
      | r => r
      end
  end.

Definition getMinDegree (g : t) : res Z :=
  if decide (vertices g = ∅) then Ret 0
  else getMinDegree_loop g (sorted_elems (vertices g)) INT_MAX.

Fixpoint getMaxDegree_loop (g : t) (vs : list Z) (maxDeg : Z) : res Z :=
  match vs with
  | [] => Ret maxDeg
  | vertex :: vs =>
      match getDegree g vertex with
      | Ret deg => getMaxDegree_loop g vs (Z.max maxDeg deg)
      | r => r
      end
  end.

Definition getMaxDegree (g : t) : res Z :=
  if decide (vertices g = ∅) then Ret 0
  else getMaxDegree_loop g (sorted_elems (vertices g)) 0.

(** *** Diameter and radius *)

(** [for (const auto& dest : vertices)] of [getDiameter] and of [getRadius]:
    [inl (-1)] is the early [return -1], [inr] the greatest distance seen when
    the loop ends. *)
Fixpoint farthest (g : t) (src : Z) (dests : list Z) (acc : Z) : res (Z + Z) :=
  match dests with
  | [] => Ret (inr acc)
  | dest :: dests =>
      if decide (src ≠ dest) then
        match getDistance g src dest with
        | Ret dist =>
            if decide (dist = -1) then Ret (inl (-1))
            else farthest g src dests (Z.max acc dist)
        | Throw e => Throw e
        | OutOfFuel => OutOfFuel
        end
      else farthest g src dests acc
  end.

(** [for (const auto& src : vertices)] of [getDiameter]. *)
Fixpoint getDiameter_loop (g : t) (srcs : list Z) (diameter : Z) : res Z :=
  match srcs with
  | [] => Ret diameter
  | src :: srcs =>
      match farthest g src (sorted_elems (vertices g)) diameter with
      | Ret (inl r) => Ret r
      | Ret (inr diameter) => getDiameter_loop g srcs diameter
      | Throw e => Throw e
      | OutOfFuel => OutOfFuel
      end
  end.

Definition getDiameter (g : t) : res Z :=
  if decide (vertices g = ∅) then Ret 0
  else if decide (size (vertices g) = 1%nat) then Ret 0
  else getDiameter_loop g (sorted_elems (vertices g)) 0.

(** [for (const auto& src : vertices)] of [getRadius]. *)
Fixpoint getRadius_loop (g : t) (srcs : list Z) (radius : Z) : res Z :=
  match srcs with
  | [] => Ret radius
  | src :: srcs =>
      match farthest g src (sorted_elems (vertices g)) 0 with
      | Ret (inl r) => Ret r
      | Ret (inr eccentricity) => getRadius_loop g srcs (Z.min radius eccentricity)
      | Throw e => Throw e
      | OutOfFuel => OutOfFuel
      end
  end.

Definition getRadius (g : t) : res Z :=
  if decide (vertices g = ∅) then Ret 0
  else if decide (size (vertices g) = 1%nat) then Ret 0
  else getRadius_loop g (sorted_elems (vertices g)) INT_MAX.

(** *** Circumference *)

(** The loop over the neighbours of [current] in [dfsLongestCycle]; [rec] is
    the recursive call.  The sets [visited] and [distance] are passed by
    reference in the source and come back with the result. *)
Fixpoint dfsLongestCycle_scan
    (rec : Z → gset Z → gmap Z Z → res (Z * gset Z * gmap Z Z))
    (start dist : Z) (l : list (Z * Z)) (visited : gset Z) (distance : gmap Z Z)
    (maxCycle : Z) : res (Z * gset Z * gmap Z Z) :=
  match l with
  | [] => Ret (maxCycle, visited, distance)
  | neighbor :: l =>
      if decide (neighbor.1 = start ∧ 1 < dist) then
        dfsLongestCycle_scan rec start dist l visited distance
          (Z.max maxCycle (dist + 1))
      else if decide (neighbor.1 ∈ visited) then
        dfsLongestCycle_scan rec start dist l visited distance maxCycle
      else
        match rec neighbor.1 visited distance with
        | Ret (found, visited, distance) =>
            dfsLongestCycle_scan rec start dist l visited distance
              (Z.max maxCycle found)
        | r => r
        end
  end.

Fixpoint dfsLongestCycle (fuel : nat) (adj : gmap Z (list (Z * Z)))
    (start current : Z) (visited : gset Z) (distance : gmap Z Z) (dist : Z)
    : res (Z * gset Z * gmap Z Z) :=
  match fuel with
  | O => OutOfFuel
  | S fuel =>
      let visited := {[current]} ∪ visited in
      let distance := <[current := dist]> distance in
      let r := match adj !! current with
               | Some l =>
                   dfsLongestCycle_scan
                     (λ next visited distance,
                        dfsLongestCycle fuel adj start next visited distance (dist + 1))
                     start dist l visited distance 0
               | None => Ret (0, visited, distance)
               end in
      match r with
      | Ret (maxCycle, visited, distance) =>
          Ret (maxCycle, visited ∖ {[current]}, distance)
      | r => r
      end
  end.

(** [for (const auto& start : vertices)] of [getCircumference]. *)
Fixpoint getCircumference_loop (adj : gmap Z (list (Z * Z))) (starts : list Z)
    (circumference : Z) : res Z :=
  match starts with
  | [] => Ret circumference
  | start :: starts =>
      match dfsLongestCycle (S (num_entries adj)) adj start start ∅ ∅ 0 with
      | Ret (found, _, _) =>
          getCircumference_loop adj starts (Z.max circumference found)
      | Throw e => Throw e
      | OutOfFuel => OutOfFuel
      end
  end.

Definition getCircumference (g : t) : res Z :=
  if decide (vertices g = ∅) then Ret (-1)
  else
    match getCircumference_loop (adjList g) (sorted_elems (vertices g)) 0 with
    | Ret circumference =>
        Ret (if decide (circumference = 0) then -1 else circumference)
    | r => r
    end.

End Graph.

(** ** The specialised graph types *)

Module NullGraph.
Definition new : Graph.t := Graph.new false false.

(** The class redeclares [addVertex] and forwards to the base class. *)
Definition addVertex (g : Graph.t) (vertex : Z) : Graph.t := Graph.addVertex g vertex.

Definition addEdge (g : Graph.t) (src dest weight : Z) : Graph.t * res () :=
  (g, Throw (logic_error "Cannot add edges to a Null Graph")).
End NullGraph.

Module TrivialGraph.
Definition new (vertex : Z) : Graph.t :=
  Graph.addVertex (Graph.new false false) vertex.

Definition addEdge (g : Graph.t) (src dest weight : Z) : Graph.t * res () :=
  (g, Throw (logic_error "Cannot add edges to a Trivial Graph")).
End TrivialGraph.

Module UndirectedGraph.
Definition new : Graph.t := Graph.new false false.
End UndirectedGraph.

Module DirectedGraph.
Definition new : Graph.t := Graph.new true false.
End DirectedGraph.

Module ConnectedGraph.
Definition new : Graph.t := Graph.new false false.
End ConnectedGraph.

Module DisconnectedGraph.
Definition new : Graph.t := Graph.new false false.
End DisconnectedGraph.

Module CompleteGraph.
(** The private flag [isComplete] is set to [false] by the constructor and
    never read or written again; it is not part of the embedding. *)
Definition new : Graph.t := Graph.new false false.

(** [for (const auto& v : this->vertices) Graph<T>::addEdge(v, vertex);]
    The body inserts [vertex] into the very set the loop walks through, so
    the iterator [it] is advanced in the set as the body leaves it.  The
    result carries the iterator the unfolding stopped at; [None] is
    [vertices.end()], the normal exit of the loop. *)
Fixpoint connect (fuel : nat) (g : Graph.t) (it : option Z) (vertex : Z)
    : Graph.t * option Z :=
  match it, fuel with
  | Some v, S fuel =>
      let g := Graph.addEdge g v vertex 1 in
      connect fuel g (set_next (Graph.vertices g) v) vertex
  | _, _ => (g, it)
  end.

Definition addVertex (g : Graph.t) (vertex : Z) : Graph.t :=
  if decide (vertex ∈ Graph.vertices g) then g
  else
    let g := (connect (S (size (Graph.vertices g))) g
                      (set_begin (Graph.vertices g)) vertex).1 in
    Graph.addVertex g vertex.
End CompleteGraph.

Module CyclicGraph.
Definition new (directed : bool) : Graph.t := Graph.new directed false.

(** The loop over the neighbours in [hasCycleDFS]; [rec] is the recursive
    call, [visited] is passed by reference and comes back with the result. *)
Fixpoint hasCycle_scan (rec : Z → gset Z → res (bool * gset Z)) (parent : Z)
    (l : list (Z * Z)) (visited : gset Z) : res (bool * gset Z) :=
  match l with
  | [] => Ret (false, visited)
  | neighbor :: l =>
      if decide (neighbor.1 ∈ visited) then
        if decide (neighbor.1 ≠ parent) then Ret (true, visited)
        else hasCycle_scan rec parent l visited
      else
        match rec neighbor.1 visited with
        | Ret (false, visited) => hasCycle_scan rec parent l visited
        | r => r
        end
  end.

Fixpoint hasCycleDFS (fuel : nat) (adj : gmap Z (list (Z * Z))) (vertex : Z)
    (visited : gset Z) (parent : Z) : res (bool * gset Z) :=
  match fuel with
  | O => OutOfFuel
  | S fuel =>
      let visited := {[vertex]} ∪ visited in
      match adj !! vertex with
      | None => Throw out_of_range
      | Some l =>
          hasCycle_scan (λ next visited, hasCycleDFS fuel adj next visited vertex)
                        parent l visited
      end
  end.

(** [for (const auto& vertex : this->vertices)] of [hasCycle]; the parent of a
    root is [T()], which is 0 for [int]. *)
Fixpoint hasCycle_roots (fuel : nat) (adj : gmap Z (list (Z * Z)))
    (roots : list Z) (visited : gset Z) : res bool :=
  match roots with
  | [] => Ret false
  | vertex :: roots =>
      if decide (vertex ∈ visited) then hasCycle_roots fuel adj roots visited
      else
        let parent := 0 in
        match hasCycleDFS fuel adj vertex visited parent with
        | Ret (true, _) => Ret true
        | Ret (false, visited) => hasCycle_roots fuel adj roots visited
        | Throw e => Throw e
        | OutOfFuel => OutOfFuel
        end
  end.

Definition hasCycle (g : Graph.t) : res bool :=
  hasCycle_roots (S (size (dom (Graph.adjList g)))) (Graph.adjList g)
    (sorted_elems (Graph.vertices g)) ∅.
End CyclicGraph.

Module DirectedAcyclicGraph.
Definition new : Graph.t := Graph.new true false.

(** The loop over the neighbours in [hasCycleDFS]; [rec] is the recursive
    call.  The result is the returned boolean with the two sets, which the
    source passes by reference. *)
Fixpoint hasCycle_scan (rec : Z → gset Z → gset Z → res (bool * gset Z * gset Z))
    (l : list (Z * Z)) (visited recStack : gset Z) : res (bool * gset Z * gset Z) :=
  match l with
  | [] => Ret (false, visited, recStack)
  | neighbor :: l =>
      if decide (neighbor.1 ∈ visited) then
        if decide (neighbor.1 ∈ recStack) then Ret (true, visited, recStack)
        else hasCycle_scan rec l visited recStack
      else
        match rec neighbor.1 visited recStack with
        | Ret (false, visited, recStack) => hasCycle_scan rec l visited recStack
        | r => r
        end
  end.

Fixpoint hasCycleDFS (fuel : nat) (adj : gmap Z (list (Z * Z))) (vertex : Z)
    (visited recStack : gset Z) : res (bool * gset Z * gset Z) :=
  match fuel with
  | O => OutOfFuel
  | S fuel =>
      let visited := {[vertex]} ∪ visited in
      let recStack := {[vertex]} ∪ recStack in
      match adj !! vertex with
      | None => Throw out_of_range
      | Some l =>
          match hasCycle_scan (hasCycleDFS fuel adj) l visited recStack with
          | Ret (false, visited, recStack) =>
              Ret (false, visited, recStack ∖ {[vertex]})
          | r => r
          end
      end
  end.

(** [for (const auto& vertex : this->vertices)] of [addEdge], up to the
    first cycle found. *)
Fixpoint hasCycle_roots (fuel : nat) (adj : gmap Z (list (Z * Z)))
    (roots : list Z) (visited recStack : gset Z) : res bool :=
  match roots with
  | [] => Ret false
  | vertex :: roots =>
      if decide (vertex ∈ visited) then hasCycle_roots fuel adj roots visited recStack
      else
        match hasCycleDFS fuel adj vertex visited recStack with
        | Ret (true, _, _) => Ret true
        | Ret (false, visited, recStack) =>
            hasCycle_roots fuel adj roots visited recStack
        | Throw e => Throw e
        | OutOfFuel => OutOfFuel
        end
  end.

(** The cycle check that [addEdge] runs on the graph after the insertion. *)
Definition cycle_check (g : Graph.t) : res bool :=
  hasCycle_roots (S (size (dom (Graph.adjList g)))) (Graph.adjList g)
    (sorted_elems (Graph.vertices g)) ∅ ∅.

Definition addEdge (g : Graph.t) (src dest weight : Z) : Graph.t * res () :=
  let g := Graph.addEdge g src dest weight in
  match cycle_check g with
  | Ret true =>
      (Graph.set_adjList g (adj_modify (remove_target dest) src (Graph.adjList g)),
       Throw (logic_error "Adding this edge would create a cycle in DAG"))
  | Ret false => (g, Ret ())
  | Throw e => (g, Throw e)
  | OutOfFuel => (g, OutOfFuel)
  end.
End DirectedAcyclicGraph.

Module BipartiteGraph.
Definition new : Graph.t := Graph.new false false.

(** The loop over the neighbours of [vertex] in [isBipartiteCheck]: [None]
    is the early [return false]. *)
Fixpoint color_scan (vertex : Z) (l : list (Z * Z)) (color : gmap Z Z) (q : list Z)
    : option (gmap Z Z * list Z) :=
  match l with
  | [] => Some (color, q)
  | neighbor :: l =>
      if decide (color !! neighbor.1 = None) then
        color_scan vertex l (<[neighbor.1 := 1 - color !!! vertex]> color)
                   (q ++ [neighbor.1])
      else if decide (color !!! neighbor.1 = color !!! vertex) then None
      else color_scan vertex l color q
  end.

(** [while (!q.empty())]; [Ret None] is the early [return false]. *)
Fixpoint color_loop (fuel : nat) (adj : gmap Z (list (Z * Z)))
    (color : gmap Z Z) (q : list Z) : res (option (gmap Z Z)) :=
  match q with
  | [] => Ret (Some color)
  | vertex :: q =>
      match fuel with
      | O => OutOfFuel
      | S fuel =>
          match adj !! vertex with
          | None => Throw out_of_range
          | Some l =>
              match color_scan vertex l color q with
              | None => Ret None
              | Some (color, q) => color_loop fuel adj color q
              end
          end
      end
  end.

(** [for (const auto& start : this->vertices)]. *)
Fixpoint color_starts (fuel : nat) (adj : gmap Z (list (Z * Z)))
    (starts : list Z) (color : gmap Z Z) : res bool :=
  match starts with
  | [] => Ret true
  | start :: starts =>
      if decide (color !! start = None) then
        match color_loop fuel adj (<[start := 0]> color) [start] with
        | Ret (Some color) => color_starts fuel adj starts color
        | Ret None => Ret false
        | Throw e => Throw e
        | OutOfFuel => OutOfFuel
        end
      else color_starts fuel adj starts color
  end.

Definition isBipartiteCheck (g : Graph.t) : res bool :=
  if decide (Graph.vertices g = ∅) then Ret true
  else color_starts (S (Graph.num_entries (Graph.adjList g))) (Graph.adjList g)
         (sorted_elems (Graph.vertices g)) ∅.

Definition addEdge (g : Graph.t) (src dest weight : Z) : Graph.t * res () :=
  let g := Graph.addEdge g src dest weight in
  match isBipartiteCheck g with
  | Ret false =>
      let a := adj_modify (remove_target dest) src (Graph.adjList g) in
      let a := adj_modify (remove_target src) dest a in
      (Graph.set_adjList g a,
       Throw (logic_error "Adding this edge would break bipartite property"))
  | Ret true => (g, Ret ())
  | Throw e => (g, Throw e)
  | OutOfFuel => (g, OutOfFuel)
  end.
End BipartiteGraph.

Module WeightedGraph.
Definition new (directed : bool) : Graph.t := Graph.new directed true.
End WeightedGraph.

(** ** Dynamic classes and virtual dispatch *)

Inductive kind : Type :=
| KGraph | KNullGraph | KTrivialGraph | KUndirectedGraph | KDirectedGraph
| KConnectedGraph | KDisconnectedGraph | KCompleteGraph | KCyclicGraph
| KDirectedAcyclicGraph | KBipartiteGraph | KWeightedGraph.

(** The virtual member [addEdge] of an object of dynamic class [k]. *)
Definition addEdge (k : kind) (g : Graph.t) (src dest weight : Z) : Graph.t * res () :=
  match k with
  | KNullGraph => NullGraph.addEdge g src dest weight
  | KTrivialGraph => TrivialGraph.addEdge g src dest weight
  | KDirectedAcyclicGraph => DirectedAcyclicGraph.addEdge g src dest weight
  | KBipartiteGraph => BipartiteGraph.addEdge g src dest weight
  | _ => (Graph.addEdge g src dest weight, Ret ())
  end.

(** [addVertex] is not virtual: the member found in the static class [k] of
    the expression it is called on. *)
Definition addVertex (k : kind) (g : Graph.t) (vertex : Z) : Graph.t :=
  match k with
  | KCompleteGraph => CompleteGraph.addVertex g vertex
  | KNullGraph => NullGraph.addVertex g vertex
  | _ => Graph.addVertex g vertex
  end.

(** [join] is a member of the base class; its calls to [addEdge] are virtual
    and its calls to [addVertex] are not. *)
Definition join (k : kind) (g other : Graph.t) : Graph.t * res () :=
  Graph.join (addEdge k) g other.

(** ** Objects that a program can hold *)

(** The object that the constructor of class [k] builds. *)
Inductive constructed : kind → Graph.t → Prop :=
| new_Graph directed weighted : constructed KGraph (Graph.new directed weighted)
| new_NullGraph : constructed KNullGraph NullGraph.new
| new_TrivialGraph vertex : constructed KTrivialGraph (TrivialGraph.new vertex)
| new_UndirectedGraph : constructed KUndirectedGraph UndirectedGraph.new
| new_DirectedGraph : constructed KDirectedGraph DirectedGraph.new
| new_ConnectedGraph : constructed KConnectedGraph ConnectedGraph.new
| new_DisconnectedGraph : constructed KDisconnectedGraph DisconnectedGraph.new
| new_CompleteGraph : constructed KCompleteGraph CompleteGraph.new
| new_CyclicGraph directed : constructed KCyclicGraph (CyclicGraph.new directed)
| new_DirectedAcyclicGraph : constructed KDirectedAcyclicGraph DirectedAcyclicGraph.new
| new_BipartiteGraph : constructed KBipartiteGraph BipartiteGraph.new
| new_WeightedGraph directed : constructed KWeightedGraph (WeightedGraph.new directed).

(** [reachable k g]: an object of class [k] can be in state [g] after a
    sequence of calls of the public mutating members, the calls that throw
    included.  [addVertex] can be called on the object itself or through a
    reference to the base class; the argument of [join] and of [operator+] is
    any object that can exist; [operator+] returns a plain [Graph<T>].  A call
    that names the member of the base class explicitly
    ([g.Graph<T>::addEdge(...)]) goes round the class of the object and is not
    one of its operations. *)
Inductive reachable : kind → Graph.t → Prop :=
| reach_new k g :
    constructed k g → reachable k g
| reach_addVertex k g vertex :
    reachable k g → reachable k (addVertex k g vertex)
| reach_base_addVertex k g vertex :
    reachable k g → reachable k (Graph.addVertex g vertex)
| reach_addEdge k g src dest weight :
    reachable k g → reachable k (addEdge k g src dest weight).1
| reach_deleteVertex k g vertex :
    reachable k g → reachable k (Graph.deleteVertex g vertex).1
| reach_deleteEdge k g src dest :
    reachable k g → reachable k (Graph.deleteEdge g src dest).1
| reach_join k k' g other :
    reachable k g → reachable k' other → reachable k (join k g other).1
| reach_plus k k' g other result :
    reachable k g → reachable k' other →
    Graph.operator_plus g other = Ret result → reachable KGraph result.

(** ** Graph-theoretic vocabulary *)

(** [edge adj u v]: the adjacency list of [u] holds an entry whose target is [v]. *)
Definition edge (adj : gmap Z (list (Z * Z))) (u v : Z) : Prop :=
  ∃ l, adj !! u = Some l ∧ v ∈ l.*1.

(** [entry adj v n w]: the pair [(n, w)] occurs in the adjacency list of [v]. *)
Definition entry (adj : gmap Z (list (Z * Z))) (v n w : Z) : Prop :=
  ∃ l, adj !! v = Some l ∧ (n, w) ∈ l.

(** [walk adj u v n]: [n] stored entries lead from [u] to [v]. *)
Inductive walk (adj : gmap Z (list (Z * Z))) (u : Z) : Z → nat → Prop :=
| walk_nil : walk adj u u 0
| walk_snoc v w n : walk adj u v n → edge adj v w → walk adj u w (S n).

(** A directed cycle: a closed walk with at least one edge. *)
Definition has_cycle (adj : gmap Z (list (Z * Z))) : Prop :=
  ∃ v n, walk adj v v (S n).

(** [n] is the least number of edges of a walk from [u] to [v]. *)
Definition shortest (adj : gmap Z (list (Z * Z))) (u v : Z) (n : nat) : Prop :=
  walk adj u v n ∧ ∀ m, walk adj u v m → (n ≤ m)%nat.

(** A proper colouring with two colours: no entry joins two vertices of the
    same colour. *)
Definition two_colouring (adj : gmap Z (list (Z * Z))) (c : Z → bool) : Prop :=
  ∀ u v, edge adj u v → c u ≠ c v.

Definition two_colourable (adj : gmap Z (list (Z * Z))) : Prop :=
  ∃ c, two_colouring adj c.

(** Every entry has its mirror image with the same weight. *)
Definition symmetric (adj : gmap Z (list (Z * Z))) : Prop :=
  ∀ v l n w, adj !! v = Some l → (n, w) ∈ l →
             ∃ l', adj !! n = Some l' ∧ (v, w) ∈ l'.

(** No adjacency list holds an entry. *)
Definition no_edges (adj : gmap Z (list (Z * Z))) : Prop :=
  ∀ v l, adj !! v = Some l → l = [].

(** Every neighbour has an adjacency list of its own. *)
Definition keys_closed (adj : gmap Z (list (Z * Z))) : Prop :=
  ∀ u w, edge adj u w → w ∈ dom adj.

(** The vertices that occur as a neighbour. *)
Definition targets (adj : gmap Z (list (Z * Z))) : gset Z :=
  list_to_set ((λ e : Z * Z * Z, e.1.2) <$> edge_triples adj).

(** The sum of a list of integers. *)
Fixpoint sum_list_Z (l : list Z) : Z :=
  match l with
  | [] => 0
  | x :: l => x + sum_list_Z l
  end.

(** [e] is the eccentricity of [u] among the vertices [V]: the greatest
    distance from [u] to another vertex. *)
Definition eccentricity (adj : gmap Z (list (Z * Z))) (V : gset Z) (u : Z)
    (e : nat) : Prop :=
  (∀ v, v ∈ V → v ≠ u → ∃ n, shortest adj u v n ∧ (n ≤ e)%nat) ∧
  ∃ v, v ∈ V ∧ v ≠ u ∧ shortest adj u v e.

(** Two distinct vertices of [V] with no walk from the first to the second. *)
Definition disconnected (adj : gmap Z (list (Z * Z))) (V : gset Z) : Prop :=
  ∃ u v, u ∈ V ∧ v ∈ V ∧ u ≠ v ∧ ∀ n, ¬ walk adj u v n.

(** [chain adj u p]: the vertices of [p] follow [u] along stored entries. *)
Fixpoint chain (adj : gmap Z (list (Z * Z))) (u : Z) (p : list Z) : Prop :=
  match p with
  | [] => True
  | v :: p => edge adj u v ∧ chain adj v p
  end.

(** A simple cycle, listed from one of its vertices: the vertices are distinct,
    each is joined to the next and the last to the first.  Its length is the
    length of the list. *)
Definition simple_cycle (adj : gmap Z (list (Z * Z))) (c : list Z) : Prop :=
  match c with
  | [] => False
  | start :: p =>
      NoDup (start :: p) ∧ chain adj start p ∧ edge adj (List.last p start) start
  end.

(** [returns_to adj start forbidden current k]: [k] further vertices, distinct
    and outside [forbidden], lead from [current] to a vertex with an entry to
    [start]. *)
Inductive returns_to (adj : gmap Z (list (Z * Z))) (start : Z)
    : gset Z → Z → nat → Prop :=
| returns_here forbidden current :
    edge adj current start → returns_to adj start forbidden current 0
| returns_step forbidden current next k :
    edge adj current next → next ∉ forbidden →
    returns_to adj start ({[next]} ∪ forbidden) next k →
    returns_to adj start forbidden current (S k).

(** No adjacency list names a vertex twice, nor the vertex it belongs to. *)
Definition simple_graph (adj : gmap Z (list (Z * Z))) : Prop :=
  map_Forall (λ u l, NoDup l.*1 ∧ u ∉ l.*1) adj.

(** [u] and [w] are the same vertex, or one is the parent of the other in the
    search forest, one level below it. *)
Definition tree_edge (par : Z → Z) (depth : Z → nat) (u w : Z) : Prop :=
  u = w ∨ (par u = w ∧ depth u = S (depth w)) ∨ (par w = u ∧ depth w = S (depth u)).

(** Each vertex of the recursion stack has an entry to the next. *)
Definition stack_chain (adj : gmap Z (list (Z * Z))) (stack : list Z) : Prop :=
  ∀ pre u v rest, stack = pre ++ u :: v :: rest → edge adj u v.

(** The number of entries with target [v] in the adjacency list of [u]. *)
Definition tcount (adj : gmap Z (list (Z * Z))) (u v : Z) : nat :=
  length (filter (λ p, p.1 = v) (adj !!! u)).

(** As many entries lead from [u] to [v] as from [v] to [u], and an even
    number from a vertex to itself. *)
Definition balanced (adj : gmap Z (list (Z * Z))) : Prop :=
  ∀ u v, tcount adj u v = tcount adj v u ∧ Nat.Even (tcount adj u u).

(** The [k] vertices met from [x] by following the parents, [x] first. *)
Fixpoint branch_up (par : Z → Z) (x : Z) (k : nat) : list Z :=
  match k with
  | O => []
  | S k => x :: branch_up par (par x) k
  end.

(** The same vertices, [x] last. *)
Fixpoint branch_down (par : Z → Z) (x : Z) (k : nat) : list Z :=
  match k with
  | O => []
  | S k => branch_down par (par x) k ++ [x]
  end.

(** A search tree rooted at [s] over the vertices [V]: every other vertex
    is one level below its parent, which has an entry to it. *)
Definition search_tree (adj : gmap Z (list (Z * Z))) (s : Z) (V : gset Z)
    (par : Z → Z) (depth : Z → nat) : Prop :=
  s ∈ V ∧ depth s = 0%nat ∧
  ∀ x, x ∈ V → x ≠ s →
       par x ∈ V ∧ depth x = S (depth (par x)) ∧ edge adj (par x) x.

(** ** Invariants of the objects *)

(** The representation invariant of the engine: the counter is the size of
    the vertex set, the keys of the adjacency map are the vertices, and every
    neighbour is a vertex. *)
Definition wf (g : Graph.t) : Prop :=
  Graph.numVertices g = Z.of_nat (size (Graph.vertices g)) ∧
  dom (Graph.adjList g) = Graph.vertices g ∧
  (∀ u l p, Graph.adjList g !! u = Some l → p ∈ l → p.1 ∈ Graph.vertices g).

(** The flags of [g'] are those of [g]. *)
Definition same_flags (g g' : Graph.t) : Prop :=
  Graph.isDirected g' = Graph.isDirected g ∧
  Graph.isWeighted g' = Graph.isWeighted g.

(** An undirected graph in a consistent state. *)
Definition undirected_ok (g : Graph.t) : Prop :=
  wf g ∧ Graph.isDirected g = false ∧ symmetric (Graph.adjList g).

(** A [DirectedAcyclicGraph] is directed; any other object is consistent
    whenever it is undirected. *)
Definition symmetry_invariant (k : kind) (g : Graph.t) : Prop :=
  wf g ∧
  (k = KDirectedAcyclicGraph → Graph.isDirected g = true) ∧
  (Graph.isDirected g = false → symmetric (Graph.adjList g)).

(** A [DirectedAcyclicGraph] in a consistent state. *)
Definition dag_ok (g : Graph.t) : Prop :=
  wf g ∧ Graph.isDirected g = true ∧ ¬ has_cycle (Graph.adjList g).

(** A [BipartiteGraph] in a consistent state. *)
Definition bipartite_ok (g : Graph.t) : Prop :=
  wf g ∧ Graph.isDirected g = false ∧ two_colourable (Graph.adjList g).

(** The edge that [addEdge] of class [k] has just inserted breaks the
    invariant of the class. *)
Definition violates (k : kind) (adj : gmap Z (list (Z * Z))) : Prop :=
  match k with
  | KDirectedAcyclicGraph => has_cycle adj
  | KBipartiteGraph => ¬ two_colourable adj
  | _ => False
  end.

(** The exception with which [addEdge] of class [k] rejects an edge. *)
Definition rejection (k : kind) : exn :=
  match k with
  | KDirectedAcyclicGraph => logic_error "Adding this edge would create a cycle in DAG"
  | KBipartiteGraph => logic_error "Adding this edge would break bipartite property"
  | KNullGraph => logic_error "Cannot add edges to a Null Graph"
  | _ => logic_error "Cannot add edges to a Trivial Graph"
  end.

(** An undirected graph in a consistent state, with balanced lists. *)
Definition balanced_ok (g : Graph.t) : Prop :=
  wf g ∧ Graph.isDirected g = false ∧ balanced (Graph.adjList g).

(** A [DirectedAcyclicGraph] is directed; the lists of any other object are
    balanced whenever it is undirected. *)
Definition balance_invariant (k : kind) (g : Graph.t) : Prop :=
  wf g ∧
  (k = KDirectedAcyclicGraph → Graph.isDirected g = true) ∧
  (Graph.isDirected g = false → balanced (Graph.adjList g)).

(** ** Loop invariants and measures *)

(** The elements of [s] from [v] onwards: what an iterator at [v] has left to
    visit, itself included. *)
Definition remaining (s : gset Z) (v : Z) : gset Z := filter (λ y, v ≤ y) s.

(** The measure that bounds the number of iterations of a breadth-first loop:
    the vertices in the queue and the neighbours not reached yet. *)
Definition pending_work (adj : gmap Z (list (Z * Z))) (q_length : nat)
    (reached : gset Z) : nat :=
  (q_length + size (targets adj ∖ reached))%nat.

(** What [getDistance] returns on two distinct vertices is right. *)
Definition distance_result (adj : gmap Z (list (Z * Z))) (src dest d : Z) : Prop :=
  (d = -1 ∧ ∀ n, ¬ walk adj src dest n) ∨
  (∃ n, d = Z.of_nat n ∧ 0 < d ∧ shortest adj src dest n).

(** The invariant of the search of [getDistance]; [pending] is the vertex
    being expanded followed by the queue.  Every visited vertex carries the
    length of a walk that reaches it; a visited vertex that is not pending has
    all its neighbours visited, at most one step further; the pending
    vertices are in non-decreasing order of distance and no visited vertex is
    more than one step beyond the first of them. *)
Record distance_inv (adj : gmap Z (list (Z * Z))) (src dest : Z)
    (visited : gset Z) (distance : gmap Z Z) (pending : list Z) : Prop := {
  di_src : src ∈ visited ∧ distance !!! src = 0;
  di_sound : ∀ x, x ∈ visited → ∃ n : nat, distance !!! x = Z.of_nat n ∧ walk adj src x n;
  di_closed : ∀ u w, u ∈ visited → u ∉ pending → edge adj u w →
                     w ∈ visited ∧ distance !!! w ≤ distance !!! u + 1;
  di_sorted : StronglySorted (λ a b, distance !!! a ≤ distance !!! b) pending;
  di_near : ∀ w h, w ∈ visited → head pending = Some h →
                   distance !!! w ≤ distance !!! h + 1;
  di_pending : ∀ x, x ∈ pending → x ∈ visited;
  di_dest : dest ∉ visited
}.

(** The invariant of the depth-first search of [DirectedAcyclicGraph]: the
    vertices on the recursion stack are visited; a finished vertex (visited and
    off the stack) only leads to finished vertices and lies on no cycle. *)
Record dfs_inv (adj : gmap Z (list (Z * Z))) (visited recStack : gset Z) : Prop := {
  dfs_stack : recStack ⊆ visited;
  dfs_closed : ∀ u w, u ∈ visited → u ∉ recStack → edge adj u w →
                      w ∈ visited ∧ w ∉ recStack;
  dfs_acyclic : ∀ u n, u ∈ visited → u ∉ recStack → ¬ walk adj u u (S n)
}.

(** What a call of [hasCycleDFS] that returns [false] leaves behind. *)
Definition dfs_post (adj : gmap Z (list (Z * Z))) (vertex : Z)
    (visited recStack : gset Z) (r : res (bool * gset Z * gset Z)) : Prop :=
  ∃ b visited' recStack',
    r = Ret (b, visited', recStack') ∧
    (b = false →
     recStack' = recStack ∧ visited ⊆ visited' ∧ vertex ∈ visited' ∧
     dfs_inv adj visited' recStack).

(** The invariant of the colouring of [isBipartiteCheck]; [pending] is the
    vertex being expanded followed by the queue.  A coloured vertex that is not
    pending has all its neighbours coloured, with the other colour. *)
Record colour_inv (adj : gmap Z (list (Z * Z))) (color : gmap Z Z)
    (pending : list Z) : Prop := {
  ci_done : ∀ u w, u ∈ dom color → u ∉ pending → edge adj u w →
                   w ∈ dom color ∧ color !!! w ≠ color !!! u;
  ci_values : ∀ u, u ∈ dom color → color !!! u = 0 ∨ color !!! u = 1;
  ci_pending : ∀ x, x ∈ pending → x ∈ dom color ∧ x ∈ dom adj
}.

(** [color'] extends [color]. *)
Definition colour_extends (color color' : gmap Z Z) : Prop :=
  ∀ x, x ∈ dom color → x ∈ dom color' ∧ color' !!! x = color !!! x.

Record bfs_inv (adj : gmap Z (list (Z * Z))) (start : Z)
    (s : Graph.bfs_state) (pending : list Z) : Prop := {
  bi_nodup : NoDup (Graph.bfs_traversal s ++ Graph.bfs_q s);
  bi_visited : ∀ x, x ∈ Graph.bfs_visited s ↔
                    x ∈ Graph.bfs_traversal s ++ Graph.bfs_q s;
  bi_head : head (Graph.bfs_traversal s ++ Graph.bfs_q s) = Some start;
  bi_sound : ∀ x, x ∈ Graph.bfs_visited s → ∃ n, walk adj start x n;
  bi_closed : ∀ u w, u ∈ Graph.bfs_visited s → u ∉ pending → edge adj u w →
                     w ∈ Graph.bfs_visited s;
  bi_queue : ∀ x, x ∈ Graph.bfs_q s → x ∈ pending
}.

(** What a call of [DFSUtil] or the loop over the neighbours of [vertex] does
    to the state: it appends the vertices [new] that it visits, which were not
    visited before, which are reachable from [vertex] and which have all their
    neighbours visited at the end. *)
Definition dfs_extends (adj : gmap Z (list (Z * Z))) (vertex : Z)
    (s s' : Graph.dfs_state) (new : list Z) : Prop :=
  Graph.dfs_traversal s' = Graph.dfs_traversal s ++ new ∧
  (∀ x, x ∈ Graph.dfs_visited s' ↔ x ∈ Graph.dfs_visited s ∨ x ∈ new) ∧
  NoDup new ∧
  (∀ x, x ∈ new → x ∉ Graph.dfs_visited s) ∧
  (∀ x, x ∈ new → ∃ n, walk adj vertex x n) ∧
  (∀ u w, u ∈ new → edge adj u w → w ∈ Graph.dfs_visited s').

(** The invariant of the search of [isConnected]; [pending] is the vertex being
    expanded followed by the queue. *)
Record conn_inv (adj : gmap Z (list (Z * Z))) (start : Z)
    (visited : gset Z) (pending : list Z) : Prop := {
  cn_start : start ∈ visited;
  cn_sound : ∀ x, x ∈ visited → ∃ n, walk adj start x n;
  cn_closed : ∀ u w, u ∈ visited → u ∉ pending → edge adj u w → w ∈ visited;
  cn_pending : ∀ x, x ∈ pending → x ∈ visited ∧ x ∈ dom adj
}.

(** What [dfsLongestCycle] returns at distance [dist] from [start]: the
    greatest length of a cycle of at least three vertices that goes on from
    [current] outside [forbidden], 0 when there is none. *)
Definition longest_return (adj : gmap Z (list (Z * Z))) (start : Z)
    (forbidden : gset Z) (current : Z) (dist : Z) (m : Z) : Prop :=
  (m = 0 ∨ ∃ k : nat, returns_to adj start forbidden current k ∧
                      1 < dist + Z.of_nat k ∧ m = dist + Z.of_nat k + 1) ∧
  ∀ k : nat, returns_to adj start forbidden current k →
             1 < dist + Z.of_nat k → dist + Z.of_nat k + 1 ≤ m.

(** The vertices on the recursion stack of [hasCycleDFS] are visited and lead
    to the vertex that the search is at. *)
Definition stack_leads_to (adj : gmap Z (list (Z * Z))) (visited recStack : gset Z)
    (vertex : Z) : Prop :=
  recStack ⊆ visited ∧ ∀ x, x ∈ recStack → ∃ n, walk adj x vertex n.

(** The colours that [isBipartiteCheck] hands out are forced: [comp] maps a
    coloured vertex to the start vertex of the search that coloured it, and in
    any proper colouring two vertices of the same search get the same colour
    exactly when the check gave them the same colour.  [pending] is the vertex
    being expanded followed by the queue, and [root] the start vertex of the
    search in progress. *)
Record forced_inv (adj : gmap Z (list (Z * Z))) (color : gmap Z Z)
    (comp : Z → Z) (pending : list Z) (root : Z) : Prop := {
  fi_forced : ∀ c, two_colouring adj c →
              ∀ x y, x ∈ dom color → y ∈ dom color → comp x = comp y →
                     (c x = c y ↔ color !!! x = color !!! y);
  fi_done : ∀ u w, u ∈ dom color → u ∉ pending → edge adj u w →
                   w ∈ dom color ∧ comp w = comp u;
  fi_pending : ∀ x, x ∈ pending → x ∈ dom color ∧ comp x = root;
  fi_values : ∀ u, u ∈ dom color → color !!! u = 0 ∨ color !!! u = 1;
  fi_comp : ∀ x, x ∈ dom color → comp x ∈ dom color
}.

(** The invariant of [BFS] on its levels: the recorded levels satisfy the
    invariant of a breadth-first search from [start] that never meets
    [dest], and the vertices appear in the traversal and then in the queue in
    non-decreasing order of level. *)
Record level_inv (adj : gmap Z (list (Z * Z))) (start dest : Z)
    (s : Graph.bfs_state) (pending : list Z) : Prop := {
  li_distance : distance_inv adj start dest (Graph.bfs_visited s) (Graph.bfs_level s) pending;
  li_sorted : StronglySorted (λ a b, Graph.bfs_level s !!! a ≤ Graph.bfs_level s !!! b)
                (Graph.bfs_traversal s ++ Graph.bfs_q s);
  li_visited : ∀ x, x ∈ Graph.bfs_traversal s ++ Graph.bfs_q s → x ∈ Graph.bfs_visited s
}.

(** The invariant of the depth-first search of [CyclicGraph] while it has
    found nothing: the recursion stack is a path of visited vertices; a
    finished vertex (visited and off the stack) has all its neighbours
    visited, each of them its parent or one of its children in the search
    forest, and none of them on the stack but its parent. *)
Record cyc_inv (adj : gmap Z (list (Z * Z))) (visited : gset Z) (stack : list Z)
    (par : Z → Z) (depth : Z → nat) : Prop := {
  ci_nodup : NoDup stack;
  ci_stack : ∀ x, x ∈ stack → x ∈ visited;
  ci_chain : stack_chain adj stack;
  ci_par : ∀ x, x ∈ visited → par x ∈ visited;
  ci_tree : ∀ u w, u ∈ visited → u ∉ stack → edge adj u w →
                   w ∈ visited ∧ tree_edge par depth u w;
  ci_back : ∀ u w, u ∈ visited → u ∉ stack → edge adj u w → w ∉ stack ∨ par u = w
}.

(** How [hasCycleDFS] is called: on a root with the parent [T()], or from the
    vertex on top of the stack. *)
Definition parent_ok (adj : gmap Z (list (Z * Z))) (stack : list Z)
    (par : Z → Z) (depth : Z → nat) (vertex parent : Z) : Prop :=
  (stack = [] ∧ parent = 0 ∧ par vertex = vertex) ∨
  (last stack = Some parent ∧ edge adj parent vertex ∧
   par vertex = parent ∧ depth vertex = S (depth parent)).

(** What a search that answers [true] has met, in a graph without repeated
    entries and self-loops. *)
Definition cycle_found (adj : gmap Z (list (Z * Z))) : Prop :=
  simple_graph adj → ∃ c, simple_cycle adj c ∧ (3 ≤ length c)%nat.

(** What a call of [hasCycleDFS] that returns establishes. *)
Definition search_post (adj : gmap Z (list (Z * Z))) (visited : gset Z) (stack : list Z)
    (par : Z → Z) (depth : Z → nat) (vertex : Z) (r : bool * gset Z) : Prop :=
  if r.1 then cycle_found adj
  else ∃ par' depth',
    cyc_inv adj r.2 stack par' depth' ∧
    visited ⊆ r.2 ∧ vertex ∈ r.2 ∧
    (∀ x, x ∈ visited ∨ x = vertex → par' x = par x ∧ depth' x = depth x) ∧
    (∀ x, x ∈ r.2 → x ∉ visited → x ≠ vertex → par' x ∉ visited).

(** The parents after the discovery of [n] from [current]. *)
Definition set_parent (par : Z → Z) (n current : Z) : Z → Z :=
  λ x, if decide (x = n) then current else par x.

(** The invariant of one breadth-first search of [getGirth], from [s] and
    with [girth] equal to [bound] at its beginning.  [scanning] is the vertex
    whose neighbours are being enumerated, if any.  The recorded distances
    satisfy the invariant of a breadth-first search; every discovered vertex
    other than [s] is one step beyond its parent; the queue holds each
    vertex once, with its parent, and no pending vertex is a parent yet;
    every entry of a vertex that has been dealt with leads to its parent or
    to one of its children, or has been counted in [girth]; and [girth] has
    only decreased to the length of a cycle that exists. *)
Record girth_inv (adj : gmap Z (list (Z * Z))) (s dest : Z) (bound : Z)
    (scanning : list Z) (distance : gmap Z Z) (q : list (Z * Z)) (girth : Z)
    (par : Z → Z) : Prop := {
  gi_dist : distance_inv adj s dest (dom distance) distance (scanning ++ q.*1);
  gi_nodup : NoDup (scanning ++ q.*1);
  gi_tree : ∀ x, x ∈ dom distance → x ≠ s →
              par x ∈ dom distance ∧ distance !!! x = distance !!! (par x) + 1 ∧
              edge adj (par x) x;
  gi_queue : ∀ x p, (x, p) ∈ q → par x = p ∧ x ≠ s;
  gi_fresh : ∀ x, x ∈ dom distance → x ≠ s → par x ∉ q.*1;
  gi_seed : s ∉ scanning → ∀ x, edge adj s x → x ∈ dom distance ∧ par x = s;
  gi_scanned : ∀ u w, u ∈ dom distance → u ∉ scanning ++ q.*1 → edge adj u w →
                 w ∈ dom distance ∧
                 (tree_edge par (λ x, Z.to_nat (distance !!! x)) u w ∨
                  girth ≤ distance !!! u + distance !!! w + 1);
  gi_sound : girth ≤ bound ∧
             (girth = bound ∨
              ∃ c, simple_cycle adj c ∧ (3 ≤ length c)%nat ∧
                   Z.of_nat (length c) ≤ girth)
}.

(** What the enumeration of the neighbours of [current] has found out about
    the neighbour [w]: it has a distance, at most one more than [current];
    it is the parent or a child of [current], or the two distances and one
    have been counted in [girth]. *)
Definition girth_entry_ok (distance : gmap Z Z) (girth : Z) (par : Z → Z)
    (current w : Z) : Prop :=
  w ∈ dom distance ∧ distance !!! w ≤ distance !!! current + 1 ∧
  (tree_edge par (λ x, Z.to_nat (distance !!! x)) current w ∨
   girth ≤ distance !!! current + distance !!! w + 1).

(** ** Example objects *)

(** Scenario B: a [DirectedAcyclicGraph] with the edges 1 -> 2, 1 -> 3,
    2 -> 4 and 3 -> 4. *)
Definition scenario_B : Graph.t :=
  (addEdge KDirectedAcyclicGraph
     (addEdge KDirectedAcyclicGraph
        (addEdge KDirectedAcyclicGraph
           (addEdge KDirectedAcyclicGraph DirectedAcyclicGraph.new 1 2 1).1
           1 3 1).1 2 4 1).1 3 4 1).1.

(** Scenario C: a [BipartiteGraph] with the edges 1 - 2, 1 - 4, 2 - 3 and
    3 - 4. *)
Definition scenario_C : Graph.t :=
  (addEdge KBipartiteGraph
     (addEdge KBipartiteGraph
        (addEdge KBipartiteGraph
           (addEdge KBipartiteGraph BipartiteGraph.new 1 2 1).1
           1 4 1).1 2 3 1).1 3 4 1).1.

(** An undirected graph with the two components {1, 2, 3} and {4, 5}. *)
Definition scenario_D : Graph.t :=
  (addEdge KUndirectedGraph
     (addEdge KUndirectedGraph
        (addEdge KUndirectedGraph UndirectedGraph.new 1 2 1).1 2 3 1).1 4 5 1).1.

(** The directed graph with adjacency {1:[2,3], 2:[4], 3:[]}, its edges
    inserted in that order. *)
Definition scenario_E : Graph.t :=
  (addEdge KDirectedGraph
     (addEdge KDirectedGraph
        (addEdge KDirectedGraph DirectedGraph.new 1 2 1).1 1 3 1).1 2 4 1).1.

(** A [CompleteGraph] to which 1, 2, 3 and 4 are added in that order, as the
    demo program adds 'A', 'B', 'C' and 'D'. *)
Definition complete_1234 : Graph.t :=
  foldl (addVertex KCompleteGraph) CompleteGraph.new [1; 2; 3; 4].

(** The same vertices added in decreasing order. *)
Definition complete_4321 : Graph.t :=
  foldl (addVertex KCompleteGraph) CompleteGraph.new [4; 3; 2; 1].

(** A [TrivialGraph] on which the inherited [addVertex] is called. *)
Definition trivial_grown : Graph.t :=
  addVertex KTrivialGraph (TrivialGraph.new 1) 2.

(** A [TrivialGraph] whose only vertex is deleted. *)
Definition trivial_emptied : Graph.t :=
  (Graph.deleteVertex (TrivialGraph.new 1) 1).1.

(** An undirected graph that already stores the edge 1 - 2. *)
Definition one_edge : Graph.t :=
  (addEdge KUndirectedGraph UndirectedGraph.new 1 2 1).1.

(** An undirected graph that stores the edge 2 - 3. *)
Definition other_edge : Graph.t :=
  (addEdge KUndirectedGraph UndirectedGraph.new 2 3 1).1.

(** The directed graph 1 -> 2, 1 -> 3, 2 -> 3, which has no directed cycle. *)
Definition transitive_triangle : Graph.t :=
  (addEdge KDirectedGraph
     (addEdge KDirectedGraph
        (addEdge KDirectedGraph DirectedGraph.new 1 2 1).1 1 3 1).1 2 3 1).1.

(** The directed graph 1 -> 2, 2 -> 1, a directed cycle of length 2. *)
Definition two_cycle : Graph.t :=
  (addEdge KDirectedGraph (addEdge KDirectedGraph DirectedGraph.new 1 2 1).1 2 1 1).1.

(** A [NullGraph] with the vertices 1 and 2. *)
Definition null_two : Graph.t :=
  addVertex KNullGraph (addVertex KNullGraph NullGraph.new 1) 2.

(** A [CompleteGraph] with the vertices 2 and 3. *)
Definition complete_23 : Graph.t :=
  addVertex KCompleteGraph (addVertex KCompleteGraph CompleteGraph.new 3) 2.

(** An undirected [CyclicGraph] whose edges 1 - 2, 2 - 3 and 3 - 1 form a
    triangle. *)
Definition cyclic_triangle : Graph.t :=
  (addEdge KCyclicGraph
     (addEdge KCyclicGraph
        (addEdge KCyclicGraph (CyclicGraph.new false) 1 2 1).1 2 3 1).1 3 1 1).1.

(** * Properties *)

(** ** Iteration order *)

Section iteration.
Implicit Types (s : gset Z) (m : gmap Z (list (Z * Z))).

Lemma elem_of_sorted_elems s x : x ∈ sorted_elems s ↔ x ∈ s.
Proof.
  unfold sorted_elems. rewrite merge_sort_Permutation. apply elem_of_elements.
Qed.

Lemma NoDup_sorted_elems s : NoDup (sorted_elems s).
Proof.
  unfold sorted_elems. rewrite merge_sort_Permutation. apply NoDup_elements.
Qed.

Lemma length_sorted_elems s : length (sorted_elems s) = size s.
Proof. unfold sorted_elems. by rewrite merge_sort_Permutation. Qed.

Lemma elem_of_map_entries m k l : (k, l) ∈ map_entries m ↔ m !! k = Some l.
Proof.
  unfold map_entries. rewrite list_elem_of_fmap. split.
  - intros (k' & [= -> ->] & Hk). apply elem_of_sorted_elems, elem_of_dom in Hk.
    destruct Hk as [l Hl]. by rewrite (lookup_total_correct _ _ _ Hl).
  - intros Hl. exists k. rewrite (lookup_total_correct _ _ _ Hl). split; [done|].
    apply elem_of_sorted_elems, elem_of_dom. eauto.
Qed.

Lemma elem_of_edge_triples m (u d w : Z) :
  (u, d, w) ∈ edge_triples m ↔ ∃ l, m !! u = Some l ∧ (d, w) ∈ l.
Proof.
  unfold edge_triples. rewrite list_elem_of_bind. split.
  - intros ([k l] & Hin & Hkl). apply elem_of_map_entries in Hkl.
    apply list_elem_of_fmap in Hin as ([d' w'] & [= -> -> ->] & Hin). eauto.
  - intros (l & Hl & Hin). exists (u, l). split; [|by apply elem_of_map_entries].
    apply list_elem_of_fmap. by exists (d, w).
Qed.
End iteration.

(** ** The representation invariant *)

Section representation.
Implicit Types (g : Graph.t).

Lemma wf_new directed weighted : wf (Graph.new directed weighted).
Proof.
  split_and!; simpl; [done|apply dom_empty_L|].
  intros u l p Hl. by rewrite lookup_empty in Hl.
Qed.

Lemma vertices_addVertex g v :
  Graph.vertices (Graph.addVertex g v) = {[v]} ∪ Graph.vertices g.
Proof. unfold Graph.addVertex. case_decide; simpl; set_solver. Qed.

Lemma addVertex_present g v : v ∈ Graph.vertices g → Graph.addVertex g v = g.
Proof. intros Hv. unfold Graph.addVertex. by rewrite decide_True. Qed.

Lemma wf_addVertex g v : wf g → wf (Graph.addVertex g v).
Proof.
  intros (Hn & Hd & Ht). unfold Graph.addVertex. case_decide as Hv; [done|].
  split_and!; simpl.
  - rewrite size_union by set_solver. rewrite size_singleton. lia.
  - rewrite dom_insert_L. by rewrite Hd.
  - intros u l p Hl Hp. destruct (decide (v = u)) as [->|Hne].
    + rewrite lookup_insert_eq in Hl. injection Hl as <-. by apply elem_of_nil in Hp.
    + rewrite lookup_insert_ne in Hl by done. apply elem_of_union_r. eauto.
Qed.

Lemma wf_lookup_total g k p :
  wf g → p ∈ Graph.adjList g !!! k → p.1 ∈ Graph.vertices g.
Proof.
  intros (_ & _ & Ht). rewrite lookup_total_alt.
  destruct (Graph.adjList g !! k) as [l|] eqn:Hl; simpl; [eauto|].
  intros H. by apply elem_of_nil in H.
Qed.

Lemma wf_adj_modify g f k :
  wf g → k ∈ Graph.vertices g →
  (∀ p, p ∈ f (Graph.adjList g !!! k) → p.1 ∈ Graph.vertices g) →
  wf (Graph.set_adjList g (adj_modify f k (Graph.adjList g))).
Proof.
  intros (Hn & Hd & Ht) Hk Hf. split_and!; simpl; [done| |].
  - unfold adj_modify. rewrite dom_insert_L. set_solver.
  - intros u l p Hl Hp. unfold adj_modify in Hl.
    destruct (decide (k = u)) as [->|Hne].
    + rewrite lookup_insert_eq in Hl. injection Hl as <-. by apply Hf.
    + rewrite lookup_insert_ne in Hl by done. eauto.
Qed.

Lemma wf_remove_target g x k :
  wf g → k ∈ Graph.vertices g →
  wf (Graph.set_adjList g (adj_modify (remove_target x) k (Graph.adjList g))).
Proof.
  intros Hwf Hk. apply wf_adj_modify; [done..|].
  intros p [_ Hp]%list_elem_of_filter. by eapply wf_lookup_total.
Qed.

Lemma vertices_addEdge g s d w :
  Graph.vertices (Graph.addEdge g s d w) = {[s; d]} ∪ Graph.vertices g.
Proof.
  unfold Graph.addEdge. simpl. rewrite !vertices_addVertex. set_solver.
Qed.

Lemma wf_addEdge g s d w : wf g → wf (Graph.addEdge g s d w).
Proof.
  intros Hwf. unfold Graph.addEdge.
  set (g1 := Graph.addVertex (Graph.addVertex g s) d).
  assert (Hwf1 : wf g1) by by do 2 apply wf_addVertex.
  assert (Hs : s ∈ Graph.vertices g1).
  { unfold g1. rewrite !vertices_addVertex. set_solver. }
  assert (Hd : d ∈ Graph.vertices g1).
  { unfold g1. rewrite !vertices_addVertex. set_solver. }
  assert (Hwf2 : wf (Graph.set_adjList g1
            (adj_modify (push_back (d, w)) s (Graph.adjList g1)))).
  { apply wf_adj_modify; [done..|].
    intros p [Hp| ->%list_elem_of_singleton]%elem_of_app; [|done].
    by eapply wf_lookup_total. }
  destruct (Graph.isDirected g1); [done|].
  apply (wf_adj_modify _ (push_back (s, w)) d) in Hwf2; [done|done|].
  intros p [Hp| ->%list_elem_of_singleton]%elem_of_app; [|done].
  by eapply (wf_lookup_total _ d).
Qed.

Lemma wf_deleteVertex g v : wf g → wf (Graph.deleteVertex g v).1.
Proof.
  intros (Hn & Hd & Ht). unfold Graph.deleteVertex. case_decide as Hv; [|done].
  split_and!; simpl.
  - rewrite size_difference by set_solver. rewrite size_singleton.
    assert (size (Graph.vertices g) ≠ 0%nat).
    { intros ?%size_empty_inv. set_solver. }
    lia.
  - rewrite dom_fmap_L, dom_delete_L. by rewrite Hd.
  - intros u l p Hl Hp. rewrite lookup_fmap in Hl.
    destruct (delete v (Graph.adjList g) !! u) as [l0|] eqn:Hl0; [|done].
    injection Hl as <-. apply list_elem_of_filter in Hp as [Hne Hp].
    apply lookup_delete_Some in Hl0 as [_ Hl0].
    apply elem_of_difference. split; [eauto|]. by intros ?%elem_of_singleton.
Qed.

Lemma wf_deleteEdge g s d : wf g → wf (Graph.deleteEdge g s d).1.
Proof.
  intros Hwf. unfold Graph.deleteEdge. case_decide as Hv; [|done]. simpl.
  destruct Hv as [Hs Hd].
  pose proof (wf_remove_target g d s Hwf Hs) as Hwf1.
  destruct (Graph.isDirected g); [done|].
  by apply (wf_remove_target _ s d) in Hwf1.
Qed.

(** Whatever the unguarded loops of [join] and [operator+] preserve. *)
Lemma foldl_addVertex_preserves (P : Graph.t → Prop) g vs :
  (∀ g v, P g → P (Graph.addVertex g v)) →
  P g → P (foldl Graph.addVertex g vs).
Proof. intros HP. revert g. induction vs; simpl; eauto. Qed.

Lemma join_edges_preserves (P : Graph.t → Prop) vaddEdge g es :
  (∀ g s d w, P g → P (vaddEdge g s d w).1) →
  P g → P (Graph.join_edges vaddEdge g es).1.
Proof.
  intros HP. revert g. induction es as [|[[s d] w] es IH]; simpl; [done|].
  intros g Hg.
  destruct (match Graph.adjList g !! s with Some l => has_target d l | None => false end);
    [eauto|].
  case_decide; [|eauto].
  specialize (HP g s d w Hg). destruct (vaddEdge g s d w) as [g' [[]| |]]; simpl in *; eauto.
Qed.

Lemma join_preserves (P : Graph.t → Prop) vaddEdge g other :
  (∀ g v, P g → P (Graph.addVertex g v)) →
  (∀ g s d w, P g → P (vaddEdge g s d w).1) →
  P g → P (Graph.join vaddEdge g other).1.
Proof.
  intros HV HE Hg. unfold Graph.join. repeat case_decide; [done..|].
  apply join_edges_preserves; [done|]. by apply foldl_addVertex_preserves.
Qed.

Lemma copy_edges_preserves (P : Graph.t → Prop) directed g es :
  (∀ g s d w, P g → P (Graph.addEdge g s d w)) →
  P g → P (Graph.copy_edges directed g es).
Proof.
  intros HP. unfold Graph.copy_edges. revert g.
  induction es as [|[[s d] w] es IH]; simpl; [done|].
  intros g Hg. apply IH. destruct (decide _); [by apply HP|done].
Qed.

Lemma operator_plus_preserves (P : Graph.t → Prop) g other result :
  (∀ directed weighted, P (Graph.new directed weighted)) →
  (∀ g v, P g → P (Graph.addVertex g v)) →
  (∀ g s d w, P g → P (Graph.addEdge g s d w)) →
  Graph.operator_plus g other = Ret result → P result.
Proof.
  intros HN HV HE. unfold Graph.operator_plus.
  match goal with |- context [Graph.join ?f ?r ?o] =>
    pose proof (join_preserves P f r o HV) as HJ;
    destruct (Graph.join f r o) as [r' [[]| |]] end; [|done..].
  intros [= <-]. apply HJ.
  - intros; simpl; eauto.
  - apply copy_edges_preserves; [done|]. by apply foldl_addVertex_preserves.
Qed.

Lemma connect_preserves (P : Graph.t → Prop) fuel g it vertex :
  (∀ g s d w, P g → P (Graph.addEdge g s d w)) →
  P g → P (CompleteGraph.connect fuel g it vertex).1.
Proof.
  intros HP. revert g it. induction fuel as [|fuel IH]; intros g [v|] Hg; simpl; eauto.
Qed.

Lemma wf_DirectedAcyclicGraph_addEdge g s d w :
  wf g → wf (DirectedAcyclicGraph.addEdge g s d w).1.
Proof.
  intros Hwf%(wf_addEdge _ s d w). unfold DirectedAcyclicGraph.addEdge.
  destruct (DirectedAcyclicGraph.cycle_check _) as [[]| |]; simpl; try done.
  apply wf_remove_target; [done|]. rewrite vertices_addEdge. set_solver.
Qed.

Lemma wf_BipartiteGraph_addEdge g s d w :
  wf g → wf (BipartiteGraph.addEdge g s d w).1.
Proof.
  intros Hwf%(wf_addEdge _ s d w). unfold BipartiteGraph.addEdge.
  destruct (BipartiteGraph.isBipartiteCheck _) as [[]| |]; simpl; try done.
  apply (wf_remove_target _ d s) in Hwf; [|rewrite vertices_addEdge; set_solver].
  apply (wf_remove_target _ s d) in Hwf; [done|].
  unfold Graph.set_adjList. cbn [Graph.vertices]. rewrite vertices_addEdge. set_solver.
Qed.

Lemma wf_virtual_addEdge k g s d w : wf g → wf (addEdge k g s d w).1.
Proof.
  intros Hwf. destruct k; simpl;
    auto using wf_addEdge, wf_DirectedAcyclicGraph_addEdge,
               wf_BipartiteGraph_addEdge.
Qed.

Lemma wf_static_addVertex k g v : wf g → wf (addVertex k g v).
Proof.
  intros Hwf. destruct k; simpl; auto using wf_addVertex.
  unfold CompleteGraph.addVertex. case_decide; [done|].
  apply wf_addVertex, connect_preserves; auto using wf_addEdge.
Qed.
End representation.

(** An invariant of the objects of class [k]: a property that the constructor
    establishes and that each public mutating member of the class keeps. *)
Lemma reachable_invariant (P : Graph.t → Prop) k :
  (∀ g, constructed k g → P g) →
  (∀ directed weighted, k = KGraph → P (Graph.new directed weighted)) →
  (∀ g s d w, k = KGraph → P g → P (Graph.addEdge g s d w)) →
  (∀ g v, P g → P (Graph.addVertex g v)) →
  (∀ g v, P g → P (addVertex k g v)) →
  (∀ g s d w, P g → P (addEdge k g s d w).1) →
  (∀ g v, P g → P (Graph.deleteVertex g v).1) →
  (∀ g s d, P g → P (Graph.deleteEdge g s d).1) →
  ∀ g, reachable k g → P g.
Proof.
  intros HC HN HB HV HSV HE HDV HDE g Hr.
  induction Hr as [k g Hg|k g v _ IH|k g v _ IH|k g s d w _ IH|k g v _ IH
                   |k g s d _ IH|k k' g o _ IH _ _|k k' g o r _ _ _ _ Hplus]; eauto.
  - unfold join. apply join_preserves; eauto.
  - eapply operator_plus_preserves; eauto.
Qed.

(** The representation invariant holds of every object of every class. *)
Lemma reachable_wf k g : reachable k g → wf g.
Proof.
  apply reachable_invariant;
    eauto using wf_new, wf_addEdge, wf_addVertex, wf_static_addVertex,
                wf_virtual_addEdge, wf_deleteVertex, wf_deleteEdge.
  intros g' Hc. destruct Hc; try apply wf_new. apply wf_addVertex, wf_new.
Qed.

(** ** Adjacency entries *)

Section entries.
Implicit Types (adj : gmap Z (list (Z * Z))) (g : Graph.t).

Lemma edge_entry adj u v : edge adj u v ↔ ∃ w, entry adj u v w.
Proof.
  unfold edge, entry. split.
  - intros (l & Hl & ([n w] & -> & Hp)%list_elem_of_fmap). simpl. eauto.
  - intros (w & l & Hl & Hp). exists l. split; [done|].
    apply list_elem_of_fmap. by exists (v, w).
Qed.

Lemma symmetric_entry adj :
  symmetric adj ↔ ∀ v n w, entry adj v n w → entry adj n v w.
Proof.
  unfold symmetric, entry. split.
  - intros H v n w (l & Hl & Hp). eauto.
  - intros H v l n w Hl Hp. apply H. eauto.
Qed.

Lemma entry_total adj v n w : entry adj v n w ↔ (n, w) ∈ adj !!! v.
Proof.
  unfold entry. rewrite lookup_total_alt. destruct (adj !! v) as [l|]; simpl.
  - split; [by intros (? & [= <-] & ?)|eauto].
  - split; [by intros (? & [=] & ?)|by intros ?%elem_of_nil].
Qed.

Lemma entry_empty v n w : ¬ entry ∅ v n w.
Proof. intros (l & Hl & _). by rewrite lookup_empty in Hl. Qed.

Lemma entry_adj_modify f k adj v n w :
  entry (adj_modify f k adj) v n w ↔
  if decide (v = k) then (n, w) ∈ f (adj !!! k) else entry adj v n w.
Proof.
  unfold adj_modify. rewrite (entry_total (<[_ := _]> _)). case_decide as Hk.
  - subst. by rewrite lookup_total_insert_eq.
  - rewrite lookup_total_insert_ne by done. by rewrite entry_total.
Qed.

Lemma entry_push_back e k adj v n w :
  entry (adj_modify (push_back e) k adj) v n w ↔
  entry adj v n w ∨ (v = k ∧ (n, w) = e).
Proof.
  rewrite entry_adj_modify. unfold push_back. case_decide as Hk.
  - subst. rewrite elem_of_app, list_elem_of_singleton, entry_total. naive_solver.
  - naive_solver.
Qed.

Lemma entry_remove_target x k adj v n w :
  entry (adj_modify (remove_target x) k adj) v n w ↔
  entry adj v n w ∧ ¬ (v = k ∧ n = x).
Proof.
  rewrite entry_adj_modify. unfold remove_target. case_decide as Hk.
  - subst. rewrite list_elem_of_filter, entry_total. simpl. naive_solver.
  - naive_solver.
Qed.

Lemma entry_insert_nil k adj v n w :
  entry (<[k := []]> adj) v n w ↔ entry adj v n w ∧ v ≠ k.
Proof.
  rewrite !entry_total. destruct (decide (k = v)) as [->|Hk].
  - rewrite lookup_total_insert_eq. split; [by intros ?%elem_of_nil|naive_solver].
  - rewrite lookup_total_insert_ne by done. naive_solver.
Qed.

Lemma entry_scrub x adj v n w :
  entry (remove_target x <$> delete x adj) v n w ↔
  entry adj v n w ∧ v ≠ x ∧ n ≠ x.
Proof.
  unfold entry. setoid_rewrite lookup_fmap. split.
  - intros (l & Hl & Hp).
    destruct (delete x adj !! v) as [l0|] eqn:Hl0; [|done].
    injection Hl as <-. apply lookup_delete_Some in Hl0 as [Hv Hl0].
    apply list_elem_of_filter in Hp as [Hn Hp]. simpl in Hn. eauto.
  - intros ((l & Hl & Hp) & Hv & Hn). exists (remove_target x l).
    rewrite lookup_delete_ne, Hl by done. split; [done|].
    by apply list_elem_of_filter.
Qed.

(** Entries of the graphs that the members build. *)
Lemma entry_addVertex g x v n w :
  wf g →
  entry (Graph.adjList (Graph.addVertex g x)) v n w ↔ entry (Graph.adjList g) v n w.
Proof.
  intros (_ & Hd & _). unfold Graph.addVertex. case_decide as Hx; [done|]. simpl.
  rewrite entry_insert_nil. split; [naive_solver|].
  intros He. split; [done|]. intros ->. destruct He as (l & Hl & _).
  apply Hx. rewrite <-Hd. apply elem_of_dom. eauto.
Qed.

Lemma entry_addEdge g s d x v n w :
  wf g →
  entry (Graph.adjList (Graph.addEdge g s d x)) v n w ↔
  entry (Graph.adjList g) v n w ∨ (v = s ∧ n = d ∧ w = x) ∨
  (Graph.isDirected g = false ∧ v = d ∧ n = s ∧ w = x).
Proof.
  intros Hwf. unfold Graph.addEdge.
  assert (Graph.isDirected (Graph.addVertex (Graph.addVertex g s) d)
          = Graph.isDirected g) as ->.
  { unfold Graph.addVertex. by repeat case_decide. }
  destruct (Graph.isDirected g); simpl; rewrite ?entry_push_back,
    !entry_addVertex by auto using wf_addVertex; naive_solver.
Qed.

Lemma entry_wf g v n w :
  wf g → entry (Graph.adjList g) v n w →
  v ∈ Graph.vertices g ∧ n ∈ Graph.vertices g.
Proof.
  intros (_ & Hd & Ht) (l & Hl & Hp). split.
  - rewrite <-Hd. apply elem_of_dom. eauto.
  - apply (Ht _ _ _ Hl Hp).
Qed.
End entries.

(** ** The two flags are fixed at construction *)

Section flags.
Implicit Types (g : Graph.t).

Lemma same_flags_refl g : same_flags g g.
Proof. done. Qed.

Lemma same_flags_trans g1 g2 g3 :
  same_flags g1 g2 → same_flags g2 g3 → same_flags g1 g3.
Proof. unfold same_flags. intros [-> ->] [-> ->]. done. Qed.

Lemma flags_addVertex g v : same_flags g (Graph.addVertex g v).
Proof. unfold Graph.addVertex. by case_decide. Qed.

Lemma flags_addEdge g s d w : same_flags g (Graph.addEdge g s d w).
Proof.
  unfold Graph.addEdge. simpl.
  eapply same_flags_trans; apply flags_addVertex.
Qed.

Lemma flags_deleteVertex g v : same_flags g (Graph.deleteVertex g v).1.
Proof. unfold Graph.deleteVertex. by case_decide. Qed.

Lemma flags_deleteEdge g s d : same_flags g (Graph.deleteEdge g s d).1.
Proof. unfold Graph.deleteEdge. by case_decide. Qed.

Lemma flags_virtual_addEdge k g s d w : same_flags g (addEdge k g s d w).1.
Proof.
  destruct k; simpl; try apply flags_addEdge; try done.
  - unfold DirectedAcyclicGraph.addEdge.
    destruct (DirectedAcyclicGraph.cycle_check _) as [[]| |]; apply flags_addEdge.
  - unfold BipartiteGraph.addEdge.
    destruct (BipartiteGraph.isBipartiteCheck _) as [[]| |]; apply flags_addEdge.
Qed.

Lemma flags_static_addVertex k g v : same_flags g (addVertex k g v).
Proof.
  destruct k; simpl; try apply flags_addVertex.
  unfold CompleteGraph.addVertex. case_decide; [done|].
  eapply same_flags_trans; [|apply flags_addVertex].
  apply (connect_preserves (same_flags g)); [|done].
  intros g' s d w Hg'. eapply same_flags_trans; [done|apply flags_addEdge].
Qed.

Lemma flags_join k g other : same_flags g (join k g other).1.
Proof.
  unfold join. apply (join_preserves (same_flags g)); [| |done].
  - intros g' v' Hg'. eapply same_flags_trans; [done|apply flags_addVertex].
  - intros g' s d w Hg'. eapply same_flags_trans; [done|apply flags_virtual_addEdge].
Qed.
End flags.

(** ** Symmetry of the adjacency lists of an undirected graph *)

Section symmetry.
Implicit Types (g : Graph.t).

Lemma undirected_ok_addVertex g v : undirected_ok g → undirected_ok (Graph.addVertex g v).
Proof.
  intros (Hwf & Hu & Hs). split_and!.
  - by apply wf_addVertex.
  - by rewrite (proj1 (flags_addVertex g v)).
  - apply symmetric_entry. intros x n w. rewrite !entry_addVertex by done.
    by apply symmetric_entry.
Qed.

Lemma undirected_ok_addEdge g s d w : undirected_ok g → undirected_ok (Graph.addEdge g s d w).
Proof.
  intros (Hwf & Hu & Hs). split_and!.
  - by apply wf_addEdge.
  - by rewrite (proj1 (flags_addEdge g s d w)).
  - rewrite symmetric_entry in Hs. apply symmetric_entry. intros x n y.
    rewrite !entry_addEdge by done. naive_solver.
Qed.

Lemma undirected_ok_deleteVertex g v :
  undirected_ok g → undirected_ok (Graph.deleteVertex g v).1.
Proof.
  intros (Hwf & Hu & Hs). split_and!.
  - by apply wf_deleteVertex.
  - by rewrite (proj1 (flags_deleteVertex g v)).
  - unfold Graph.deleteVertex. case_decide; [|done]. simpl.
    rewrite symmetric_entry in Hs. apply symmetric_entry. intros x n y.
    rewrite !entry_scrub. naive_solver.
Qed.

(** The two erasures that [deleteEdge] and the roll-back of
    [BipartiteGraph::addEdge] perform on an undirected graph. *)
Lemma symmetric_remove_both adj s d :
  symmetric adj →
  symmetric (adj_modify (remove_target s) d (adj_modify (remove_target d) s adj)).
Proof.
  rewrite !symmetric_entry. intros Hs x n y.
  rewrite !entry_remove_target. naive_solver.
Qed.

Lemma undirected_ok_deleteEdge g s d :
  undirected_ok g → undirected_ok (Graph.deleteEdge g s d).1.
Proof.
  intros (Hwf & Hu & Hs). split_and!.
  - by apply wf_deleteEdge.
  - by rewrite (proj1 (flags_deleteEdge g s d)).
  - unfold Graph.deleteEdge. case_decide; [|done]. simpl. rewrite Hu.
    by apply symmetric_remove_both.
Qed.

Lemma undirected_ok_BipartiteGraph_addEdge g s d w :
  undirected_ok g → undirected_ok (BipartiteGraph.addEdge g s d w).1.
Proof.
  intros Hg. split_and!.
  - apply wf_BipartiteGraph_addEdge, Hg.
  - destruct (flags_virtual_addEdge KBipartiteGraph g s d w) as [Hf _].
    simpl in Hf. rewrite Hf. apply Hg.
  - apply (undirected_ok_addEdge _ s d w) in Hg as (_ & _ & Hs).
    unfold BipartiteGraph.addEdge.
    destruct (BipartiteGraph.isBipartiteCheck _) as [[]| |]; simpl; try done.
    by apply symmetric_remove_both.
Qed.

Lemma undirected_ok_static_addVertex k g v :
  undirected_ok g → undirected_ok (addVertex k g v).
Proof.
  intros Hg. destruct k; simpl; auto using undirected_ok_addVertex.
  unfold CompleteGraph.addVertex. case_decide; [done|].
  apply undirected_ok_addVertex, connect_preserves;
    auto using undirected_ok_addEdge.
Qed.

Lemma undirected_ok_virtual_addEdge k g s d w :
  k ≠ KDirectedAcyclicGraph →
  undirected_ok g → undirected_ok (addEdge k g s d w).1.
Proof.
  intros Hk Hg. destruct k; simpl;
    auto using undirected_ok_addEdge, undirected_ok_BipartiteGraph_addEdge.
  done.
Qed.

Lemma symmetry_invariant_step k g g' :
  same_flags g g' → (wf g → wf g') →
  (k ≠ KDirectedAcyclicGraph → undirected_ok g → undirected_ok g') →
  symmetry_invariant k g → symmetry_invariant k g'.
Proof.
  intros [Hf _] Hwf' Hstep (Hwf & Hk & Hs). split_and!; [auto| |].
  - intros Hk'. rewrite Hf. auto.
  - intros Hu. rewrite Hf in Hu. apply Hstep; [|split_and!; auto].
    intros ->. by rewrite Hk in Hu.
Qed.

Lemma constructed_symmetry_invariant k g : constructed k g → symmetry_invariant k g.
Proof.
  intros Hc. split_and!; [by apply (reachable_wf k), reach_new| |].
  - intros ->. by inversion Hc.
  - intros _. apply symmetric_entry. intros v n w He.
    destruct Hc; try by apply entry_empty in He.
    unfold TrivialGraph.new in He.
    rewrite entry_addVertex in He by apply wf_new. by apply entry_empty in He.
Qed.

Lemma reachable_symmetry_invariant k g : reachable k g → symmetry_invariant k g.
Proof.
  apply reachable_invariant.
  - apply constructed_symmetry_invariant.
  - intros directed weighted ->. apply constructed_symmetry_invariant. constructor.
  - intros g' s d w _. apply symmetry_invariant_step;
      auto using flags_addEdge, undirected_ok_addEdge, wf_addEdge.
  - intros g' v. apply symmetry_invariant_step;
      auto using flags_addVertex, undirected_ok_addVertex, wf_addVertex.
  - intros g' v. apply symmetry_invariant_step;
      auto using flags_static_addVertex, undirected_ok_static_addVertex,
                 wf_static_addVertex.
  - intros g' s d w. apply symmetry_invariant_step;
      auto using flags_virtual_addEdge, undirected_ok_virtual_addEdge,
                 wf_virtual_addEdge.
  - intros g' v. apply symmetry_invariant_step;
      auto using flags_deleteVertex, undirected_ok_deleteVertex, wf_deleteVertex.
  - intros g' s d. apply symmetry_invariant_step;
      auto using flags_deleteEdge, undirected_ok_deleteEdge, wf_deleteEdge.
Qed.
End symmetry.

(** ** Invariants of every object *)

(** C10.  Every public operation of [Graph] and of its sub-classes, the calls
    that throw included, keeps the cached counter [numVertices] (what
    [getNumVertices] returns) equal to the number of elements of the vertex
    set, and keeps every key of the adjacency map inside the vertex set. *)
Theorem C10_counter_and_keys_invariant k g :
  reachable k g →
  Graph.getNumVertices g = Z.of_nat (size (Graph.vertices g)) ∧
  (∀ v, v ∈ dom (Graph.adjList g) → v ∈ Graph.vertices g).
Proof.
  intros (Hn & Hd & _)%reachable_wf. split; [done|]. intros v. by rewrite Hd.
Qed.

Lemma C10_counter_and_keys_invariant_witness :
  let g := (addEdge KDirectedAcyclicGraph DirectedAcyclicGraph.new 5 5 1).1 in
  Graph.getNumVertices g = Z.of_nat (size (Graph.vertices g)) ∧
  (∀ v, v ∈ dom (Graph.adjList g) → v ∈ Graph.vertices g).
Proof.
  apply (C10_counter_and_keys_invariant KDirectedAcyclicGraph).
  apply reach_addEdge, reach_new. constructor.
Defined.

(** C2.  After any sequence of [addVertex], [addEdge], [deleteVertex] and
    [deleteEdge] calls (and of the other public mutating members) on an
    undirected graph, the adjacency structure is symmetric: every entry
    [(n, w)] of [adjacency[v]] has its mirror [(v, w)] in [adjacency[n]]. *)
Theorem C2_undirected_adjacency_symmetric k g :
  reachable k g → Graph.isDirected g = false →
  ∀ v l n w, Graph.adjList g !! v = Some l → (n, w) ∈ l →
             ∃ l', Graph.adjList g !! n = Some l' ∧ (v, w) ∈ l'.
Proof.
  intros (_ & _ & Hs)%reachable_symmetry_invariant Hu. by apply Hs.
Qed.

Lemma C2_undirected_adjacency_symmetric_witness :
  ∃ l', Graph.adjList (Graph.deleteEdge
          (addEdge KUndirectedGraph
             (addEdge KUndirectedGraph UndirectedGraph.new 1 2 7).1 2 3 1).1 2 3).1
          !! 2 = Some l' ∧ (1, 7) ∈ l'.
Proof.
  apply (C2_undirected_adjacency_symmetric KUndirectedGraph _
           (reach_deleteEdge _ _ 2 3
              (reach_addEdge _ _ 2 3 1
                 (reach_addEdge _ _ 1 2 7 (reach_new _ _ new_UndirectedGraph))))
           eq_refl 1 [(2, 7)]).
  - vm_compute. reflexivity.
  - apply list_elem_of_here.
Defined.

(** ** [TrivialGraph] *)

Section trivial.
Implicit Types (g : Graph.t).

Lemma no_edges_entry adj : no_edges adj ↔ ∀ v n w, ¬ entry adj v n w.
Proof.
  unfold no_edges, entry. split.
  - intros H v n w (l & Hl & Hp). rewrite (H _ _ Hl) in Hp. by apply elem_of_nil in Hp.
  - intros H v l Hl. destruct l as [|[n w] l]; [done|].
    destruct (H v n w). exists ((n, w) :: l). split; [done|apply list_elem_of_here].
Qed.

Lemma getNumEdges_no_edges g : no_edges (Graph.adjList g) → Graph.getNumEdges g = 0.
Proof.
  intros Hno. unfold Graph.getNumEdges.
  assert (foldl (λ c p, c + Z.of_nat (length p.2)) 0
                (map_entries (Graph.adjList g)) = 0) as ->.
  { assert (Hall : ∀ p, p ∈ map_entries (Graph.adjList g) → p.2 = []).
    { intros [k l] Hp%elem_of_map_entries. by apply (Hno k). }
    induction (map_entries (Graph.adjList g)) as [|p ps IH]; [done|]. simpl.
    rewrite (Hall p) by apply list_elem_of_here. simpl.
    apply IH. intros q Hq. apply Hall. by apply list_elem_of_further. }
  by destruct (Graph.isDirected g).
Qed.

Lemma no_edges_addVertex g v :
  no_edges (Graph.adjList g) → no_edges (Graph.adjList (Graph.addVertex g v)).
Proof.
  rewrite !no_edges_entry. intros H x n w. unfold Graph.addVertex.
  case_decide; [done|]. simpl. rewrite entry_insert_nil. naive_solver.
Qed.

Lemma no_edges_deleteVertex g v :
  no_edges (Graph.adjList g) → no_edges (Graph.adjList (Graph.deleteVertex g v).1).
Proof.
  rewrite !no_edges_entry. intros H x n w. unfold Graph.deleteVertex.
  case_decide; [|done]. simpl. rewrite entry_scrub. naive_solver.
Qed.

Lemma deleteEdge_no_edges g s d :
  wf g → no_edges (Graph.adjList g) → Graph.deleteEdge g s d = (g, false).
Proof.
  intros (_ & Hd & _) Hno. unfold Graph.deleteEdge. case_decide as Hv; [|done].
  destruct Hv as [Hs Hdv].
  assert (Hnil : ∀ x, x ∈ Graph.vertices g → Graph.adjList g !! x = Some []).
  { intros x Hx. rewrite <-Hd in Hx. apply elem_of_dom in Hx as [l Hl].
    by rewrite Hl, (Hno _ _ Hl). }
  assert (Hid : ∀ y x, x ∈ Graph.vertices g →
            adj_modify (remove_target y) x (Graph.adjList g) = Graph.adjList g).
  { intros y x Hx. unfold adj_modify.
    rewrite (lookup_total_correct _ _ _ (Hnil x Hx)). by apply insert_id, Hnil. }
  rewrite (lookup_total_correct _ _ _ (Hnil s Hs)). rewrite !Hid by done.
  assert (Graph.set_adjList g (Graph.adjList g) = g) as Hg by by destruct g.
  destruct (Graph.isDirected g); by rewrite ?Hid, Hg by done.
Qed.

Lemma reachable_TrivialGraph_no_edges g :
  reachable KTrivialGraph g → no_edges (Graph.adjList g).
Proof.
  intros Hr. assert (wf g ∧ no_edges (Graph.adjList g)) as [_ ?]; [|done].
  revert g Hr. apply reachable_invariant; try done.
  - intros g Hc. split; [by apply (reachable_wf KTrivialGraph), reach_new|].
    inversion Hc. apply no_edges_addVertex. intros v l Hl. simpl in Hl.
    by rewrite lookup_empty in Hl.
  - intros g v [??]. auto using wf_addVertex, no_edges_addVertex.
  - intros g v [??]. simpl. auto using wf_addVertex, no_edges_addVertex.
  - intros g v [??]. auto using wf_deleteVertex, no_edges_deleteVertex.
  - intros g s d [??]. by rewrite deleteEdge_no_edges.
Qed.
End trivial.

(** C4 fails on the code.  The class is documented as a graph with only one
    vertex, and its [display] prints "1 vertex" and dereferences
    [vertices.begin()]; but it overrides [addEdge] only and inherits
    [addVertex], [deleteVertex] and [join] unguarded.  After [addVertex(2)] a
    [TrivialGraph] built on 1 has two vertices; after [deleteVertex(1)] it has
    none, and [vertices.begin()] is [vertices.end()]. *)
Theorem C4_TrivialGraph_vertex_count_is_not_fixed :
  Graph.getNumVertices (TrivialGraph.new 1) = 1 ∧
  trivial_grown = addVertex KTrivialGraph (TrivialGraph.new 1) 2 ∧
  reachable KTrivialGraph trivial_grown ∧
  Graph.getNumVertices trivial_grown = 2 ∧
  Graph.vertices trivial_grown = {[1; 2]} ∧
  trivial_emptied = (Graph.deleteVertex (TrivialGraph.new 1) 1).1 ∧
  reachable KTrivialGraph trivial_emptied ∧
  Graph.getNumVertices trivial_emptied = 0 ∧
  Graph.vertices trivial_emptied = ∅ ∧
  set_begin (Graph.vertices trivial_emptied) = None.
Proof.
  split_and!; try (vm_compute; reflexivity).
  - apply reach_addVertex, reach_new. constructor.
  - apply (reach_deleteVertex KTrivialGraph (TrivialGraph.new 1) 1), reach_new.
    constructor.
Qed.

(** ** [CompleteGraph::addVertex] *)

Section complete.
Implicit Types (g : Graph.t) (s : gset Z).

Lemma head_elem_of {A} (l : list A) x : head l = Some x → x ∈ l.
Proof. destruct l; intros [= ->]. apply list_elem_of_here. Qed.

Lemma set_begin_Some s x : set_begin s = Some x → x ∈ s.
Proof. intros ?%head_elem_of. by apply elem_of_sorted_elems. Qed.

Lemma set_next_Some s v x : set_next s v = Some x → x ∈ s ∧ v < x.
Proof.
  intros [? ?%elem_of_sorted_elems]%head_elem_of%list_elem_of_filter. done.
Qed.

Lemma remaining_shrinks s v x :
  v ∈ s → x ∈ s → v < x → (size (remaining s x) < size (remaining s v))%nat.
Proof.
  intros Hv Hx Hlt. apply subset_size. unfold remaining. split.
  - intros y [? ?]%elem_of_filter. apply elem_of_filter. split; [lia|done].
  - intros Hsub. assert (v ∈ filter (λ y, x ≤ y) s) as [? _]%elem_of_filter; [|lia].
    apply Hsub, elem_of_filter. split; [lia|done].
Qed.

(** The unfolding of the loop of [CompleteGraph::addVertex] is long enough:
    the iterator always ends on [vertices.end()]. *)
Lemma connect_reaches_end s vertex fuel g it :
  vertex ∈ s → Graph.vertices g ⊆ s →
  (∀ v, it = Some v → v ∈ s ∧ (size (remaining s v) ≤ fuel)%nat) →
  (CompleteGraph.connect fuel g it vertex).2 = None.
Proof.
  intros Hvertex. revert g it. induction fuel as [|fuel IH]; intros g [v|] Hg Hit;
    simpl; try done.
  - destruct (Hit v eq_refl) as [Hv Hsz].
    assert (v ∈ remaining s v) by (apply elem_of_filter; split; [lia|done]).
    assert (size (remaining s v) ≠ 0%nat) by (intros ?%size_empty_inv; set_solver).
    lia.
  - destruct (Hit v eq_refl) as [Hv Hsz].
    assert (Hg' : Graph.vertices (Graph.addEdge g v vertex 1) ⊆ s).
    { rewrite vertices_addEdge. set_solver. }
    apply IH; [done|]. intros x [Hx Hlt]%set_next_Some.
    split; [by apply Hg'|].
    pose proof (remaining_shrinks s v x Hv (Hg' _ Hx) Hlt). lia.
Qed.

Lemma CompleteGraph_addVertex_loop_ends g vertex :
  (CompleteGraph.connect (S (size (Graph.vertices g))) g
     (set_begin (Graph.vertices g)) vertex).2 = None.
Proof.
  apply (connect_reaches_end ({[vertex]} ∪ Graph.vertices g)); [set_solver..|].
  intros v Hv%set_begin_Some. split; [set_solver|].
  assert (remaining ({[vertex]} ∪ Graph.vertices g) v ⊆ {[vertex]} ∪ Graph.vertices g)
    as Hsub%subseteq_size by (by intros y [_ ?]%elem_of_filter).
  rewrite size_union_alt, size_singleton in Hsub.
  assert (Graph.vertices g ∖ {[vertex]} ⊆ Graph.vertices g)
    as Hsub'%subseteq_size by set_solver.
  lia.
Qed.
End complete.

(** C7 fails on the code.  [CompleteGraph::addVertex] walks [vertices] while
    the body of the loop inserts the new vertex into that same set; when the
    new vertex is greater than the first one, the loop reaches it and calls
    [Graph::addEdge(vertex, vertex)], which stores a self-loop twice.  With 1,
    2, 3, 4 added in this order [getNumEdges] is 9, not 6, and the vertices 2,
    3 and 4 have degree 5, not 3; with 1 and 2 alone [getNumEdges] is 2. *)
Theorem C7_CompleteGraph_stores_self_loops :
  size (Graph.vertices complete_1234) = 4%nat ∧
  Graph.getNumEdges complete_1234 = 9 ∧
  Graph.getDegree complete_1234 1 = Ret 3 ∧
  Graph.getDegree complete_1234 2 = Ret 5 ∧
  Graph.getDegree complete_1234 3 = Ret 5 ∧
  Graph.getDegree complete_1234 4 = Ret 5 ∧
  Graph.adjList complete_1234 !! 2 = Some [(1, 1); (2, 1); (2, 1); (3, 1); (4, 1)] ∧
  Graph.getNumEdges
    (addVertex KCompleteGraph (addVertex KCompleteGraph CompleteGraph.new 1) 2) = 2.
Proof. vm_compute. repeat split. Qed.

(** The claim does hold when each new vertex is smaller than those already
    present: the iteration then ends before it meets the new vertex. *)
Lemma CompleteGraph_decreasing_order :
  Graph.getNumEdges complete_4321 = 6 ∧
  Graph.getDegree complete_4321 1 = Ret 3 ∧
  Graph.getDegree complete_4321 2 = Ret 3 ∧
  Graph.getDegree complete_4321 3 = Ret 3 ∧
  Graph.getDegree complete_4321 4 = Ret 3.
Proof. vm_compute. repeat split. Qed.

(** ** Traversal orders *)

(** C8.  On the directed graph with adjacency {1:[2,3], 2:[4], 3:[]}, built by
    inserting the edges in that order, [BFS(1)] returns [1,2,3,4] and [DFS(1)]
    returns [1,2,4,3]. *)
Theorem C8_traversal_orders :
  map_entries (Graph.adjList scenario_E)
  = [(1, [(2, 1); (3, 1)]); (2, [(4, 1)]); (3, []); (4, [])] ∧
  Graph.BFS scenario_E 1 = Ret [1; 2; 3; 4] ∧
  Graph.DFS scenario_E 1 = Ret [1; 2; 4; 3].
Proof. vm_compute. repeat split. Qed.

(** ** Insertion followed by deletion *)

Section round_trip.
Implicit Types (g : Graph.t) (adj : gmap Z (list (Z * Z))).

Lemma lookup_total_adj_modify f k adj x :
  adj_modify f k adj !!! x = if decide (x = k) then f (adj !!! k) else adj !!! x.
Proof.
  unfold adj_modify. case_decide as Hx.
  - subst. by rewrite lookup_total_insert_eq.
  - by rewrite lookup_total_insert_ne.
Qed.

Lemma lookup_total_addVertex g x y :
  wf g → Graph.adjList (Graph.addVertex g x) !!! y = Graph.adjList g !!! y.
Proof.
  intros (_ & Hd & _). unfold Graph.addVertex. case_decide as Hx; [done|]. simpl.
  destruct (decide (x = y)) as [->|Hne].
  - rewrite lookup_total_insert_eq. symmetry. rewrite lookup_total_alt.
    rewrite <-Hd in Hx. by apply not_elem_of_dom in Hx as ->.
  - by rewrite lookup_total_insert_ne.
Qed.

Lemma remove_target_absent x l : x ∉ l.*1 → remove_target x l = l.
Proof.
  intros Hx. unfold remove_target. induction l as [|p l IH]; [done|].
  rewrite fmap_cons, not_elem_of_cons in Hx. destruct Hx as [Hp Hl].
  rewrite filter_cons_True by done. by rewrite IH.
Qed.

Lemma remove_target_app x l1 l2 :
  remove_target x (l1 ++ l2) = remove_target x l1 ++ remove_target x l2.
Proof. apply filter_app. Qed.

Lemma remove_target_hit x w : remove_target x [(x, w)] = [].
Proof. unfold remove_target. by rewrite filter_cons_False by naive_solver. Qed.

Lemma remove_target_pushed x w l :
  x ∉ l.*1 → remove_target x (push_back (x, w) l) = l.
Proof.
  intros Hx. unfold push_back.
  by rewrite remove_target_app, remove_target_hit, remove_target_absent, app_nil_r.
Qed.

Lemma remove_target_push_hit x w l :
  remove_target x (push_back (x, w) l) = remove_target x l.
Proof.
  unfold push_back. by rewrite remove_target_app, remove_target_hit, app_nil_r.
Qed.

Lemma set_adjList_same g : Graph.set_adjList g (Graph.adjList g) = g.
Proof. by destruct g. Qed.

Lemma adj_modify_id f k adj l :
  adj !! k = Some l → f l = l → adj_modify f k adj = adj.
Proof.
  intros Hl Hf. unfold adj_modify.
  rewrite (lookup_total_correct _ _ _ Hl), Hf. by apply insert_id.
Qed.
End round_trip.

Section round_trip_main.
Implicit Types (g : Graph.t) (adj : gmap Z (list (Z * Z))).

Lemma deleteEdge_undirected g s d :
  Graph.isDirected g = false → s ∈ Graph.vertices g → d ∈ Graph.vertices g →
  Graph.deleteEdge g s d
  = (Graph.set_adjList g
       (adj_modify (remove_target s) d
          (adj_modify (remove_target d) s (Graph.adjList g))),
     has_target d (Graph.adjList g !!! s)).
Proof.
  intros Hu Hs Hd. unfold Graph.deleteEdge. rewrite decide_True by done.
  by rewrite Hu.
Qed.

Lemma addEdge_undirected g s d w :
  Graph.isDirected g = false →
  Graph.addEdge g s d w
  = Graph.set_adjList (Graph.addVertex (Graph.addVertex g s) d)
      (adj_modify (push_back (s, w)) d
         (adj_modify (push_back (d, w)) s
            (Graph.adjList (Graph.addVertex (Graph.addVertex g s) d)))).
Proof.
  intros Hu. unfold Graph.addEdge.
  assert (Graph.isDirected (Graph.addVertex (Graph.addVertex g s) d) = false) as ->; [|done].
  destruct (flags_addVertex g s) as [H1 _].
  destruct (flags_addVertex (Graph.addVertex g s) d) as [H2 _]. congruence.
Qed.

(** The adjacency lists of the endpoints after [addEdge(u, v, w)] followed by
    [deleteEdge(u, v)], when no entry joined [u] and [v] before. *)
Lemma round_trip_lists adj u v w :
  v ∉ (adj !!! u).*1 → u ∉ (adj !!! v).*1 →
  let adj' :=
    adj_modify (remove_target u) v
      (adj_modify (remove_target v) u
         (adj_modify (push_back (u, w)) v
            (adj_modify (push_back (v, w)) u adj))) in
  adj' !!! u = adj !!! u ∧ adj' !!! v = adj !!! v ∧
  (∀ x, x ≠ u → x ≠ v → adj' !! x = adj !! x).
Proof.
  intros Hv Hu adj'. unfold adj'. split_and!.
  - rewrite !lookup_total_adj_modify. destruct (decide (u = v)) as [->|Hne].
    + rewrite !decide_True by done.
      by rewrite !remove_target_push_hit, !(remove_target_absent v (adj !!! v)).
    + repeat case_decide; try congruence. by rewrite remove_target_pushed.
  - rewrite !lookup_total_adj_modify. destruct (decide (u = v)) as [->|Hne].
    + rewrite !decide_True by done.
      by rewrite !remove_target_push_hit, !(remove_target_absent v (adj !!! v)).
    + repeat case_decide; try congruence. by rewrite remove_target_pushed.
  - intros x Hxu Hxv. unfold adj_modify. by rewrite !lookup_insert_ne.
Qed.
End round_trip_main.

(** A virtual [addEdge] that returns has done what the base class does. *)
Lemma virtual_addEdge_Ret k g s d w :
  (addEdge k g s d w).2 = Ret () → (addEdge k g s d w).1 = Graph.addEdge g s d w.
Proof.
  destruct k; unfold addEdge, NullGraph.addEdge, TrivialGraph.addEdge; cbn [fst snd];
    try done.
  - unfold DirectedAcyclicGraph.addEdge.
    by destruct (DirectedAcyclicGraph.cycle_check _) as [[]| |].
  - unfold BipartiteGraph.addEdge.
    by destruct (BipartiteGraph.isBipartiteCheck _) as [[]| |].
Qed.

(** C6, as amended.  On an undirected object in which no entry joins [u] and
    [v] yet, and whose [addEdge(u, v, w)] returns (the override of
    [NullGraph] and of [TrivialGraph] always throws, that of
    [BipartiteGraph] throws when the edge breaks the two-colouring), the
    [deleteEdge(u, v)] that follows reports the deletion and leaves the
    adjacency lists of [u] and of [v] exactly as they were before the
    insertion (an endpoint that was not a vertex had no list and ends with an
    empty one); when both endpoints were vertices the whole object is back in
    its previous state.  [deleteEdge] erases every entry between the
    endpoints, so an edge stored before the insertion does not survive. *)
Theorem C6_addEdge_then_deleteEdge k g u v w :
  reachable k g → Graph.isDirected g = false →
  v ∉ (Graph.adjList g !!! u).*1 →
  (addEdge k g u v w).2 = Ret () →
  (Graph.deleteEdge (addEdge k g u v w).1 u v).2 = true ∧
  Graph.adjList (Graph.deleteEdge (addEdge k g u v w).1 u v).1 !!! u
  = Graph.adjList g !!! u ∧
  Graph.adjList (Graph.deleteEdge (addEdge k g u v w).1 u v).1 !!! v
  = Graph.adjList g !!! v ∧
  (u ∈ Graph.vertices g → v ∈ Graph.vertices g →
   (Graph.deleteEdge (addEdge k g u v w).1 u v).1 = g).
Proof.
  intros Hr Hu Hno Hret. rewrite (virtual_addEdge_Ret k g u v w Hret).
  pose proof (reachable_symmetry_invariant k g Hr) as (Hwf & _ & Hs).
  specialize (Hs Hu). rewrite symmetric_entry in Hs.
  assert (Hno' : u ∉ (Graph.adjList g !!! v).*1).
  { intros ([n x] & Hn & Hp)%list_elem_of_fmap. simpl in Hn. subst n.
    apply entry_total, Hs, entry_total in Hp. apply Hno.
    apply list_elem_of_fmap. by exists (v, x). }
  set (g0 := Graph.addVertex (Graph.addVertex g u) v).
  assert (H0 : ∀ y, Graph.adjList g0 !!! y = Graph.adjList g !!! y).
  { intros y. unfold g0. rewrite !lookup_total_addVertex; auto using wf_addVertex. }
  assert (Hv0 : Graph.vertices g0 = {[u; v]} ∪ Graph.vertices g).
  { unfold g0. rewrite !vertices_addVertex. set_solver. }
  rewrite addEdge_undirected by done. fold g0.
  rewrite deleteEdge_undirected; simpl; [| |rewrite Hv0; set_solver..].
  2:{ destruct (flags_addVertex g u) as [H1 _].
      destruct (flags_addVertex (Graph.addVertex g u) v) as [H2 _].
      unfold g0. congruence. }
  destruct (round_trip_lists (Graph.adjList g0) u v w) as (Hlu & Hlv & Hother);
    [by rewrite H0..|].
  split_and!.
  - unfold has_target. apply bool_decide_eq_true. rewrite !lookup_total_adj_modify.
    apply list_elem_of_fmap. exists (v, w). split; [done|].
    unfold push_back. repeat case_decide; try congruence; set_solver.
  - by rewrite Hlu, H0.
  - by rewrite Hlv, H0.
  - intros Hin_u Hin_v.
    assert (g0 = g) as Hg0.
    { unfold g0. by rewrite !addVertex_present by (rewrite ?addVertex_present; done). }
    rewrite Hg0 in *.
    transitivity (Graph.set_adjList g (Graph.adjList g)); [f_equal|apply set_adjList_same].
    destruct Hwf as (_ & Hd & _).
    apply map_eq. intros x.
    assert (Hsome : ∀ (m m' : gmap Z (list (Z * Z))) y,
              y ∈ dom m → y ∈ dom m' → m !!! y = m' !!! y → m !! y = m' !! y).
    { intros m m' y [l Hl]%elem_of_dom [l' Hl']%elem_of_dom.
      rewrite (lookup_total_correct _ _ _ Hl), (lookup_total_correct _ _ _ Hl').
      intros ->. by rewrite Hl, Hl'. }
    destruct (decide (x = u)) as [->|Hxu]; [|destruct (decide (x = v)) as [->|Hxv]].
    + apply Hsome; [|by rewrite Hd|done]. unfold adj_modify.
      rewrite !dom_insert_L. set_solver.
    + apply Hsome; [|by rewrite Hd|done]. unfold adj_modify.
      rewrite !dom_insert_L. set_solver.
    + by apply Hother.
Qed.

Lemma C6_addEdge_then_deleteEdge_witness :
  Graph.adjList (Graph.deleteEdge (addEdge KUndirectedGraph one_edge 1 3 5).1 1 3).1 !!! 1
  = Graph.adjList one_edge !!! 1.
Proof.
  apply (C6_addEdge_then_deleteEdge KUndirectedGraph one_edge 1 3 5).
  - apply reach_addEdge, reach_new. constructor.
  - reflexivity.
  - vm_compute. intros H. by repeat (apply elem_of_cons in H as [H|H]; [done|]);
      apply elem_of_nil in H.
  - reflexivity.
Defined.

(** C6 as stated fails when the edge is already stored: the insertion
    returns, and [deleteEdge] erases the earlier entry together with the new
    one. *)
Lemma C6_counterexample :
  reachable KUndirectedGraph one_edge ∧
  Graph.isDirected one_edge = false ∧
  Graph.adjList one_edge !!! 1 = [(2, 1)] ∧
  addEdge KUndirectedGraph one_edge 1 2 1 = (Graph.addEdge one_edge 1 2 1, Ret ()) ∧
  Graph.adjList (Graph.addEdge one_edge 1 2 1) !!! 1 = [(2, 1); (2, 1)] ∧
  Graph.adjList (Graph.deleteEdge (Graph.addEdge one_edge 1 2 1) 1 2).1 !!! 1 = [] ∧
  Graph.adjList (Graph.deleteEdge (Graph.addEdge one_edge 1 2 1) 1 2).1 !!! 1
  ≠ Graph.adjList one_edge !!! 1.
Proof.
  split_and!; try (vm_compute; reflexivity).
  - apply reach_addEdge, reach_new. constructor.
  - vm_compute. discriminate.
Qed.

(** ** Girth *)

Section girth.
Implicit Types (adj : gmap Z (list (Z * Z))).

Lemma edge_edge_triples adj u v : edge adj u v ↔ ∃ w, (u, v, w) ∈ edge_triples adj.
Proof.
  rewrite edge_entry. unfold entry. by setoid_rewrite elem_of_edge_triples.
Qed.

(** A graph whose entries all go from a smaller to a greater vertex has no
    directed cycle. *)
Lemma increasing_walk adj u v n :
  (∀ x y, edge adj x y → x < y) → walk adj u v n → u ≤ v ∧ (n ≠ 0%nat → u < v).
Proof.
  intros Hinc. induction 1 as [|v w n _ [IH1 IH2] He]; [split; [lia|done]|].
  apply Hinc in He. split; [lia|]. intros _. lia.
Qed.

Lemma increasing_acyclic adj :
  (∀ x y, edge adj x y → x < y) → ¬ has_cycle adj.
Proof.
  intros Hinc (v & n & Hw). apply (increasing_walk _ _ _ _ Hinc) in Hw as [_ Hlt].
  specialize (Hlt ltac:(done)). lia.
Qed.

Lemma triangle_acyclic adj :
  edge_triples adj = [(1, 2, 1); (1, 3, 1); (2, 3, 1)] → ¬ has_cycle adj.
Proof.
  intros Ht. apply increasing_acyclic. intros x y (w & Hin)%edge_edge_triples.
  rewrite Ht in Hin. set_unfold. naive_solver lia.
Qed.

Lemma two_cycle_walk adj :
  edge_triples adj = [(1, 2, 1); (2, 1, 1)] → walk adj 1 1 2.
Proof.
  intros Hc.
  assert (edge adj 1 2) by (apply edge_edge_triples; exists 1; rewrite Hc; set_solver).
  assert (edge adj 2 1) by (apply edge_edge_triples; exists 1; rewrite Hc; set_solver).
  eapply walk_snoc; [eapply walk_snoc; [apply walk_nil|]|]; done.
Qed.
End girth.

(** C3 fails on the code.  [getGirth] applies to every graph the breadth-first
    test for undirected simple graphs (an already discovered neighbour other
    than the parent closes a cycle).  On the directed graph 1 -> 2, 1 -> 3,
    2 -> 3, which has no cycle and which the check of [DirectedAcyclicGraph]
    accepts, it returns 3; on the directed cycle 1 -> 2 -> 1 it returns -1. *)
Theorem C3_getGirth_on_directed_graphs :
  Graph.isDirected transitive_triangle = true ∧
  edge_triples (Graph.adjList transitive_triangle) = [(1, 2, 1); (1, 3, 1); (2, 3, 1)] ∧
  ¬ has_cycle (Graph.adjList transitive_triangle) ∧
  DirectedAcyclicGraph.cycle_check transitive_triangle = Ret false ∧
  Graph.getGirth transitive_triangle = Ret 3 ∧
  Graph.isDirected two_cycle = true ∧
  edge_triples (Graph.adjList two_cycle) = [(1, 2, 1); (2, 1, 1)] ∧
  walk (Graph.adjList two_cycle) 1 1 2 ∧
  has_cycle (Graph.adjList two_cycle) ∧
  Graph.getGirth two_cycle = Ret (-1).
Proof.
  assert (Ht : edge_triples (Graph.adjList transitive_triangle)
               = [(1, 2, 1); (1, 3, 1); (2, 3, 1)]) by (vm_compute; reflexivity).
  assert (Hc : edge_triples (Graph.adjList two_cycle) = [(1, 2, 1); (2, 1, 1)])
    by (vm_compute; reflexivity).
  pose proof (two_cycle_walk _ Hc) as Hw.
  split_and!; [vm_compute; reflexivity|exact Ht|by apply triangle_acyclic
              |vm_compute; reflexivity|vm_compute; reflexivity
              |vm_compute; reflexivity|exact Hc|exact Hw| |vm_compute; reflexivity].
  exists 1, 1%nat. exact Hw.
Qed.

(** ** Union *)

Section union.
Implicit Types (g : Graph.t) (V : gset Z).

Lemma vertices_foldl_addVertex g vs :
  Graph.vertices (foldl Graph.addVertex g vs) = list_to_set vs ∪ Graph.vertices g.
Proof.
  revert g. induction vs as [|v vs IH]; intros g; simpl; [set_solver|].
  rewrite IH, vertices_addVertex. set_solver.
Qed.

Lemma vertices_copy_edges V directed g es :
  (∀ s d w, (s, d, w) ∈ es → s ∈ V ∧ d ∈ V) →
  Graph.vertices g ⊆ V →
  Graph.vertices g ⊆ Graph.vertices (Graph.copy_edges directed g es) ∧
  Graph.vertices (Graph.copy_edges directed g es) ⊆ V.
Proof.
  unfold Graph.copy_edges. revert g.
  induction es as [|[[s d] w] es IH]; intros g Hes Hg; simpl; [done|].
  destruct (Hes s d w) as [Hs Hd]; [apply list_elem_of_here|].
  assert (Hes' : ∀ s d w, (s, d, w) ∈ es → s ∈ V ∧ d ∈ V).
  { intros s' d' w' Hin. apply (Hes s' d' w'). by apply list_elem_of_further. }
  destruct (decide _).
  - destruct (IH (Graph.addEdge g s d w) Hes') as [H1 H2].
    { rewrite vertices_addEdge. set_solver. }
    split; [|done]. rewrite vertices_addEdge in H1. set_solver.
  - by apply IH.
Qed.

(** The edge loop of [join] on a plain [Graph<T>] never throws. *)
Lemma join_edges_base V g es :
  (∀ s d w, (s, d, w) ∈ es → s ∈ V ∧ d ∈ V) →
  Graph.vertices g ⊆ V →
  ∃ g', Graph.join_edges (λ r s d w, (Graph.addEdge r s d w, Ret ())) g es
        = (g', Ret ()) ∧
        Graph.vertices g ⊆ Graph.vertices g' ∧ Graph.vertices g' ⊆ V.
Proof.
  revert g. induction es as [|[[s d] w] es IH]; intros g Hes Hg; simpl; [by exists g|].
  destruct (Hes s d w) as [Hs Hd]; [apply list_elem_of_here|].
  assert (Hes' : ∀ s d w, (s, d, w) ∈ es → s ∈ V ∧ d ∈ V).
  { intros s' d' w' Hin. apply (Hes s' d' w'). by apply list_elem_of_further. }
  destruct (match Graph.adjList g !! s with Some l => has_target d l | None => false end);
    [by apply IH|].
  destruct (decide _); [|by apply IH].
  destruct (IH (Graph.addEdge g s d w) Hes') as (g' & Hg' & H1 & H2).
  { rewrite vertices_addEdge. set_solver. }
  exists g'. split_and!; [done| |done]. rewrite vertices_addEdge in H1. set_solver.
Qed.

Lemma edge_triples_wf g s d w :
  wf g → (s, d, w) ∈ edge_triples (Graph.adjList g) →
  s ∈ Graph.vertices g ∧ d ∈ Graph.vertices g.
Proof. intros Hwf He%elem_of_edge_triples. by apply (entry_wf g s d w). Qed.
End union.

(** C9.  For two graphs with the same directedness and weightedness flags,
    [g1 + g2] returns a fresh graph whose vertex set is the union of the two
    vertex sets.  The operands are not modified: [operator+] is a [const]
    member that takes its argument by [const] reference, which the embedding
    renders by a function of the two operands that returns the new object
    only. *)
Theorem C9_operator_plus_vertex_set k1 k2 g1 g2 :
  reachable k1 g1 → reachable k2 g2 →
  Graph.isDirected g1 = Graph.isDirected g2 →
  Graph.isWeighted g1 = Graph.isWeighted g2 →
  ∃ result, Graph.operator_plus g1 g2 = Ret result ∧
            Graph.vertices result = Graph.vertices g1 ∪ Graph.vertices g2 ∧
            Graph.isDirected result = Graph.isDirected g1 ∧
            Graph.isWeighted result = Graph.isWeighted g1.
Proof.
  intros Hwf1%reachable_wf Hwf2%reachable_wf Hd Hw. unfold Graph.operator_plus.
  set (r0 := foldl Graph.addVertex (Graph.new _ _) _).
  set (r1 := Graph.copy_edges _ r0 _).
  assert (Hv0 : Graph.vertices r0 = Graph.vertices g1).
  { unfold r0. rewrite vertices_foldl_addVertex. simpl.
    apply set_eq. intros x. rewrite elem_of_union, elem_of_list_to_set,
      elem_of_sorted_elems. set_solver. }
  assert (Hf0 : same_flags (Graph.new (Graph.isDirected g1) (Graph.isWeighted g1)) r0).
  { apply foldl_addVertex_preserves; [|done].
    intros g v Hg. eapply same_flags_trans; [done|apply flags_addVertex]. }
  assert (Hf1 : same_flags (Graph.new (Graph.isDirected g1) (Graph.isWeighted g1)) r1).
  { apply copy_edges_preserves; [|done].
    intros g s d w Hg. eapply same_flags_trans; [done|apply flags_addEdge]. }
  assert (Hv1 : Graph.vertices r1 = Graph.vertices g1).
  { destruct (vertices_copy_edges (Graph.vertices g1) (Graph.isDirected g1) r0
                (edge_triples (Graph.adjList g1))) as [H1 H2].
    - intros s d w. by apply edge_triples_wf.
    - by rewrite Hv0.
    - fold r1 in H1, H2. rewrite Hv0 in H1. set_solver. }
  destruct Hf1 as [Hd1 Hw1]. simpl in Hd1, Hw1.
  unfold Graph.join. rewrite decide_False by (rewrite Hd1; congruence).
  rewrite decide_False by (rewrite Hw1; congruence).
  set (r2 := foldl Graph.addVertex r1 _).
  assert (Hv2 : Graph.vertices r2 = Graph.vertices g1 ∪ Graph.vertices g2).
  { unfold r2. rewrite vertices_foldl_addVertex, Hv1.
    apply set_eq. intros x. rewrite !elem_of_union, elem_of_list_to_set,
      elem_of_sorted_elems. set_solver. }
  assert (Hf2 : same_flags r1 r2).
  { apply foldl_addVertex_preserves; [|done].
    intros g v Hg. eapply same_flags_trans; [done|apply flags_addVertex]. }
  destruct (join_edges_base (Graph.vertices g1 ∪ Graph.vertices g2) r2
              (edge_triples (Graph.adjList g2))) as (r3 & Hr3 & H1 & H2).
  { intros s d w [??]%edge_triples_wf; [|done]. set_solver. }
  { by rewrite Hv2. }
  pose proof (join_edges_preserves (same_flags r2)
                (λ r s d w, (Graph.addEdge r s d w, Ret ())) r2
                (edge_triples (Graph.adjList g2))) as Hf3.
  rewrite Hr3 in Hf3 |- *. simpl in Hf3.
  destruct Hf3 as [Hd3 Hw3]; [|done|].
  { intros g s d w Hg. eapply same_flags_trans; [done|apply flags_addEdge]. }
  destruct Hf2 as [Hd2 Hw2].
  exists r3. split_and!; [done| |congruence..]. rewrite Hv2 in H1. set_solver.
Qed.

Lemma C9_operator_plus_vertex_set_witness :
  ∃ result, Graph.operator_plus one_edge other_edge = Ret result ∧
            Graph.vertices result = Graph.vertices one_edge ∪ Graph.vertices other_edge ∧
            Graph.isDirected result = Graph.isDirected one_edge ∧
            Graph.isWeighted result = Graph.isWeighted one_edge.
Proof.
  apply (C9_operator_plus_vertex_set KUndirectedGraph KUndirectedGraph).
  - apply reach_addEdge, reach_new. constructor.
  - apply reach_addEdge, reach_new. constructor.
  - reflexivity.
  - reflexivity.
Defined.

(** ** Shortest distances *)

Section distance.
Implicit Types (adj : gmap Z (list (Z * Z))) (visited : gset Z)
  (distance : gmap Z Z) (q pending : list Z).

Lemma edge_targets adj u v : edge adj u v → v ∈ targets adj.
Proof.
  intros (w & He)%edge_edge_triples. unfold targets.
  apply elem_of_list_to_set, list_elem_of_fmap. by exists (u, v, w).
Qed.

Lemma size_list_to_set_le (l : list Z) : (size (list_to_set l : gset Z) ≤ length l)%nat.
Proof.
  induction l as [|x l IH]; simpl; [done|].
  rewrite size_union_alt, size_singleton.
  assert (list_to_set l ∖ {[x]} ⊆ (list_to_set l : gset Z))
    as ?%subseteq_size by set_solver.
  lia.
Qed.

Lemma size_targets adj : (size (targets adj) ≤ Graph.num_entries adj)%nat.
Proof.
  unfold targets, Graph.num_entries. etrans; [apply size_list_to_set_le|].
  by rewrite length_fmap.
Qed.

Lemma StronglySorted_agree (R R' : relation Z) l :
  (∀ x y, x ∈ l → y ∈ l → R x y → R' x y) →
  StronglySorted R l → StronglySorted R' l.
Proof.
  induction l as [|a l IH]; intros Hagree Hs; [constructor|].
  apply StronglySorted_cons in Hs as [Hall Hs]. apply StronglySorted_cons. split.
  - rewrite Forall_forall in Hall |- *. intros y Hy.
    apply Hagree; [apply list_elem_of_here|by apply list_elem_of_further|by apply Hall].
  - apply IH; [|done]. intros x y Hx Hy. apply Hagree; by apply list_elem_of_further.
Qed.

(** A walk no longer than the distance of every pending vertex ends on a
    visited vertex, whose recorded distance is at most its length. *)
Lemma distance_inv_walk adj src dest visited distance pending x m :
  distance_inv adj src dest visited distance pending →
  walk adj src x m →
  (∀ y, y ∈ pending → Z.of_nat m ≤ distance !!! y) →
  x ∈ visited ∧ distance !!! x ≤ Z.of_nat m.
Proof.
  intros Hinv. induction 1 as [|v w n Hwalk IH He]; intros Hpend.
  - destruct (di_src _ _ _ _ _ _ Hinv) as [? ->]. done.
  - destruct IH as [Hv Hdv]; [intros y Hy; specialize (Hpend y Hy); lia|].
    assert (v ∉ pending) as Hnp.
    { intros Hin. specialize (Hpend v Hin). lia. }
    destruct (di_closed _ _ _ _ _ _ Hinv v w Hv Hnp He) as [Hw Hdw].
    split; [done|lia].
Qed.

Lemma head_sorted_least distance current q y :
  StronglySorted (λ a b, distance !!! a ≤ distance !!! b) (current :: q) →
  y ∈ current :: q → distance !!! current ≤ distance !!! y.
Proof.
  intros [Hall _]%StronglySorted_cons [->|Hy]%elem_of_cons; [done|].
  rewrite Forall_forall in Hall. by apply Hall.
Qed.

(** One step of the scan of the neighbours: a new vertex other than [dest]
    joins the queue. *)
Lemma distance_inv_discover adj src dest visited distance current q n :
  distance_inv adj src dest visited distance (current :: q) →
  edge adj current n → n ∉ visited → n ≠ dest →
  distance_inv adj src dest ({[n]} ∪ visited)
    (<[n := distance !!! current + 1]> distance) (current :: q ++ [n]).
Proof.
  intros Hinv He Hn Hdest.
  destruct Hinv as [[Hsrc Hsrc0] Hsound Hclosed Hsorted Hnear Hpend Hnd].
  assert (Hcur : current ∈ visited) by (apply Hpend, list_elem_of_here).
  assert (Hold : ∀ x, x ∈ visited →
            <[n := distance !!! current + 1]> distance !!! x = distance !!! x).
  { intros x Hx. apply lookup_total_insert_ne. by intros ->. }
  split.
  - split; [set_solver|]. by rewrite Hold.
  - intros x [->%elem_of_singleton|Hx]%elem_of_union.
    + destruct (Hsound current Hcur) as (k & Hk & Hwalk). exists (S k).
      rewrite lookup_total_insert_eq. split; [lia|]. by eapply walk_snoc.
    + destruct (Hsound x Hx) as (k & Hk & Hwalk). exists k. by rewrite Hold.
  - intros u w [->%elem_of_singleton|Hu]%elem_of_union Hnp Hedge.
    + exfalso. apply Hnp. set_solver.
    + destruct (Hclosed u w Hu) as [Hw Hdw]; [set_solver|done|].
      split; [set_solver|]. by rewrite !Hold.
  - change (current :: q ++ [n]) with ((current :: q) ++ [n]).
    apply StronglySorted_app. split_and!.
    + intros x1 x2 Hx1 ->%list_elem_of_singleton.
      rewrite lookup_total_insert_eq, Hold by auto.
      pose proof (Hnear x1 current (Hpend _ Hx1) eq_refl). lia.
    + eapply StronglySorted_agree; [|done]. intros x y Hx Hy. simpl.
      by rewrite !Hold by auto.
    + repeat constructor.
  - intros w h [->%elem_of_singleton|Hw]%elem_of_union [= <-].
    + rewrite lookup_total_insert_eq, Hold by done. lia.
    + rewrite !Hold by done. by apply Hnear.
  - intros x [->|[Hx| ->%list_elem_of_singleton]%elem_of_app]%elem_of_cons;
      [set_solver| |set_solver].
    apply elem_of_union_r, Hpend. by apply list_elem_of_further.
  - set_solver.
Qed.

(** Once all the neighbours of the first pending vertex are visited, it
    leaves the pending list. *)
Lemma distance_inv_pop adj src dest visited distance current q :
  distance_inv adj src dest visited distance (current :: q) →
  (∀ w, edge adj current w →
        w ∈ visited ∧ distance !!! w ≤ distance !!! current + 1) →
  distance_inv adj src dest visited distance q.
Proof.
  intros [Hsrc Hsound Hclosed Hsorted Hnear Hpend Hnd] Hcur. split; try done.
  - intros u w Hu Hnp He. destruct (decide (u = current)) as [->|Hne]; [auto|].
    apply Hclosed; [done| |done]. by intros [->|?]%elem_of_cons.
  - by apply StronglySorted_cons in Hsorted as [_ ?].
  - intros w h Hw Hh. pose proof (Hnear w current Hw eq_refl).
    assert (distance !!! current ≤ distance !!! h); [|lia].
    eapply head_sorted_least; [done|].
    apply list_elem_of_further. by apply head_elem_of.
  - intros x Hx. by apply Hpend, list_elem_of_further.
Qed.

Lemma size_difference_discover (X visited : gset Z) n :
  n ∈ X → n ∉ visited →
  size (X ∖ visited) = S (size (X ∖ ({[n]} ∪ visited))).
Proof.
  intros Hn Hnv.
  assert (X ∖ visited = {[n]} ∪ X ∖ ({[n]} ∪ visited)) as ->.
  { apply set_eq. intros x. destruct (decide (x = n)); set_solver. }
  rewrite size_union by set_solver. by rewrite size_singleton.
Qed.

Lemma getDistance_scan_spec adj src dest current l :
  ∀ visited distance q,
    distance_inv adj src dest visited distance (current :: q) →
    (∀ p, p ∈ l → edge adj current p.1) →
    match Graph.getDistance_scan dest current l visited distance q with
    | inl d => ∃ n, d = Z.of_nat n ∧ 0 < d ∧ shortest adj src dest n
    | inr (visited', distance', q') =>
        distance_inv adj src dest visited' distance' (current :: q') ∧
        visited ⊆ visited' ∧
        (∀ w, w ∈ visited → distance' !!! w = distance !!! w) ∧
        (∀ p, p ∈ l → p.1 ∈ visited' ∧
                      distance' !!! p.1 ≤ distance' !!! current + 1) ∧
        (length q' + size (targets adj ∖ visited')
         = length q + size (targets adj ∖ visited))%nat
    end.
Proof.
  induction l as [|p l IH]; intros visited distance q Hinv Hl; simpl.
  { split_and!; try done. intros p Hp. by apply elem_of_nil in Hp. }
  assert (Hcur : current ∈ visited).
  { apply (di_pending _ _ _ _ _ _ Hinv), list_elem_of_here. }
  assert (He : edge adj current p.1) by apply Hl, list_elem_of_here.
  assert (Hl' : ∀ p', p' ∈ l → edge adj current p'.1).
  { intros p' Hp'. by apply Hl, list_elem_of_further. }
  destruct (decide (p.1 ∈ visited)) as [Hp|Hp].
  - specialize (IH visited distance q Hinv Hl').
    destruct (Graph.getDistance_scan _ _ _ _ _ _) as [d|[[visited' distance'] q']];
      [done|].
    destruct IH as (Hinv' & Hsub & Hstable & Hnbrs & Hpot).
    split_and!; try done.
    intros p' [->|Hp']%elem_of_cons; [|by apply Hnbrs].
    split; [by apply Hsub|]. rewrite !Hstable by done.
    by apply (di_near _ _ _ _ _ _ Hinv).
  - destruct (di_sound _ _ _ _ _ _ Hinv current Hcur) as (k & Hk & Hwalk).
    destruct (decide (p.1 = dest)) as [Hd|Hd].
    + rewrite lookup_total_insert_eq. exists (S k). split_and!; [lia..|].
      split; [rewrite <-Hd; by eapply walk_snoc|].
      intros m Hm. destruct (decide (S k ≤ m)%nat) as [|Hlt]; [done|].
      destruct (distance_inv_walk _ _ _ _ _ _ _ _ Hinv Hm) as [Hin _].
      * intros y Hy.
        pose proof (head_sorted_least _ _ _ _ (di_sorted _ _ _ _ _ _ Hinv) Hy). lia.
      * by destruct (di_dest _ _ _ _ _ _ Hinv).
    + pose proof (distance_inv_discover _ _ _ _ _ _ _ _ Hinv He Hp Hd) as Hinv1.
      specialize (IH _ _ _ Hinv1 Hl').
      destruct (Graph.getDistance_scan _ _ _ _ _ _) as [d|[[visited' distance'] q']];
        [done|].
      destruct IH as (Hinv' & Hsub & Hstable & Hnbrs & Hpot).
      assert (Hold : ∀ x, x ∈ visited →
                <[p.1 := distance !!! current + 1]> distance !!! x = distance !!! x).
      { intros x Hx. apply lookup_total_insert_ne. by intros <-. }
      split_and!; [done|set_solver| | |].
      * intros w Hw. rewrite Hstable by set_solver. by apply Hold.
      * intros p' [->|Hp']%elem_of_cons; [|by apply Hnbrs].
        split; [set_solver|]. rewrite !Hstable by set_solver.
        rewrite lookup_total_insert_eq, Hold by done. lia.
      * rewrite Hpot, length_app. simpl.
        rewrite (size_difference_discover (targets adj) visited p.1);
          [lia|by eapply edge_targets|done].
Qed.

Lemma getDistance_loop_spec adj src dest fuel :
  ∀ visited distance q,
    distance_inv adj src dest visited distance q →
    (length q + size (targets adj ∖ visited) ≤ fuel)%nat →
    ∃ d, Graph.getDistance_loop fuel adj dest visited distance q = Ret d ∧
         distance_result adj src dest d.
Proof.
  induction fuel as [|fuel IH]; intros visited distance [|current q] Hinv Hfuel;
    simpl in *; try lia.
  1, 2: exists (-1); split; [done|]; left; split; [done|]; intros n Hn;
    destruct (distance_inv_walk _ _ _ _ _ _ _ _ Hinv Hn) as [Hin _];
    [by intros y ?%elem_of_nil|by destruct (di_dest _ _ _ _ _ _ Hinv)].
  destruct (adj !! current) as [l|] eqn:Hl.
  - pose proof (getDistance_scan_spec adj src dest current l visited distance q Hinv)
      as Hscan.
    destruct (Graph.getDistance_scan _ _ _ _ _ _) as [d|[[visited' distance'] q']].
    + destruct Hscan as (n & -> & Hpos & Hshort).
      { intros p Hp. exists l. split; [done|]. by apply list_elem_of_fmap_2. }
      exists (Z.of_nat n). split; [done|]. right. eauto.
    + destruct Hscan as (Hinv' & Hsub & Hstable & Hnbrs & Hpot).
      { intros p Hp. exists l. split; [done|]. by apply list_elem_of_fmap_2. }
      apply IH; [|lia]. eapply distance_inv_pop; [done|].
      intros w (l' & Hl' & ([w' x] & -> & Hp)%list_elem_of_fmap).
      rewrite Hl in Hl'. injection Hl' as <-. by apply (Hnbrs (w', x)).
  - apply IH; [|lia]. eapply distance_inv_pop; [done|].
    intros w (l' & Hl' & _). by rewrite Hl in Hl'.
Qed.

Lemma distance_inv_init adj src dest :
  src ≠ dest → distance_inv adj src dest {[src]} {[src := 0]} [src].
Proof.
  intros Hne. split.
  - split; [set_solver|]. by rewrite lookup_total_singleton_eq.
  - intros x ->%elem_of_singleton. exists 0%nat.
    rewrite lookup_total_singleton_eq. split; [done|constructor].
  - intros u w ->%elem_of_singleton Hnp. destruct Hnp. apply list_elem_of_here.
  - repeat constructor.
  - intros w h ->%elem_of_singleton [= <-]. lia.
  - intros x ->%list_elem_of_singleton. set_solver.
  - set_solver.
Qed.
End distance.

(** C5.  [getDistance(src, dest)] throws the not-found error when an endpoint
    is not a vertex and returns 0 when the endpoints are the same vertex;
    otherwise it returns the least number of edges of a walk from [src] to
    [dest], or -1 when no walk leads from [src] to [dest]. *)
Theorem C5_getDistance g src dest :
  (¬ (src ∈ Graph.vertices g ∧ dest ∈ Graph.vertices g) →
   Graph.getDistance g src dest = Throw (invalid_argument "Vertex not found in graph")) ∧
  (src ∈ Graph.vertices g → dest ∈ Graph.vertices g →
   (src = dest → Graph.getDistance g src dest = Ret 0) ∧
   (src ≠ dest →
    ∃ d, Graph.getDistance g src dest = Ret d ∧
         ((d = -1 ∧ ∀ n, ¬ walk (Graph.adjList g) src dest n) ∨
          (∃ n, d = Z.of_nat n ∧ 0 < d ∧
                walk (Graph.adjList g) src dest n ∧
                ∀ m, walk (Graph.adjList g) src dest m → (n ≤ m)%nat)))).
Proof.
  unfold Graph.getDistance. split.
  - intros Hno. by rewrite decide_False.
  - intros Hs Hd. rewrite decide_True by done. split.
    + intros Heq. by rewrite decide_True.
    + intros Hne. rewrite decide_False by done.
      apply (getDistance_loop_spec _ src dest); [by apply distance_inv_init|].
      simpl. pose proof (size_targets (Graph.adjList g)).
      assert (targets (Graph.adjList g) ∖ {[src]} ⊆ targets (Graph.adjList g))
        as ?%subseteq_size by set_solver.
      lia.
Qed.

Lemma C5_getDistance_witness :
  Graph.getDistance scenario_D 1 3 = Ret 2 ∧
  Graph.getDistance scenario_D 1 4 = Ret (-1) ∧
  ∀ n, ¬ walk (Graph.adjList scenario_D) 1 4 n.
Proof.
  split; [reflexivity|]. split; [reflexivity|].
  destruct (C5_getDistance scenario_D 1 4) as [_ H].
  destruct H as [_ H].
  - apply (bool_decide_unpack _). vm_compute. exact I.
  - apply (bool_decide_unpack _). vm_compute. exact I.
  - destruct H as (d & Hd & [[_ Hno]|(n & -> & Hpos & _)]); [discriminate|exact Hno|].
    exfalso. change (Graph.getDistance scenario_D 1 4) with (@Ret Z (-1)) in Hd.
    injection Hd as Hd. lia.
Defined.

(** ** Walks *)

Section walks.
Implicit Types (adj : gmap Z (list (Z * Z))).

Lemma walk_subgraph adj adj' u v n :
  (∀ x y, edge adj' x y → edge adj x y) → walk adj' u v n → walk adj u v n.
Proof. intros Hsub. induction 1; [constructor|eapply walk_snoc; eauto]. Qed.

Lemma acyclic_subgraph adj adj' :
  (∀ x y, edge adj' x y → edge adj x y) → ¬ has_cycle adj → ¬ has_cycle adj'.
Proof.
  intros Hsub Hno (v & n & Hw). apply Hno. exists v, n. by eapply walk_subgraph.
Qed.

Lemma acyclic_subgraph_inv adj adj' :
  (∀ x y, edge adj' x y → edge adj x y) → has_cycle adj' → has_cycle adj.
Proof. intros Hsub (v & n & Hw). exists v, n. by eapply walk_subgraph. Qed.

Lemma walk_first adj u v n :
  walk adj u v (S n) → ∃ w, edge adj u w ∧ walk adj w v n.
Proof.
  revert v. induction n as [|n IH]; intros v Hw.
  - inversion Hw as [|x y m Hw' He]; subst. inversion Hw'; subst.
    exists v. split; [done|constructor].
  - inversion Hw as [|x y m Hw' He]; subst.
    destruct (IH _ Hw') as (w & Hew & Hwalk). exists w. split; [done|].
    by eapply walk_snoc.
Qed.

(** A walk that starts in a set closed under the edges stays in it. *)
Lemma walk_closed adj (P : Z → Prop) u v n :
  (∀ x y, P x → edge adj x y → P y) → P u → walk adj u v n → P v.
Proof. intros Hcl Hu. induction 1; eauto. Qed.

Lemma edge_lookup adj u l w : adj !! u = Some l → edge adj u w ↔ w ∈ l.*1.
Proof.
  intros Hl. unfold edge. split; [|eauto].
  intros (l' & Hl' & Hw). rewrite Hl in Hl'. by injection Hl' as <-.
Qed.

Lemma no_walk_without_edges adj :
  (∀ x y, ¬ edge adj x y) → ¬ has_cycle adj.
Proof.
  intros Hno (v & n & (w & He & _)%walk_first). by apply Hno in He.
Qed.
End walks.

(** ** The cycle check of [DirectedAcyclicGraph] *)

Section dag.
Implicit Types (adj : gmap Z (list (Z * Z))) (visited recStack : gset Z).

Lemma dfs_inv_push adj vertex visited recStack :
  dfs_inv adj visited recStack → vertex ∉ visited →
  dfs_inv adj ({[vertex]} ∪ visited) ({[vertex]} ∪ recStack).
Proof.
  intros [Hst Hcl Hac] Hv. split.
  - set_solver.
  - intros u w Hu Hnr He. destruct (Hcl u w) as [Hw Hwr]; [set_solver..|done|].
    split; [set_solver|]. intros [->%elem_of_singleton|?]%elem_of_union; done.
  - intros u n Hu Hnr. apply Hac; set_solver.
Qed.

(** The vertex whose neighbours are all finished is finished in its turn. *)
Lemma dfs_inv_pop adj vertex visited recStack :
  dfs_inv adj visited ({[vertex]} ∪ recStack) → vertex ∉ recStack →
  (∀ w, edge adj vertex w → w ∈ visited ∧ w ∉ {[vertex]} ∪ recStack) →
  dfs_inv adj visited recStack.
Proof.
  intros [Hst Hcl Hac] Hv Hnbrs.
  assert (Hfin : ∀ u w, u ∈ visited → u ∉ {[vertex]} ∪ recStack → edge adj u w →
                        w ∈ visited ∧ w ∉ {[vertex]} ∪ recStack) by done.
  split.
  - set_solver.
  - intros u w Hu Hnr He. destruct (decide (u = vertex)) as [->|Hne].
    + destruct (Hnbrs w He). set_solver.
    + destruct (Hcl u w); [done|set_solver|done|]. set_solver.
  - intros u n Hu Hnr Hw. destruct (decide (u = vertex)) as [->|Hne].
    + apply walk_first in Hw as (w & He & Hw). destruct (Hnbrs w He) as [Hwv Hwr].
      assert (vertex ∈ visited ∧ vertex ∉ {[vertex]} ∪ recStack) as [_ []]; [|set_solver].
      apply (walk_closed adj (λ x, x ∈ visited ∧ x ∉ {[vertex]} ∪ recStack) w vertex n);
        [|done|done].
      intros x y [??] ?. by apply (Hfin x y).
    + apply (Hac u n); [done|set_solver|done].
Qed.

Lemma hasCycle_scan_spec adj rec vertex bound l :
  keys_closed adj →
  (∀ n visited recStack,
     dfs_inv adj visited recStack → n ∈ dom adj → n ∉ visited →
     (size (dom adj ∖ visited) ≤ bound)%nat →
     dfs_post adj n visited recStack (rec n visited recStack)) →
  ∀ visited recStack,
    dfs_inv adj visited recStack →
    (∀ p, p ∈ l → edge adj vertex p.1) →
    (size (dom adj ∖ visited) ≤ bound)%nat →
    ∃ b visited' recStack',
      DirectedAcyclicGraph.hasCycle_scan rec l visited recStack
      = Ret (b, visited', recStack') ∧
      (b = false →
       recStack' = recStack ∧ visited ⊆ visited' ∧ dfs_inv adj visited' recStack ∧
       ∀ p, p ∈ l → p.1 ∈ visited' ∧ p.1 ∉ recStack).
Proof.
  intros Hkeys Hrec. induction l as [|p l IH]; intros visited recStack Hinv Hl Hb; simpl.
  { exists false, visited, recStack. split; [done|]. intros _.
    split_and!; try done. intros p Hp. by apply elem_of_nil in Hp. }
  assert (Hl' : ∀ p', p' ∈ l → edge adj vertex p'.1).
  { intros p' Hp'. by apply Hl, list_elem_of_further. }
  destruct (decide (p.1 ∈ visited)) as [Hp|Hp].
  - destruct (decide (p.1 ∈ recStack)) as [Hr|Hr]; [by exists true, visited, recStack|].
    destruct (IH visited recStack Hinv Hl' Hb) as (b & v' & r' & -> & Hpost).
    exists b, v', r'. split; [done|]. intros Hbf.
    destruct (Hpost Hbf) as (-> & Hsub & Hinv' & Hnbrs). split_and!; try done.
    intros p' [->|Hp']%elem_of_cons; [|by apply Hnbrs]. split; [by apply Hsub|done].
  - destruct (Hrec p.1 visited recStack Hinv) as (b & v1 & r1 & -> & Hpost1); [|done..|].
    { eapply Hkeys, Hl, list_elem_of_here. }
    destruct b; [by exists true, v1, r1|].
    destruct (Hpost1 eq_refl) as (-> & Hsub1 & Hin1 & Hinv1).
    destruct (IH v1 recStack Hinv1 Hl') as (b & v' & r' & -> & Hpost).
    { etrans; [|exact Hb]. apply subseteq_size. set_solver. }
    exists b, v', r'. split; [done|]. intros Hbf.
    destruct (Hpost Hbf) as (-> & Hsub & Hinv' & Hnbrs).
    split_and!; [done|set_solver|done|].
    intros p' [->|Hp']%elem_of_cons; [|by apply Hnbrs].
    split; [set_solver|]. intros Hr. apply Hp. by apply (dfs_stack _ _ _ Hinv).
Qed.

Lemma hasCycleDFS_spec adj :
  keys_closed adj →
  ∀ fuel vertex visited recStack,
    dfs_inv adj visited recStack → vertex ∈ dom adj → vertex ∉ visited →
    (size (dom adj ∖ visited) ≤ fuel)%nat →
    dfs_post adj vertex visited recStack
      (DirectedAcyclicGraph.hasCycleDFS fuel adj vertex visited recStack).
Proof.
  intros Hkeys. induction fuel as [|fuel IH]; intros vertex visited recStack Hinv Hk Hv Hb.
  { assert (size (dom adj ∖ visited) ≠ 0%nat); [|lia].
    intros ?%size_empty_inv. set_solver. }
  simpl. apply elem_of_dom in Hk as [l Hl]. rewrite Hl.
  assert (Hvr : vertex ∉ recStack).
  { intros ?. by apply Hv, (dfs_stack _ _ _ Hinv). }
  assert (Hb' : (size (dom adj ∖ ({[vertex]} ∪ visited)) ≤ fuel)%nat).
  { assert (vertex ∈ dom adj) by (apply elem_of_dom; eauto).
    rewrite (size_difference_discover (dom adj) visited vertex) in Hb by done. lia. }
  destruct (hasCycle_scan_spec adj (DirectedAcyclicGraph.hasCycleDFS fuel adj) vertex
              fuel l Hkeys IH ({[vertex]} ∪ visited) ({[vertex]} ∪ recStack))
    as (b & v' & r' & -> & Hpost); [by apply dfs_inv_push| |done|].
  { intros p Hp. apply (edge_lookup _ _ _ _ Hl). by apply list_elem_of_fmap_2. }
  destruct b; [by exists true, v', r'|].
  destruct (Hpost eq_refl) as (-> & Hsub & Hinv' & Hnbrs).
  exists false, v', (({[vertex]} ∪ recStack) ∖ {[vertex]}). split; [done|]. intros _.
  split_and!; [set_solver|set_solver|set_solver|].
  apply (dfs_inv_pop _ vertex); [done..|].
  intros w ([w' x] & -> & Hp)%(edge_lookup _ _ _ _ Hl)%list_elem_of_fmap.
  by apply (Hnbrs (w', x)).
Qed.
End dag.

Section dag_check.
Implicit Types (adj : gmap Z (list (Z * Z))) (g : Graph.t).

Lemma hasCycle_roots_spec adj fuel roots :
  keys_closed adj → (size (dom adj) ≤ fuel)%nat →
  ∀ visited,
    dfs_inv adj visited ∅ → (∀ r, r ∈ roots → r ∈ dom adj) →
    ∃ b, DirectedAcyclicGraph.hasCycle_roots fuel adj roots visited ∅ = Ret b ∧
         (b = false →
          ∃ visited', visited ⊆ visited' ∧ (∀ r, r ∈ roots → r ∈ visited') ∧
                      dfs_inv adj visited' ∅).
Proof.
  intros Hkeys Hfuel. induction roots as [|r roots IH]; intros visited Hinv Hroots; simpl.
  { exists false. split; [done|]. intros _. exists visited. split_and!; try done.
    intros r Hr. by apply elem_of_nil in Hr. }
  assert (Hroots' : ∀ r', r' ∈ roots → r' ∈ dom adj).
  { intros r' Hr'. by apply Hroots, list_elem_of_further. }
  destruct (decide (r ∈ visited)) as [Hr|Hr].
  - destruct (IH visited Hinv Hroots') as (b & -> & Hpost). exists b. split; [done|].
    intros Hb. destruct (Hpost Hb) as (v' & Hsub & Hin & Hinv'). exists v'.
    split_and!; try done. intros r' [->|Hr']%elem_of_cons; auto.
  - destruct (hasCycleDFS_spec adj Hkeys fuel r visited ∅ Hinv)
      as (b & v1 & r1 & -> & Hpost1); [by apply Hroots, list_elem_of_here|done| |].
    { etrans; [|exact Hfuel]. apply subseteq_size. set_solver. }
    destruct b; [by exists true|].
    destruct (Hpost1 eq_refl) as (-> & Hsub1 & Hin1 & Hinv1).
    destruct (IH v1 Hinv1 Hroots') as (b & -> & Hpost). exists b. split; [done|].
    intros Hb. destruct (Hpost Hb) as (v' & Hsub & Hin & Hinv'). exists v'.
    split_and!; [set_solver| |done]. intros r' [->|Hr']%elem_of_cons; auto.
Qed.

Lemma wf_keys_closed g : wf g → keys_closed (Graph.adjList g).
Proof.
  intros Hwf u w (x & He)%edge_entry. destruct Hwf as (Hn & Hd & Ht).
  rewrite Hd. by apply (entry_wf g u w x).
Qed.

(** The check of [addEdge] always returns on a consistent graph, and it
    returns [false] on acyclic graphs only. *)
Lemma cycle_check_spec g :
  wf g →
  ∃ b, DirectedAcyclicGraph.cycle_check g = Ret b ∧
       (b = false → ¬ has_cycle (Graph.adjList g)).
Proof.
  intros Hwf. unfold DirectedAcyclicGraph.cycle_check.
  destruct (hasCycle_roots_spec (Graph.adjList g) (S (size (dom (Graph.adjList g))))
              (sorted_elems (Graph.vertices g)) (wf_keys_closed g Hwf)) with (visited := ∅ : gset Z)
    as (b & -> & Hpost); [lia| | |].
  - split; [done|set_solver..].
  - intros r Hr%elem_of_sorted_elems. destruct Hwf as (_ & -> & _). done.
  - exists b. split; [done|]. intros Hb (v & n & Hw).
    destruct (Hpost Hb) as (visited' & _ & Hall & Hinv).
    apply (dfs_acyclic _ _ _ Hinv v n); [|set_solver|done].
    apply Hall, elem_of_sorted_elems. destruct Hwf as (_ & <- & _).
    apply walk_first in Hw as (w & (l & Hl & _) & _). apply elem_of_dom. eauto.
Qed.

Lemma edge_addVertex g x u v :
  wf g → edge (Graph.adjList (Graph.addVertex g x)) u v ↔ edge (Graph.adjList g) u v.
Proof. intros Hwf. rewrite !edge_entry. by setoid_rewrite entry_addVertex. Qed.

Lemma dag_ok_new : dag_ok DirectedAcyclicGraph.new.
Proof.
  split_and!; [apply wf_new|done|]. apply no_walk_without_edges.
  intros x y (w & He)%edge_entry. by apply entry_empty in He.
Qed.

Lemma dag_ok_addVertex g v : dag_ok g → dag_ok (Graph.addVertex g v).
Proof.
  intros (Hwf & Hd & Hac). split_and!; [by apply wf_addVertex| |].
  - by rewrite (proj1 (flags_addVertex g v)).
  - eapply acyclic_subgraph; [|done]. intros x y. by rewrite edge_addVertex.
Qed.

Lemma dag_ok_deleteVertex g v : dag_ok g → dag_ok (Graph.deleteVertex g v).1.
Proof.
  intros (Hwf & Hd & Hac). split_and!; [by apply wf_deleteVertex| |].
  - by rewrite (proj1 (flags_deleteVertex g v)).
  - eapply acyclic_subgraph; [|done]. intros x y. unfold Graph.deleteVertex.
    case_decide; [|done]. simpl. rewrite !edge_entry.
    setoid_rewrite entry_scrub. naive_solver.
Qed.

Lemma dag_ok_deleteEdge g s d : dag_ok g → dag_ok (Graph.deleteEdge g s d).1.
Proof.
  intros (Hwf & Hd & Hac). split_and!; [by apply wf_deleteEdge| |].
  - by rewrite (proj1 (flags_deleteEdge g s d)).
  - eapply acyclic_subgraph; [|done]. intros x y. unfold Graph.deleteEdge.
    case_decide; [|done]. simpl. rewrite Hd, !edge_entry.
    setoid_rewrite entry_remove_target. naive_solver.
Qed.

Lemma dag_ok_addEdge g s d w : dag_ok g → dag_ok (DirectedAcyclicGraph.addEdge g s d w).1.
Proof.
  intros (Hwf & Hd & Hac).
  destruct (flags_virtual_addEdge KDirectedAcyclicGraph g s d w) as [Hf _].
  simpl in Hf. split_and!; [by apply wf_DirectedAcyclicGraph_addEdge|congruence|].
  unfold DirectedAcyclicGraph.addEdge.
  destruct (cycle_check_spec (Graph.addEdge g s d w)) as (b & -> & Hb);
    [by apply wf_addEdge|].
  destruct b; [|by apply Hb]. cbn [fst].
  eapply acyclic_subgraph; [|done]. intros x y.
  unfold Graph.set_adjList. cbn [Graph.adjList]. rewrite !edge_entry.
  intros (x0 & [He Hne]%entry_remove_target). apply entry_addEdge in He; [|done].
  exists x0. rewrite Hd in He.
  destruct He as [He|[(-> & -> & ->)|(? & _)]]; [done|by destruct Hne|done].
Qed.

Lemma reachable_dag_ok g : reachable KDirectedAcyclicGraph g → dag_ok g.
Proof.
  apply reachable_invariant.
  - intros g' Hc. inversion Hc. apply dag_ok_new.
  - by intros ?? [=].
  - by intros ???? [=].
  - apply dag_ok_addVertex.
  - apply dag_ok_addVertex.
  - apply dag_ok_addEdge.
  - apply dag_ok_deleteVertex.
  - apply dag_ok_deleteEdge.
Qed.

Lemma adj_modify_twice f f' k adj :
  adj_modify f k (adj_modify f' k adj) = adj_modify (f ∘ f') k adj.
Proof.
  unfold adj_modify. by rewrite lookup_total_insert_eq, insert_insert_eq.
Qed.

Lemma addEdge_directed g s d w :
  Graph.isDirected g = true →
  Graph.addEdge g s d w
  = Graph.set_adjList (Graph.addVertex (Graph.addVertex g s) d)
      (adj_modify (push_back (d, w)) s
         (Graph.adjList (Graph.addVertex (Graph.addVertex g s) d))).
Proof.
  intros Hd. unfold Graph.addEdge.
  assert (Graph.isDirected (Graph.addVertex (Graph.addVertex g s) d) = true) as ->; [|done].
  destruct (flags_addVertex g s) as [H1 _].
  destruct (flags_addVertex (Graph.addVertex g s) d) as [H2 _]. congruence.
Qed.

(** When the inserted edge closes a cycle in an acyclic graph, erasing the
    entries from [s] to [d] leaves the graph with its two endpoints added. *)
Lemma DirectedAcyclicGraph_rollback g s d w :
  dag_ok g → has_cycle (Graph.adjList (Graph.addEdge g s d w)) →
  Graph.set_adjList (Graph.addEdge g s d w)
    (adj_modify (remove_target d) s (Graph.adjList (Graph.addEdge g s d w)))
  = Graph.addVertex (Graph.addVertex g s) d.
Proof.
  intros (Hwf & Hd & Hac) Hcyc.
  assert (Hno : d ∉ (Graph.adjList g !!! s).*1).
  { intros ([n x] & Hn & Hp)%list_elem_of_fmap. simpl in Hn. subst n.
    apply entry_total in Hp. apply Hac. revert Hcyc. apply acyclic_subgraph_inv.
    intros u v. rewrite !edge_entry. intros (x0 & He).
    apply entry_addEdge in He; [|done]. rewrite Hd in He.
    destruct He as [He|[(-> & -> & ->)|(? & _)]]; [by exists x0|by exists x|done]. }
  rewrite addEdge_directed by done.
  set (g0 := Graph.addVertex (Graph.addVertex g s) d). simpl.
  assert (Hwf0 : wf g0) by (unfold g0; auto using wf_addVertex).
  assert (Hs : s ∈ dom (Graph.adjList g0)).
  { destruct Hwf0 as (_ & -> & _). unfold g0. rewrite !vertices_addVertex. set_solver. }
  apply elem_of_dom in Hs as [l Hl].
  assert (Hls : l = Graph.adjList g !!! s).
  { rewrite <-(lookup_total_correct _ _ _ Hl). unfold g0.
    rewrite !lookup_total_addVertex; auto using wf_addVertex. }
  rewrite adj_modify_twice.
  rewrite (adj_modify_id (remove_target d ∘ push_back (d, w)) s _ l Hl).
  - transitivity (Graph.set_adjList g0 (Graph.adjList g0)); [done|apply set_adjList_same].
  - simpl. rewrite Hls. by apply remove_target_pushed.
Qed.
End dag_check.

(** ** The colouring check of [BipartiteGraph] *)

Section bipartite.
Implicit Types (adj : gmap Z (list (Z * Z))) (color : gmap Z Z) (g : Graph.t).

Lemma colourable_subgraph adj adj' :
  (∀ x y, edge adj' x y → edge adj x y) → two_colourable adj → two_colourable adj'.
Proof. intros Hsub [c Hc]. exists c. intros u v He. by apply Hc, Hsub. Qed.

Lemma colour_extends_refl color : colour_extends color color.
Proof. by intros x Hx. Qed.

Lemma colour_extends_trans c1 c2 c3 :
  colour_extends c1 c2 → colour_extends c2 c3 → colour_extends c1 c3.
Proof.
  intros H12 H23 x Hx. destruct (H12 x Hx) as [Hx2 Heq2].
  destruct (H23 x Hx2) as [Hx3 Heq3]. split; [done|congruence].
Qed.

Lemma colour_extends_insert color n c :
  color !! n = None → colour_extends color (<[n := c]> color).
Proof.
  intros Hn x Hx. split; [rewrite dom_insert_L; set_solver|].
  apply lookup_total_insert_ne. intros ->. by apply not_elem_of_dom in Hn.
Qed.

Lemma colour_inv_discover adj color vertex q n :
  keys_closed adj →
  colour_inv adj color (vertex :: q) → edge adj vertex n → color !! n = None →
  colour_inv adj (<[n := 1 - color !!! vertex]> color) (vertex :: q ++ [n]).
Proof.
  intros Hkeys [Hdone Hval Hpend] He Hn.
  pose proof (colour_extends_insert color n (1 - color !!! vertex) Hn) as Hext.
  assert (Hvc : vertex ∈ dom color) by (apply Hpend, list_elem_of_here).
  split.
  - intros u w Hu Hnp Hedge. rewrite dom_insert_L in Hu.
    apply elem_of_union in Hu as [->%elem_of_singleton|Hu]; [destruct Hnp; set_solver|].
    destruct (Hdone u w Hu) as [Hw Hne]; [set_solver|done|].
    destruct (Hext u Hu) as [_ ->]. destruct (Hext w Hw) as [? ->]. done.
  - intros u Hu. rewrite dom_insert_L in Hu.
    apply elem_of_union in Hu as [->%elem_of_singleton|Hu].
    + rewrite lookup_total_insert_eq. destruct (Hval vertex Hvc) as [-> | ->]; lia.
    + destruct (Hext u Hu) as [_ ->]. auto.
  - intros x [->|[Hx| ->%list_elem_of_singleton]%elem_of_app]%elem_of_cons.
    + destruct (Hpend vertex) as [??]; [apply list_elem_of_here|].
      split; [by apply Hext|done].
    + destruct (Hpend x) as [??]; [by apply list_elem_of_further|].
      split; [by apply Hext|done].
    + split; [rewrite dom_insert_L; set_solver|by eapply Hkeys].
Qed.

Lemma colour_inv_pop adj color vertex q :
  colour_inv adj color (vertex :: q) →
  (∀ w, edge adj vertex w → w ∈ dom color ∧ color !!! w ≠ color !!! vertex) →
  colour_inv adj color q.
Proof.
  intros [Hdone Hval Hpend] Hnbrs. split; [|done|].
  - intros u w Hu Hnp He. destruct (decide (u = vertex)) as [->|Hne]; [auto|].
    apply Hdone; [done| |done]. by intros [->|?]%elem_of_cons.
  - intros x Hx. by apply Hpend, list_elem_of_further.
Qed.

Lemma color_scan_spec adj vertex l :
  keys_closed adj →
  ∀ color q,
    colour_inv adj color (vertex :: q) →
    (∀ p, p ∈ l → edge adj vertex p.1) →
    match BipartiteGraph.color_scan vertex l color q with
    | None => True
    | Some (color', q') =>
        colour_inv adj color' (vertex :: q') ∧ colour_extends color color' ∧
        (∀ p, p ∈ l → p.1 ∈ dom color' ∧ color' !!! p.1 ≠ color' !!! vertex) ∧
        (length q' + size (targets adj ∖ dom color')
         = length q + size (targets adj ∖ dom color))%nat
    end.
Proof.
  intros Hkeys. induction l as [|p l IH]; intros color q Hinv Hl; simpl.
  { split_and!; try done. intros p Hp. by apply elem_of_nil in Hp. }
  assert (Hvc : vertex ∈ dom color).
  { apply (ci_pending _ _ _ Hinv), list_elem_of_here. }
  assert (He : edge adj vertex p.1) by apply Hl, list_elem_of_here.
  assert (Hl' : ∀ p', p' ∈ l → edge adj vertex p'.1).
  { intros p' Hp'. by apply Hl, list_elem_of_further. }
  destruct (decide (color !! p.1 = None)) as [Hp|Hp].
  - pose proof (colour_inv_discover _ _ _ _ _ Hkeys Hinv He Hp) as Hinv1.
    pose proof (colour_extends_insert color p.1 (1 - color !!! vertex) Hp) as Hext1.
    specialize (IH _ _ Hinv1 Hl').
    destruct (BipartiteGraph.color_scan _ _ _ _) as [[color' q']|]; [|done].
    destruct IH as (Hinv' & Hext & Hnbrs & Hpot).
    split_and!; [done|by eapply colour_extends_trans| |].
    + intros p' [->|Hp']%elem_of_cons; [|by apply Hnbrs].
      destruct (Hext p.1) as [Hin Heq]; [rewrite dom_insert_L; set_solver|].
      destruct (Hext vertex) as [_ Heqv]; [by apply Hext1|].
      split; [done|]. rewrite Heq, Heqv, lookup_total_insert_eq.
      destruct (Hext1 vertex Hvc) as [_ ->]. lia.
    + rewrite Hpot, length_app, dom_insert_L. simpl.
      rewrite (size_difference_discover (targets adj) (dom color) p.1);
        [lia|by eapply edge_targets|by apply not_elem_of_dom].
  - destruct (decide (color !!! p.1 = color !!! vertex)) as [Heq|Hneq]; [done|].
    specialize (IH _ _ Hinv Hl').
    destruct (BipartiteGraph.color_scan _ _ _ _) as [[color' q']|]; [|done].
    destruct IH as (Hinv' & Hext & Hnbrs & Hpot). split_and!; try done.
    intros p' [->|Hp']%elem_of_cons; [|by apply Hnbrs].
    assert (p.1 ∈ dom color) as Hin by (apply elem_of_dom; by destruct (color !! p.1)).
    destruct (Hext p.1 Hin) as [? ->]. destruct (Hext vertex Hvc) as [_ ->]. done.
Qed.

Lemma color_loop_spec adj fuel :
  keys_closed adj →
  ∀ color q,
    colour_inv adj color q →
    (length q + size (targets adj ∖ dom color) ≤ fuel)%nat →
    ∃ r, BipartiteGraph.color_loop fuel adj color q = Ret r ∧
         ∀ color', r = Some color' →
                   colour_inv adj color' [] ∧ colour_extends color color'.
Proof.
  intros Hkeys. induction fuel as [|fuel IH]; intros color [|vertex q] Hinv Hfuel;
    simpl in *; try lia.
  1, 2: exists (Some color); split; [done|]; intros ? [= <-];
    split; [done|apply colour_extends_refl].
  destruct (ci_pending _ _ _ Hinv vertex) as [Hvc [l Hl]%elem_of_dom];
    [apply list_elem_of_here|].
  rewrite Hl.
  pose proof (color_scan_spec adj vertex l Hkeys color q Hinv) as Hscan.
  destruct (BipartiteGraph.color_scan _ _ _ _) as [[color' q']|];
    [|exists None; by split].
  destruct Hscan as (Hinv' & Hext & Hnbrs & Hpot).
  { intros p Hp. apply (edge_lookup _ _ _ _ Hl). by apply list_elem_of_fmap_2. }
  destruct (IH color' q') as (r & -> & Hr); [|lia|].
  - eapply colour_inv_pop; [done|].
    intros w ([w' x] & -> & Hp)%(edge_lookup _ _ _ _ Hl)%list_elem_of_fmap.
    by apply (Hnbrs (w', x)).
  - exists r. split; [done|]. intros c Hc. destruct (Hr c Hc) as [??].
    split; [done|by eapply colour_extends_trans].
Qed.

Lemma color_starts_spec adj fuel starts :
  keys_closed adj → (size (targets adj) < fuel)%nat →
  ∀ color,
    colour_inv adj color [] → (∀ s, s ∈ starts → s ∈ dom adj) →
    ∃ b, BipartiteGraph.color_starts fuel adj starts color = Ret b ∧
         (b = true →
          ∃ color', colour_inv adj color' [] ∧ colour_extends color color' ∧
                    ∀ s, s ∈ starts → s ∈ dom color').
Proof.
  intros Hkeys Hfuel. induction starts as [|s starts IH]; intros color Hinv Hstarts; simpl.
  { exists true. split; [done|]. intros _. exists color.
    split_and!; [done|apply colour_extends_refl|]. intros s Hs. by apply elem_of_nil in Hs. }
  assert (Hstarts' : ∀ s', s' ∈ starts → s' ∈ dom adj).
  { intros s' Hs'. by apply Hstarts, list_elem_of_further. }
  destruct (decide (color !! s = None)) as [Hs|Hs].
  - pose proof (colour_extends_insert color s 0 Hs) as Hext1.
    destruct (color_loop_spec adj fuel Hkeys (<[s := 0]> color) [s])
      as (r & -> & Hr).
    { destruct Hinv as [Hdone Hval _]. split.
      - intros u w Hu Hnp He. rewrite dom_insert_L in Hu.
        apply elem_of_union in Hu as [->%elem_of_singleton|Hu];
          [destruct Hnp; apply list_elem_of_here|].
        destruct (Hdone u w Hu) as [Hw Hne]; [by intros ?%elem_of_nil|done|].
        destruct (Hext1 u Hu) as [_ ->]. destruct (Hext1 w Hw) as [? ->]. done.
      - intros u Hu. rewrite dom_insert_L in Hu.
        apply elem_of_union in Hu as [->%elem_of_singleton|Hu].
        + rewrite lookup_total_insert_eq. by left.
        + destruct (Hext1 u Hu) as [_ ->]. auto.
      - intros x ->%list_elem_of_singleton. split; [rewrite dom_insert_L; set_solver|].
        apply Hstarts, list_elem_of_here. }
    { simpl. assert (targets adj ∖ dom (<[s:=0]> color) ⊆ targets adj)
        as ?%subseteq_size by set_solver. lia. }
    destruct r as [color1|]; [|by exists false].
    destruct (Hr color1 eq_refl) as [Hinv1 Hext].
    destruct (IH color1 Hinv1 Hstarts') as (b & -> & Hb). exists b. split; [done|].
    intros Htrue. destruct (Hb Htrue) as (color' & Hinv' & Hext' & Hall). exists color'.
    split_and!; [done|eauto using colour_extends_trans|].
    intros s' [->|Hs']%elem_of_cons; [|by apply Hall].
    apply Hext', Hext. rewrite dom_insert_L. set_solver.
  - destruct (IH color Hinv Hstarts') as (b & -> & Hb). exists b. split; [done|].
    intros Htrue. destruct (Hb Htrue) as (color' & Hinv' & Hext' & Hall). exists color'.
    split_and!; try done. intros s' [->|Hs']%elem_of_cons; [|by apply Hall].
    apply Hext', elem_of_dom. by destruct (color !! s).
Qed.

(** The check of [BipartiteGraph] always returns on a consistent graph, and
    it returns [true] on two-colourable graphs only. *)
Lemma isBipartiteCheck_spec g :
  wf g →
  ∃ b, BipartiteGraph.isBipartiteCheck g = Ret b ∧
       (b = true → two_colourable (Graph.adjList g)).
Proof.
  intros Hwf. unfold BipartiteGraph.isBipartiteCheck.
  destruct (decide (Graph.vertices g = ∅)) as [Hempty|Hne].
  { exists true. split; [done|]. intros _. exists (λ _, true).
    intros u v (l & Hl & _). destruct Hwf as (_ & Hd & _).
    assert (u ∈ dom (Graph.adjList g)) by (apply elem_of_dom; eauto). set_solver. }
  destruct (color_starts_spec (Graph.adjList g) (S (Graph.num_entries (Graph.adjList g)))
              (sorted_elems (Graph.vertices g)) (wf_keys_closed g Hwf)) with (color := ∅ : gmap Z Z)
    as (b & -> & Hb).
  - pose proof (size_targets (Graph.adjList g)). lia.
  - split; [|set_solver|]; [intros u w Hu|intros x Hx]; set_solver.
  - intros s Hs%elem_of_sorted_elems. by destruct Hwf as (_ & -> & _).
  - exists b. split; [done|]. intros Htrue.
    destruct (Hb Htrue) as (color & [Hdone Hval _] & _ & Hall).
    exists (λ v, bool_decide (color !!! v = 0)). intros u v He.
    assert (u ∈ dom color) as Hu.
    { apply Hall, elem_of_sorted_elems. destruct Hwf as (_ & <- & _).
      destruct He as (l & Hl & _). apply elem_of_dom. eauto. }
    destruct (Hdone u v Hu) as [Hv Hneq]; [by intros ?%elem_of_nil|done|].
    destruct (Hval u Hu) as [Hcu|Hcu], (Hval v Hv) as [Hcv|Hcv];
      rewrite Hcu, Hcv in *; try done.
Qed.
End bipartite.

(** ** Rejected insertions *)

Section rollback.
Implicit Types (adj : gmap Z (list (Z * Z))) (g : Graph.t).

Lemma bipartite_ok_new : bipartite_ok BipartiteGraph.new.
Proof.
  split_and!; [apply wf_new|done|]. exists (λ _, true).
  intros x y (w & He)%edge_entry. by apply entry_empty in He.
Qed.

Lemma bipartite_ok_addVertex g v : bipartite_ok g → bipartite_ok (Graph.addVertex g v).
Proof.
  intros (Hwf & Hd & Hc). split_and!; [by apply wf_addVertex| |].
  - by rewrite (proj1 (flags_addVertex g v)).
  - eapply colourable_subgraph; [|done]. intros x y. by rewrite edge_addVertex.
Qed.

Lemma bipartite_ok_deleteVertex g v : bipartite_ok g → bipartite_ok (Graph.deleteVertex g v).1.
Proof.
  intros (Hwf & Hd & Hc). split_and!; [by apply wf_deleteVertex| |].
  - by rewrite (proj1 (flags_deleteVertex g v)).
  - eapply colourable_subgraph; [|done]. intros x y. unfold Graph.deleteVertex.
    case_decide; [|done]. simpl. rewrite !edge_entry.
    intros (x0 & (? & _)%entry_scrub). by exists x0.
Qed.

Lemma edge_remove_both adj s d x y :
  edge (adj_modify (remove_target s) d (adj_modify (remove_target d) s adj)) x y →
  edge adj x y ∧ ¬ (x = s ∧ y = d) ∧ ¬ (x = d ∧ y = s).
Proof.
  rewrite !edge_entry. intros (x0 & [[He H1]%entry_remove_target H2]%entry_remove_target).
  split; [by exists x0|done].
Qed.

Lemma bipartite_ok_deleteEdge g s d : bipartite_ok g → bipartite_ok (Graph.deleteEdge g s d).1.
Proof.
  intros (Hwf & Hd & Hc). split_and!; [by apply wf_deleteEdge| |].
  - by rewrite (proj1 (flags_deleteEdge g s d)).
  - eapply colourable_subgraph; [|done]. intros x y. unfold Graph.deleteEdge.
    case_decide; [|done]. simpl. rewrite Hd. by intros [? _]%edge_remove_both.
Qed.

Lemma edge_addEdge g s d w x y :
  wf g →
  edge (Graph.adjList (Graph.addEdge g s d w)) x y ↔
  edge (Graph.adjList g) x y ∨ (x = s ∧ y = d) ∨
  (Graph.isDirected g = false ∧ x = d ∧ y = s).
Proof.
  intros Hwf. rewrite !edge_entry. setoid_rewrite entry_addEdge; [|done]. split.
  - intros (x0 & [He|[(-> & -> & ->)|(? & -> & -> & ->)]]); eauto.
  - intros [[x0 He]|[[-> ->]|(? & -> & ->)]]; [exists x0|exists w|exists w]; auto 6.
Qed.

Lemma bipartite_ok_addEdge g s d w :
  bipartite_ok g → bipartite_ok (BipartiteGraph.addEdge g s d w).1.
Proof.
  intros (Hwf & Hd & Hc).
  destruct (flags_virtual_addEdge KBipartiteGraph g s d w) as [Hf _].
  simpl in Hf. split_and!; [by apply wf_BipartiteGraph_addEdge|congruence|].
  unfold BipartiteGraph.addEdge.
  destruct (isBipartiteCheck_spec (Graph.addEdge g s d w)) as (b & -> & Hb);
    [by apply wf_addEdge|].
  destruct b; [by apply Hb|]. cbn [fst].
  eapply colourable_subgraph; [|done]. intros x y.
  unfold Graph.set_adjList. cbn [Graph.adjList].
  intros (He & H1 & H2)%edge_remove_both. apply edge_addEdge in He; [|done].
  destruct He as [He|[[-> ->]|(_ & -> & ->)]]; [done|by destruct H1|by destruct H2].
Qed.

Lemma reachable_bipartite_ok g : reachable KBipartiteGraph g → bipartite_ok g.
Proof.
  apply reachable_invariant.
  - intros g' Hc. inversion Hc. apply bipartite_ok_new.
  - by intros ?? [=].
  - by intros ???? [=].
  - apply bipartite_ok_addVertex.
  - apply bipartite_ok_addVertex.
  - apply bipartite_ok_addEdge.
  - apply bipartite_ok_deleteVertex.
  - apply bipartite_ok_deleteEdge.
Qed.

(** Inserting an edge between two keys that no entry joins and erasing it
    again gives the adjacency map back. *)
Lemma round_trip_map adj u v w :
  u ∈ dom adj → v ∈ dom adj → v ∉ (adj !!! u).*1 → u ∉ (adj !!! v).*1 →
  adj_modify (remove_target u) v
    (adj_modify (remove_target v) u
       (adj_modify (push_back (u, w)) v
          (adj_modify (push_back (v, w)) u adj))) = adj.
Proof.
  intros Hu Hv Hnv Hnu.
  destruct (round_trip_lists adj u v w Hnv Hnu) as (Hlu & Hlv & Hother).
  assert (Hsome : ∀ (m m' : gmap Z (list (Z * Z))) y,
            y ∈ dom m → y ∈ dom m' → m !!! y = m' !!! y → m !! y = m' !! y).
  { intros m m' y [l Hl]%elem_of_dom [l' Hl']%elem_of_dom.
    rewrite (lookup_total_correct _ _ _ Hl), (lookup_total_correct _ _ _ Hl').
    intros ->. by rewrite Hl, Hl'. }
  apply map_eq. intros x.
  destruct (decide (x = u)) as [->|Hxu]; [|destruct (decide (x = v)) as [->|Hxv]].
  - apply Hsome; [|done..]. unfold adj_modify. rewrite !dom_insert_L. set_solver.
  - apply Hsome; [|done..]. unfold adj_modify. rewrite !dom_insert_L. set_solver.
  - by apply Hother.
Qed.

(** When the inserted edge makes a two-colourable graph lose that property,
    erasing the entries between [s] and [d] leaves the graph with its two
    endpoints added. *)
Lemma BipartiteGraph_rollback g s d w :
  bipartite_ok g → ¬ two_colourable (Graph.adjList (Graph.addEdge g s d w)) →
  Graph.set_adjList (Graph.addEdge g s d w)
    (adj_modify (remove_target s) d
       (adj_modify (remove_target d) s (Graph.adjList (Graph.addEdge g s d w))))
  = Graph.addVertex (Graph.addVertex g s) d.
Proof.
  intros (Hwf & Hd & [c Hc]) Hbad.
  assert (Hno : ¬ edge (Graph.adjList g) s d ∧ ¬ edge (Graph.adjList g) d s).
  { apply Decidable.not_or. intros Hsd. apply Hbad. exists c. intros x y He.
    apply edge_addEdge in He; [|done].
    assert (c s ≠ c d) by (destruct Hsd as [?%Hc|?%Hc]; congruence).
    destruct He as [He|[[-> ->]|(_ & -> & ->)]]; [by apply Hc|done|congruence]. }
  destruct Hno as [Hsd Hds].
  assert (Htot : ∀ x y, ¬ edge (Graph.adjList g) x y → y ∉ (Graph.adjList g !!! x).*1).
  { intros x y Hne ([n x0] & Hn & Hp)%list_elem_of_fmap. simpl in Hn. subst n.
    apply Hne, edge_entry. exists x0. by apply entry_total. }
  rewrite addEdge_undirected by done.
  set (g0 := Graph.addVertex (Graph.addVertex g s) d). cbn [Graph.adjList Graph.set_adjList].
  assert (Hwf0 : wf g0) by (unfold g0; auto using wf_addVertex).
  assert (H0 : ∀ y, Graph.adjList g0 !!! y = Graph.adjList g !!! y).
  { intros y. unfold g0. rewrite !lookup_total_addVertex; auto using wf_addVertex. }
  assert (Hdom : s ∈ dom (Graph.adjList g0) ∧ d ∈ dom (Graph.adjList g0)).
  { destruct Hwf0 as (_ & -> & _). unfold g0. rewrite !vertices_addVertex. set_solver. }
  rewrite round_trip_map; [|tauto|tauto|rewrite H0; by apply Htot..].
  transitivity (Graph.set_adjList g0 (Graph.adjList g0)); [done|apply set_adjList_same].
Qed.
End rollback.

(** C1, as amended.  When the edge that [addEdge(src, dest, weight)] inserts
    into a [DirectedAcyclicGraph] closes a directed cycle, or makes a
    [BipartiteGraph] lose its two-colourability, the call throws the
    [logic_error] of the class and, before throwing, erases the inserted edge:
    the object is left as it was before the call with [src] and [dest] added
    as vertices.  It is therefore in its exact previous state whenever both
    endpoints were vertices already; an endpoint that was new stays in the
    graph after the failed call. *)
Theorem C1_rejected_edge_is_rolled_back k g src dest weight :
  reachable k g →
  violates k (Graph.adjList (Graph.addEdge g src dest weight)) →
  addEdge k g src dest weight
  = (Graph.addVertex (Graph.addVertex g src) dest, Throw (rejection k)) ∧
  (src ∈ Graph.vertices g → dest ∈ Graph.vertices g →
   addEdge k g src dest weight = (g, Throw (rejection k))).
Proof.
  intros Hr Hbad.
  assert (addEdge k g src dest weight
          = (Graph.addVertex (Graph.addVertex g src) dest, Throw (rejection k))) as Heq.
  { destruct k; try done; simpl in *.
    - apply reachable_dag_ok in Hr. unfold DirectedAcyclicGraph.addEdge.
      destruct (cycle_check_spec (Graph.addEdge g src dest weight)) as (b & -> & Hb);
        [apply wf_addEdge, Hr|].
      destruct b; [|by destruct (Hb eq_refl)].
      by rewrite DirectedAcyclicGraph_rollback.
    - apply reachable_bipartite_ok in Hr. unfold BipartiteGraph.addEdge.
      destruct (isBipartiteCheck_spec (Graph.addEdge g src dest weight)) as (b & -> & Hb);
        [apply wf_addEdge, Hr|].
      destruct b; [by destruct Hbad; apply Hb|].
      by rewrite BipartiteGraph_rollback. }
  split; [done|]. intros Hs Hd. rewrite Heq.
  by rewrite !addVertex_present by (rewrite ?addVertex_present; done).
Qed.

Section rejected_examples.
Implicit Types (adj : gmap Z (list (Z * Z))).

Lemma edge_of_triples adj l u v w :
  edge_triples adj = l → (u, v, w) ∈ l → edge adj u v.
Proof. intros <- Hin. apply edge_edge_triples. by exists w. Qed.

Lemma self_loop_cycle adj v : edge adj v v → has_cycle adj.
Proof. intros He. exists v, 0%nat. eapply walk_snoc; [constructor|done]. Qed.

Lemma self_loop_not_colourable adj v : edge adj v v → ¬ two_colourable adj.
Proof. intros He [c Hc]. by apply (Hc v v). Qed.

Lemma triangle_not_colourable adj x y z :
  edge adj x y → edge adj y z → edge adj x z → ¬ two_colourable adj.
Proof.
  intros Hxy Hyz Hxz [c Hc]. apply Hc in Hxy, Hyz, Hxz.
  destruct (c x), (c y), (c z); congruence.
Qed.

Lemma three_walk_cycle adj x y z :
  edge adj x y → edge adj y z → edge adj z x → has_cycle adj.
Proof.
  intros Hxy Hyz Hzx. exists x, 2%nat.
  eapply walk_snoc; [eapply walk_snoc; [eapply walk_snoc; [constructor|]|]|]; done.
Qed.
End rejected_examples.

(** Scenarios B and C: the four insertions succeed, the fifth is rejected
    and the graph keeps its four edges. *)
Lemma scenarios_B_and_C :
  (addEdge KDirectedAcyclicGraph DirectedAcyclicGraph.new 1 2 1).2 = Ret () ∧
  edge_triples (Graph.adjList scenario_B) = [(1, 2, 1); (1, 3, 1); (2, 4, 1); (3, 4, 1)] ∧
  Graph.getNumEdges scenario_B = 4 ∧
  Graph.getNumEdges (addEdge KDirectedAcyclicGraph scenario_B 4 1 1).1 = 4 ∧
  (addEdge KBipartiteGraph BipartiteGraph.new 1 2 1).2 = Ret () ∧
  (addEdge KBipartiteGraph scenario_C 1 3 1).2 = Throw (rejection KBipartiteGraph) ∧
  Graph.getNumEdges scenario_C = 4 ∧
  Graph.getNumEdges (addEdge KBipartiteGraph scenario_C 1 3 1).1 = 4.
Proof. vm_compute. repeat split. Qed.

Lemma C1_rejected_edge_is_rolled_back_witness :
  addEdge KDirectedAcyclicGraph scenario_B 4 1 1
  = (scenario_B, Throw (rejection KDirectedAcyclicGraph)) ∧
  addEdge KBipartiteGraph scenario_C 1 3 1
  = (scenario_C, Throw (rejection KBipartiteGraph)).
Proof.
  split.
  - apply (C1_rejected_edge_is_rolled_back KDirectedAcyclicGraph scenario_B 4 1 1).
    + do 4 apply reach_addEdge. apply reach_new. constructor.
    + apply (three_walk_cycle _ 1 2 4);
        apply (edge_of_triples _ [(1, 2, 1); (1, 3, 1); (2, 4, 1); (3, 4, 1); (4, 1, 1)]
                 _ _ 1);
        first [vm_compute; reflexivity | set_solver].
    + apply (bool_decide_unpack _). vm_compute. exact I.
    + apply (bool_decide_unpack _). vm_compute. exact I.
  - apply (C1_rejected_edge_is_rolled_back KBipartiteGraph scenario_C 1 3 1).
    + do 4 apply reach_addEdge. apply reach_new. constructor.
    + apply (triangle_not_colourable _ 1 2 3);
        apply (edge_of_triples _
                 [(1, 2, 1); (1, 4, 1); (1, 3, 1); (2, 1, 1); (2, 3, 1);
                  (3, 2, 1); (3, 4, 1); (3, 1, 1); (4, 1, 1); (4, 3, 1)] _ _ 1);
        first [vm_compute; reflexivity | set_solver].
    + apply (bool_decide_unpack _). vm_compute. exact I.
    + apply (bool_decide_unpack _). vm_compute. exact I.
Defined.

(** C1 as stated fails for a rejected self-loop on a vertex that is not yet in
    the graph: the edge is erased but the vertex that [addEdge] added on the
    way stays, so the object is not in its previous state. *)
Lemma C1_counterexample :
  reachable KDirectedAcyclicGraph DirectedAcyclicGraph.new ∧
  has_cycle (Graph.adjList (Graph.addEdge DirectedAcyclicGraph.new 5 5 1)) ∧
  (addEdge KDirectedAcyclicGraph DirectedAcyclicGraph.new 5 5 1).2
  = Throw (logic_error "Adding this edge would create a cycle in DAG") ∧
  (addEdge KDirectedAcyclicGraph DirectedAcyclicGraph.new 5 5 1).1
  ≠ DirectedAcyclicGraph.new ∧
  Graph.getNumVertices DirectedAcyclicGraph.new = 0 ∧
  Graph.getNumVertices (addEdge KDirectedAcyclicGraph DirectedAcyclicGraph.new 5 5 1).1 = 1 ∧
  reachable KBipartiteGraph BipartiteGraph.new ∧
  ¬ two_colourable (Graph.adjList (Graph.addEdge BipartiteGraph.new 7 7 1)) ∧
  (addEdge KBipartiteGraph BipartiteGraph.new 7 7 1).2
  = Throw (logic_error "Adding this edge would break bipartite property") ∧
  (addEdge KBipartiteGraph BipartiteGraph.new 7 7 1).1 ≠ BipartiteGraph.new ∧
  Graph.getNumVertices (addEdge KBipartiteGraph BipartiteGraph.new 7 7 1).1 = 1.
Proof.
  split_and!.
  - apply reach_new. constructor.
  - apply (self_loop_cycle _ 5). apply (edge_of_triples _ [(5, 5, 1)] _ _ 1);
      first [vm_compute; reflexivity | set_solver].
  - vm_compute. reflexivity.
  - intros H%(f_equal Graph.numVertices). vm_compute in H. discriminate.
  - reflexivity.
  - vm_compute. reflexivity.
  - apply reach_new. constructor.
  - apply (self_loop_not_colourable _ 7).
    apply (edge_of_triples _ [(7, 7, 1); (7, 7, 1)] _ _ 1);
      first [vm_compute; reflexivity | set_solver].
  - vm_compute. reflexivity.
  - intros H%(f_equal Graph.numVertices). vm_compute in H. discriminate.
  - vm_compute. reflexivity.
Qed.

(** ** The bounded unfoldings are long enough *)

Section termination.
Implicit Types (adj : gmap Z (list (Z * Z))) (g : Graph.t).

Lemma pending_work_discover adj n reached x :
  x ∈ targets adj → x ∉ reached →
  pending_work adj (S n) ({[x]} ∪ reached) = pending_work adj n reached.
Proof.
  intros Hx Hr. unfold pending_work.
  rewrite (size_difference_discover (targets adj) reached x) by done. lia.
Qed.

Lemma lookup_targets adj u l p : adj !! u = Some l → p ∈ l → p.1 ∈ targets adj.
Proof.
  intros Hl Hp. apply (edge_targets adj u), (edge_lookup _ _ _ _ Hl).
  by apply list_elem_of_fmap_2.
Qed.

(** [BFS] *)

Lemma BFS_explore_work adj current l s :
  (∀ p, p ∈ l → p.1 ∈ targets adj) →
  pending_work adj (length (Graph.bfs_q (Graph.BFS_explore current l s)))
    (Graph.bfs_visited (Graph.BFS_explore current l s))
  = pending_work adj (length (Graph.bfs_q s)) (Graph.bfs_visited s).
Proof.
  unfold Graph.BFS_explore. revert s. induction l as [|p l IH]; intros s Hl; [done|].
  simpl. rewrite IH by (intros p' Hp'; by apply Hl, list_elem_of_further).
  case_decide as Hp; [done|]. simpl. rewrite length_app. simpl.
  rewrite Nat.add_1_r. apply pending_work_discover; [|done].
  apply Hl, list_elem_of_here.
Qed.

Lemma BFS_explore_q_length current l s :
  (length (Graph.bfs_q s) ≤ length (Graph.bfs_q (Graph.BFS_explore current l s)))%nat.
Proof.
  unfold Graph.BFS_explore. revert s. induction l as [|p l IH]; intros s; [done|].
  simpl. etrans; [|apply IH]. case_decide; [done|]. simpl. rewrite length_app. lia.
Qed.

Lemma BFS_level_work adj n s :
  (n ≤ length (Graph.bfs_q s))%nat →
  (pending_work adj (length (Graph.bfs_q (Graph.BFS_level adj n s)))
     (Graph.bfs_visited (Graph.BFS_level adj n s)) + n
   = pending_work adj (length (Graph.bfs_q s)) (Graph.bfs_visited s))%nat.
Proof.
  revert s. induction n as [|n IH]; intros s Hn; simpl; [lia|].
  destruct (Graph.bfs_q s) as [|current q] eqn:Hq; simpl in Hn; [lia|].
  set (s1 := Graph.mk_bfs _ _ q _ _).
  assert (Hs1 : (pending_work adj (length (Graph.bfs_q s1)) (Graph.bfs_visited s1) + 1
                 = pending_work adj (length (current :: q)) (Graph.bfs_visited s))%nat).
  { unfold pending_work. simpl. lia. }
  destruct (adj !! current) as [l|] eqn:Hl.
  - pose proof (BFS_explore_work adj current l s1) as Hw.
    pose proof (BFS_explore_q_length current l s1) as Hlen.
    rewrite <-Hs1, <-Hw, <-(IH (Graph.BFS_explore current l s1)); [lia| |].
    + simpl in Hlen. lia.
    + intros p Hp. by eapply lookup_targets.
  - rewrite <-Hs1, <-(IH s1); [lia|]. simpl. lia.
Qed.

Lemma BFS_loop_nil adj fuel s :
  Graph.bfs_q s = [] → Graph.BFS_loop fuel adj s = Ret s.
Proof. intros Hq. destruct fuel; simpl; by rewrite Hq. Qed.

Lemma BFS_loop_step adj fuel s :
  Graph.bfs_q s ≠ [] →
  Graph.BFS_loop (S fuel) adj s
  = Graph.BFS_loop fuel adj (Graph.BFS_level adj (length (Graph.bfs_q s)) s).
Proof. intros Hq. simpl. by destruct (Graph.bfs_q s). Qed.

Lemma BFS_loop_returns adj fuel s :
  (pending_work adj (length (Graph.bfs_q s)) (Graph.bfs_visited s) ≤ fuel)%nat →
  ∃ s', Graph.BFS_loop fuel adj s = Ret s'.
Proof.
  revert s. induction fuel as [|fuel IH]; intros s Hfuel;
    (destruct (decide (Graph.bfs_q s = [])) as [Hq|Hq];
       [rewrite BFS_loop_nil by done; by eauto|]);
    assert (length (Graph.bfs_q s) ≠ 0%nat) by (by destruct (Graph.bfs_q s)).
  - unfold pending_work in Hfuel. lia.
  - rewrite BFS_loop_step by done. apply IH.
    pose proof (BFS_level_work adj (length (Graph.bfs_q s)) s (Nat.le_refl _)). lia.
Qed.

Lemma BFS_returns g start :
  start ∈ Graph.vertices g → ∃ traversal, Graph.BFS g start = Ret traversal.
Proof.
  intros Hs. unfold Graph.BFS. rewrite decide_True by done.
  destruct (BFS_loop_returns (Graph.adjList g) (S (Graph.num_entries (Graph.adjList g)))
              (Graph.mk_bfs [] {[start]} [start] {[start := start]} {[start := 0]}))
    as [s' Hs']; [|rewrite Hs'; by eauto].
  unfold pending_work. simpl. pose proof (size_targets (Graph.adjList g)).
  assert (targets (Graph.adjList g) ∖ {[start]} ⊆ targets (Graph.adjList g))
    as ?%subseteq_size by set_solver.
  lia.
Qed.

(** [DFS] *)

Lemma DFSUtil_explore_returns (U : gset Z) rec bound vertex l :
  (∀ n s, n ∈ U → n ∉ Graph.dfs_visited s →
          (size (U ∖ Graph.dfs_visited s) ≤ bound)%nat →
          ∃ s', rec n s = Ret s' ∧ Graph.dfs_visited s ⊆ Graph.dfs_visited s') →
  ∀ s, (∀ p, p ∈ l → p.1 ∈ U) →
       (size (U ∖ Graph.dfs_visited s) ≤ bound)%nat →
       ∃ s', Graph.DFSUtil_explore rec vertex l s = Ret s' ∧
             Graph.dfs_visited s ⊆ Graph.dfs_visited s'.
Proof.
  intros Hrec. induction l as [|p l IH]; intros s Hl Hb; simpl; [by eauto|].
  assert (Hl' : ∀ p', p' ∈ l → p'.1 ∈ U).
  { intros p' Hp'. by apply Hl, list_elem_of_further. }
  case_decide as Hp; [by apply IH|].
  match goal with |- context [rec p.1 ?s1] =>
    destruct (Hrec p.1 s1) as (s2 & -> & Hsub) end;
    [by apply Hl, list_elem_of_here|done|done|].
  simpl in Hsub. destruct (IH s2 Hl') as (s' & -> & Hsub').
  - etrans; [|exact Hb]. apply subseteq_size. set_solver.
  - exists s'. split; [done|set_solver].
Qed.

Lemma DFSUtil_returns adj (U : gset Z) :
  targets adj ⊆ U →
  ∀ fuel vertex s,
    vertex ∈ U → vertex ∉ Graph.dfs_visited s →
    (size (U ∖ Graph.dfs_visited s) ≤ fuel)%nat →
    ∃ s', Graph.DFSUtil fuel adj vertex s = Ret s' ∧
          Graph.dfs_visited s ⊆ Graph.dfs_visited s'.
Proof.
  intros HU. induction fuel as [|fuel IH]; intros vertex s Hv Hnv Hb.
  { assert (size (U ∖ Graph.dfs_visited s) ≠ 0%nat); [|lia].
    intros ?%size_empty_inv. set_solver. }
  simpl. set (s1 := Graph.mk_dfs _ _ _ _ _ _).
  assert (Hb1 : (size (U ∖ Graph.dfs_visited s1) ≤ fuel)%nat).
  { simpl. rewrite (size_difference_discover U (Graph.dfs_visited s) vertex) in Hb by done.
    lia. }
  destruct (adj !! vertex) as [l|] eqn:Hl.
  - destruct (DFSUtil_explore_returns U (Graph.DFSUtil fuel adj) fuel vertex l IH s1)
      as (s2 & -> & Hsub); [|done|].
    { intros p Hp. apply HU. by eapply lookup_targets. }
    eexists. split; [done|]. simpl in *. set_solver.
  - eexists. split; [done|]. simpl. set_solver.
Qed.

Lemma DFS_returns g start :
  start ∈ Graph.vertices g → ∃ traversal, Graph.DFS g start = Ret traversal.
Proof.
  intros Hs. unfold Graph.DFS. rewrite decide_True by done.
  assert (HU : targets (Graph.adjList g) ⊆ {[start]} ∪ targets (Graph.adjList g))
    by apply union_subseteq_r.
  destruct (DFSUtil_returns (Graph.adjList g) _ HU (S (Graph.num_entries (Graph.adjList g)))
              start (Graph.mk_dfs ∅ [] ∅ ∅ {[start := start]} 0))
    as (s' & Hs' & _); [set_solver|set_solver| |rewrite Hs'; by eauto].
  simpl. rewrite difference_empty_L, size_union_alt, size_singleton.
  pose proof (size_targets (Graph.adjList g)).
  assert (targets (Graph.adjList g) ∖ {[start]} ⊆ targets (Graph.adjList g))
    as ?%subseteq_size by set_solver.
  lia.
Qed.

(** [getGirth] *)

Lemma getGirth_scan_work adj current parent l distance q girth :
  (∀ p, p ∈ l → p.1 ∈ targets adj) →
  ∃ distance' q' girth',
    Graph.getGirth_scan current parent l (distance, q, girth) = (distance', q', girth') ∧
    pending_work adj (length q') (dom distance')
    = pending_work adj (length q) (dom distance).
Proof.
  unfold Graph.getGirth_scan. revert distance q girth.
  induction l as [|p l IH]; intros distance q girth Hl; simpl; [by eauto|].
  assert (Hl' : ∀ p', p' ∈ l → p'.1 ∈ targets adj).
  { intros p' Hp'. by apply Hl, list_elem_of_further. }
  case_decide as Hp.
  - destruct (IH (<[p.1 := distance !!! current + 1]> distance) (q ++ [(p.1, current)])
                girth Hl') as (d' & q' & g' & -> & Hw).
    exists d', q', g'. split; [done|]. rewrite Hw, length_app, dom_insert_L. simpl.
    rewrite Nat.add_1_r. apply pending_work_discover;
      [apply Hl, list_elem_of_here|by apply not_elem_of_dom].
  - case_decide; by apply IH.
Qed.

Lemma getGirth_loop_returns adj fuel :
  ∀ distance q girth,
    (pending_work adj (length q) (dom distance) ≤ fuel)%nat →
    ∃ r, Graph.getGirth_loop fuel adj distance q girth = Ret r.
Proof.
  induction fuel as [|fuel IH]; intros distance [|[current parent] q] girth Hfuel;
    simpl; try (by eauto); unfold pending_work in Hfuel; simpl in Hfuel; [lia|].
  destruct (adj !! current) as [l|] eqn:Hl.
  - destruct (getGirth_scan_work adj current parent l distance q girth)
      as (d' & q' & g' & -> & Hw).
    { intros p Hp. by eapply lookup_targets. }
    apply IH. rewrite Hw. unfold pending_work. lia.
  - apply IH. unfold pending_work. lia.
Qed.

Lemma length_bind_elem {A B} (f : A → list B) (xs : list A) x :
  x ∈ xs → (length (f x) ≤ length (xs ≫= f))%nat.
Proof.
  induction xs as [|y xs IH]; [by intros ?%elem_of_nil|].
  rewrite bind_cons, length_app. intros [->|Hx]%elem_of_cons; [lia|].
  specialize (IH Hx). lia.
Qed.

Lemma lookup_num_entries adj k l :
  adj !! k = Some l → (length l ≤ Graph.num_entries adj)%nat.
Proof.
  intros Hl%elem_of_map_entries. unfold Graph.num_entries, edge_triples.
  etrans; [|by apply length_bind_elem]. simpl. by rewrite length_fmap.
Qed.

Lemma getGirth_seed_length (start : Z) (l : list (Z * Z)) (distance : gmap Z Z)
    (q : list (Z * Z)) :
  length (foldl (λ '(distance, q) (neighbor : Z * Z),
                   (<[neighbor.1 := 1]> distance, q ++ [(neighbor.1, start)]))
                (distance, q) l).2
  = (length q + length l)%nat.
Proof.
  revert distance q. induction l as [|p l IH]; intros distance q; simpl; [lia|].
  rewrite IH, length_app. simpl. lia.
Qed.

Lemma getGirth_from_returns adj start girth :
  ∃ r, Graph.getGirth_from adj start girth = Ret r.
Proof.
  unfold Graph.getGirth_from.
  assert (Hbound : ∀ (distance : gmap Z Z) (q : list (Z * Z)),
            (length q ≤ Graph.num_entries adj)%nat →
            (pending_work adj (length q) (dom distance)
             ≤ S (2 * Graph.num_entries adj))%nat).
  { intros distance q Hq. unfold pending_work. pose proof (size_targets adj).
    assert (targets adj ∖ dom distance ⊆ targets adj) as ?%subseteq_size by set_solver.
    lia. }
  destruct (adj !! start) as [l|] eqn:Hl.
  - pose proof (getGirth_seed_length start l {[start := 0]} []) as Hlen.
    destruct (foldl _ _ l) as [distance q]. apply getGirth_loop_returns, Hbound.
    simpl in Hlen. rewrite Hlen. by apply (lookup_num_entries adj start).
  - apply getGirth_loop_returns, Hbound. simpl. lia.
Qed.

Lemma getGirth_starts_returns adj starts girth :
  ∃ r, Graph.getGirth_starts adj starts girth = Ret r.
Proof.
  revert girth. induction starts as [|start starts IH]; intros girth; simpl; [by eauto|].
  destruct (getGirth_from_returns adj start girth) as [r ->]. apply IH.
Qed.

Lemma getGirth_returns g : ∃ girth, Graph.getGirth g = Ret girth.
Proof.
  unfold Graph.getGirth. case_decide; [by eauto|].
  destruct (getGirth_starts_returns (Graph.adjList g) (sorted_elems (Graph.vertices g))
              INT_MAX) as [r ->]. by eauto.
Qed.

(** [addEdge] of every class returns or throws a [logic_error]. *)
Lemma virtual_addEdge_outcome k g src dest weight :
  wf g →
  (addEdge k g src dest weight).2 = Ret () ∨
  ∃ what, (addEdge k g src dest weight).2 = Throw (logic_error what).
Proof.
  intros Hwf. destruct k; simpl; eauto.
  - unfold DirectedAcyclicGraph.addEdge.
    destruct (cycle_check_spec (Graph.addEdge g src dest weight)) as (b & -> & _);
      [by apply wf_addEdge|].
    destruct b; simpl; eauto.
  - unfold BipartiteGraph.addEdge.
    destruct (isBipartiteCheck_spec (Graph.addEdge g src dest weight)) as (b & -> & _);
      [by apply wf_addEdge|].
    destruct b; simpl; eauto.
Qed.

(** So does [join]. *)
Lemma join_outcome k g other :
  wf g →
  (join k g other).2 = Ret () ∨
  ∃ what, (join k g other).2 = Throw (logic_error what).
Proof.
  intros Hwf. unfold join, Graph.join. repeat case_decide; simpl; eauto.
  assert (Hwf' : wf (foldl Graph.addVertex g (sorted_elems (Graph.vertices other)))).
  { apply foldl_addVertex_preserves; auto using wf_addVertex. }
  revert Hwf'. generalize (foldl Graph.addVertex g (sorted_elems (Graph.vertices other))).
  induction (edge_triples (Graph.adjList other)) as [|[[s d] w] es IH]; intros g' Hwf';
    simpl; [by left|].
  destruct (match Graph.adjList g' !! s with Some l => has_target d l | None => false end);
    [by apply IH|].
  case_decide; [|by apply IH].
  pose proof (virtual_addEdge_outcome k g' s d w Hwf') as Hout.
  pose proof (wf_virtual_addEdge k g' s d w Hwf') as Hwf''.
  destruct (addEdge k g' s d w) as [g'' [[]| |]]; simpl in *.
  - by apply IH.
  - destruct Hout as [?|[what ?]]; [done|]. right. by exists what.
  - by destruct Hout as [?|[? ?]].
Qed.
End termination.

(** * Further properties of the engine *)

(** ** The example objects can be built *)

(** The vertex [x] belongs to the concrete set [s]. *)
Ltac in_set := apply (bool_decide_unpack _); vm_compute; exact I.

Lemma scenario_D_reachable : reachable KUndirectedGraph scenario_D.
Proof. do 3 apply reach_addEdge. apply reach_new. constructor. Qed.

Lemma scenario_C_reachable : reachable KBipartiteGraph scenario_C.
Proof. do 4 apply reach_addEdge. apply reach_new. constructor. Qed.

Lemma scenario_B_reachable : reachable KDirectedAcyclicGraph scenario_B.
Proof. do 4 apply reach_addEdge. apply reach_new. constructor. Qed.

Lemma scenario_E_reachable : reachable KDirectedGraph scenario_E.
Proof. do 3 apply reach_addEdge. apply reach_new. constructor. Qed.

Lemma one_edge_reachable : reachable KUndirectedGraph one_edge.
Proof. apply reach_addEdge, reach_new. constructor. Qed.

Lemma other_edge_reachable : reachable KUndirectedGraph other_edge.
Proof. apply reach_addEdge, reach_new. constructor. Qed.

Lemma null_two_reachable : reachable KNullGraph null_two.
Proof. do 2 apply reach_addVertex. apply reach_new. constructor. Qed.

Lemma complete_23_reachable : reachable KCompleteGraph complete_23.
Proof. do 2 apply reach_addVertex. apply reach_new. constructor. Qed.

(** ** Breadth-first traversal *)

Section traversal.
Implicit Types (adj : gmap Z (list (Z * Z))) (s : Graph.bfs_state).

Lemma walk_cons adj u v w n : edge adj u v → walk adj v w n → walk adj u w (S n).
Proof.
  intros He Hw. induction Hw as [|x y n _ IH Hxy].
  - eapply walk_snoc; [apply walk_nil|done].
  - eapply walk_snoc; [apply IH|done].
Qed.

Lemma walk_trans adj u v w n m :
  walk adj u v n → walk adj v w m → walk adj u w (n + m).
Proof.
  intros Hu Hv. induction Hv as [|x y m _ IH Hxy].
  - by rewrite Nat.add_0_r.
  - rewrite Nat.add_succ_r. eapply walk_snoc; [apply IH|done].
Qed.

Lemma head_app_Some {A} (l k : list A) x : head l = Some x → head (l ++ k) = Some x.
Proof. by destruct l. Qed.

Lemma BFS_explore_spec adj start current l :
  ∀ s,
    bfs_inv adj start s (current :: Graph.bfs_q s) →
    current ∈ Graph.bfs_visited s →
    (∀ p, p ∈ l → edge adj current p.1) →
    let s' := Graph.BFS_explore current l s in
    bfs_inv adj start s' (current :: Graph.bfs_q s') ∧
    Graph.bfs_traversal s' = Graph.bfs_traversal s ∧
    (∀ x, x ∈ Graph.bfs_visited s → x ∈ Graph.bfs_visited s') ∧
    (∀ p, p ∈ l → p.1 ∈ Graph.bfs_visited s').
Proof.
  unfold Graph.BFS_explore.
  induction l as [|p l IH]; intros s Hinv Hcur Hl; simpl.
  - split_and!; [done..|]. by intros p ?%elem_of_nil.
  - assert (Hl' : ∀ p', p' ∈ l → edge adj current p'.1).
    { intros p' Hp'. apply Hl. by apply list_elem_of_further. }
    case_decide as Hp.
    + destruct (IH s Hinv Hcur Hl') as (H1 & H2 & H3 & H4).
      split_and!; [done..|].
      intros p' [->|Hp']%elem_of_cons; [by apply H3|by apply H4].
    + set (s1 := Graph.mk_bfs _ _ _ _ _).
      assert (Hinv1 : bfs_inv adj start s1 (current :: Graph.bfs_q s1)).
      { destruct Hinv as [Hnd Hvis Hhd Hsnd Hcl Hq]. split; simpl.
        - rewrite app_assoc. apply NoDup_app. split_and!; [done| |apply NoDup_singleton].
          intros x Hx ->%list_elem_of_singleton. by apply Hp, Hvis.
        - intros x. rewrite app_assoc, elem_of_app, list_elem_of_singleton,
            elem_of_union, elem_of_singleton, Hvis. tauto.
        - rewrite app_assoc. by apply head_app_Some.
        - intros x [->%elem_of_singleton|Hx]%elem_of_union; [|by apply Hsnd].
          destruct (Hsnd current Hcur) as [n Hn]. exists (S n).
          eapply walk_snoc; [done|]. apply Hl, list_elem_of_here.
        - intros u w [->%elem_of_singleton|Hu]%elem_of_union Hnp He.
          + destruct Hnp. apply list_elem_of_further, elem_of_app. right.
            apply list_elem_of_here.
          + apply elem_of_union. right. apply (Hcl u w Hu); [|done].
            intros [->|Hin]%elem_of_cons; apply Hnp; [apply list_elem_of_here|].
            apply list_elem_of_further, elem_of_app. by left.
        - intros x [Hx| ->%list_elem_of_singleton]%elem_of_app.
          + apply Hq in Hx. apply elem_of_cons in Hx as [->|Hx];
              [apply list_elem_of_here|]. apply list_elem_of_further, elem_of_app. by left.
          + apply list_elem_of_further, elem_of_app. right. apply list_elem_of_here. }
      destruct (IH s1 Hinv1) as (H1 & H2 & H3 & H4); [|done|].
      { simpl. apply elem_of_union. by right. }
      split_and!; [done|done| |].
      * intros x Hx. apply H3. simpl. apply elem_of_union. by right.
      * intros p' [->|Hp']%elem_of_cons; [|by apply H4].
        apply H3. simpl. apply elem_of_union. left. by apply elem_of_singleton.
Qed.

Lemma BFS_level_spec adj start n :
  ∀ s, bfs_inv adj start s (Graph.bfs_q s) →
       bfs_inv adj start (Graph.BFS_level adj n s) (Graph.bfs_q (Graph.BFS_level adj n s)).
Proof.
  induction n as [|n IH]; intros s Hinv; simpl; [by destruct (Graph.bfs_q s)|].
  destruct (Graph.bfs_q s) as [|current q] eqn:Hq; [by rewrite <-Hq in Hinv|].
  apply IH.
  set (s1 := Graph.mk_bfs _ _ _ _ _).
  assert (Hinv1 : bfs_inv adj start s1 (current :: Graph.bfs_q s1)).
  { destruct Hinv as [Hnd Hvis Hhd Hsnd Hcl Hqq]. rewrite Hq in *. split; simpl.
    - by rewrite <-app_assoc.
    - intros x. by rewrite <-app_assoc.
    - by rewrite <-app_assoc.
    - done.
    - done.
    - intros x Hx. by apply list_elem_of_further. }
  assert (Hcur : current ∈ Graph.bfs_visited s1).
  { simpl. apply Hinv. rewrite Hq. apply elem_of_app. right. apply list_elem_of_here. }
  assert (Hclose : ∀ s2,
            bfs_inv adj start s2 (current :: Graph.bfs_q s2) →
            (∀ w, edge adj current w → w ∈ Graph.bfs_visited s2) →
            bfs_inv adj start s2 (Graph.bfs_q s2)).
  { intros s2 [Hnd Hvis Hhd Hsnd Hcl Hqq] Hall. split; try done.
    intros u w Hu Hnp He. destruct (decide (u = current)) as [->|Hne]; [by apply Hall|].
    apply (Hcl u w Hu); [|done]. by intros [?|?]%elem_of_cons. }
  destruct (adj !! current) as [l|] eqn:Hl.
  - destruct (BFS_explore_spec adj start current l s1 Hinv1 Hcur) as (H1 & _ & _ & H4).
    { intros p Hp. exists l. split; [done|]. apply list_elem_of_fmap. by exists p. }
    apply Hclose; [done|]. intros w (l' & Hl' & Hw). rewrite Hl in Hl'.
    injection Hl' as <-. apply list_elem_of_fmap in Hw as (p & -> & Hp). by apply H4.
  - apply Hclose; [done|]. intros w (l' & Hl' & _). by rewrite Hl in Hl'.
Qed.

Lemma BFS_loop_spec adj start fuel :
  ∀ s s', bfs_inv adj start s (Graph.bfs_q s) →
          Graph.BFS_loop fuel adj s = Ret s' →
          bfs_inv adj start s' [] ∧ Graph.bfs_q s' = [].
Proof.
  induction fuel as [|fuel IH]; intros s s' Hinv; simpl.
  - destruct (Graph.bfs_q s) eqn:Hq; [|done]. intros [= <-]. by split.
  - destruct (Graph.bfs_q s) eqn:Hq; [intros [= <-]; by split|].
    apply IH. apply BFS_level_spec. by rewrite Hq.
Qed.

End traversal.

(** What [BFS] returns. *)
Lemma BFS_cases g start :
  (start ∉ Graph.vertices g →
   Graph.BFS g start = Throw (invalid_argument "Start vertex not found in graph")) ∧
  (start ∈ Graph.vertices g →
   ∃ traversal,
     Graph.BFS g start = Ret traversal ∧ NoDup traversal ∧
     head traversal = Some start ∧
     ∀ v, v ∈ traversal ↔ ∃ n, walk (Graph.adjList g) start v n).
Proof.
  split; intros Hs.
  - unfold Graph.BFS. by rewrite decide_False.
  - destruct (BFS_returns g start Hs) as [traversal Hret]. exists traversal.
    split; [done|]. unfold Graph.BFS in Hret. rewrite decide_True in Hret by done.
    destruct (Graph.BFS_loop _ _ _) as [s'| |] eqn:Hloop; [|done..].
    injection Hret as <-.
    apply (BFS_loop_spec _ start) in Hloop as [[Hnd Hvis Hhd Hsnd Hcl _] Hq].
    + rewrite Hq, app_nil_r in *. split_and!; [done..|].
      intros v. rewrite <-Hvis. split; [apply Hsnd|]. intros [n Hn].
      apply (walk_closed _ (λ x, x ∈ Graph.bfs_visited s') _ _ _) in Hn; [done| |].
      * intros x y Hx. apply Hcl; [done|]. by intros ?%elem_of_nil.
      * apply Hvis. by apply head_elem_of.
    + split; simpl.
      * apply NoDup_singleton.
      * intros x. by rewrite elem_of_singleton, list_elem_of_singleton.
      * done.
      * intros x ->%elem_of_singleton. exists 0%nat. apply walk_nil.
      * intros u w ->%elem_of_singleton Hnp. destruct Hnp. apply list_elem_of_here.
      * done.
Qed.

(** X1.  [BFS(start)] throws [invalid_argument] when [start] is not a vertex.
    Otherwise it returns a list that begins with [start], holds no vertex
    twice, and holds exactly the vertices to which a walk leads from [start]. *)
Theorem X1_BFS_visits_what_start_reaches g start :
  (start ∉ Graph.vertices g →
   Graph.BFS g start = Throw (invalid_argument "Start vertex not found in graph")) ∧
  (start ∈ Graph.vertices g →
   ∃ traversal,
     Graph.BFS g start = Ret traversal ∧ NoDup traversal ∧
     head traversal = Some start ∧
     ∀ v, v ∈ traversal ↔ ∃ n, walk (Graph.adjList g) start v n).
Proof. apply BFS_cases. Qed.

Lemma X1_BFS_visits_what_start_reaches_witness :
  Graph.BFS scenario_D 1 = Ret [1; 2; 3] ∧
  (∃ n, walk (Graph.adjList scenario_D) 1 3 n) ∧
  ¬ ∃ n, walk (Graph.adjList scenario_D) 1 4 n.
Proof.
  destruct (X1_BFS_visits_what_start_reaches scenario_D 1) as [_ H].
  destruct H as (traversal & Hret & _ & _ & Hiff); [in_set|].
  change (Graph.BFS scenario_D 1) with (@Ret (list Z) [1; 2; 3]) in Hret.
  injection Hret as <-. split; [vm_compute; reflexivity|]. split.
  - apply Hiff. do 2 apply list_elem_of_further. apply list_elem_of_here.
  - intros Hw%Hiff. revert Hw. apply (bool_decide_unpack _). vm_compute. exact I.
Defined.

(** ** Depth-first traversal *)

Section dfs.
Implicit Types (adj : gmap Z (list (Z * Z))) (s : Graph.dfs_state).

Lemma dfs_extends_nil adj vertex s : dfs_extends adj vertex s s [].
Proof.
  unfold dfs_extends. rewrite app_nil_r.
  repeat apply conj.
  - done.
  - intros x. split; [intros; by left|by intros [?|?%elem_of_nil]].
  - apply NoDup_nil_2.
  - by intros ? ?%elem_of_nil.
  - by intros ? ?%elem_of_nil.
  - by intros ?? ?%elem_of_nil.
Qed.

Lemma DFSUtil_explore_spec adj rec vertex l :
  (∀ n s s', n ∉ Graph.dfs_visited s → rec n s = Ret s' →
             ∃ new, dfs_extends adj n s s' new ∧ head new = Some n) →
  ∀ s s',
    (∀ p, p ∈ l → edge adj vertex p.1) →
    Graph.DFSUtil_explore rec vertex l s = Ret s' →
    ∃ new, dfs_extends adj vertex s s' new ∧
           (∀ p, p ∈ l → p.1 ∈ Graph.dfs_visited s').
Proof.
  intros Hrec. induction l as [|p l IH]; intros s s' Hl; simpl.
  - intros [= <-]. exists []. split; [apply dfs_extends_nil|by intros ? ?%elem_of_nil].
  - assert (Hl' : ∀ p', p' ∈ l → edge adj vertex p'.1).
    { intros p' Hp'. apply Hl. by apply list_elem_of_further. }
    case_decide as Hp.
    + intros Hret. destruct (IH s s' Hl' Hret) as (new & Hext & Hall).
      exists new. split; [done|].
      intros p' [->|Hp']%elem_of_cons; [|by apply Hall].
      apply Hext. by left.
    + set (s1 := Graph.mk_dfs _ _ _ _ _ _).
      destruct (rec p.1 s1) as [s2| |] eqn:Hrec2; [|done..].
      intros Hret.
      destruct (Hrec p.1 s1 s2 Hp Hrec2) as (new1 & Hext1 & Hhd1).
      destruct (IH s2 s' Hl' Hret) as (new2 & Hext2 & Hall2).
      destruct Hext1 as (Ht1 & Hvis1 & Hnd1 & Hfresh1 & Hwalk1 & Hclosed1).
      destruct Hext2 as (Ht2 & Hvis2 & Hnd2 & Hfresh2 & Hwalk2 & Hclosed2).
      simpl in *.
      exists (new1 ++ new2). split.
      * split_and!.
        -- by rewrite Ht2, Ht1, app_assoc.
        -- intros x. rewrite Hvis2, Hvis1, elem_of_app. tauto.
        -- apply NoDup_app. split_and!; [done| |done].
           intros x Hx1 Hx2. apply (Hfresh2 x Hx2), Hvis1. by right.
        -- intros x [Hx|Hx]%elem_of_app; [by apply Hfresh1|].
           intros Hin. apply (Hfresh2 x Hx), Hvis1. by left.
        -- intros x [Hx|Hx]%elem_of_app; [|by apply Hwalk2].
           destruct (Hwalk1 x Hx) as [n Hn]. exists (S n).
           eapply walk_cons; [|done]. apply Hl, list_elem_of_here.
        -- intros u w [Hu|Hu]%elem_of_app He; [|by apply (Hclosed2 u w)].
           apply Hvis2. left. by apply (Hclosed1 u w).
      * intros p' [->|Hp']%elem_of_cons; [|by apply Hall2].
        apply Hvis2. left. apply Hvis1. right. by apply head_elem_of.
Qed.

Lemma DFSUtil_spec adj fuel :
  ∀ vertex s s',
    vertex ∉ Graph.dfs_visited s →
    Graph.DFSUtil fuel adj vertex s = Ret s' →
    ∃ new, dfs_extends adj vertex s s' new ∧ head new = Some vertex.
Proof.
  induction fuel as [|fuel IH]; intros vertex s s' Hv; [done|]. simpl.
  set (s0 := Graph.mk_dfs _ _ _ _ _ _).
  assert (Hstep : ∀ s1 new1,
            dfs_extends adj vertex s0 s1 new1 →
            (∀ w, edge adj vertex w → w ∈ Graph.dfs_visited s1) →
            ∃ new, dfs_extends adj vertex s
                     (Graph.mk_dfs (Graph.dfs_visited s1) (Graph.dfs_traversal s1)
                        (Graph.dfs_discoveryTime s1)
                        (<[vertex := Graph.dfs_time s1 + 1]> (Graph.dfs_finishTime s1))
                        (Graph.dfs_parent s1) (Graph.dfs_time s1 + 1)) new ∧
                   head new = Some vertex).
  { intros s1 new1 (Ht & Hvis & Hnd & Hfresh & Hwalk & Hclosed) Hall. simpl in *.
    exists (vertex :: new1). split; [|done]. split_and!; simpl.
    - by rewrite Ht, <-app_assoc.
    - intros x. rewrite Hvis, elem_of_union, elem_of_singleton, elem_of_cons. tauto.
    - apply NoDup_cons. split; [|done]. intros Hin. apply (Hfresh _ Hin).
      apply elem_of_union. left. by apply elem_of_singleton.
    - intros x [->|Hx]%elem_of_cons; [done|]. intros Hin. apply (Hfresh _ Hx).
      apply elem_of_union. by right.
    - intros x [->|Hx]%elem_of_cons; [exists 0%nat; apply walk_nil|by apply Hwalk].
    - intros u w [->|Hu]%elem_of_cons He; [by apply Hall|by apply (Hclosed u w)]. }
  destruct (adj !! vertex) as [l|] eqn:Hl.
  - destruct (Graph.DFSUtil_explore _ _ _ _) as [s1| |] eqn:Hex; [|done..].
    intros [= <-].
    apply (DFSUtil_explore_spec adj) in Hex as (new1 & Hext & Hall).
    + apply (Hstep s1 new1 Hext). intros w He.
      apply (edge_lookup _ _ _ _ Hl) in He. apply list_elem_of_fmap in He as (p & -> & Hp).
      by apply Hall.
    + intros n s2 s2' Hn Hr. by apply IH.
    + intros p Hp. apply (edge_lookup _ _ _ _ Hl). apply list_elem_of_fmap. by exists p.
  - intros [= <-]. apply (Hstep s0 []).
    + apply dfs_extends_nil.
    + intros w (l' & Hl' & _). by rewrite Hl in Hl'.
Qed.
End dfs.

(** What [DFS] returns. *)
Lemma DFS_cases g start :
  (start ∉ Graph.vertices g →
   Graph.DFS g start = Throw (invalid_argument "Start vertex not found in graph")) ∧
  (start ∈ Graph.vertices g →
   ∃ traversal,
     Graph.DFS g start = Ret traversal ∧ NoDup traversal ∧
     head traversal = Some start ∧
     ∀ v, v ∈ traversal ↔ ∃ n, walk (Graph.adjList g) start v n).
Proof.
  split; intros Hs.
  - unfold Graph.DFS. by rewrite decide_False.
  - destruct (DFS_returns g start Hs) as [traversal Hret]. exists traversal.
    split; [done|]. unfold Graph.DFS in Hret. rewrite decide_True in Hret by done.
    destruct (Graph.DFSUtil _ _ _ _) as [s'| |] eqn:Hdfs; [|done..].
    injection Hret as <-.
    apply DFSUtil_spec in Hdfs as (new & (Ht & Hvis & Hnd & _ & Hwalk & Hclosed) & Hhd);
      [|set_solver].
    simpl in *. rewrite Ht. split_and!; [done..|].
    intros v. split; [apply Hwalk|]. intros [n Hn].
    assert (v ∈ Graph.dfs_visited s') as Hv; [|apply Hvis in Hv; set_solver].
    apply (walk_closed _ (λ x, x ∈ Graph.dfs_visited s') _ _ _) in Hn; [done| |].
    + intros x y Hx. apply Hclosed. apply Hvis in Hx. set_solver.
    + apply Hvis. right. by apply head_elem_of.
Qed.

(** X2.  [DFS(start)] throws [invalid_argument] when [start] is not a vertex.
    Otherwise it returns a list that begins with [start], holds no vertex
    twice, and holds exactly the vertices to which a walk leads from [start]. *)
Theorem X2_DFS_visits_what_start_reaches g start :
  (start ∉ Graph.vertices g →
   Graph.DFS g start = Throw (invalid_argument "Start vertex not found in graph")) ∧
  (start ∈ Graph.vertices g →
   ∃ traversal,
     Graph.DFS g start = Ret traversal ∧ NoDup traversal ∧
     head traversal = Some start ∧
     ∀ v, v ∈ traversal ↔ ∃ n, walk (Graph.adjList g) start v n).
Proof. apply DFS_cases. Qed.

Lemma X2_DFS_visits_what_start_reaches_witness :
  Graph.DFS scenario_D 1 = Ret [1; 2; 3] ∧
  (∃ n, walk (Graph.adjList scenario_D) 1 3 n) ∧
  ¬ ∃ n, walk (Graph.adjList scenario_D) 1 5 n.
Proof.
  destruct (X2_DFS_visits_what_start_reaches scenario_D 1) as [_ H].
  destruct H as (traversal & Hret & _ & _ & Hiff); [in_set|].
  change (Graph.DFS scenario_D 1) with (@Ret (list Z) [1; 2; 3]) in Hret.
  injection Hret as <-. split; [vm_compute; reflexivity|]. split.
  - apply Hiff. do 2 apply list_elem_of_further. apply list_elem_of_here.
  - intros Hw%Hiff. revert Hw. apply (bool_decide_unpack _). vm_compute. exact I.
Defined.

(** ** Connectivity *)

Section connectivity.
Implicit Types (adj : gmap Z (list (Z * Z))) (visited : gset Z) (g : Graph.t).

Lemma walk_sym adj u v n :
  symmetric adj → walk adj u v n → walk adj v u n.
Proof.
  intros Hsym Hw. induction Hw as [|x y n _ IH Hxy]; [apply walk_nil|].
  eapply walk_cons; [|done].
  apply edge_entry in Hxy as [w Hw]. apply edge_entry. exists w.
  by apply symmetric_entry.
Qed.

Lemma isConnected_scan_spec adj start current l :
  keys_closed adj →
  ∀ visited q,
    conn_inv adj start visited (current :: q) →
    (∀ p, p ∈ l → edge adj current p.1) →
    ∃ visited' q',
      Graph.isConnected_scan l (visited, q) = (visited', q') ∧
      conn_inv adj start visited' (current :: q') ∧
      visited ⊆ visited' ∧
      (∀ p, p ∈ l → p.1 ∈ visited') ∧
      pending_work adj (length q') visited' = pending_work adj (length q) visited.
Proof.
  intros Hkeys. unfold Graph.isConnected_scan.
  induction l as [|p l IH]; intros visited q Hinv Hl; simpl.
  - exists visited, q. split_and!; [done..| |done]. by intros ? ?%elem_of_nil.
  - assert (Hl' : ∀ p', p' ∈ l → edge adj current p'.1).
    { intros p' Hp'. apply Hl. by apply list_elem_of_further. }
    assert (Hcur : edge adj current p.1) by apply Hl, list_elem_of_here.
    case_decide as Hp.
    + destruct (IH visited q Hinv Hl') as (visited' & q' & Heq & Hinv' & Hsub & Hall & Hwork).
      exists visited', q'. split_and!; [done..| |done].
      intros p' [->|Hp']%elem_of_cons; [by apply Hsub|by apply Hall].
    + destruct (IH ({[p.1]} ∪ visited) (q ++ [p.1])) as
        (visited' & q' & Heq & Hinv' & Hsub & Hall & Hwork); [|done|].
      { destruct Hinv as [Hst Hsnd Hcl Hpend]. split.
        - set_solver.
        - intros x [->%elem_of_singleton|Hx]%elem_of_union; [|by apply Hsnd].
          destruct (Hsnd current) as [n Hn]; [apply Hpend, list_elem_of_here|].
          exists (S n). by eapply walk_snoc.
        - intros u w [->%elem_of_singleton|Hu]%elem_of_union Hnp He.
          + destruct Hnp. apply list_elem_of_further, elem_of_app. right.
            apply list_elem_of_here.
          + apply elem_of_union. right. apply (Hcl u w Hu); [|done].
            intros [->|Hin]%elem_of_cons; apply Hnp; [apply list_elem_of_here|].
            apply list_elem_of_further, elem_of_app. by left.
        - intros x [->|[Hx| ->%list_elem_of_singleton]%elem_of_app]%elem_of_cons.
          + destruct (Hpend current); [apply list_elem_of_here|]. set_solver.
          + destruct (Hpend x); [by apply list_elem_of_further|]. set_solver.
          + split; [set_solver|]. by apply (Hkeys current). }
      exists visited', q'. split_and!; [done|done|set_solver| |].
      * intros p' [->|Hp']%elem_of_cons; [|by apply Hall]. apply Hsub. set_solver.
      * rewrite Hwork, length_app. simpl. rewrite Nat.add_1_r.
        apply pending_work_discover; [|done]. by apply (edge_targets _ current).
Qed.

Lemma isConnected_loop_spec adj start fuel :
  keys_closed adj →
  ∀ visited q,
    conn_inv adj start visited q →
    (pending_work adj (length q) visited ≤ fuel)%nat →
    ∃ visited', Graph.isConnected_loop fuel adj visited q = Ret visited' ∧
                conn_inv adj start visited' [].
Proof.
  intros Hkeys. induction fuel as [|fuel IH]; intros visited q Hinv Hfuel.
  - destruct q; [by exists visited|]. unfold pending_work in Hfuel. simpl in Hfuel. lia.
  - destruct q as [|current q]; [by exists visited|]. simpl.
    destruct (cn_pending _ _ _ _ Hinv current) as [Hcv [l Hl]%elem_of_dom];
      [apply list_elem_of_here|].
    rewrite Hl.
    destruct (isConnected_scan_spec adj start current l Hkeys visited q Hinv) as
      (visited' & q' & Heq & Hinv' & Hsub & Hall & Hwork).
    { intros p Hp. apply (edge_lookup _ _ _ _ Hl), list_elem_of_fmap. by exists p. }
    rewrite Heq. apply IH.
    + destruct Hinv' as [Hst Hsnd Hcl Hpend]. split; [done|done| |].
      * intros u w Hu Hnp He. destruct (decide (u = current)) as [->|Hne].
        -- apply (edge_lookup _ _ _ _ Hl), list_elem_of_fmap in He as (p & -> & Hp).
           by apply Hall.
        -- apply (Hcl u w Hu); [|done]. by intros [?|?]%elem_of_cons.
      * intros x Hx. by apply Hpend, list_elem_of_further.
    + rewrite Hwork. unfold pending_work in *. simpl in Hfuel. lia.
Qed.

Lemma set_begin_None (s : gset Z) : set_begin s = None ↔ s = ∅.
Proof.
  unfold set_begin. split.
  - intros H. apply set_eq. intros x. rewrite <-elem_of_sorted_elems.
    destruct (sorted_elems s); [set_solver|done].
  - intros ->. unfold sorted_elems. by rewrite elements_empty.
Qed.

Lemma walk_in_vertices g u v n :
  wf g → u ∈ Graph.vertices g → walk (Graph.adjList g) u v n → v ∈ Graph.vertices g.
Proof.
  intros Hwf Hu Hw. apply (walk_closed _ (λ x, x ∈ Graph.vertices g) _ _ _) in Hw; [done| |done].
  intros x y _ [w He]%edge_entry. by apply (entry_wf g x y w).
Qed.

End connectivity.

(** What [isConnected] returns. *)
Lemma isConnected_cases k g :
  reachable k g →
  ∃ connected,
    Graph.isConnected g = Ret connected ∧
    (Graph.vertices g = ∅ → connected = true) ∧
    (∀ start, set_begin (Graph.vertices g) = Some start →
       (connected = true ↔
        ∀ v, v ∈ Graph.vertices g → ∃ n, walk (Graph.adjList g) start v n)) ∧
    (Graph.isDirected g = false →
       (connected = true ↔
        ∀ u v, u ∈ Graph.vertices g → v ∈ Graph.vertices g →
               ∃ n, walk (Graph.adjList g) u v n)).
Proof.
  intros Hr. pose proof (reachable_wf k g Hr) as Hwf.
  pose proof (reachable_symmetry_invariant k g Hr) as (_ & _ & Hsym).
  unfold Graph.isConnected.
  destruct (set_begin (Graph.vertices g)) as [start|] eqn:Hbegin.
  - pose proof (set_begin_Some _ _ Hbegin) as Hstart.
    destruct (isConnected_loop_spec (Graph.adjList g) start
                (S (Graph.num_entries (Graph.adjList g)))
                (wf_keys_closed g Hwf) {[start]} [start]) as (visited & -> & Hinv).
    { split.
      - set_solver.
      - intros x ->%elem_of_singleton. exists 0%nat. apply walk_nil.
      - intros u w ->%elem_of_singleton Hnp. destruct Hnp. apply list_elem_of_here.
      - intros x ->%list_elem_of_singleton. split; [set_solver|].
        destruct Hwf as (_ & -> & _). done. }
    { unfold pending_work. simpl. pose proof (size_targets (Graph.adjList g)).
      assert (targets (Graph.adjList g) ∖ {[start]} ⊆ targets (Graph.adjList g))
        as ?%subseteq_size by set_solver.
      lia. }
    destruct Hinv as [Hst Hsnd Hcl _].
    assert (Hsub : visited ⊆ Graph.vertices g).
    { intros x [n Hn]%Hsnd. by apply (walk_in_vertices g start x n). }
    assert (Hall : ∀ v n, walk (Graph.adjList g) start v n → v ∈ visited).
    { intros v n Hn.
      apply (walk_closed _ (λ x, x ∈ visited) _ _ _) in Hn; [done| |done].
      intros x y Hx. apply Hcl; [done|]. by intros ?%elem_of_nil. }
    assert (Hiff : bool_decide (size visited = size (Graph.vertices g)) = true ↔
                   ∀ v, v ∈ Graph.vertices g →
                        ∃ n, walk (Graph.adjList g) start v n).
    { rewrite bool_decide_eq_true. split.
      - intros Hsize v Hv. apply Hsnd.
        assert (visited = Graph.vertices g) as ->; [|done].
        apply set_subseteq_size_eq; [done|lia].
      - intros Hreach. f_equal. apply set_eq. intros x.
        split; [apply Hsub|]. intros [n Hn]%Hreach. by apply (Hall x n). }
    eexists. split; [done|]. split; [|split].
    + intros He. rewrite He in Hstart. by apply elem_of_empty in Hstart.
    + intros start' [= <-]. apply Hiff.
    + intros Hund. rewrite Hiff. split.
      * intros Hreach u v Hu Hv.
        destruct (Hreach u Hu) as [n Hn]. destruct (Hreach v Hv) as [m Hm].
        exists (n + m)%nat. eapply walk_trans; [|done]. apply walk_sym; auto.
      * intros Hreach v Hv. by apply Hreach.
  - apply set_begin_None in Hbegin. exists true. split; [done|]. split; [done|].
    split; [done|].
    intros _. split; [|done]. intros _ u v Hu. rewrite Hbegin in Hu. set_solver.
Qed.

(** X3.  On every object that the public operations can produce,
    [isConnected()] returns without throwing.  It returns [true] on a graph
    with no vertex, and otherwise exactly when a walk leads from the least
    vertex (the one [*vertices.begin()] gives) to every vertex; on an
    undirected graph that is exactly when a walk joins any two vertices. *)
Theorem X3_isConnected k g :
  reachable k g →
  ∃ connected,
    Graph.isConnected g = Ret connected ∧
    (Graph.vertices g = ∅ → connected = true) ∧
    (∀ start, set_begin (Graph.vertices g) = Some start →
       (connected = true ↔
        ∀ v, v ∈ Graph.vertices g → ∃ n, walk (Graph.adjList g) start v n)) ∧
    (Graph.isDirected g = false →
       (connected = true ↔
        ∀ u v, u ∈ Graph.vertices g → v ∈ Graph.vertices g →
               ∃ n, walk (Graph.adjList g) u v n)).
Proof. apply isConnected_cases. Qed.

Lemma X3_isConnected_witness :
  Graph.isConnected scenario_D = Ret false ∧
  ¬ ∀ u v, u ∈ Graph.vertices scenario_D → v ∈ Graph.vertices scenario_D →
           ∃ n, walk (Graph.adjList scenario_D) u v n.
Proof.
  destruct (X3_isConnected KUndirectedGraph scenario_D scenario_D_reachable)
    as (connected & Hret & _ & _ & Hund).
  change (Graph.isConnected scenario_D) with (@Ret bool false) in Hret.
  injection Hret as <-. split; [vm_compute; reflexivity|].
  intros Hall. apply Hund in Hall; [discriminate|vm_compute; reflexivity].
Defined.

(** ** Degrees *)

Section degrees.
Implicit Types (adj : gmap Z (list (Z * Z))) (g : Graph.t).

Lemma getDegree_vertex g v :
  v ∈ Graph.vertices g →
  Graph.getDegree g v = Ret (Z.of_nat (length (Graph.adjList g !!! v))).
Proof.
  intros Hv. unfold Graph.getDegree. rewrite decide_True by done.
  rewrite lookup_total_alt. by destruct (Graph.adjList g !! v).
Qed.

Lemma getDegree_bound g v d :
  Graph.getDegree g v = Ret d →
  0 ≤ d ≤ Z.of_nat (Graph.num_entries (Graph.adjList g)).
Proof.
  unfold Graph.getDegree. case_decide; [|done].
  destruct (Graph.adjList g !! v) as [l|] eqn:Hl; intros [= <-]; [|lia].
  pose proof (lookup_num_entries _ _ _ Hl). lia.
Qed.

Lemma getMinDegree_loop_spec g vs :
  (∀ v, v ∈ vs → v ∈ Graph.vertices g) →
  ∀ minDeg,
    ∃ m, Graph.getMinDegree_loop g vs minDeg = Ret m ∧ m ≤ minDeg ∧
         (∀ v d, v ∈ vs → Graph.getDegree g v = Ret d → m ≤ d) ∧
         (m = minDeg ∨ ∃ v, v ∈ vs ∧ Graph.getDegree g v = Ret m).
Proof.
  induction vs as [|v vs IH]; intros Hvs minDeg; simpl.
  - exists minDeg. split_and!; [done|lia| |by left]. by intros ?? ?%elem_of_nil.
  - rewrite (getDegree_vertex g v) by apply Hvs, list_elem_of_here.
    set (deg := Z.of_nat _).
    destruct (IH (λ x Hx, Hvs x (list_elem_of_further _ _ _ Hx)) (Z.min minDeg deg))
      as (m & -> & Hle & Hall & Hex).
    exists m. split_and!; [done|lia| |].
    + intros x d [->|Hx]%elem_of_cons Hd; [|by apply (Hall x)].
      rewrite (getDegree_vertex g v) in Hd by apply Hvs, list_elem_of_here.
      injection Hd as <-. fold deg. lia.
    + destruct Hex as [->|(x & Hx & Hd)].
      * destruct (Z.min_spec minDeg deg) as [[_ ->]|[_ ->]]; [by left|].
        right. exists v. split; [apply list_elem_of_here|].
        by rewrite (getDegree_vertex g v) by apply Hvs, list_elem_of_here.
      * right. exists x. split; [by apply list_elem_of_further|done].
Qed.

Lemma getMaxDegree_loop_spec g vs :
  (∀ v, v ∈ vs → v ∈ Graph.vertices g) →
  ∀ maxDeg,
    ∃ m, Graph.getMaxDegree_loop g vs maxDeg = Ret m ∧ maxDeg ≤ m ∧
         (∀ v d, v ∈ vs → Graph.getDegree g v = Ret d → d ≤ m) ∧
         (m = maxDeg ∨ ∃ v, v ∈ vs ∧ Graph.getDegree g v = Ret m).
Proof.
  induction vs as [|v vs IH]; intros Hvs maxDeg; simpl.
  - exists maxDeg. split_and!; [done|lia| |by left]. by intros ?? ?%elem_of_nil.
  - rewrite (getDegree_vertex g v) by apply Hvs, list_elem_of_here.
    set (deg := Z.of_nat _).
    destruct (IH (λ x Hx, Hvs x (list_elem_of_further _ _ _ Hx)) (Z.max maxDeg deg))
      as (m & -> & Hle & Hall & Hex).
    exists m. split_and!; [done|lia| |].
    + intros x d [->|Hx]%elem_of_cons Hd; [|by apply (Hall x)].
      rewrite (getDegree_vertex g v) in Hd by apply Hvs, list_elem_of_here.
      injection Hd as <-. fold deg. lia.
    + destruct Hex as [->|(x & Hx & Hd)].
      * destruct (Z.max_spec maxDeg deg) as [[_ ->]|[_ ->]]; [|by left].
        right. exists v. split; [apply list_elem_of_here|].
        by rewrite (getDegree_vertex g v) by apply Hvs, list_elem_of_here.
      * right. exists x. split; [by apply list_elem_of_further|done].
Qed.

Lemma sorted_elems_nonempty (s : gset Z) : s ≠ ∅ → ∃ x, x ∈ sorted_elems s.
Proof.
  intros Hne. destruct (set_choose_L s Hne) as [x Hx]. exists x.
  by apply elem_of_sorted_elems.
Qed.

End degrees.

(** X4.  [getMinDegree()] and [getMaxDegree()] return 0 on a graph with no
    vertex.  On any other graph [getMaxDegree()] returns the greatest of the
    values [getDegree(v)] over the vertices, and [getMinDegree()] the least as
    long as the number of stored entries is at most [INT_MAX]; each of the two
    is the degree of some vertex. *)
Theorem X4_getMinDegree_getMaxDegree g :
  (Graph.vertices g = ∅ →
   Graph.getMinDegree g = Ret 0 ∧ Graph.getMaxDegree g = Ret 0) ∧
  (Graph.vertices g ≠ ∅ →
   (∃ m, Graph.getMaxDegree g = Ret m ∧
         (∃ v, v ∈ Graph.vertices g ∧ Graph.getDegree g v = Ret m) ∧
         ∀ v d, v ∈ Graph.vertices g → Graph.getDegree g v = Ret d → d ≤ m) ∧
   (Z.of_nat (Graph.num_entries (Graph.adjList g)) ≤ INT_MAX →
    ∃ m, Graph.getMinDegree g = Ret m ∧
         (∃ v, v ∈ Graph.vertices g ∧ Graph.getDegree g v = Ret m) ∧
         ∀ v d, v ∈ Graph.vertices g → Graph.getDegree g v = Ret d → m ≤ d)).
Proof.
  split.
  - intros He. unfold Graph.getMinDegree, Graph.getMaxDegree. by rewrite !decide_True.
  - intros Hne. destruct (sorted_elems_nonempty _ Hne) as [x Hx].
    assert (Hvs : ∀ v, v ∈ sorted_elems (Graph.vertices g) → v ∈ Graph.vertices g).
    { intros v. by rewrite elem_of_sorted_elems. }
    split.
    + unfold Graph.getMaxDegree. rewrite decide_False by done.
      destruct (getMaxDegree_loop_spec g _ Hvs 0) as (m & -> & Hle & Hall & Hex).
      exists m. split; [done|]. split.
      * destruct Hex as [->|(v & Hv & Hd)]; [|exists v; split; [by apply Hvs|done]].
        exists x. split; [by apply Hvs|].
        destruct (Graph.getDegree g x) as [d| |] eqn:Hd;
          rewrite (getDegree_vertex g x) in Hd by (by apply Hvs); [|done..].
        pose proof (Hall x d Hx) as Hle'.
        rewrite (getDegree_vertex g x) in Hle' by (by apply Hvs).
        specialize (Hle' Hd). injection Hd as <-. f_equal. lia.
      * intros v d Hv. apply Hall. by apply elem_of_sorted_elems.
    + intros Hbound. unfold Graph.getMinDegree. rewrite decide_False by done.
      destruct (getMinDegree_loop_spec g _ Hvs INT_MAX) as (m & -> & Hle & Hall & Hex).
      exists m. split; [done|]. split.
      * destruct Hex as [->|(v & Hv & Hd)]; [|exists v; split; [by apply Hvs|done]].
        exists x. split; [by apply Hvs|].
        pose proof (getDegree_vertex g x (Hvs x Hx)) as Hd.
        pose proof (Hall x _ Hx Hd). pose proof (getDegree_bound g x _ Hd).
        rewrite Hd. f_equal. lia.
      * intros v d Hv. apply Hall. by apply elem_of_sorted_elems.
Qed.

Lemma X4_getMinDegree_getMaxDegree_witness :
  Graph.getMaxDegree scenario_E = Ret 2 ∧ Graph.getMinDegree scenario_E = Ret 0 ∧
  ∀ v d, v ∈ Graph.vertices scenario_E → Graph.getDegree scenario_E v = Ret d →
         0 ≤ d ≤ 2.
Proof.
  destruct (X4_getMinDegree_getMaxDegree scenario_E) as [_ H].
  destruct H as [(hi & Hhi & _ & Hle) Hmin].
  { intros He. assert (1 ∈ Graph.vertices scenario_E) as H1 by in_set.
    rewrite He in H1. by apply elem_of_empty in H1. }
  destruct Hmin as (lo & Hlo & _ & Hge); [vm_compute; discriminate|].
  change (Graph.getMaxDegree scenario_E) with (@Ret Z 2) in Hhi.
  change (Graph.getMinDegree scenario_E) with (@Ret Z 0) in Hlo.
  injection Hhi as <-. injection Hlo as <-.
  split; [vm_compute; reflexivity|]. split; [vm_compute; reflexivity|].
  intros v d Hv Hd. split; [by apply (Hge v)|by apply (Hle v)].
Defined.

(** ** In-degrees and the number of edges *)

Section handshake.
Implicit Types (adj : gmap Z (list (Z * Z))) (g : Graph.t).

Lemma sum_list_Z_ext (f h : Z → Z) (vs : list Z) :
  (∀ v, v ∈ vs → f v = h v) → sum_list_Z (f <$> vs) = sum_list_Z (h <$> vs).
Proof.
  induction vs as [|v vs IH]; intros Hfh; csimpl; [done|].
  rewrite (Hfh v) by apply list_elem_of_here.
  rewrite IH; [done|]. intros x Hx. by apply Hfh, list_elem_of_further.
Qed.

Lemma sum_list_Z_add (f h : Z → Z) (vs : list Z) :
  sum_list_Z ((λ v, f v + h v) <$> vs) = sum_list_Z (f <$> vs) + sum_list_Z (h <$> vs).
Proof. induction vs as [|v vs IH]; csimpl; [done|]. rewrite IH. lia. Qed.

Lemma sum_list_Z_zero (vs : list Z) : sum_list_Z ((λ _, 0) <$> vs) = 0.
Proof. induction vs as [|v vs IH]; csimpl; [done|]. by rewrite IH. Qed.

Lemma sum_list_Z_indicator (x : Z) (vs : list Z) :
  NoDup vs → x ∈ vs →
  sum_list_Z ((λ v, if decide (x = v) then 1 else 0) <$> vs) = 1.
Proof.
  induction vs as [|v vs IH]; intros Hnd Hx; [by apply elem_of_nil in Hx|].
  apply NoDup_cons in Hnd as [Hv Hnd]. csimpl. case_decide as Hxv.
  - subst. rewrite (sum_list_Z_ext _ (λ _, 0)), sum_list_Z_zero; [done|].
    intros y Hy. rewrite decide_False; [done|]. by intros ->.
  - apply elem_of_cons in Hx as [?|Hx]; [done|]. by rewrite IH.
Qed.

(** The counting loop of [getInDegree]. *)
Lemma inDegree_count_acc (vertex : Z) (es : list (Z * Z * Z)) (acc : Z) :
  foldl (λ inDegree '(_, dest, _), if decide (dest = vertex) then inDegree + 1 else inDegree)
        acc es
  = acc + Z.of_nat (length (filter (λ e : Z * Z * Z, e.1.2 = vertex) es)).
Proof.
  revert acc. induction es as [|[[s d] w] es IH]; intros acc; simpl; [lia|].
  rewrite IH, filter_cons. simpl. case_decide; simpl; lia.
Qed.

Lemma getInDegree_directed g v :
  v ∈ Graph.vertices g → Graph.isDirected g = true →
  Graph.getInDegree g v
  = Ret (Z.of_nat (length (filter (λ e : Z * Z * Z, e.1.2 = v)
                                  (edge_triples (Graph.adjList g))))).
Proof.
  intros Hv Hd. unfold Graph.getInDegree. rewrite decide_True, Hd by done.
  by rewrite inDegree_count_acc.
Qed.

(** Each element of [es] is counted at exactly one of the vertices. *)
Lemma sum_of_counts (vs : list Z) (es : list (Z * Z * Z)) :
  NoDup vs → (∀ e, e ∈ es → e.1.2 ∈ vs) →
  sum_list_Z ((λ v, Z.of_nat (length (filter (λ e : Z * Z * Z, e.1.2 = v) es))) <$> vs)
  = Z.of_nat (length es).
Proof.
  intros Hnd. induction es as [|e es IH]; intros Hes.
  - simpl. apply sum_list_Z_zero.
  - rewrite (sum_list_Z_ext _
      (λ v, (if decide (e.1.2 = v) then 1 else 0)
            + Z.of_nat (length (filter (λ e0 : Z * Z * Z, e0.1.2 = v) es)))).
    + rewrite sum_list_Z_add, sum_list_Z_indicator, IH.
      * simpl length. lia.
      * intros e' He'. by apply Hes, list_elem_of_further.
      * done.
      * apply Hes, list_elem_of_here.
    + intros v _. rewrite filter_cons. case_decide; simpl length; lia.
Qed.

(** The sum of the lengths of the adjacency lists is the number of entries. *)
Lemma count_entries adj :
  foldl (λ c p, c + Z.of_nat (length p.2)) 0 (map_entries adj)
  = Z.of_nat (Graph.num_entries adj).
Proof.
  unfold Graph.num_entries, edge_triples.
  assert (∀ (ps : list (Z * list (Z * Z))) acc,
            foldl (λ c p, c + Z.of_nat (length p.2)) acc ps
            = acc + Z.of_nat (length (ps ≫= λ '(src, l), (λ p, (src, p.1, p.2)) <$> l)))
    as ->; [|lia].
  induction ps as [|[k l] ps IH]; intros acc; csimpl; [lia|].
  rewrite IH, length_app, length_fmap. simpl. lia.
Qed.

Lemma count_entries_sum adj :
  sum_list_Z ((λ v, Z.of_nat (length (adj !!! v))) <$> sorted_elems (dom adj))
  = Z.of_nat (Graph.num_entries adj).
Proof.
  rewrite <-count_entries. unfold map_entries.
  assert (∀ (vs : list Z) acc,
            foldl (λ c p, c + Z.of_nat (length p.2)) acc ((λ k, (k, adj !!! k)) <$> vs)
            = acc + sum_list_Z ((λ v, Z.of_nat (length (adj !!! v))) <$> vs))
    as ->; [|lia].
  induction vs as [|v vs IH]; intros acc; csimpl; [lia|].
  rewrite IH. simpl. lia.
Qed.

Lemma getNumEdges_directed g :
  Graph.isDirected g = true →
  Graph.getNumEdges g = Z.of_nat (Graph.num_entries (Graph.adjList g)).
Proof. intros Hd. unfold Graph.getNumEdges. by rewrite Hd, count_entries. Qed.

End handshake.

(** X5.  [getInDegree(v)] throws [invalid_argument] when [v] is not a
    vertex and is [getDegree(v)] on an undirected graph.  On a directed graph
    the in-degrees of the vertices add up to [getNumEdges()], and so do the
    out-degrees that [getDegree] returns. *)
Theorem X5_getInDegree k g :
  reachable k g →
  (∀ v, v ∉ Graph.vertices g →
        Graph.getInDegree g v = Throw (invalid_argument "Vertex not found in graph")) ∧
  (Graph.isDirected g = false → ∀ v, Graph.getInDegree g v = Graph.getDegree g v) ∧
  (Graph.isDirected g = true →
   ∃ ins outs,
     Forall2 (λ v d, Graph.getInDegree g v = Ret d) (sorted_elems (Graph.vertices g)) ins ∧
     Forall2 (λ v d, Graph.getDegree g v = Ret d) (sorted_elems (Graph.vertices g)) outs ∧
     sum_list_Z ins = Graph.getNumEdges g ∧
     sum_list_Z outs = Graph.getNumEdges g).
Proof.
  intros Hr. pose proof (reachable_wf k g Hr) as Hwf. split_and!.
  - intros v Hv. unfold Graph.getInDegree. by rewrite decide_False.
  - intros Hd v. unfold Graph.getInDegree, Graph.getDegree. rewrite Hd.
    by case_decide.
  - intros Hd.
    exists ((λ v, Z.of_nat (length (filter (λ e : Z * Z * Z, e.1.2 = v)
                                          (edge_triples (Graph.adjList g)))))
              <$> sorted_elems (Graph.vertices g)),
           ((λ v, Z.of_nat (length (Graph.adjList g !!! v)))
              <$> sorted_elems (Graph.vertices g)).
    split_and!.
    + apply Forall2_fmap_r, Forall_Forall2_diag, Forall_forall.
      intros v Hv%elem_of_sorted_elems. by apply getInDegree_directed.
    + apply Forall2_fmap_r, Forall_Forall2_diag, Forall_forall.
      intros v Hv%elem_of_sorted_elems. by apply getDegree_vertex.
    + rewrite getNumEdges_directed by done. apply sum_of_counts.
      * apply NoDup_sorted_elems.
      * intros [[s d] w] He. simpl. apply elem_of_sorted_elems.
        by apply (edge_triples_wf g s d w).
    + rewrite getNumEdges_directed by done.
      destruct Hwf as (_ & <- & _). apply count_entries_sum.
Qed.

Lemma X5_getInDegree_witness :
  ∃ ins outs,
    Forall2 (λ v d, Graph.getInDegree scenario_E v = Ret d)
            (sorted_elems (Graph.vertices scenario_E)) ins ∧
    Forall2 (λ v d, Graph.getDegree scenario_E v = Ret d)
            (sorted_elems (Graph.vertices scenario_E)) outs ∧
    sum_list_Z ins = 3 ∧ sum_list_Z outs = 3.
Proof.
  destruct (X5_getInDegree KDirectedGraph scenario_E scenario_E_reachable) as (_ & _ & H).
  destruct H as (ins & outs & Hins & Houts & Hsi & Hso); [vm_compute; reflexivity|].
  exists ins, outs. split; [done|]. split; [done|].
  change (Graph.getNumEdges scenario_E) with 3 in Hsi, Hso. by split.
Defined.

(** ** Diameter *)

Section diameter.
Implicit Types (adj : gmap Z (list (Z * Z))) (g : Graph.t) (V : gset Z).

Lemma getDistance_spec g src dest :
  src ∈ Graph.vertices g → dest ∈ Graph.vertices g → src ≠ dest →
  ∃ d, Graph.getDistance g src dest = Ret d ∧
       distance_result (Graph.adjList g) src dest d.
Proof.
  intros Hs Hd Hne. unfold Graph.getDistance.
  rewrite decide_True, decide_False by done.
  apply (getDistance_loop_spec _ src dest); [by apply distance_inv_init|].
  simpl. pose proof (size_targets (Graph.adjList g)).
  assert (targets (Graph.adjList g) ∖ {[src]} ⊆ targets (Graph.adjList g))
    as ?%subseteq_size by set_solver.
  lia.
Qed.

Lemma shortest_unique adj u v n m : shortest adj u v n → shortest adj u v m → n = m.
Proof. intros [Hn Hln] [Hm Hlm]. apply Hln in Hm. apply Hlm in Hn. lia. Qed.

Lemma shortest_prefix adj u w n :
  shortest adj u w (S n) → ∃ v, shortest adj u v n ∧ edge adj v w.
Proof.
  intros [Hw Hmin]. inversion Hw as [|v w' n' Hv He]; subst.
  exists v. split; [|done]. split; [done|]. intros m Hm.
  assert (S n ≤ S m)%nat; [|lia]. apply Hmin. by eapply walk_snoc.
Qed.

Lemma shortest_layers adj u n :
  ∀ v, shortest adj u v n →
       ∃ L : gset Z, size L = S n ∧
                     ∀ x, x ∈ L → ∃ k, (k ≤ n)%nat ∧ shortest adj u x k.
Proof.
  induction n as [|n IH]; intros v Hv.
  - exists {[v]}. split; [by rewrite size_singleton|].
    intros x ->%elem_of_singleton. by exists 0%nat.
  - destruct (shortest_prefix adj u v n Hv) as (v' & Hv' & He).
    destruct (IH v' Hv') as (L & Hsize & HL).
    exists ({[v]} ∪ L). split.
    + rewrite size_union, size_singleton, Hsize; [done|].
      intros x ->%elem_of_singleton Hx. destruct (HL v Hx) as (k & Hk & Hsk).
      pose proof (shortest_unique _ _ _ _ _ Hv Hsk). lia.
    + intros x [->%elem_of_singleton|Hx]%elem_of_union; [by exists (S n)|].
      destruct (HL x Hx) as (k & Hk & Hsk). exists k. split; [lia|done].
Qed.

(** A shortest walk has fewer edges than the graph has vertices. *)
Lemma shortest_lt_size g u v n :
  wf g → u ∈ Graph.vertices g → shortest (Graph.adjList g) u v n →
  (n < size (Graph.vertices g))%nat.
Proof.
  intros Hwf Hu Hs. destruct (shortest_layers _ u n v Hs) as (L & Hsize & HL).
  assert (L ⊆ Graph.vertices g) as Hsub%subseteq_size; [|lia].
  intros x (k & _ & [Hk _])%HL. by apply (walk_in_vertices g u x k).
Qed.

Lemma farthest_spec g src dests :
  src ∈ Graph.vertices g → (∀ v, v ∈ dests → v ∈ Graph.vertices g) →
  ∀ acc : nat,
    (Graph.farthest g src dests (Z.of_nat acc) = Ret (inl (-1)) ∧
     ∃ v, v ∈ dests ∧ v ≠ src ∧ ∀ n, ¬ walk (Graph.adjList g) src v n) ∨
    (∃ m : nat,
       Graph.farthest g src dests (Z.of_nat acc) = Ret (inr (Z.of_nat m)) ∧
       (acc ≤ m)%nat ∧
       (∀ v, v ∈ dests → v ≠ src →
             ∃ n, shortest (Graph.adjList g) src v n ∧ (n ≤ m)%nat) ∧
       (m = acc ∨ ∃ v, v ∈ dests ∧ v ≠ src ∧ shortest (Graph.adjList g) src v m)).
Proof.
  intros Hs. induction dests as [|dest dests IH]; intros Hds acc; simpl.
  - right. exists acc. split_and!; [done|lia| |by left]. by intros ? ?%elem_of_nil.
  - assert (Hds' : ∀ v, v ∈ dests → v ∈ Graph.vertices g).
    { intros v Hv. by apply Hds, list_elem_of_further. }
    case_decide as Hne.
    + destruct (getDistance_spec g src dest Hs) as (d & -> & Hd);
        [apply Hds, list_elem_of_here|done|].
      destruct Hd as [[-> Hno]|(n & -> & Hpos & Hn)].
      * rewrite decide_True by done. left. split; [done|].
        exists dest. split_and!; [apply list_elem_of_here|done..].
      * rewrite decide_False by lia.
        replace (Z.max (Z.of_nat acc) (Z.of_nat n)) with (Z.of_nat (Nat.max acc n)) by lia.
        destruct (IH Hds' (Nat.max acc n)) as [[Heq (v & Hv & Hvs & Hno)]|
                                              (m & Heq & Hle & Hall & Hex)].
        -- left. split; [done|]. exists v. split_and!; [by apply list_elem_of_further|done..].
        -- right. exists m. split_and!; [done|lia| |].
           ++ intros v [->|Hv]%elem_of_cons Hvs; [|by apply Hall].
              exists n. split; [done|lia].
           ++ destruct Hex as [->|(v & Hv & Hvs & Hsh)].
              ** destruct (Nat.max_spec acc n) as [[_ ->]|[_ ->]]; [|by left].
                 right. exists dest. split_and!; [apply list_elem_of_here|done..].
              ** right. exists v. split_and!; [by apply list_elem_of_further|done..].
    + subst dest.
      destruct (IH Hds' acc) as [[Heq (v & Hv & Hvs & Hno)]|(m & Heq & Hle & Hall & Hex)].
      * left. split; [done|]. exists v. split_and!; [by apply list_elem_of_further|done..].
      * right. exists m. split_and!; [done..| |].
        -- intros v [->|Hv]%elem_of_cons Hvs; [done|by apply Hall].
        -- destruct Hex as [->|(v & Hv & Hvs & Hsh)]; [by left|].
           right. exists v. split_and!; [by apply list_elem_of_further|done..].
Qed.

Lemma getDiameter_loop_spec g srcs :
  (∀ u, u ∈ srcs → u ∈ Graph.vertices g) →
  ∀ acc : nat,
    (Graph.getDiameter_loop g srcs (Z.of_nat acc) = Ret (-1) ∧
     disconnected (Graph.adjList g) (Graph.vertices g)) ∨
    (∃ m : nat,
       Graph.getDiameter_loop g srcs (Z.of_nat acc) = Ret (Z.of_nat m) ∧
       (acc ≤ m)%nat ∧
       (∀ u v, u ∈ srcs → v ∈ Graph.vertices g → v ≠ u →
               ∃ n, shortest (Graph.adjList g) u v n ∧ (n ≤ m)%nat) ∧
       (m = acc ∨ ∃ u v, u ∈ srcs ∧ v ∈ Graph.vertices g ∧ v ≠ u ∧
                         shortest (Graph.adjList g) u v m)).
Proof.
  induction srcs as [|src srcs IH]; intros Hsrcs acc; simpl.
  - right. exists acc. split_and!; [done|lia| |by left]. by intros ?? ?%elem_of_nil.
  - assert (Hsrcs' : ∀ u, u ∈ srcs → u ∈ Graph.vertices g).
    { intros u Hu. by apply Hsrcs, list_elem_of_further. }
    destruct (farthest_spec g src (sorted_elems (Graph.vertices g))) with (acc := acc)
      as [[-> (v & Hv & Hvs & Hno)]|(m & -> & Hle & Hall & Hex)].
    { apply Hsrcs, list_elem_of_here. }
    { intros v. by rewrite elem_of_sorted_elems. }
    + left. split; [done|]. exists src, v.
      split_and!; [apply Hsrcs, list_elem_of_here|by apply elem_of_sorted_elems|done..].
    + destruct (IH Hsrcs' m) as [[-> Hdis]|(m' & -> & Hle' & Hall' & Hex')]; [by left|].
      right. exists m'. split_and!; [done|lia| |].
      * intros u v [->|Hu]%elem_of_cons Hv Hvu; [|by apply Hall'].
        destruct (Hall v) as (n & Hn & Hnm); [by apply elem_of_sorted_elems|done|].
        exists n. split; [done|lia].
      * destruct Hex' as [->|(u & v & Hu & Hv & Hvu & Hsh)].
        -- destruct Hex as [->|(v & Hv & Hvs & Hsh)]; [by left|].
           right. exists src, v.
           split_and!; [apply list_elem_of_here|by apply elem_of_sorted_elems|done..].
        -- right. exists u, v. split_and!; [by apply list_elem_of_further|done..].
Qed.

Lemma two_vertices V : (1 < size V)%nat → ∃ u v, u ∈ V ∧ v ∈ V ∧ u ≠ v.
Proof.
  intros Hsize. destruct (set_choose_L V) as [u Hu].
  { intros ->. rewrite size_empty in Hsize. lia. }
  destruct (set_choose_L (V ∖ {[u]})) as [v Hv].
  { intros He. assert (V = {[u]}) as ->.
    { apply set_eq. intros x. rewrite elem_of_singleton. split; [|by intros ->].
      intros Hx. destruct (decide (x = u)) as [|Hne]; [done|].
      assert (x ∈ V ∖ {[u]}) as Hin.
      { apply elem_of_difference. split; [done|]. by rewrite elem_of_singleton. }
      rewrite He in Hin. by apply elem_of_empty in Hin. }
    rewrite size_singleton in Hsize. lia. }
  apply elem_of_difference in Hv as [Hv Hne]. rewrite elem_of_singleton in Hne.
  exists u, v. split_and!; [done..|]. by intros ->.
Qed.

Lemma small_size V : (size V ≤ 1)%nat → V = ∅ ∨ size V = 1%nat.
Proof.
  intros Hs. destruct (decide (size V = 0%nat)) as [H0%size_empty_inv|]; [|right; lia].
  left. by apply leibniz_equiv.
Qed.

End diameter.

(** What [getDiameter] returns. *)
Lemma getDiameter_cases g :
  ((size (Graph.vertices g) ≤ 1)%nat → Graph.getDiameter g = Ret 0) ∧
  ((1 < size (Graph.vertices g))%nat →
   (Graph.getDiameter g = Ret (-1) ∧
    disconnected (Graph.adjList g) (Graph.vertices g)) ∨
   (∃ diameter : nat,
      Graph.getDiameter g = Ret (Z.of_nat diameter) ∧
      (∀ u v, u ∈ Graph.vertices g → v ∈ Graph.vertices g → v ≠ u →
              ∃ n, shortest (Graph.adjList g) u v n ∧ (n ≤ diameter)%nat) ∧
      ∃ u v, u ∈ Graph.vertices g ∧ v ∈ Graph.vertices g ∧ v ≠ u ∧
             shortest (Graph.adjList g) u v diameter)).
Proof.
  unfold Graph.getDiameter. split.
  - intros [He|Hone]%small_size; [by rewrite decide_True|].
    case_decide; [done|]. by rewrite decide_True.
  - intros Hsize.
    rewrite decide_False by (intros He; rewrite He, size_empty in Hsize; lia).
    rewrite decide_False by lia.
    destruct (getDiameter_loop_spec g (sorted_elems (Graph.vertices g))) with (acc := 0%nat)
      as [?|(m & Heq & _ & Hall & Hex)]; [by intros u; rewrite elem_of_sorted_elems|by left|].
    right. exists m. split; [done|]. split.
    + intros u v Hu Hv Hvu. apply Hall; [by apply elem_of_sorted_elems|done..].
    + destruct Hex as [->|(u & v & Hu%elem_of_sorted_elems & Hv & Hvu & Hsh)];
        [|by exists u, v].
      destruct (two_vertices _ Hsize) as (u & v & Hu & Hv & Huv).
      destruct (Hall u v) as (n & Hn & Hle); [by apply elem_of_sorted_elems|done..|].
      assert (n = 0%nat) as -> by lia. destruct Hn as [Hw _]. inversion Hw. by subst.
Qed.

(** X6.  [getDiameter()] returns 0 on a graph with at most one vertex.  On
    a graph with more vertices it returns -1 when there are two distinct
    vertices with no walk from the first to the second; otherwise it returns
    the greatest distance between two distinct vertices, the distance from [u]
    to [v] being the least number of edges of a walk from [u] to [v]. *)
Theorem X6_getDiameter g :
  ((size (Graph.vertices g) ≤ 1)%nat → Graph.getDiameter g = Ret 0) ∧
  ((1 < size (Graph.vertices g))%nat →
   (Graph.getDiameter g = Ret (-1) ∧
    disconnected (Graph.adjList g) (Graph.vertices g)) ∨
   (∃ diameter : nat,
      Graph.getDiameter g = Ret (Z.of_nat diameter) ∧
      (∀ u v, u ∈ Graph.vertices g → v ∈ Graph.vertices g → v ≠ u →
              ∃ n, shortest (Graph.adjList g) u v n ∧ (n ≤ diameter)%nat) ∧
      ∃ u v, u ∈ Graph.vertices g ∧ v ∈ Graph.vertices g ∧ v ≠ u ∧
             shortest (Graph.adjList g) u v diameter)).
Proof. apply getDiameter_cases. Qed.

Lemma X6_getDiameter_witness :
  Graph.getDiameter scenario_C = Ret 2 ∧
  (∀ u v, u ∈ Graph.vertices scenario_C → v ∈ Graph.vertices scenario_C → v ≠ u →
          ∃ n, shortest (Graph.adjList scenario_C) u v n ∧ (n ≤ 2)%nat) ∧
  Graph.getDiameter scenario_D = Ret (-1) ∧
  disconnected (Graph.adjList scenario_D) (Graph.vertices scenario_D).
Proof.
  destruct (X6_getDiameter scenario_C) as [_ HC].
  destruct (X6_getDiameter scenario_D) as [_ HD].
  split; [vm_compute; reflexivity|]. split.
  - destruct HC as [[Hret _]|(diameter & Hret & Hall & _)]; [vm_compute; lia| |].
    + exfalso. change (Graph.getDiameter scenario_C) with (@Ret Z 2) in Hret.
      discriminate.
    + change (Graph.getDiameter scenario_C) with (@Ret Z 2) in Hret.
      injection Hret as Hret. assert (diameter = 2%nat) as -> by lia. exact Hall.
  - split; [vm_compute; reflexivity|].
    destruct HD as [[_ Hdis]|(diameter & Hret & _)]; [vm_compute; lia|exact Hdis|].
    exfalso. change (Graph.getDiameter scenario_D) with (@Ret Z (-1)) in Hret.
    injection Hret as Hret. lia.
Defined.

(** ** Radius *)

Section radius.
Implicit Types (adj : gmap Z (list (Z * Z))) (g : Graph.t) (V : gset Z).

Lemma eccentricity_unique adj V u e e' :
  eccentricity adj V u e → eccentricity adj V u e' → e = e'.
Proof.
  intros [Hall (v & Hv & Hvu & Hsh)] [Hall' (v' & Hv' & Hvu' & Hsh')].
  destruct (Hall v' Hv' Hvu') as (n & Hn & Hle).
  destruct (Hall' v Hv Hvu) as (n' & Hn' & Hle').
  rewrite (shortest_unique _ _ _ _ _ Hn Hsh') in Hle.
  rewrite (shortest_unique _ _ _ _ _ Hn' Hsh) in Hle'. lia.
Qed.

Lemma farthest_eccentricity g src :
  (1 < size (Graph.vertices g))%nat → src ∈ Graph.vertices g →
  (Graph.farthest g src (sorted_elems (Graph.vertices g)) 0 = Ret (inl (-1)) ∧
   disconnected (Graph.adjList g) (Graph.vertices g)) ∨
  (∃ e : nat,
     Graph.farthest g src (sorted_elems (Graph.vertices g)) 0 = Ret (inr (Z.of_nat e)) ∧
     eccentricity (Graph.adjList g) (Graph.vertices g) src e).
Proof.
  intros Hsize Hs.
  destruct (farthest_spec g src (sorted_elems (Graph.vertices g)) Hs) with (acc := 0%nat)
    as [[Heq (v & Hv & Hvs & Hno)]|(m & Heq & _ & Hall & Hex)].
  { intros v. by rewrite elem_of_sorted_elems. }
  - left. split; [done|]. exists src, v.
    split_and!; [done|by apply elem_of_sorted_elems|done..].
  - right. exists m. split; [done|]. split.
    + intros v Hv Hvs. apply Hall; [by apply elem_of_sorted_elems|done].
    + destruct Hex as [->|(v & Hv%elem_of_sorted_elems & Hvs & Hsh)]; [|by exists v].
      destruct (two_vertices _ Hsize) as (a & b & Ha & Hb & Hab).
      assert (∃ v, v ∈ Graph.vertices g ∧ v ≠ src) as (v & Hv & Hvs).
      { destruct (decide (a = src)) as [->|]; [exists b|exists a]; split; congruence. }
      destruct (Hall v) as (n & Hn & Hle); [by apply elem_of_sorted_elems|done|].
      assert (n = 0%nat) as -> by lia. destruct Hn as [Hw _]. inversion Hw. by subst.
Qed.

Lemma getRadius_loop_spec g srcs :
  (1 < size (Graph.vertices g))%nat →
  (∀ u, u ∈ srcs → u ∈ Graph.vertices g) →
  ∀ radius : Z,
    (Graph.getRadius_loop g srcs radius = Ret (-1) ∧
     disconnected (Graph.adjList g) (Graph.vertices g)) ∨
    (∃ r : Z,
       Graph.getRadius_loop g srcs radius = Ret r ∧ r ≤ radius ∧
       (∀ u, u ∈ srcs →
             ∃ e, eccentricity (Graph.adjList g) (Graph.vertices g) u e ∧ r ≤ Z.of_nat e) ∧
       (r = radius ∨
        ∃ u e, u ∈ srcs ∧ eccentricity (Graph.adjList g) (Graph.vertices g) u e ∧
               r = Z.of_nat e)).
Proof.
  intros Hsize. induction srcs as [|src srcs IH]; intros Hsrcs radius; simpl.
  - right. exists radius. split_and!; [done|lia| |by left]. by intros ? ?%elem_of_nil.
  - assert (Hsrcs' : ∀ u, u ∈ srcs → u ∈ Graph.vertices g).
    { intros u Hu. by apply Hsrcs, list_elem_of_further. }
    destruct (farthest_eccentricity g src Hsize) as [[-> Hdis]|(e & -> & Hecc)];
      [apply Hsrcs, list_elem_of_here|by left|].
    destruct (IH Hsrcs' (Z.min radius (Z.of_nat e)))
      as [[-> Hdis]|(r & -> & Hle & Hall & Hex)]; [by left|].
    right. exists r. split_and!; [done|lia| |].
    + intros u [->|Hu]%elem_of_cons; [|by apply Hall]. exists e. split; [done|lia].
    + destruct Hex as [->|(u & e' & Hu & He' & ->)].
      * destruct (Z.min_spec radius (Z.of_nat e)) as [[_ ->]|[_ ->]]; [by left|].
        right. exists src, e. split_and!; [apply list_elem_of_here|done..].
      * right. exists u, e'. split_and!; [by apply list_elem_of_further|done..].
Qed.

Lemma eccentricity_lt_size g u e :
  wf g → u ∈ Graph.vertices g →
  eccentricity (Graph.adjList g) (Graph.vertices g) u e →
  (e < size (Graph.vertices g))%nat.
Proof. intros Hwf Hu (_ & v & _ & _ & Hsh). by apply (shortest_lt_size g u v). Qed.

End radius.

(** What [getRadius] returns. *)
Lemma getRadius_cases k g :
  reachable k g →
  ((size (Graph.vertices g) ≤ 1)%nat → Graph.getRadius g = Ret 0) ∧
  ((1 < size (Graph.vertices g))%nat → Graph.getNumVertices g ≤ INT_MAX →
   (Graph.getRadius g = Ret (-1) ∧
    disconnected (Graph.adjList g) (Graph.vertices g)) ∨
   (∃ radius : nat,
      Graph.getRadius g = Ret (Z.of_nat radius) ∧
      (∃ u, u ∈ Graph.vertices g ∧
            eccentricity (Graph.adjList g) (Graph.vertices g) u radius) ∧
      (∀ u e, u ∈ Graph.vertices g →
              eccentricity (Graph.adjList g) (Graph.vertices g) u e →
              (radius ≤ e)%nat) ∧
      ∀ u, u ∈ Graph.vertices g →
           ∃ e, eccentricity (Graph.adjList g) (Graph.vertices g) u e)).
Proof.
  intros Hr. pose proof (reachable_wf k g Hr) as Hwf.
  unfold Graph.getRadius. split.
  - intros [He|Hone]%small_size; [by rewrite decide_True|].
    case_decide; [done|]. by rewrite decide_True.
  - intros Hsize Hmax.
    assert (Hne : Graph.vertices g ≠ ∅).
    { intros He. rewrite He, size_empty in Hsize. lia. }
    rewrite decide_False by done. rewrite decide_False by lia.
    destruct (getRadius_loop_spec g (sorted_elems (Graph.vertices g)) Hsize)
      with (radius := INT_MAX) as [?|(r & Heq & _ & Hall & Hex)];
      [by intros u; rewrite elem_of_sorted_elems|by left|].
    right.
    assert (∃ u e, u ∈ Graph.vertices g ∧
                   eccentricity (Graph.adjList g) (Graph.vertices g) u e ∧
                   r = Z.of_nat e) as (u & e & Hu & He & ->).
    { destruct Hex as [->|(u & e & Hu%elem_of_sorted_elems & He & ->)]; [|by exists u, e].
      destruct (sorted_elems_nonempty _ Hne) as [u Hu].
      destruct (Hall u Hu) as (e & He & Hle). apply elem_of_sorted_elems in Hu.
      pose proof (eccentricity_lt_size g u e Hwf Hu He) as Hlt.
      destruct Hwf as (Hn & _). unfold Graph.getNumVertices in Hmax. lia. }
    exists e. split; [done|]. split; [by exists u|]. split.
    + intros u' e' Hu' He'. destruct (Hall u') as (e'' & He'' & Hle);
        [by apply elem_of_sorted_elems|].
      rewrite (eccentricity_unique _ _ _ _ _ He' He''). lia.
    + intros u' Hu'. destruct (Hall u') as (e'' & He'' & _);
        [by apply elem_of_sorted_elems|]. by exists e''.
Qed.

(** X7.  [getRadius()] returns 0 on a graph with at most one vertex.  On a
    graph with more vertices, whose count is at most [INT_MAX], it returns -1
    when there are two distinct vertices with no walk from the first to the
    second; otherwise every vertex reaches every other one and so has an
    eccentricity, its greatest distance to another vertex, and [getRadius()]
    returns the least of the eccentricities. *)
Theorem X7_getRadius k g :
  reachable k g →
  ((size (Graph.vertices g) ≤ 1)%nat → Graph.getRadius g = Ret 0) ∧
  ((1 < size (Graph.vertices g))%nat → Graph.getNumVertices g ≤ INT_MAX →
   (Graph.getRadius g = Ret (-1) ∧
    disconnected (Graph.adjList g) (Graph.vertices g)) ∨
   (∃ radius : nat,
      Graph.getRadius g = Ret (Z.of_nat radius) ∧
      (∃ u, u ∈ Graph.vertices g ∧
            eccentricity (Graph.adjList g) (Graph.vertices g) u radius) ∧
      (∀ u e, u ∈ Graph.vertices g →
              eccentricity (Graph.adjList g) (Graph.vertices g) u e →
              (radius ≤ e)%nat) ∧
      ∀ u, u ∈ Graph.vertices g →
           ∃ e, eccentricity (Graph.adjList g) (Graph.vertices g) u e)).
Proof. apply getRadius_cases. Qed.

Lemma X7_getRadius_witness :
  Graph.getRadius scenario_C = Ret 2 ∧
  ∃ u, u ∈ Graph.vertices scenario_C ∧
       eccentricity (Graph.adjList scenario_C) (Graph.vertices scenario_C) u 2.
Proof.
  destruct (X7_getRadius KBipartiteGraph scenario_C scenario_C_reachable) as [_ H].
  split; [vm_compute; reflexivity|].
  destruct H as [[Hret _]|(radius & Hret & Hex & _)];
    [vm_compute; lia|vm_compute; discriminate| |].
  - exfalso. change (Graph.getRadius scenario_C) with (@Ret Z 2) in Hret. discriminate.
  - change (Graph.getRadius scenario_C) with (@Ret Z 2) in Hret.
    injection Hret as Hret. assert (radius = 2%nat) as -> by lia. exact Hex.
Defined.

(** ** Circumference *)

Section circumference.
Implicit Types (adj : gmap Z (list (Z * Z))) (g : Graph.t) (visited : gset Z).

Lemma dfsLongestCycle_scan_spec adj rec start current dist (forbidden : gset Z) bound l :
  start ∈ forbidden → 0 ≤ dist →
  (∀ next distance,
     next ∉ forbidden → next ∈ targets adj →
     (size (targets adj ∖ forbidden) ≤ bound)%nat →
     ∃ m distance',
       rec next forbidden distance = Ret (m, forbidden, distance') ∧
       longest_return adj start ({[next]} ∪ forbidden) next (dist + 1) m) →
  (∀ p, p ∈ l → edge adj current p.1) →
  (size (targets adj ∖ forbidden) ≤ bound)%nat →
  ∀ distance maxCycle,
    0 ≤ maxCycle →
    ∃ m distance',
      Graph.dfsLongestCycle_scan rec start dist l forbidden distance maxCycle
      = Ret (m, forbidden, distance') ∧
      maxCycle ≤ m ∧
      (m = maxCycle ∨
       ∃ k : nat, returns_to adj start forbidden current k ∧
                  1 < dist + Z.of_nat k ∧ m = dist + Z.of_nat k + 1) ∧
      (start ∈ l.*1 → 1 < dist → dist + 1 ≤ m) ∧
      (∀ next (k : nat),
         next ∈ l.*1 → next ∉ forbidden →
         returns_to adj start ({[next]} ∪ forbidden) next k →
         1 < dist + Z.of_nat (S k) →
         dist + Z.of_nat (S k) + 1 ≤ m).
Proof.
  intros Hstart Hdist Hrec. induction l as [|p l IH]; intros Hl Hsize distance maxCycle Hmax; simpl.
  - exists maxCycle, distance. split_and!; [done|lia|by left|..].
    + by intros ?%elem_of_nil.
    + by intros ?? ?%elem_of_nil.
  - assert (Hl' : ∀ p', p' ∈ l → edge adj current p'.1).
    { intros p' Hp'. by apply Hl, list_elem_of_further. }
    assert (Hp : edge adj current p.1) by apply Hl, list_elem_of_here.
    destruct (decide (p.1 = start ∧ 1 < dist)) as [[Hps Hd]|Hnot].
    + destruct (IH Hl' Hsize distance (Z.max maxCycle (dist + 1)))
        as (m & distance' & -> & Hle & Hex & Hc1 & Hc2); [lia|].
      exists m, distance'. split_and!; [done|lia| |lia|].
      * destruct Hex as [->|?]; [|by right].
        destruct (Z.max_spec maxCycle (dist + 1)) as [[_ ->]|[_ ->]]; [|by left].
        right. exists 0%nat. split_and!; [|lia..]. apply returns_here. by rewrite <-Hps.
      * intros next k [->|Hn]%elem_of_cons Hnf Hret Hk; [|by apply (Hc2 next)].
        (* p.1 = start is forbidden *)
        by rewrite Hps in Hnf.
    + destruct (decide (p.1 ∈ forbidden)) as [Hin|Hnin].
      * destruct (IH Hl' Hsize distance maxCycle Hmax)
          as (m & distance' & -> & Hle & Hex & Hc1 & Hc2).
        exists m, distance'. split_and!; [done..| |].
        -- intros [Hps|Hn]%elem_of_cons Hd; [|by apply Hc1]. destruct Hnot. by split.
        -- intros next k [->|Hn]%elem_of_cons Hnf Hret Hk; [done|by apply (Hc2 next)].
      * destruct (Hrec p.1 distance Hnin (edge_targets _ _ _ Hp) Hsize)
          as (found & distance1 & -> & [Hfound Hbest]).
        assert (0 ≤ found).
        { destruct Hfound as [->|(k & _ & _ & ->)]; lia. }
        destruct (IH Hl' Hsize distance1 (Z.max maxCycle found))
          as (m & distance' & -> & Hle & Hex & Hc1 & Hc2); [lia|].
        exists m, distance'. split_and!; [done|lia| | |].
        -- destruct Hex as [->|?]; [|by right].
           destruct (Z.max_spec maxCycle found) as [[Hlt ->]|[_ ->]]; [|by left].
           destruct Hfound as [->|(k & Hret & Hk & ->)].
           ++ left. lia.
           ++ right. exists (S k). split_and!; [|lia..]. by eapply returns_step.
        -- intros [Hps|Hn]%elem_of_cons Hd; [|by apply Hc1].
           destruct Hnin. by rewrite <-Hps.
        -- intros next k [->|Hn]%elem_of_cons Hnf Hret Hk; [|by apply (Hc2 next)].
           pose proof (Hbest k Hret). lia.
Qed.

Lemma dfsLongestCycle_spec adj start fuel :
  ∀ current visited distance dist,
    start ∈ {[current]} ∪ visited → current ∉ visited → 0 ≤ dist →
    (size (targets adj ∖ ({[current]} ∪ visited)) < fuel)%nat →
    ∃ m distance',
      Graph.dfsLongestCycle fuel adj start current visited distance dist
      = Ret (m, visited, distance') ∧
      longest_return adj start ({[current]} ∪ visited) current dist m.
Proof.
  induction fuel as [|fuel IH]; intros current visited distance dist Hs Hc Hd Hsize; [lia|].
  simpl.
  assert (Hback : ({[current]} ∪ visited) ∖ {[current]} = visited) by set_solver.
  destruct (adj !! current) as [l|] eqn:Hl.
  - destruct (dfsLongestCycle_scan_spec adj
                (λ next visited distance,
                   Graph.dfsLongestCycle fuel adj start next visited distance (dist + 1))
                start current dist ({[current]} ∪ visited) fuel l Hs Hd)
      with (distance := <[current := dist]> distance) (maxCycle := 0)
      as (m & distance' & -> & Hle & Hex & Hc1 & Hc2); [| |lia|done|].
    + intros next distance1 Hn Ht Hsz.
      destruct (IH next ({[current]} ∪ visited) distance1 (dist + 1))
        as (m & distance' & Heq & Hlr); [set_solver|done|lia| |].
      { rewrite (size_difference_discover _ _ next Ht Hn) in Hsz. lia. }
      by exists m, distance'.
    + intros p Hp. apply (edge_lookup _ _ _ _ Hl), list_elem_of_fmap. by exists p.
    + rewrite Hback. exists m, distance'. split; [done|]. split.
      * destruct Hex as [->|?]; [by left|by right].
      * intros k Hret Hk. inversion Hret as [? ? He|? ? next k' He Hn Hret']; subst.
        -- apply (edge_lookup _ _ _ _ Hl) in He. rewrite Z.add_0_r in *.
           apply Hc1; [done|lia].
        -- apply (edge_lookup _ _ _ _ Hl) in He. by apply (Hc2 next).
  - rewrite Hback. exists 0, (<[current := dist]> distance). split; [done|].
    split; [by left|]. intros k Hret.
    assert (∀ w, ¬ edge adj current w) as Hno.
    { intros w (l & Hl' & _). by rewrite Hl in Hl'. }
    inversion Hret; subst; by destruct (Hno _ ltac:(eassumption)).
Qed.
End circumference.

Section circumference_top.
Implicit Types (adj : gmap Z (list (Z * Z))) (g : Graph.t) (visited : gset Z).

Lemma last_cons_default {A} (a d : A) (l : list A) :
  List.last (a :: l) d = List.last l a.
Proof.
  revert a d. induction l as [|b l IH]; intros a d; [done|].
  change (List.last (a :: b :: l) d) with (List.last (b :: l) d).
  by rewrite !IH.
Qed.

Lemma returns_to_chain adj start (forbidden : gset Z) current k :
  returns_to adj start forbidden current k ↔
  ∃ p, length p = k ∧ NoDup p ∧ (∀ x, x ∈ p → x ∉ forbidden) ∧
       chain adj current p ∧ edge adj (List.last p current) start.
Proof.
  split.
  - induction 1 as [forbidden current He|forbidden current next k He Hn _ IH].
    + exists []. split_and!; [done|apply NoDup_nil_2|by intros ? ?%elem_of_nil|done..].
    + destruct IH as (p & Hlen & Hnd & Hout & Hch & Hlast).
      exists (next :: p). split_and!.
      * simpl. by rewrite Hlen.
      * apply NoDup_cons. split; [|done]. intros Hin. apply (Hout _ Hin). set_solver.
      * intros x [->|Hx]%elem_of_cons; [done|]. intros Hf. apply (Hout _ Hx). set_solver.
      * done.
      * by rewrite last_cons_default.
  - intros (p & <- & Hnd & Hout & Hch & Hlast).
    revert forbidden current Hnd Hout Hch Hlast.
    induction p as [|next p IH]; intros forbidden current Hnd Hout Hch Hlast.
    + by apply returns_here.
    + destruct Hch as [He Hch]. apply NoDup_cons in Hnd as [Hnext Hnd].
      rewrite last_cons_default in Hlast. simpl.
      eapply returns_step; [done|apply Hout, list_elem_of_here|].
      apply IH; [done| |done..].
      intros x Hx [->%elem_of_singleton|Hf]%elem_of_union; [done|].
      by apply (Hout x); [apply list_elem_of_further|].
Qed.

Lemma simple_cycle_returns adj start p :
  simple_cycle adj (start :: p) → returns_to adj start {[start]} start (length p).
Proof.
  intros (Hnd & Hch & Hlast). apply returns_to_chain. exists p.
  apply NoDup_cons in Hnd as [Hs Hnd]. split_and!; [done..| |done|done].
  by intros x Hx ->%elem_of_singleton.
Qed.

Lemma returns_simple_cycle adj start k :
  returns_to adj start {[start]} start k →
  ∃ c, simple_cycle adj c ∧ length c = S k.
Proof.
  intros (p & Hlen & Hnd & Hout & Hch & Hlast)%returns_to_chain.
  exists (start :: p). split; [|by rewrite <-Hlen]. split_and!; [|done..].
  apply NoDup_cons. split; [|done]. intros Hin. apply (Hout _ Hin). set_solver.
Qed.

Lemma getCircumference_loop_spec adj starts :
  ∀ circumference,
    0 ≤ circumference →
    ∃ c, Graph.getCircumference_loop adj starts circumference = Ret c ∧
         circumference ≤ c ∧
         (c = circumference ∨
          ∃ start (k : nat), start ∈ starts ∧
                             returns_to adj start {[start]} start k ∧
                             (1 < k)%nat ∧ c = Z.of_nat k + 1) ∧
         ∀ start (k : nat), start ∈ starts →
                            returns_to adj start {[start]} start k →
                            (1 < k)%nat → Z.of_nat k + 1 ≤ c.
Proof.
  induction starts as [|start starts IH]; intros acc Hacc;
    cbn [Graph.getCircumference_loop].
  - exists acc. split_and!; [done|lia|by left|]. by intros ?? ?%elem_of_nil.
  - destruct (dfsLongestCycle_spec adj start (S (Graph.num_entries adj)) start ∅ ∅ 0)
      as (m & distance' & -> & Hfound & Hbest); [set_solver|set_solver|done| |].
    { pose proof (size_targets adj).
      assert (targets adj ∖ ({[start]} ∪ ∅) ⊆ targets adj) as ?%subseteq_size by set_solver.
      lia. }
    rewrite (right_id_L ∅ (∪)) in Hfound, Hbest.
    assert (0 ≤ m) by (destruct Hfound as [->|(k & _ & _ & ->)]; lia).
    destruct (IH (Z.max acc m)) as (c & -> & Hle & Hex & Hall); [lia|].
    exists c. split_and!; [done|lia| |].
    + destruct Hex as [->|(s & k & Hs & Hret & Hk & ->)].
      * destruct (Z.max_spec acc m) as [[Hlt ->]|[_ ->]]; [|by left].
        destruct Hfound as [->|(k & Hret & Hk & ->)]; [lia|].
        right. exists start, k. split_and!; [apply list_elem_of_here|done|lia|lia].
      * right. exists s, k. split_and!; [by apply list_elem_of_further|done..].
    + intros s k [->|Hs]%elem_of_cons Hret Hk; [|by apply (Hall s)].
      pose proof (Hbest k Hret). lia.
Qed.

Lemma simple_cycle_start g c :
  wf g → simple_cycle (Graph.adjList g) c →
  ∃ start p, c = start :: p ∧ start ∈ Graph.vertices g.
Proof.
  intros Hwf Hc. destruct c as [|start p]; [done|]. exists start, p. split; [done|].
  destruct Hc as (_ & _ & [w He]%edge_entry). by apply (entry_wf g _ _ w Hwf He).
Qed.

End circumference_top.

(** What [getCircumference] returns. *)
Lemma getCircumference_cases k g :
  reachable k g →
  ∃ c, Graph.getCircumference g = Ret c ∧
       ((c = -1 ∧
         ∀ cycle, simple_cycle (Graph.adjList g) cycle → (length cycle < 3)%nat) ∨
        (3 ≤ c ∧
         (∃ cycle, simple_cycle (Graph.adjList g) cycle ∧ Z.of_nat (length cycle) = c) ∧
         ∀ cycle, simple_cycle (Graph.adjList g) cycle → Z.of_nat (length cycle) ≤ c)).
Proof.
  intros Hr. pose proof (reachable_wf k g Hr) as Hwf.
  unfold Graph.getCircumference. case_decide as He.
  - exists (-1). split; [done|]. left. split; [done|]. intros c Hc.
    destruct (simple_cycle_start g c Hwf Hc) as (s & p & _ & Hs).
    rewrite He in Hs. by apply elem_of_empty in Hs.
  - destruct (getCircumference_loop_spec (Graph.adjList g)
                (sorted_elems (Graph.vertices g)) 0) as (c & -> & Hle & Hex & Hall); [done|].
    assert (Hlong : ∀ cycle, simple_cycle (Graph.adjList g) cycle →
                             (3 ≤ length cycle)%nat → Z.of_nat (length cycle) ≤ c).
    { intros cycle Hc Hlen.
      destruct (simple_cycle_start g cycle Hwf Hc) as (s & p & -> & Hs).
      pose proof (Hall s (length p)) as Hb. simpl in *.
      rewrite Nat2Z.inj_succ. unfold Z.succ. apply Hb; [|by apply simple_cycle_returns|lia].
      by apply elem_of_sorted_elems. }
    eexists. split; [done|]. case_decide as Hc0.
    + left. split; [done|]. intros cycle Hc.
      destruct (decide (3 ≤ length cycle)%nat) as [Hlen|]; [|lia].
      pose proof (Hlong cycle Hc Hlen). lia.
    + right. destruct Hex as [->|(s & n & Hs & Hret & Hk & ->)]; [done|].
      split_and!; [lia| |].
      * destruct (returns_simple_cycle _ _ _ Hret) as (cycle & Hc & Hlen).
        exists cycle. split; [done|]. rewrite Hlen. lia.
      * intros cycle Hc. destruct (decide (3 ≤ length cycle)%nat) as [Hlen|]; [|lia].
        by apply Hlong.
Qed.

(** X8.  [getCircumference()] returns the greatest length of a simple cycle
    with at least three vertices, and -1 when the graph has no such cycle:
    cycles through one or two vertices (a self-loop, an entry and its mirror
    image) do not count. *)
Theorem X8_getCircumference k g :
  reachable k g →
  ∃ c, Graph.getCircumference g = Ret c ∧
       ((c = -1 ∧
         ∀ cycle, simple_cycle (Graph.adjList g) cycle → (length cycle < 3)%nat) ∨
        (3 ≤ c ∧
         (∃ cycle, simple_cycle (Graph.adjList g) cycle ∧ Z.of_nat (length cycle) = c) ∧
         ∀ cycle, simple_cycle (Graph.adjList g) cycle → Z.of_nat (length cycle) ≤ c)).
Proof. apply getCircumference_cases. Qed.

Lemma X8_getCircumference_witness :
  Graph.getCircumference scenario_C = Ret 4 ∧
  (∃ cycle, simple_cycle (Graph.adjList scenario_C) cycle ∧ length cycle = 4%nat) ∧
  ∀ cycle, simple_cycle (Graph.adjList scenario_C) cycle → (length cycle ≤ 4)%nat.
Proof.
  destruct (X8_getCircumference KBipartiteGraph scenario_C scenario_C_reachable)
    as (c & Hret & Hc).
  change (Graph.getCircumference scenario_C) with (@Ret Z 4) in Hret.
  injection Hret as <-. split; [vm_compute; reflexivity|].
  destruct Hc as [[Hc _]|(_ & (cycle & Hcyc & Hlen) & Hall)]; [discriminate|].
  split.
  - exists cycle. split; [done|lia].
  - intros cycle' Hc'. specialize (Hall cycle' Hc'). lia.
Defined.

(** ** Deletion of an edge *)

Section deletion.
Implicit Types (adj : gmap Z (list (Z * Z))) (g : Graph.t).

Lemma edge_total adj u v : edge adj u v ↔ v ∈ (adj !!! u).*1.
Proof.
  rewrite edge_entry. setoid_rewrite entry_total. rewrite list_elem_of_fmap. split.
  - intros [w Hw]. by exists (v, w).
  - intros ([n w] & -> & Hp). by exists w.
Qed.

Lemma remove_target_gone x l : x ∉ (remove_target x l).*1.
Proof.
  intros ([n w] & -> & Hp)%list_elem_of_fmap.
  by apply list_elem_of_filter in Hp as [Hne _].
Qed.

Lemma remove_target_keeps_absent x y l : x ∉ l.*1 → x ∉ (remove_target y l).*1.
Proof.
  intros Hx ([n w] & -> & Hp)%list_elem_of_fmap. apply Hx.
  apply list_elem_of_filter in Hp as [_ Hp]. apply list_elem_of_fmap. by exists (n, w).
Qed.

Lemma has_target_false x l : x ∉ l.*1 → has_target x l = false.
Proof. intros Hx. unfold has_target. by apply bool_decide_eq_false. Qed.

Lemma adj_modify_remove_absent x k adj :
  k ∈ dom adj → x ∉ (adj !!! k).*1 → adj_modify (remove_target x) k adj = adj.
Proof.
  intros [l Hl]%elem_of_dom Hx. apply (adj_modify_id _ _ _ l); [done|].
  apply remove_target_absent. by rewrite (lookup_total_correct _ _ _ Hl) in Hx.
Qed.

Lemma dom_adj_modify f k adj : dom (adj_modify f k adj) = {[k]} ∪ dom adj.
Proof. unfold adj_modify. by rewrite dom_insert_L. Qed.

End deletion.

(** X9.  [deleteEdge(src, dest)] returns [true] exactly when an entry led
    from [src] to [dest].  It keeps the vertices, erases every entry from
    [src] to [dest] (and, on an undirected graph, every entry from [dest] to
    [src]) and no other entry; a second call returns [false] and changes
    nothing. *)
Theorem X9_deleteEdge k g src dest :
  reachable k g →
  ((Graph.deleteEdge g src dest).2 = true ↔ edge (Graph.adjList g) src dest) ∧
  Graph.vertices (Graph.deleteEdge g src dest).1 = Graph.vertices g ∧
  (∀ v n w,
     entry (Graph.adjList (Graph.deleteEdge g src dest).1) v n w ↔
     entry (Graph.adjList g) v n w ∧ ¬ (v = src ∧ n = dest) ∧
     (Graph.isDirected g = false → ¬ (v = dest ∧ n = src))) ∧
  Graph.deleteEdge (Graph.deleteEdge g src dest).1 src dest
  = ((Graph.deleteEdge g src dest).1, false).
Proof.
  intros Hr. pose proof (reachable_wf k g Hr) as Hwf.
  pose proof (reachable_symmetry_invariant k g Hr) as (_ & _ & Hsym).
  assert (Hends : ∀ v n w, entry (Graph.adjList g) v n w →
                           v ∈ Graph.vertices g ∧ n ∈ Graph.vertices g).
  { intros v n w. by apply entry_wf. }
  destruct (decide (src ∈ Graph.vertices g ∧ dest ∈ Graph.vertices g)) as [Hv|Hv].
  - destruct Hv as [Hs Hd].
    set (a := if Graph.isDirected g
              then adj_modify (remove_target dest) src (Graph.adjList g)
              else adj_modify (remove_target src) dest
                     (adj_modify (remove_target dest) src (Graph.adjList g))).
    assert (Graph.deleteEdge g src dest
            = (Graph.set_adjList g a, has_target dest (Graph.adjList g !!! src))) as ->.
    { unfold Graph.deleteEdge. by rewrite decide_True. }
    cbn [fst snd].
    assert (Hentry : ∀ v n w,
              entry a v n w ↔
              entry (Graph.adjList g) v n w ∧ ¬ (v = src ∧ n = dest) ∧
              (Graph.isDirected g = false → ¬ (v = dest ∧ n = src))).
    { intros v n w. unfold a. destruct (Graph.isDirected g).
      - rewrite entry_remove_target. naive_solver.
      - rewrite !entry_remove_target. naive_solver. }
    assert (Hdom : src ∈ dom a ∧ dest ∈ dom a).
    { unfold a. destruct (Graph.isDirected g); rewrite ?dom_adj_modify;
        destruct Hwf as (_ & -> & _); set_solver. }
    assert (Hgone : dest ∉ (a !!! src).*1).
    { intros [w Hw]%edge_total%edge_entry. apply Hentry in Hw. naive_solver. }
    assert (Hgone' : Graph.isDirected g = false → src ∉ (a !!! dest).*1).
    { intros Hu [w Hw]%edge_total%edge_entry. apply Hentry in Hw. naive_solver. }
    split_and!.
    + unfold has_target. rewrite bool_decide_eq_true. by rewrite edge_total.
    + done.
    + done.
    + unfold Graph.deleteEdge. cbn [Graph.vertices Graph.set_adjList Graph.adjList
                                     Graph.isDirected].
      rewrite decide_True by done. rewrite has_target_false by done.
      rewrite (adj_modify_remove_absent dest src a) by tauto.
      destruct (Graph.isDirected g) eqn:Hdir; [done|].
      by rewrite (adj_modify_remove_absent src dest a) by tauto.
  - assert (Graph.deleteEdge g src dest = (g, false)) as ->.
    { unfold Graph.deleteEdge. by rewrite decide_False. }
    cbn [fst snd]. split_and!.
    + split; [done|]. intros [w He]%edge_entry. destruct Hv.
      apply (Hends _ _ _ He).
    + done.
    + intros v n w. split; [|tauto]. intros He. split; [done|]. split.
      * intros [-> ->]. by apply Hv, (Hends _ _ _ He).
      * intros _ [-> ->]. apply Hv. destruct (Hends _ _ _ He). by split.
    + unfold Graph.deleteEdge. by rewrite decide_False.
Qed.

Lemma X9_deleteEdge_witness :
  (Graph.deleteEdge scenario_D 2 3).2 = true ∧
  ¬ entry (Graph.adjList (Graph.deleteEdge scenario_D 2 3).1) 3 2 1 ∧
  entry (Graph.adjList (Graph.deleteEdge scenario_D 2 3).1) 1 2 1 ∧
  Graph.deleteEdge (Graph.deleteEdge scenario_D 2 3).1 2 3
  = ((Graph.deleteEdge scenario_D 2 3).1, false).
Proof.
  destruct (X9_deleteEdge KUndirectedGraph scenario_D 2 3 scenario_D_reachable)
    as (_ & _ & Hentry & Hagain).
  split; [vm_compute; reflexivity|]. split.
  - intros He. apply Hentry in He as (_ & _ & Hno). apply Hno; [vm_compute; reflexivity|].
    by split.
  - split; [|exact Hagain]. apply Hentry. split.
    + exists [(2, 1)]. split; [vm_compute; reflexivity|apply list_elem_of_here].
    + split; [intros [? _]; lia|intros _ [? _]; lia].
Defined.

(** ** Deletion of a vertex *)

(** X10.  [deleteVertex(v)] on a vertex returns [true], takes [v] out of
    the vertex set, lowers the count by one and erases exactly the entries
    that start or end at [v]; a second call returns [false] and changes
    nothing.  On a vertex that is not in the graph it returns [false] and
    changes nothing, and it undoes [addVertex(v)]. *)
Theorem X10_deleteVertex k g vertex :
  reachable k g →
  (vertex ∉ Graph.vertices g →
   Graph.deleteVertex g vertex = (g, false) ∧
   (Graph.deleteVertex (Graph.addVertex g vertex) vertex) = (g, true)) ∧
  (vertex ∈ Graph.vertices g →
   (Graph.deleteVertex g vertex).2 = true ∧
   Graph.vertices (Graph.deleteVertex g vertex).1 = Graph.vertices g ∖ {[vertex]} ∧
   Graph.getNumVertices (Graph.deleteVertex g vertex).1 = Graph.getNumVertices g - 1 ∧
   (∀ v n w,
      entry (Graph.adjList (Graph.deleteVertex g vertex).1) v n w ↔
      entry (Graph.adjList g) v n w ∧ v ≠ vertex ∧ n ≠ vertex) ∧
   Graph.deleteVertex (Graph.deleteVertex g vertex).1 vertex
   = ((Graph.deleteVertex g vertex).1, false)).
Proof.
  intros Hr. pose proof (reachable_wf k g Hr) as Hwf. split.
  - intros Hv. split; [unfold Graph.deleteVertex; by rewrite decide_False|].
    unfold Graph.addVertex. rewrite decide_False by done.
    unfold Graph.deleteVertex. cbn [Graph.vertices Graph.numVertices Graph.isDirected
                                     Graph.isWeighted Graph.adjList].
    rewrite decide_True by set_solver. f_equal.
    destruct Hwf as (_ & Hd & Ht). destruct g as [n dir wt adj V]. simpl in *.
    f_equal; [lia| |set_solver].
    rewrite delete_insert_eq, delete_id by (apply not_elem_of_dom; by rewrite Hd).
    apply map_eq. intros x. rewrite lookup_fmap.
    destruct (adj !! x) as [l|] eqn:Hl; [|done]. simpl. f_equal.
    apply remove_target_absent. intros (p & -> & Hp)%list_elem_of_fmap.
    apply Hv. by apply (Ht x l p).
  - intros Hv.
    assert (Graph.deleteVertex g vertex
            = (Graph.mk (Graph.numVertices g - 1) (Graph.isDirected g) (Graph.isWeighted g)
                 (remove_target vertex <$> delete vertex (Graph.adjList g))
                 (Graph.vertices g ∖ {[vertex]}), true)) as ->.
    { unfold Graph.deleteVertex. by rewrite decide_True. }
    cbn [fst snd Graph.vertices Graph.adjList Graph.getNumVertices Graph.numVertices].
    split_and!; [done..| |].
    + intros v n w. apply entry_scrub.
    + unfold Graph.deleteVertex. cbn [Graph.vertices]. rewrite decide_False; [done|].
      set_solver.
Qed.

Lemma X10_deleteVertex_witness :
  Graph.deleteVertex (Graph.addVertex scenario_D 9) 9 = (scenario_D, true) ∧
  Graph.vertices (Graph.deleteVertex scenario_D 2).1
  = Graph.vertices scenario_D ∖ {[2]} ∧
  ¬ entry (Graph.adjList (Graph.deleteVertex scenario_D 2).1) 1 2 1 ∧
  entry (Graph.adjList (Graph.deleteVertex scenario_D 2).1) 4 5 1.
Proof.
  destruct (X10_deleteVertex KUndirectedGraph scenario_D 9 scenario_D_reachable)
    as [Hnew _].
  destruct (X10_deleteVertex KUndirectedGraph scenario_D 2 scenario_D_reachable)
    as [_ Hold].
  destruct Hnew as [_ Hround].
  { intros Hin. revert Hin. apply (bool_decide_unpack _). vm_compute. exact I. }
  destruct Hold as (_ & Hv & _ & Hentry & _); [in_set|].
  split; [exact Hround|]. split; [exact Hv|]. split.
  - intros He. apply Hentry in He as (_ & _ & Hne). by apply Hne.
  - apply Hentry. split; [|split; lia].
    exists [(5, 1)]. split; [vm_compute; reflexivity|apply list_elem_of_here].
Defined.

(** ** Union in place *)

Section joining.
Implicit Types (adj : gmap Z (list (Z * Z))) (g : Graph.t).

(** The vertices after a virtual [addEdge], whether it returns or throws. *)
Lemma vertices_virtual_addEdge k g s d w :
  Graph.vertices g ⊆ Graph.vertices (addEdge k g s d w).1 ∧
  Graph.vertices (addEdge k g s d w).1 ⊆ {[s; d]} ∪ Graph.vertices g.
Proof.
  assert (Hbase : Graph.vertices (Graph.addEdge g s d w) = {[s; d]} ∪ Graph.vertices g).
  { rewrite vertices_addEdge. set_solver. }
  destruct k; unfold addEdge, NullGraph.addEdge, TrivialGraph.addEdge; cbn [fst snd];
    lazymatch goal with
    | |- context [DirectedAcyclicGraph.addEdge] => idtac
    | |- context [BipartiteGraph.addEdge] => idtac
    | _ => rewrite ?Hbase; set_solver
    end.
  - unfold DirectedAcyclicGraph.addEdge.
    destruct (DirectedAcyclicGraph.cycle_check _) as [[]| |];
      cbn [fst Graph.set_adjList Graph.vertices]; rewrite Hbase; set_solver.
  - unfold BipartiteGraph.addEdge.
    destruct (BipartiteGraph.isBipartiteCheck _) as [[]| |];
      cbn [fst Graph.set_adjList Graph.vertices]; rewrite Hbase; set_solver.
Qed.

Lemma vertices_join_edges k (V : gset Z) g es :
  (∀ s d w, (s, d, w) ∈ es → s ∈ V ∧ d ∈ V) →
  Graph.vertices g = V →
  Graph.vertices (Graph.join_edges (addEdge k) g es).1 = V.
Proof.
  revert g. induction es as [|[[s d] w] es IH]; intros g Hes Hg; simpl; [done|].
  destruct (Hes s d w) as [Hs Hd]; [apply list_elem_of_here|].
  assert (Hes' : ∀ s d w, (s, d, w) ∈ es → s ∈ V ∧ d ∈ V).
  { intros s' d' w' Hin. apply (Hes s' d' w'). by apply list_elem_of_further. }
  destruct (match Graph.adjList g !! s with Some l => has_target d l | None => false end);
    [by apply IH|].
  destruct (decide _); [|by apply IH].
  pose proof (vertices_virtual_addEdge k g s d w) as [H1 H2].
  assert (Graph.vertices (addEdge k g s d w).1 = V) as Hv by set_solver.
  destruct (addEdge k g s d w) as [g' [[]| |]]; simpl in *; [by apply IH|done..].
Qed.

(** The entries after an edge loop of [join] that returns. *)
Lemma join_edges_entries k g es g' :
  wf g →
  Graph.join_edges (addEdge k) g es = (g', Ret ()) →
  (∀ v n w, entry (Graph.adjList g) v n w → entry (Graph.adjList g') v n w) ∧
  (∀ v n w, entry (Graph.adjList g') v n w →
            entry (Graph.adjList g) v n w ∨
            ∃ s d x, (s, d, x) ∈ es ∧ (Graph.isDirected g = true ∨ s < d) ∧
                     ((v = s ∧ n = d) ∨
                      (Graph.isDirected g = false ∧ v = d ∧ n = s))) ∧
  (∀ s d x, (s, d, x) ∈ es → Graph.isDirected g = true ∨ s < d →
            edge (Graph.adjList g') s d).
Proof.
  revert g. induction es as [|[[s d] x] es IH]; intros g Hwf; simpl.
  - intros [= <-]. split_and!; [done|by left|]. by intros ??? ?%elem_of_nil.
  - assert (Hskip : Graph.join_edges (addEdge k) g es = (g', Ret ()) →
              (edge (Graph.adjList g) s d ∨ ¬ (Graph.isDirected g = true ∨ s < d)) →
              (∀ v n w, entry (Graph.adjList g) v n w → entry (Graph.adjList g') v n w) ∧
              (∀ v n w, entry (Graph.adjList g') v n w →
                 entry (Graph.adjList g) v n w ∨
                 ∃ s0 d0 x0, (s0, d0, x0) ∈ (s, d, x) :: es ∧
                             (Graph.isDirected g = true ∨ s0 < d0) ∧
                             ((v = s0 ∧ n = d0) ∨
                              (Graph.isDirected g = false ∧ v = d0 ∧ n = s0))) ∧
              (∀ s0 d0 x0, (s0, d0, x0) ∈ (s, d, x) :: es →
                           Graph.isDirected g = true ∨ s0 < d0 →
                           edge (Graph.adjList g') s0 d0)).
    { intros Hrest Hwhy. destruct (IH g Hwf Hrest) as (Hmono & Hfrom & Hall).
      split_and!; [done| |].
      - intros v n w [?|(s0 & d0 & x0 & Hin & ?)]%Hfrom; [by left|].
        right. exists s0, d0, x0. split; [by apply list_elem_of_further|done].
      - intros s0 d0 x0 [[= -> -> ->]|Hin]%elem_of_cons Hok; [|by apply (Hall s0 d0 x0)].
        destruct Hwhy as [He|]; [|done].
        apply edge_entry in He as [w He]. apply edge_entry. exists w. by apply Hmono. }
    destruct (match Graph.adjList g !! s with Some l => has_target d l | None => false end)
      eqn:Hex.
    { intros Hrest. apply Hskip; [done|]. left.
      destruct (Graph.adjList g !! s) as [l|] eqn:Hl; [|done].
      exists l. split; [done|]. unfold has_target in Hex. by apply bool_decide_eq_true in Hex. }
    destruct (decide _) as [Hok|Hno]; [|intros Hrest; apply Hskip; [done|by right]].
    pose proof (virtual_addEdge_Ret k g s d x) as Hret.
    pose proof (wf_virtual_addEdge k g s d x Hwf) as Hwf'.
    destruct (addEdge k g s d x) as [g1 [[]| |]]; simpl in *; [|done..].
    rewrite Hret in * by done. intros Hrest.
    destruct (IH _ Hwf' Hrest) as (Hmono & Hfrom & Hall).
    destruct (flags_addEdge g s d x) as [Hdir _]. rewrite Hdir in *.
    split_and!.
    + intros v n w He. apply Hmono. apply entry_addEdge; [done|by left].
    + intros v n w [He|(s0 & d0 & x0 & Hin & ?)]%Hfrom.
      * apply entry_addEdge in He as [?|[(-> & -> & ->)|(Hu & -> & -> & ->)]];
          [by left|..|done].
        -- right. exists s, d, x. split; [apply list_elem_of_here|]. split; [done|by left].
        -- right. exists s, d, x. split; [apply list_elem_of_here|]. split; [done|by right].
      * right. exists s0, d0, x0. split; [by apply list_elem_of_further|done].
    + intros s0 d0 x0 [[= -> -> ->]|Hin]%elem_of_cons Hok'; [|by apply (Hall s0 d0 x0)].
      apply edge_entry. exists x. apply Hmono. apply entry_addEdge; [done|]. right. by left.
Qed.

Lemma wf_foldl_addVertex g vs : wf g → wf (foldl Graph.addVertex g vs).
Proof. apply foldl_addVertex_preserves. intros. by apply wf_addVertex. Qed.

Lemma entry_foldl_addVertex g vs v n w :
  wf g →
  entry (Graph.adjList (foldl Graph.addVertex g vs)) v n w ↔ entry (Graph.adjList g) v n w.
Proof.
  revert g. induction vs as [|x vs IH]; intros g Hwf; simpl; [done|].
  rewrite IH by by apply wf_addVertex. by apply entry_addVertex.
Qed.

Lemma flags_foldl_addVertex g vs : same_flags g (foldl Graph.addVertex g vs).
Proof.
  revert g. induction vs as [|x vs IH]; intros g; simpl; [apply same_flags_refl|].
  eapply same_flags_trans; [apply flags_addVertex|apply IH].
Qed.

Lemma symmetric_edge adj u v : symmetric adj → edge adj u v → edge adj v u.
Proof.
  intros Hsym [w He]%edge_entry. apply edge_entry. exists w. by apply symmetric_entry.
Qed.



(** The vertices and the edges after [join]. *)
Lemma join_spec k k' g other :
  reachable k g → reachable k' other →
  Graph.isDirected g = Graph.isDirected other →
  Graph.isWeighted g = Graph.isWeighted other →
  Graph.vertices (join k g other).1 = Graph.vertices g ∪ Graph.vertices other ∧
  ((join k g other).2 = Ret () →
   ∀ u v, edge (Graph.adjList (join k g other).1) u v ↔
          edge (Graph.adjList g) u v ∨
          (edge (Graph.adjList other) u v ∧ (Graph.isDirected g = true ∨ u ≠ v))).
Proof.
  intros Hr Hr' Hd Hw. pose proof (reachable_wf k g Hr) as Hwf.
  pose proof (reachable_wf k' other Hr') as Hwf'.
  pose proof (reach_join k k' g other Hr Hr') as Hrj.
  pose proof (reachable_symmetry_invariant _ _ Hrj) as (_ & _ & Hsymj).
  pose proof (reachable_symmetry_invariant _ _ Hr') as (_ & _ & Hsymo).
  destruct (flags_join k g other) as [Hdj _].
  revert Hrj Hsymj Hdj. unfold join, Graph.join.
  rewrite !decide_False by congruence.
  set (g0 := foldl Graph.addVertex g (sorted_elems (Graph.vertices other))).
  intros Hrj Hsymj Hdj.
  assert (Hv0 : Graph.vertices g0 = Graph.vertices g ∪ Graph.vertices other).
  { unfold g0. rewrite vertices_foldl_addVertex. apply set_eq. intros x.
    rewrite !elem_of_union, elem_of_list_to_set, elem_of_sorted_elems. tauto. }
  assert (Hwf0 : wf g0) by by apply wf_foldl_addVertex.
  destruct (flags_foldl_addVertex g (sorted_elems (Graph.vertices other))) as [Hd0 _].
  fold g0 in Hd0. split.
  + apply vertices_join_edges; [|done]. intros s d w Hin.
    destruct (edge_triples_wf other s d w Hwf' Hin). set_solver.
  + destruct (Graph.join_edges (addEdge k) g0 (edge_triples (Graph.adjList other)))
      as [g' r] eqn:Hje. simpl in *. intros ->.
    destruct (join_edges_entries k g0 _ g' Hwf0 Hje) as (Hmono & Hfrom & Hall).
    rewrite Hd0 in *.
    intros u v. split.
    * intros [w He]%edge_entry. apply Hfrom in He as [He|(s & d & x & Hin & Hok & Hwhich)].
      -- left. apply edge_entry. exists w. unfold g0 in He.
         by apply entry_foldl_addVertex in He.
      -- right. apply elem_of_edge_triples in Hin.
         assert (edge (Graph.adjList other) s d) as Hsd by (apply edge_entry; eauto).
         destruct Hwhich as [[-> ->]|(Hu & -> & ->)].
         ++ split; [done|]. destruct Hok; [by left|right; lia].
         ++ split.
            ** apply symmetric_edge; [|done]. apply Hsymo. congruence.
            ** destruct Hok as [?|?]; [congruence|right; lia].
    * intros [[w He]%edge_entry|[He Hok]].
      -- apply edge_entry. exists w. apply Hmono. unfold g0.
         by apply entry_foldl_addVertex.
      -- assert (Hto : ∀ a b, edge (Graph.adjList other) a b →
                    Graph.isDirected g = true ∨ a < b → edge (Graph.adjList g') a b).
         { intros a b [x Hx]%edge_entry. apply (Hall a b x). by apply elem_of_edge_triples. }
         destruct Hok as [Hdir|Hne]; [by apply Hto; [|left]|].
         destruct (Graph.isDirected g) eqn:Hdir; [by apply Hto; [|left]|].
         destruct (Z.lt_total u v) as [Hlt|[?|Hgt]]; [by apply Hto; [|right]|done|].
         apply symmetric_edge; [by apply Hsymj|]. apply Hto; [|by right].
         apply symmetric_edge; [|done]. apply Hsymo. congruence.
Qed.

End joining.

(** X11.  [join(other)] throws [logic_error] and leaves the object as it was
    when the directedness or the weightedness of the two graphs differ.
    Otherwise the vertices of the object become the union of the two vertex
    sets, even when a virtual [addEdge] throws on the way; and when [join]
    returns, [u] is joined to [v] exactly when it was before or is in [other],
    except that on undirected graphs the self-loops of [other] are not
    taken over. *)
Theorem X11_join k k' g other :
  reachable k g → reachable k' other →
  (Graph.isDirected g ≠ Graph.isDirected other →
   join k g other
   = (g, Throw (logic_error "Cannot join directed and undirected graphs"))) ∧
  (Graph.isDirected g = Graph.isDirected other →
   Graph.isWeighted g ≠ Graph.isWeighted other →
   join k g other
   = (g, Throw (logic_error "Cannot join weighted and unweighted graphs"))) ∧
  (Graph.isDirected g = Graph.isDirected other →
   Graph.isWeighted g = Graph.isWeighted other →
   Graph.vertices (join k g other).1 = Graph.vertices g ∪ Graph.vertices other ∧
   ((join k g other).2 = Ret () →
    ∀ u v, edge (Graph.adjList (join k g other).1) u v ↔
           edge (Graph.adjList g) u v ∨
           (edge (Graph.adjList other) u v ∧ (Graph.isDirected g = true ∨ u ≠ v)))).
Proof.
  intros Hr Hr'. split_and!.
  - intros Hd. unfold join, Graph.join. by rewrite decide_True.
  - intros Hd Hw. unfold join, Graph.join. by rewrite decide_False, decide_True by congruence.
  - by apply (join_spec k k').
Qed.

Lemma X11_join_witness :
  Graph.vertices (join KUndirectedGraph one_edge other_edge).1
  = Graph.vertices one_edge ∪ Graph.vertices other_edge ∧
  edge (Graph.adjList (join KUndirectedGraph one_edge other_edge).1) 3 2 ∧
  join KUndirectedGraph one_edge scenario_E
  = (one_edge, Throw (logic_error "Cannot join directed and undirected graphs")).
Proof.
  destruct (X11_join KUndirectedGraph KUndirectedGraph one_edge other_edge
              one_edge_reachable other_edge_reachable) as (_ & _ & Hok).
  destruct (X11_join KUndirectedGraph KDirectedGraph one_edge scenario_E
              one_edge_reachable scenario_E_reachable) as (Hthrow & _ & _).
  destruct Hok as [Hv He]; [reflexivity..|].
  split; [exact Hv|]. split; [|apply Hthrow; vm_compute; discriminate].
  apply He; [vm_compute; reflexivity|]. right. split; [|right; lia].
  exists [(2, 1)]. split; [vm_compute; reflexivity|apply list_elem_of_here].
Defined.

(** ** Union of two graphs *)

Section addition.
Implicit Types (adj : gmap Z (list (Z * Z))) (g : Graph.t).

Lemma reachable_base_addEdge g s d w :
  reachable KGraph g → reachable KGraph (Graph.addEdge g s d w).
Proof. intros Hr. apply (reach_addEdge KGraph g s d w Hr). Qed.

Lemma copy_edges_entries g es :
  wf g →
  let g' := Graph.copy_edges (Graph.isDirected g) g es in
  (∀ v n w, entry (Graph.adjList g) v n w → entry (Graph.adjList g') v n w) ∧
  (∀ v n w, entry (Graph.adjList g') v n w →
            entry (Graph.adjList g) v n w ∨
            ∃ s d x, (s, d, x) ∈ es ∧ (Graph.isDirected g = true ∨ s < d) ∧
                     ((v = s ∧ n = d) ∨
                      (Graph.isDirected g = false ∧ v = d ∧ n = s))) ∧
  (∀ s d x, (s, d, x) ∈ es → Graph.isDirected g = true ∨ s < d →
            edge (Graph.adjList g') s d).
Proof.
  unfold Graph.copy_edges. revert g.
  induction es as [|[[s d] x] es IH]; intros g Hwf; simpl.
  - split_and!; [done|by left|]. by intros ??? ?%elem_of_nil.
  - destruct (decide _) as [Hok|Hno].
    + destruct (flags_addEdge g s d x) as [Hdir _].
      destruct (IH (Graph.addEdge g s d x) (wf_addEdge _ _ _ _ Hwf))
        as (Hmono & Hfrom & Hall).
      rewrite Hdir in *. split_and!.
      * intros v n w He. apply Hmono. apply entry_addEdge; [done|by left].
      * intros v n w [He|(s0 & d0 & x0 & Hin & ?)]%Hfrom.
        -- apply entry_addEdge in He as [?|[(-> & -> & ->)|(Hu & -> & -> & ->)]];
             [by left|..|done].
           ++ right. exists s, d, x. split; [apply list_elem_of_here|]. split; [done|by left].
           ++ right. exists s, d, x. split; [apply list_elem_of_here|]. split; [done|by right].
        -- right. exists s0, d0, x0. split; [by apply list_elem_of_further|done].
      * intros s0 d0 x0 [[= -> -> ->]|Hin]%elem_of_cons Hok'; [|by apply (Hall s0 d0 x0)].
        apply edge_entry. exists x. apply Hmono. apply entry_addEdge; [done|]. right. by left.
    + destruct (IH g Hwf) as (Hmono & Hfrom & Hall). split_and!; [done| |].
      * intros v n w [?|(s0 & d0 & x0 & Hin & ?)]%Hfrom; [by left|].
        right. exists s0, d0, x0. split; [by apply list_elem_of_further|done].
      * intros s0 d0 x0 [[= -> -> ->]|Hin]%elem_of_cons Hok; [done|by apply (Hall s0 d0 x0)].
Qed.

End addition.

(** X12.  [g1 + g2] throws [logic_error] when the directedness or the
    weightedness of the operands differ.  Otherwise it returns a graph in
    which [u] is joined to [v] exactly when it is in [g1] or in [g2], except
    that on undirected graphs the self-loops of both operands are dropped. *)
Theorem X12_operator_plus_edges k1 k2 g1 g2 :
  reachable k1 g1 → reachable k2 g2 →
  (Graph.isDirected g1 ≠ Graph.isDirected g2 →
   Graph.operator_plus g1 g2
   = Throw (logic_error "Cannot join directed and undirected graphs")) ∧
  (Graph.isDirected g1 = Graph.isDirected g2 →
   Graph.isWeighted g1 ≠ Graph.isWeighted g2 →
   Graph.operator_plus g1 g2
   = Throw (logic_error "Cannot join weighted and unweighted graphs")) ∧
  (Graph.isDirected g1 = Graph.isDirected g2 →
   Graph.isWeighted g1 = Graph.isWeighted g2 →
   ∃ result,
     Graph.operator_plus g1 g2 = Ret result ∧
     ∀ u v, edge (Graph.adjList result) u v ↔
            (edge (Graph.adjList g1) u v ∨ edge (Graph.adjList g2) u v) ∧
            (Graph.isDirected g1 = true ∨ u ≠ v)).
Proof.
  intros Hr1 Hr2.
  pose proof (reachable_wf _ _ Hr1) as Hwf1.
  pose proof (reachable_symmetry_invariant _ _ Hr1) as (_ & _ & Hsym1).
  unfold Graph.operator_plus.
  set (r0 := Graph.new (Graph.isDirected g1) (Graph.isWeighted g1)).
  set (r1 := foldl Graph.addVertex r0 (sorted_elems (Graph.vertices g1))).
  set (r2 := Graph.copy_edges (Graph.isDirected g1) r1 (edge_triples (Graph.adjList g1))).
  change (Graph.join (λ r s d w, (Graph.addEdge r s d w, Ret ())) r2 g2)
    with (join KGraph r2 g2).
  assert (Hr0 : reachable KGraph r0) by apply reach_new, new_Graph.
  assert (Hrr1 : reachable KGraph r1).
  { unfold r1. apply foldl_addVertex_preserves; [|done].
    intros g v Hg. by apply reach_base_addVertex. }
  assert (Hrr2 : reachable KGraph r2).
  { unfold r2. apply copy_edges_preserves; [|done].
    intros g s d w Hg. by apply reachable_base_addEdge. }
  destruct (flags_foldl_addVertex r0 (sorted_elems (Graph.vertices g1))) as [Hd1 Hw1].
  fold r1 in Hd1, Hw1. change (Graph.isDirected r0) with (Graph.isDirected g1) in Hd1.
  change (Graph.isWeighted r0) with (Graph.isWeighted g1) in Hw1.
  assert (Hfl2 : same_flags r1 r2).
  { unfold r2. apply (copy_edges_preserves (same_flags r1)); [|apply same_flags_refl].
    intros g s d w Hg. eapply same_flags_trans; [done|apply flags_addEdge]. }
  destruct Hfl2 as [Hd2 Hw2]. rewrite Hd1 in Hd2. rewrite Hw1 in Hw2.
  split_and!.
  - intros Hd. unfold join, Graph.join. rewrite decide_True; [done|congruence].
  - intros Hd Hw. unfold join, Graph.join.
    rewrite decide_False, decide_True; [done|congruence|congruence].
  - intros Hd Hw.
    destruct (join_spec KGraph k2 r2 g2 Hrr2 Hr2) as [_ Hedges]; [congruence..|].
    assert ((join KGraph r2 g2).2 = Ret ()) as Hret.
    { destruct (join_outcome KGraph r2 g2 (reachable_wf _ _ Hrr2)) as [?|[what Hthrow]];
        [done|]. exfalso. revert Hthrow. unfold join, Graph.join.
      rewrite !decide_False by congruence.
      set (gj := foldl Graph.addVertex r2 _).
      destruct (join_edges_base (Graph.vertices gj ∪ Graph.vertices g2) gj
                  (edge_triples (Graph.adjList g2))) as (g' & Hg' & _).
      - intros s d w Hin.
        destruct (edge_triples_wf g2 s d w (reachable_wf _ _ Hr2) Hin). set_solver.
      - set_solver.
      - change (addEdge KGraph) with (λ r s d w, (Graph.addEdge r s d w, Ret ())).
        by rewrite Hg'. }
    specialize (Hedges Hret). destruct (join KGraph r2 g2) as [result r]. simpl in *.
    subst r. exists result. split; [done|]. intros u v. rewrite Hedges, Hd2.
    assert (Hwfr1 : wf r1) by by apply (reachable_wf KGraph).
    pose proof (copy_edges_entries r1 (edge_triples (Graph.adjList g1)) Hwfr1) as Hcopy.
    rewrite Hd1 in Hcopy. fold r2 in Hcopy. simpl in Hcopy.
    destruct Hcopy as (_ & Hfrom & Hall).
    assert (Hr1e : ∀ v n w, ¬ entry (Graph.adjList r1) v n w).
    { intros a b w He. unfold r1 in He. apply entry_foldl_addVertex in He; [|apply wf_new].
      by apply entry_empty in He. }
    assert (Hsym2 : Graph.isDirected g1 = false → symmetric (Graph.adjList r2)).
    { intros Hu. apply (reachable_symmetry_invariant _ _ Hrr2). congruence. }
    assert (H2 : edge (Graph.adjList r2) u v ↔
                 edge (Graph.adjList g1) u v ∧ (Graph.isDirected g1 = true ∨ u ≠ v)).
    { split.
      - intros [w He]%edge_entry.
        apply Hfrom in He as [He|(s & d & x & Hin & Hok & Hwhich)]; [by apply Hr1e in He|].
        apply elem_of_edge_triples in Hin.
        assert (edge (Graph.adjList g1) s d) as Hsd by (apply edge_entry; eauto).
        destruct Hwhich as [[-> ->]|(Hu & -> & ->)].
        + split; [done|]. destruct Hok; [by left|right; lia].
        + split; [by apply symmetric_edge; [apply Hsym1|]|].
          destruct Hok as [?|?]; [congruence|right; lia].
      - intros [He Hok].
        assert (Hto : ∀ a b, edge (Graph.adjList g1) a b →
                      Graph.isDirected g1 = true ∨ a < b → edge (Graph.adjList r2) a b).
        { intros a b [x Hx]%edge_entry. apply (Hall a b x). by apply elem_of_edge_triples. }
        destruct Hok as [Hdir|Hne]; [by apply Hto; [|left]|].
        destruct (Graph.isDirected g1) eqn:Hdir; [by apply Hto; [|left]|].
        destruct (Z.lt_total u v) as [Hlt|[?|Hgt]]; [by apply Hto; [|right]|done|].
        apply symmetric_edge; [by apply Hsym2|]. apply Hto; [|by right].
        by apply symmetric_edge; [apply Hsym1|]. }
    rewrite H2. tauto.
Qed.

Lemma X12_operator_plus_edges_witness :
  ∃ result,
    Graph.operator_plus one_edge other_edge = Ret result ∧
    edge (Graph.adjList result) 2 1 ∧ edge (Graph.adjList result) 2 3 ∧
    ¬ edge (Graph.adjList result) 1 3.
Proof.
  destruct (X12_operator_plus_edges KUndirectedGraph KUndirectedGraph one_edge other_edge
              one_edge_reachable other_edge_reachable) as (_ & _ & Hok).
  destruct Hok as (result & Hret & He); [reflexivity..|].
  exists result. split; [exact Hret|]. split_and!.
  - apply He. split; [left|right; lia].
    exists [(1, 1)]. split; [vm_compute; reflexivity|apply list_elem_of_here].
  - apply He. split; [right|right; lia].
    exists [(3, 1)]. split; [vm_compute; reflexivity|apply list_elem_of_here].
  - intros [[Hin|Hin] _]%He.
    + destruct Hin as (l & Hl & Hm).
      change (Graph.adjList one_edge !! 1) with (Some [(2, 1)]) in Hl.
      injection Hl as <-. revert Hm. apply (bool_decide_unpack _). vm_compute. exact I.
    + destruct Hin as (l & Hl & _). vm_compute in Hl. discriminate.
Defined.

(** ** Null graphs *)

Section null.
Implicit Types (adj : gmap Z (list (Z * Z))) (g : Graph.t).

(** The flags of an object are those its constructor set. *)
Lemma reachable_flags k g :
  reachable k g → ∃ g0, constructed k g0 ∧ same_flags g0 g.
Proof.
  apply (reachable_invariant (λ g, ∃ g0, constructed k g0 ∧ same_flags g0 g)).
  - intros g' Hc. exists g'. split; [done|apply same_flags_refl].
  - intros directed weighted ->. exists (Graph.new directed weighted).
    split; [constructor|apply same_flags_refl].
  - intros g' s d w _ (g0 & Hc & Hf). exists g0. split; [done|].
    eapply same_flags_trans; [done|apply flags_addEdge].
  - intros g' v (g0 & Hc & Hf). exists g0. split; [done|].
    eapply same_flags_trans; [done|apply flags_addVertex].
  - intros g' v (g0 & Hc & Hf). exists g0. split; [done|].
    eapply same_flags_trans; [done|apply flags_static_addVertex].
  - intros g' s d w (g0 & Hc & Hf). exists g0. split; [done|].
    eapply same_flags_trans; [done|apply flags_virtual_addEdge].
  - intros g' v (g0 & Hc & Hf). exists g0. split; [done|].
    eapply same_flags_trans; [done|apply flags_deleteVertex].
  - intros g' s d (g0 & Hc & Hf). exists g0. split; [done|].
    eapply same_flags_trans; [done|apply flags_deleteEdge].
Qed.

Lemma reachable_NullGraph_no_edges g :
  reachable KNullGraph g → no_edges (Graph.adjList g).
Proof.
  intros Hr. assert (wf g ∧ no_edges (Graph.adjList g)) as [_ ?]; [|done].
  revert g Hr. apply reachable_invariant; try done.
  - intros g Hc. split; [by apply (reachable_wf KNullGraph), reach_new|].
    inversion Hc. intros v l Hl. simpl in Hl. by rewrite lookup_empty in Hl.
  - intros g v [??]. auto using wf_addVertex, no_edges_addVertex.
  - intros g v [??]. simpl. unfold NullGraph.addVertex.
    auto using wf_addVertex, no_edges_addVertex.
  - intros g v [??]. auto using wf_deleteVertex, no_edges_deleteVertex.
  - intros g s d [??]. by rewrite deleteEdge_no_edges.
Qed.

(** The edge loop of [join] on an object whose [addEdge] always throws stops
    at the first edge that it tries to add. *)
Lemma join_edges_NullGraph g es :
  no_edges (Graph.adjList g) → Graph.isDirected g = false →
  (∃ s d w, (s, d, w) ∈ es ∧ s < d) →
  Graph.join_edges (addEdge KNullGraph) g es
  = (g, Throw (logic_error "Cannot add edges to a Null Graph")).
Proof.
  intros Hno Hdir. induction es as [|[[s d] w] es IH]; intros (s0 & d0 & w0 & Hin & Hlt).
  - by apply elem_of_nil in Hin.
  - simpl. assert (match Graph.adjList g !! s with
                   | Some l => has_target d l
                   | None => false
                   end = false) as ->.
    { destruct (Graph.adjList g !! s) as [l|] eqn:Hl; [|done].
      rewrite (Hno _ _ Hl). apply has_target_false. by intros ?%elem_of_nil. }
    rewrite Hdir. case_decide as Hok; [done|].
    apply IH. apply elem_of_cons in Hin as [[= -> -> ->]|Hin].
    + destruct Hok. by right.
    + by exists s0, d0, w0.
Qed.

End null.

(** X13.  On a [NullGraph], after any sequence of public operations,
    [addEdge] throws [logic_error] and changes nothing, every adjacency list is
    empty and [getNumEdges()] is 0.  [join(other)] with an undirected,
    unweighted [other] that stores an edge between two distinct vertices
    throws the same [logic_error], after it has added the vertices of
    [other]. *)
Theorem X13_NullGraph_has_no_edge g :
  reachable KNullGraph g →
  (∀ src dest weight,
     addEdge KNullGraph g src dest weight
     = (g, Throw (logic_error "Cannot add edges to a Null Graph"))) ∧
  (∀ v, v ∈ Graph.vertices g → Graph.adjList g !! v = Some []) ∧
  Graph.getNumEdges g = 0 ∧
  (∀ k' other,
     reachable k' other →
     Graph.isDirected other = false → Graph.isWeighted other = false →
     (∃ s d, s < d ∧ edge (Graph.adjList other) s d) →
     (join KNullGraph g other).2
     = Throw (logic_error "Cannot add edges to a Null Graph") ∧
     Graph.vertices (join KNullGraph g other).1
     = Graph.vertices g ∪ Graph.vertices other).
Proof.
  intros Hr. pose proof (reachable_wf _ _ Hr) as Hwf.
  pose proof (reachable_NullGraph_no_edges g Hr) as Hno.
  destruct (reachable_flags _ _ Hr) as (g0 & Hc & Hd & Hw). inversion Hc; subst.
  simpl in Hd, Hw. split_and!.
  - done.
  - intros v Hv. destruct Hwf as (_ & Hdom & _). rewrite <-Hdom in Hv.
    apply elem_of_dom in Hv as [l Hl]. by rewrite Hl, (Hno _ _ Hl).
  - by apply getNumEdges_no_edges.
  - intros k' other Hr' Hd' Hw' (s & d & Hlt & [w He]%edge_entry).
    split; [|apply (join_spec KNullGraph k'); congruence].
    unfold join, Graph.join. rewrite !decide_False by congruence.
    rewrite join_edges_NullGraph; [done| | |].
    + apply (foldl_addVertex_preserves (λ g, no_edges (Graph.adjList g))); [|done].
      intros. by apply no_edges_addVertex.
    + destruct (flags_foldl_addVertex g (sorted_elems (Graph.vertices other))) as [-> _].
      done.
    + exists s, d, w. split; [|done]. by apply elem_of_edge_triples.
Qed.

Lemma X13_NullGraph_has_no_edge_witness :
  addEdge KNullGraph null_two 1 2 1
  = (null_two, Throw (logic_error "Cannot add edges to a Null Graph")) ∧
  Graph.getNumEdges null_two = 0 ∧
  (join KNullGraph null_two one_edge).2
  = Throw (logic_error "Cannot add edges to a Null Graph").
Proof.
  destruct (X13_NullGraph_has_no_edge null_two null_two_reachable) as (Hadd & _ & Hnum & Hjoin).
  split; [apply Hadd|]. split; [exact Hnum|].
  apply (Hjoin KUndirectedGraph one_edge one_edge_reachable); [reflexivity..|].
  exists 1, 2. split; [lia|].
  exists [(2, 1)]. split; [vm_compute; reflexivity|apply list_elem_of_here].
Defined.

(** ** Adding a vertex to a complete graph *)

Section complete_general.
Implicit Types (g : Graph.t) (s : gset Z).

Lemma sorted_elems_sorted s : StronglySorted Z.le (sorted_elems s).
Proof. apply (StronglySorted_merge_sort _). Qed.

Lemma set_begin_least s x : set_begin s = Some x → ∀ y, y ∈ s → x ≤ y.
Proof.
  unfold set_begin. intros Hhd y Hy%elem_of_sorted_elems.
  pose proof (sorted_elems_sorted s) as Hs.
  destruct (sorted_elems s) as [|z l]; [done|]. injection Hhd as ->.
  apply StronglySorted_inv in Hs as [_ Hall].
  apply elem_of_cons in Hy as [->|Hy]; [lia|]. by apply (proj1 (Forall_forall _ _) Hall).
Qed.

Lemma set_next_least s v x :
  set_next s v = Some x → ∀ y, y ∈ s → v < y → x ≤ y.
Proof.
  unfold set_next. intros (l1 & l2 & Hl & Hno)%head_filter_Some y Hy%elem_of_sorted_elems Hlt.
  pose proof (sorted_elems_sorted s) as Hs. rewrite Hl in Hs, Hy.
  apply elem_of_app in Hy as [Hy|Hy].
  - by destruct (proj1 (Forall_forall _ _) Hno y Hy).
  - apply StronglySorted_app_1_r, StronglySorted_inv in Hs as [_ Hall].
    apply elem_of_cons in Hy as [->|Hy]; [lia|]. by apply (proj1 (Forall_forall _ _) Hall).
Qed.

Lemma set_next_None s v : set_next s v = None → ∀ y, y ∈ s → y ≤ v.
Proof.
  unfold set_next. intros Hhd y Hy%elem_of_sorted_elems.
  destruct (decide (v < y)) as [Hlt|]; [|lia].
  assert (y ∈ filter (λ x, v < x) (sorted_elems s)) as Hin by by apply list_elem_of_filter.
  destruct (filter _ _); [by apply elem_of_nil in Hin|done].
Qed.

(** The loop of [CompleteGraph::addVertex] from the iterator at [v] on: it
    joins [vertex] and each element from [v] on of the set [s], the vertices
    with [vertex] among them. *)
Lemma connect_entries s vertex fuel :
  ∀ g v,
    wf g → Graph.isDirected g = false →
    Graph.vertices g ∪ {[vertex]} = s → v ∈ Graph.vertices g →
    (size (remaining s v) ≤ fuel)%nat →
    Graph.vertices (CompleteGraph.connect fuel g (Some v) vertex).1 = s ∧
    ∀ a b w,
      entry (Graph.adjList (CompleteGraph.connect fuel g (Some v) vertex).1) a b w ↔
      entry (Graph.adjList g) a b w ∨
      (w = 1 ∧ ∃ x, x ∈ s ∧ v ≤ x ∧ ((a = x ∧ b = vertex) ∨ (a = vertex ∧ b = x))).
Proof.
  induction fuel as [|fuel IH]; intros g v Hwf Hdir Hs Hv Hfuel.
  - assert (v ∈ remaining s v) by (apply elem_of_filter; split; [lia|set_solver]).
    assert (size (remaining s v) ≠ 0%nat) by (intros ?%size_empty_inv; set_solver).
    lia.
  - pose (g1 := Graph.addEdge g v vertex 1).
    change (CompleteGraph.connect (S fuel) g (Some v) vertex)
      with (CompleteGraph.connect fuel g1 (set_next (Graph.vertices g1) v) vertex).
    assert (Hv1 : Graph.vertices g1 = s).
    { unfold g1. rewrite vertices_addEdge. set_solver. }
    assert (He1 : ∀ a b w,
              entry (Graph.adjList g1) a b w ↔
              entry (Graph.adjList g) a b w ∨
              (w = 1 ∧ ((a = v ∧ b = vertex) ∨ (a = vertex ∧ b = v)))).
    { intros a b w. unfold g1. rewrite entry_addEdge by done. naive_solver. }
    rewrite Hv1. destruct (set_next s v) as [x|] eqn:Hnext.
    + destruct (set_next_Some _ _ _ Hnext) as [Hx Hlt].
      destruct (IH g1 x) as [Hvs Hent].
      { by apply wf_addEdge. }
      { destruct (flags_addEdge g v vertex 1) as [Hf _]. unfold g1. by rewrite Hf. }
      { rewrite Hv1. set_solver. }
      { by rewrite Hv1. }
      { pose proof (remaining_shrinks s v x). assert (v ∈ s) by set_solver.
        specialize (H H0 Hx Hlt). lia. }
      split; [done|]. intros a b w. rewrite Hent, He1. split.
      * intros [[?|(-> & Hw)]|(-> & y & Hy & Hle & Hw)]; [by left|..].
        -- right. split; [done|]. exists v. split; [set_solver|]. split; [lia|done].
        -- right. split; [done|]. exists y. split; [done|]. split; [lia|done].
      * intros [?|(-> & y & Hy & Hle & Hw)]; [by left; left|].
        destruct (decide (y = v)) as [->|Hne].
        -- left. right. done.
        -- right. split; [done|]. exists y. split; [done|]. split; [|done].
           apply (set_next_least _ _ _ Hnext); [done|lia].
    + assert ((CompleteGraph.connect fuel g1 None vertex).1 = g1) as -> by by destruct fuel.
      split; [done|]. intros a b w. rewrite He1. split.
      * intros [?|(-> & Hw)]; [by left|].
        right. split; [done|]. exists v. split; [set_solver|]. split; [lia|done].
      * intros [?|(-> & y & Hy & Hle & Hw)]; [by left|].
        pose proof (set_next_None _ _ Hnext y Hy). assert (y = v) as -> by lia.
        right. done.
Qed.

End complete_general.

(** X14.  [CompleteGraph::addVertex(vertex)] changes nothing when [vertex]
    is in the graph.  Otherwise it adds [vertex], keeps the entries of the
    graph and stores the entries, of weight 1, that join [vertex] and each
    vertex that was in the graph, in both directions; it also stores a
    self-loop on [vertex] exactly when some vertex of the graph is less than
    [vertex], because the loop over [vertices] then reaches the vertex that
    its own body has inserted. *)
Theorem X14_CompleteGraph_addVertex g vertex :
  reachable KCompleteGraph g →
  (vertex ∈ Graph.vertices g → addVertex KCompleteGraph g vertex = g) ∧
  (vertex ∉ Graph.vertices g →
   Graph.vertices (addVertex KCompleteGraph g vertex) = {[vertex]} ∪ Graph.vertices g ∧
   ∀ a b w,
     entry (Graph.adjList (addVertex KCompleteGraph g vertex)) a b w ↔
     entry (Graph.adjList g) a b w ∨
     (w = 1 ∧ ∃ x, x ∈ Graph.vertices g ∧
                   ((a = x ∧ b = vertex) ∨ (a = vertex ∧ b = x))) ∨
     (w = 1 ∧ a = vertex ∧ b = vertex ∧ ∃ x, x ∈ Graph.vertices g ∧ x < vertex)).
Proof.
  intros Hr. pose proof (reachable_wf _ _ Hr) as Hwf.
  destruct (reachable_flags _ _ Hr) as (g0 & Hc & Hd & _). inversion Hc; subst.
  simpl in Hd. unfold addVertex, CompleteGraph.addVertex. split.
  - intros Hv. by rewrite decide_True.
  - intros Hv. rewrite decide_False by done.
    destruct (set_begin (Graph.vertices g)) as [v0|] eqn:Hbegin.
    + pose proof (set_begin_Some _ _ Hbegin) as Hv0.
      pose proof (set_begin_least _ _ Hbegin) as Hleast.
      destruct (connect_entries (Graph.vertices g ∪ {[vertex]}) vertex
                  (S (size (Graph.vertices g))) g v0 Hwf Hd eq_refl Hv0) as [Hvs Hent].
      { assert (remaining (Graph.vertices g ∪ {[vertex]}) v0
                ⊆ Graph.vertices g ∪ {[vertex]})
          as Hsub%subseteq_size by (by intros y [_ ?]%elem_of_filter).
        rewrite size_union, size_singleton in Hsub by set_solver. lia. }
      rewrite addVertex_present by (rewrite Hvs; set_solver).
      split; [rewrite Hvs; set_solver|].
      intros a b w. rewrite Hent. split.
      * intros [?|(-> & x & [Hx| ->%elem_of_singleton]%elem_of_union & Hle & Hw)];
          [by left|..].
        -- right. left. split; [done|]. by exists x.
        -- right. right. split; [done|].
           assert (a = vertex ∧ b = vertex) as [-> ->] by naive_solver.
           split_and!; [done..|]. exists v0. split; [done|].
           assert (v0 ≠ vertex) by (by intros ->). lia.
      * intros [?|[(-> & x & Hx & Hw)|(-> & -> & -> & x & Hx & Hlt)]]; [by left|..].
        -- right. split; [done|]. exists x. split; [set_solver|]. split; [by apply Hleast|done].
        -- right. split; [done|]. exists vertex. split; [set_solver|].
           split; [|by left]. specialize (Hleast x Hx). lia.
    + apply set_begin_None in Hbegin. simpl.
      unfold Graph.addVertex. rewrite decide_False by done. simpl. split; [done|].
      intros a b w. rewrite entry_insert_nil. rewrite Hbegin. split.
      * intros [? _]. by left.
      * intros [He|[(_ & x & Hx & _)|(_ & _ & _ & x & Hx & _)]]; [|set_solver..].
        split; [done|]. intros ->. destruct He as (l & Hl & _).
        apply Hv. destruct Hwf as (_ & <- & _). apply elem_of_dom. eauto.
Qed.

Lemma X14_CompleteGraph_addVertex_witness :
  entry (Graph.adjList (addVertex KCompleteGraph complete_23 4)) 4 4 1 ∧
  ¬ entry (Graph.adjList (addVertex KCompleteGraph complete_23 1)) 1 1 1 ∧
  entry (Graph.adjList (addVertex KCompleteGraph complete_23 1)) 1 3 1 ∧
  addVertex KCompleteGraph complete_23 3 = complete_23.
Proof.
  destruct (X14_CompleteGraph_addVertex complete_23 4 complete_23_reachable) as [_ H4].
  destruct (X14_CompleteGraph_addVertex complete_23 1 complete_23_reachable) as [_ H1].
  destruct (X14_CompleteGraph_addVertex complete_23 3 complete_23_reachable) as [H3 _].
  destruct H4 as [_ H4].
  { intros Hin. revert Hin. apply (bool_decide_unpack _). vm_compute. exact I. }
  destruct H1 as [_ H1].
  { intros Hin. revert Hin. apply (bool_decide_unpack _). vm_compute. exact I. }
  assert (H3in : 3 ∈ Graph.vertices complete_23) by in_set.
  split_and!.
  - apply H4. right. right. split_and!; [done..|]. exists 3. split; [exact H3in|lia].
  - intros [He|[(_ & x & Hx & Hcase)|(_ & _ & _ & x & Hx & Hlt)]]%H1.
    + destruct He as (l & Hl & _). vm_compute in Hl. discriminate.
    + assert (x = 1) as -> by (destruct Hcase as [[? ?]|[? ?]]; congruence).
      revert Hx. apply (bool_decide_unpack _). vm_compute. exact I.
    + assert (x = 2 ∨ x = 3) as [-> | ->]; [|lia..].
      revert Hx. change (Graph.vertices complete_23) with ({[2; 3]} : gset Z).
      rewrite elem_of_union, !elem_of_singleton. tauto.
  - apply H1. right. left. split; [done|]. exists 3. split; [exact H3in|]. by right.
  - by apply H3.
Defined.

(** ** The acyclicity check is exact *)

Section dag_converse.
Implicit Types (adj : gmap Z (list (Z * Z))) (visited recStack : gset Z) (g : Graph.t).

Lemma hasCycle_scan_found adj rec vertex l :
  (∀ next visited recStack b visited' recStack',
     stack_leads_to adj visited recStack next → next ∉ visited →
     rec next visited recStack = Ret (b, visited', recStack') →
     (b = true → has_cycle adj) ∧
     (b = false → recStack' = recStack ∧ visited ⊆ visited')) →
  ∀ visited recStack b visited' recStack',
    stack_leads_to adj visited recStack vertex →
    (∀ p, p ∈ l → edge adj vertex p.1) →
    DirectedAcyclicGraph.hasCycle_scan rec l visited recStack
    = Ret (b, visited', recStack') →
    (b = true → has_cycle adj) ∧
    (b = false → recStack' = recStack ∧ visited ⊆ visited').
Proof.
  intros Hrec. induction l as [|p l IH]; intros visited recStack b v' r' Hst Hl; simpl.
  - intros [= <- <- <-]. by split.
  - assert (Hl' : ∀ p', p' ∈ l → edge adj vertex p'.1).
    { intros p' Hp'. by apply Hl, list_elem_of_further. }
    assert (Hp : edge adj vertex p.1) by apply Hl, list_elem_of_here.
    destruct (decide (p.1 ∈ visited)) as [Hv|Hv].
    + destruct (decide (p.1 ∈ recStack)) as [Hr|Hr]; [|by apply IH].
      intros [= <- <- <-]. split; [|done]. intros _.
      destruct Hst as [_ Hlead]. destruct (Hlead _ Hr) as [n Hn].
      exists p.1, n. by eapply walk_snoc.
    + destruct (rec p.1 visited recStack) as [[[b1 v1] r1]| |] eqn:Hcall; [|done..].
      assert (Hst1 : stack_leads_to adj visited recStack p.1).
      { destruct Hst as [Hsub Hlead]. split; [done|]. intros x Hx.
        destruct (Hlead x Hx) as [n Hn]. exists (S n). by eapply walk_snoc. }
      destruct (Hrec _ _ _ _ _ _ Hst1 Hv Hcall) as [Htrue Hfalse].
      destruct b1.
      * intros [= <- <- <-]. split; [done|by intros [=]].
      * destruct (Hfalse eq_refl) as [-> Hsub]. intros Hrest.
        destruct (IH v1 recStack b v' r') as [Ht Hf]; [|done|done|].
        { destruct Hst as [Hs Hlead]. split; [set_solver|done]. }
        split; [done|]. intros Hb. destruct (Hf Hb) as [-> Hsub']. split; [done|set_solver].
Qed.

Lemma hasCycleDFS_found adj fuel :
  ∀ vertex visited recStack b visited' recStack',
    stack_leads_to adj visited recStack vertex → vertex ∉ visited →
    DirectedAcyclicGraph.hasCycleDFS fuel adj vertex visited recStack
    = Ret (b, visited', recStack') →
    (b = true → has_cycle adj) ∧
    (b = false → recStack' = recStack ∧ visited ⊆ visited').
Proof.
  induction fuel as [|fuel IH]; intros vertex visited recStack b v' r' Hst Hv; [done|].
  simpl. destruct (adj !! vertex) as [l|] eqn:Hl; [|done].
  destruct (DirectedAcyclicGraph.hasCycle_scan _ _ _ _) as [[[b1 v1] r1]| |] eqn:Hscan;
    [|done..].
  apply (hasCycle_scan_found adj _ vertex) in Hscan as [Htrue Hfalse].
  - destruct b1; intros [= <- <- <-]; [by split|]. split; [done|]. intros _.
    destruct (Hfalse eq_refl) as [-> Hsub]. destruct Hst as [Hs _]. set_solver.
  - intros next visited0 recStack0 b0 v0 r0. apply IH.
  - destruct Hst as [Hsub Hlead]. split; [set_solver|].
    intros x [->%elem_of_singleton|Hx]%elem_of_union; [exists 0%nat; apply walk_nil|].
    by apply Hlead.
  - intros p Hp. apply (edge_lookup _ _ _ _ Hl), list_elem_of_fmap. by exists p.
Qed.

Lemma hasCycle_roots_found adj fuel roots :
  ∀ visited,
    DirectedAcyclicGraph.hasCycle_roots fuel adj roots visited ∅ = Ret true →
    has_cycle adj.
Proof.
  induction roots as [|r roots IH]; intros visited; simpl; [done|].
  case_decide as Hr; [apply IH|].
  destruct (DirectedAcyclicGraph.hasCycleDFS _ _ _ _ _) as [[[b1 v1] r1]| |] eqn:Hcall;
    [|done..].
  apply hasCycleDFS_found in Hcall as [Htrue Hfalse]; [|split; set_solver|done].
  destruct b1; [intros _; by apply Htrue|].
  destruct (Hfalse eq_refl) as [-> _]. apply IH.
Qed.

(** The check of [addEdge] is exact on a consistent graph. *)
Lemma cycle_check_exact g :
  wf g →
  (has_cycle (Graph.adjList g) → DirectedAcyclicGraph.cycle_check g = Ret true) ∧
  (¬ has_cycle (Graph.adjList g) → DirectedAcyclicGraph.cycle_check g = Ret false).
Proof.
  intros Hwf. destruct (cycle_check_spec g Hwf) as (b & Hb & Hfalse). split.
  - intros Hcyc. destruct b; [done|]. by destruct (Hfalse eq_refl).
  - intros Hno. destruct b; [|done]. destruct Hno. revert Hb.
    unfold DirectedAcyclicGraph.cycle_check. apply hasCycle_roots_found.
Qed.

(** A walk of the graph with the entry from [s] to [d] added either is a walk
    of the graph or goes through the new entry. *)
Lemma walk_extra_edge adj adj' s d u v n :
  (∀ x y, edge adj' x y → edge adj x y ∨ (x = s ∧ y = d)) →
  walk adj' u v n →
  walk adj u v n ∨ ∃ m, walk adj u s m.
Proof.
  intros Hsub Hw. induction Hw as [|x y n _ IH Hxy]; [left; apply walk_nil|].
  destruct IH as [IH|?]; [|by right].
  destruct (Hsub _ _ Hxy) as [?|[-> ->]]; [left; by eapply walk_snoc|].
  right. by exists n.
Qed.

Lemma walk_extra_edge_back adj adj' s d u v n :
  (∀ x y, edge adj' x y → edge adj x y ∨ (x = s ∧ y = d)) →
  walk adj' u v n →
  walk adj u v n ∨ ∃ m, walk adj d v m.
Proof.
  intros Hsub Hw. induction Hw as [|x y n _ IH Hxy]; [left; apply walk_nil|].
  destruct (Hsub _ _ Hxy) as [He|[-> ->]]; [|right; exists 0%nat; apply walk_nil].
  destruct IH as [IH|[m Hm]]; [left; by eapply walk_snoc|].
  right. exists (S m). by eapply walk_snoc.
Qed.

(** In an acyclic graph the entry from [s] to [d] closes a cycle exactly when
    [d] leads to [s]. *)
Lemma cycle_through_new_edge adj adj' s d :
  (∀ x y, edge adj' x y ↔ edge adj x y ∨ (x = s ∧ y = d)) →
  ¬ has_cycle adj →
  has_cycle adj' ↔ ∃ n, walk adj d s n.
Proof.
  intros Hedge Hac. split.
  - intros (v & n & Hw).
    destruct (walk_extra_edge adj adj' s d v v (S n)) as [?|[a Ha]];
      [intros x y; apply Hedge|done|by destruct Hac; exists v, n|].
    destruct (walk_extra_edge_back adj adj' s d v v (S n)) as [?|[b Hb]];
      [intros x y; apply Hedge|done|by destruct Hac; exists v, n|].
    exists (b + a)%nat. by eapply walk_trans.
  - intros [n Hn]. exists d, n. eapply walk_snoc.
    + eapply walk_subgraph; [|done]. intros x y He. apply Hedge. by left.
    + apply Hedge. by right.
Qed.

End dag_converse.

(** X15.  A [DirectedAcyclicGraph] is directed and holds no directed cycle
    after any sequence of public operations.  [addEdge(src, dest)] throws
    [logic_error] when a walk already leads from [dest] to [src] (in
    particular when [src == dest]); in every other case it returns, having
    done what [Graph::addEdge] does. *)
Theorem X15_DirectedAcyclicGraph_addEdge g src dest weight :
  reachable KDirectedAcyclicGraph g →
  Graph.isDirected g = true ∧ ¬ has_cycle (Graph.adjList g) ∧
  ((∃ n, walk (Graph.adjList g) dest src n) →
   (addEdge KDirectedAcyclicGraph g src dest weight).2
   = Throw (logic_error "Adding this edge would create a cycle in DAG")) ∧
  (¬ (∃ n, walk (Graph.adjList g) dest src n) →
   addEdge KDirectedAcyclicGraph g src dest weight
   = (Graph.addEdge g src dest weight, Ret ())).
Proof.
  intros Hr. destruct (reachable_dag_ok g Hr) as (Hwf & Hd & Hac).
  split; [done|]. split; [done|].
  assert (Hiff : has_cycle (Graph.adjList (Graph.addEdge g src dest weight)) ↔
                 ∃ n, walk (Graph.adjList g) dest src n).
  { apply cycle_through_new_edge; [|done]. intros x y. rewrite !edge_entry.
    setoid_rewrite entry_addEdge; [|done]. rewrite Hd. naive_solver. }
  destruct (cycle_check_exact (Graph.addEdge g src dest weight)) as [Hyes Hno];
    [by apply wf_addEdge|].
  unfold addEdge, DirectedAcyclicGraph.addEdge. split.
  - intros Hw%Hiff. by rewrite (Hyes Hw).
  - intros Hw. rewrite Hno; [done|]. by rewrite Hiff.
Qed.

Lemma X15_DirectedAcyclicGraph_addEdge_witness :
  (addEdge KDirectedAcyclicGraph scenario_B 4 1 1).2
  = Throw (logic_error "Adding this edge would create a cycle in DAG") ∧
  ¬ has_cycle (Graph.adjList scenario_B).
Proof.
  destruct (X15_DirectedAcyclicGraph_addEdge scenario_B 4 1 1 scenario_B_reachable)
    as (_ & Hac & Hthrow & _).
  split; [|exact Hac]. apply Hthrow. exists 2%nat.
  apply (walk_snoc _ _ 2); [apply (walk_snoc _ _ 1); [apply walk_nil|]|].
  - exists [(2, 1); (3, 1)]. split; [vm_compute; reflexivity|apply list_elem_of_here].
  - exists [(4, 1)]. split; [vm_compute; reflexivity|apply list_elem_of_here].
Defined.

(** ** The two-colouring check is exact *)

Section bipartite_converse.
Implicit Types (adj : gmap Z (list (Z * Z))) (color : gmap Z Z) (g : Graph.t).

Lemma forced_inv_discover adj color comp vertex q root n :
  forced_inv adj color comp (vertex :: q) root →
  root ∈ dom color → edge adj vertex n → color !! n = None →
  forced_inv adj (<[n := 1 - color !!! vertex]> color)
    (λ x, if decide (x = n) then root else comp x) (vertex :: q ++ [n]) root.
Proof.
  intros [Hforced Hdone Hpend Hval Hcomp] Hroot He Hn.
  apply not_elem_of_dom in Hn.
  destruct (Hpend vertex) as [Hv Hcv]; [apply list_elem_of_here|].
  assert (Hvn : vertex ≠ n) by (by intros ->).
  assert (Hlook : ∀ x, x ≠ n →
            (<[n := 1 - color !!! vertex]> color) !!! x = color !!! x).
  { intros x Hx. by rewrite lookup_total_insert_ne. }
  assert (Hnew : (<[n := 1 - color !!! vertex]> color) !!! n = 1 - color !!! vertex).
  { by rewrite lookup_total_insert_eq. }
  assert (Hkey : ∀ c, two_colouring adj c →
            ∀ y, y ∈ dom color → comp y = root →
                 (c n = c y ↔ 1 - color !!! vertex = color !!! y)).
  { intros c Hc y Hy Hcy.
    pose proof (Hforced c Hc vertex y Hv Hy ltac:(congruence)) as Hiff.
    pose proof (Hc vertex n He) as Hne.
    destruct (Hval vertex Hv) as [Hcv0|Hcv0], (Hval y Hy) as [Hcy0|Hcy0];
      rewrite Hcv0, Hcy0 in *;
      destruct (c vertex), (c n), (c y); naive_solver lia. }
  split.
  - intros c Hc x y Hx Hy. rewrite dom_insert_L in Hx, Hy.
    destruct (decide (x = n)) as [->|Hxn], (decide (y = n)) as [->|Hyn].
    + done.
    + intros Hcy. rewrite Hnew, Hlook by done.
      apply Hkey; [done|set_solver|done].
    + intros Hcx. rewrite Hnew, Hlook by done.
      assert (x ∈ dom color) as Hxd by set_solver.
      destruct (Hkey c Hc x Hxd Hcx) as [H1 H2].
      split; intros Heq; symmetry; [apply H1|apply H2]; by symmetry.
    + rewrite !Hlook by done. apply Hforced; [done|set_solver..].
  - intros u w Hu Hnp Hw. rewrite dom_insert_L in Hu.
    assert (u ≠ n) as Hun.
    { intros ->. apply Hnp. apply list_elem_of_further, elem_of_app. right.
      apply list_elem_of_here. }
    destruct (Hdone u w) as [Hwd Hcw]; [set_solver| |done|].
    { intros [->|Hin]%elem_of_cons; apply Hnp; [apply list_elem_of_here|].
      apply list_elem_of_further, elem_of_app. by left. }
    assert (w ≠ n) by (by intros ->).
    rewrite dom_insert_L. split; [set_solver|]. by rewrite !decide_False.
  - intros x [->|[Hx| ->%list_elem_of_singleton]%elem_of_app]%elem_of_cons;
      rewrite dom_insert_L.
    + split; [set_solver|]. by rewrite decide_False.
    + destruct (Hpend x) as [Hxd Hcx]; [by apply list_elem_of_further|].
      split; [set_solver|]. rewrite decide_False; [done|]. by intros ->.
    + split; [set_solver|]. by rewrite decide_True.
  - intros u Hu. rewrite dom_insert_L in Hu. destruct (decide (u = n)) as [->|Hun].
    + rewrite Hnew. destruct (Hval vertex Hv) as [-> | ->]; [by right|by left].
    + rewrite Hlook by done. apply Hval. set_solver.
  - intros x Hx. rewrite dom_insert_L in *. case_decide; [set_solver|].
    assert (x ∈ dom color) by set_solver. pose proof (Hcomp x). set_solver.
Qed.

Lemma color_scan_forced adj vertex l root :
  symmetric adj →
  ∀ color q comp,
    forced_inv adj color comp (vertex :: q) root → root ∈ dom color →
    (∀ p, p ∈ l → edge adj vertex p.1) →
    match BipartiteGraph.color_scan vertex l color q with
    | None => ¬ two_colourable adj
    | Some (color', q') =>
        ∃ comp', forced_inv adj color' comp' (vertex :: q') root ∧
                 (∀ x, x ∈ dom color → x ∈ dom color' ∧ comp' x = comp x) ∧
                 ∀ p, p ∈ l → p.1 ∈ dom color' ∧ comp' p.1 = root
    end.
Proof.
  intros Hsym. induction l as [|p l IH]; intros color q comp Hinv Hroot Hl; simpl.
  - exists comp. split_and!; [done..|]. by intros ? ?%elem_of_nil.
  - assert (Hl' : ∀ p', p' ∈ l → edge adj vertex p'.1).
    { intros p' Hp'. by apply Hl, list_elem_of_further. }
    assert (Hp : edge adj vertex p.1) by apply Hl, list_elem_of_here.
    destruct (fi_pending _ _ _ _ _ Hinv vertex) as [Hv Hcv]; [apply list_elem_of_here|].
    destruct (decide (color !! p.1 = None)) as [Hnone|Hsome].
    + pose proof (forced_inv_discover _ _ _ _ _ _ _ Hinv Hroot Hp Hnone) as Hinv'.
      specialize (IH _ _ _ Hinv').
      assert (Hroot1 : root ∈ dom (<[p.1 := 1 - color !!! vertex]> color)).
      { rewrite dom_insert_L. apply elem_of_union. by right. }
      destruct (BipartiteGraph.color_scan vertex l _ _) as [[color' q']|];
        [|by apply IH].
      destruct (IH Hroot1 Hl') as (comp' & Hinv'' & Hext & Hall).
      assert (Hp1 : p.1 ∈ dom color' ∧ comp' p.1 = root).
      { destruct (Hext p.1) as [? Heq].
        - rewrite dom_insert_L. apply elem_of_union. left. by apply elem_of_singleton.
        - split; [done|]. by rewrite Heq, decide_True. }
      exists comp'. split_and!; [done| |].
      * intros x Hx. destruct (Hext x) as [? Heq].
        { rewrite dom_insert_L. apply elem_of_union. by right. }
        split; [done|]. rewrite Heq, decide_False; [done|].
        intros ->. apply not_elem_of_dom in Hnone. done.
      * intros p' [->|Hp']%elem_of_cons; [done|by apply Hall].
    + assert (Hpd : p.1 ∈ dom color).
      { apply elem_of_dom. by destruct (color !! p.1); [eexists|]. }
      assert (Hcp : comp p.1 = root).
      { destruct (decide (p.1 ∈ vertex :: q)) as [Hin|Hnin].
        - by apply (fi_pending _ _ _ _ _ Hinv).
        - destruct (fi_done _ _ _ _ _ Hinv p.1 vertex Hpd Hnin) as [_ Heq];
            [by apply symmetric_edge|]. congruence. }
      destruct (decide (color !!! p.1 = color !!! vertex)) as [Hsame|Hdiff].
      * intros [c Hc]. pose proof (Hc vertex p.1 Hp) as Hne.
        apply Hne. symmetry.
        apply (fi_forced _ _ _ _ _ Hinv c Hc p.1 vertex Hpd Hv); [congruence|done].
      * specialize (IH _ _ _ Hinv Hroot Hl').
        destruct (BipartiteGraph.color_scan vertex l color q) as [[color' q']|]; [|done].
        destruct IH as (comp' & Hinv'' & Hext & Hall).
        exists comp'. split_and!; [done..|].
        intros p' [->|Hp']%elem_of_cons; [|by apply Hall].
        destruct (Hext p.1 Hpd) as [? Heq]. split; [done|congruence].
Qed.

Lemma color_loop_forced adj fuel root :
  symmetric adj →
  ∀ color q comp r,
    forced_inv adj color comp q root → root ∈ dom color →
    BipartiteGraph.color_loop fuel adj color q = Ret r →
    match r with
    | None => ¬ two_colourable adj
    | Some color' =>
        ∃ comp', forced_inv adj color' comp' [] root ∧
                 ∀ x, x ∈ dom color → x ∈ dom color'
    end.
Proof.
  intros Hsym. induction fuel as [|fuel IH]; intros color q comp r Hinv Hroot.
  - destruct q; [|done]. intros [= <-]. by exists comp.
  - destruct q as [|vertex q]; [intros [= <-]; by exists comp|]. simpl.
    destruct (adj !! vertex) as [l|] eqn:Hl; [|done].
    pose proof (color_scan_forced adj vertex l root Hsym color q comp Hinv Hroot) as Hscan.
    destruct (BipartiteGraph.color_scan vertex l color q) as [[color1 q1]|].
    + destruct Hscan as (comp1 & Hinv1 & Hext1 & Hall1).
      { intros p Hp. apply (edge_lookup _ _ _ _ Hl), list_elem_of_fmap. by exists p. }
      intros Hloop. apply (IH _ _ comp1) in Hloop.
      * destruct r as [color'|]; [|done]. destruct Hloop as (comp' & Hinv' & Hext').
        exists comp'. split; [done|]. intros x Hx. by apply Hext', Hext1.
      * destruct Hinv1 as [Hforced Hdone Hpend Hval Hcomp].
        destruct (Hpend vertex) as [Hv Hcv]; [apply list_elem_of_here|].
        split; [done| |by intros x Hx; apply Hpend, list_elem_of_further|done|done].
        intros u w Hu Hnp He. destruct (decide (u = vertex)) as [->|Hne].
        -- apply (edge_lookup _ _ _ _ Hl), list_elem_of_fmap in He as (p & -> & Hp).
           destruct (Hall1 p Hp). split; [done|congruence].
        -- apply Hdone; [done| |done]. by intros [?|?]%elem_of_cons.
      * by apply Hext1.
    + intros [= <-]. apply Hscan.
      intros p Hp. apply (edge_lookup _ _ _ _ Hl), list_elem_of_fmap. by exists p.
Qed.

Lemma forced_inv_start adj color comp root start :
  forced_inv adj color comp [] root → color !! start = None →
  forced_inv adj (<[start := 0]> color)
    (λ x, if decide (x = start) then start else comp x) [start] start.
Proof.
  intros [Hforced Hdone _ Hval Hcomp] Hnone. apply not_elem_of_dom in Hnone.
  assert (Hold : ∀ x, x ∈ dom color → x ≠ start) by (intros x Hx ->; done).
  split.
  - intros c Hc x y Hx Hy. rewrite dom_insert_L in Hx, Hy.
    destruct (decide (x = start)) as [->|Hxs], (decide (y = start)) as [->|Hys]; [done|..].
    + intros Heq. assert (y ∈ dom color) as Hyd by set_solver.
      destruct (Hold _ (Hcomp y Hyd)). done.
    + intros Heq. assert (x ∈ dom color) as Hxd by set_solver.
      destruct (Hold _ (Hcomp x Hxd)). done.
    + rewrite !lookup_total_insert_ne by done. apply Hforced; set_solver.
  - intros u w Hu Hnp He. rewrite dom_insert_L in Hu.
    assert (u ≠ start) by (intros ->; apply Hnp, list_elem_of_here).
    destruct (Hdone u w) as [Hw Hcw]; [set_solver|by intros ?%elem_of_nil|done|].
    rewrite dom_insert_L. split; [set_solver|].
    rewrite !decide_False; [done..|]. by apply Hold.
  - intros x ->%list_elem_of_singleton. rewrite dom_insert_L.
    split; [set_solver|]. by rewrite decide_True.
  - intros u Hu. rewrite dom_insert_L in Hu. destruct (decide (u = start)) as [->|Hne].
    + left. by rewrite lookup_total_insert_eq.
    + rewrite lookup_total_insert_ne by done. apply Hval. set_solver.
  - intros x Hx. rewrite dom_insert_L in *. case_decide; [set_solver|].
    assert (x ∈ dom color) by set_solver. pose proof (Hcomp x). set_solver.
Qed.

Lemma color_starts_forced adj fuel starts :
  symmetric adj →
  ∀ color comp root,
    forced_inv adj color comp [] root →
    BipartiteGraph.color_starts fuel adj starts color = Ret false →
    ¬ two_colourable adj.
Proof.
  intros Hsym. induction starts as [|start starts IH]; intros color comp root Hinv;
    simpl; [done|].
  case_decide as Hnone; [|by apply (IH _ comp root)].
  destruct (BipartiteGraph.color_loop _ _ _ _) as [[color'|]| |] eqn:Hloop; [| |done..].
  - apply (color_loop_forced adj fuel start Hsym _ _
             (λ x, if decide (x = start) then start else comp x)) in Hloop.
    + destruct Hloop as (comp' & Hinv' & _). by apply (IH _ comp' start).
    + by eapply forced_inv_start.
    + rewrite dom_insert_L. set_solver.
  - intros _.
    apply (color_loop_forced adj fuel start Hsym _ _
             (λ x, if decide (x = start) then start else comp x)) in Hloop; [done| |].
    + by eapply forced_inv_start.
    + rewrite dom_insert_L. set_solver.
Qed.

(** The check of [BipartiteGraph::addEdge] is exact on a consistent undirected
    graph. *)
Lemma isBipartiteCheck_exact g :
  wf g → symmetric (Graph.adjList g) →
  (two_colourable (Graph.adjList g) → BipartiteGraph.isBipartiteCheck g = Ret true) ∧
  (¬ two_colourable (Graph.adjList g) → BipartiteGraph.isBipartiteCheck g = Ret false).
Proof.
  intros Hwf Hsym. destruct (isBipartiteCheck_spec g Hwf) as (b & Hb & Htrue). split.
  - intros Hcol. destruct b; [done|]. exfalso. revert Hb Hcol.
    unfold BipartiteGraph.isBipartiteCheck. case_decide; [done|].
    apply (color_starts_forced _ _ _ Hsym ∅ (λ x, x) 0).
    split; intros; set_solver.
  - intros Hno. destruct b; [|done]. destruct Hno. by apply Htrue.
Qed.

End bipartite_converse.

(** X16.  A [BipartiteGraph] is undirected and two-colourable after any
    sequence of public operations.  [addEdge(src, dest)] returns, having done
    what [Graph::addEdge] does, when the graph with the new edge is still
    two-colourable, and throws [logic_error] when it is not. *)
Theorem X16_BipartiteGraph_addEdge g src dest weight :
  reachable KBipartiteGraph g →
  Graph.isDirected g = false ∧ two_colourable (Graph.adjList g) ∧
  (two_colourable (Graph.adjList (Graph.addEdge g src dest weight)) →
   addEdge KBipartiteGraph g src dest weight
   = (Graph.addEdge g src dest weight, Ret ())) ∧
  (¬ two_colourable (Graph.adjList (Graph.addEdge g src dest weight)) →
   (addEdge KBipartiteGraph g src dest weight).2
   = Throw (logic_error "Adding this edge would break bipartite property")).
Proof.
  intros Hr. destruct (reachable_bipartite_ok g Hr) as (Hwf & Hd & Hcol).
  pose proof (reachable_symmetry_invariant _ _ Hr) as (_ & _ & Hsym).
  split; [done|]. split; [done|].
  destruct (undirected_ok_addEdge g src dest weight) as (Hwf' & _ & Hsym'); [by split_and!; auto|].
  destruct (isBipartiteCheck_exact _ Hwf' Hsym') as [Hyes Hno].
  unfold addEdge, BipartiteGraph.addEdge. split.
  - intros Hc. by rewrite (Hyes Hc).
  - intros Hc. by rewrite (Hno Hc).
Qed.

Lemma X16_BipartiteGraph_addEdge_witness :
  two_colourable (Graph.adjList scenario_C) ∧
  (addEdge KBipartiteGraph scenario_C 1 3 1).2
  = Throw (logic_error "Adding this edge would break bipartite property").
Proof.
  destruct (X16_BipartiteGraph_addEdge scenario_C 1 3 1 scenario_C_reachable)
    as (_ & Hcol & _ & Hthrow).
  split; [exact Hcol|]. apply Hthrow. clear.
  apply (triangle_not_colourable _ 1 2 3);
    apply (edge_of_triples _
             [(1, 2, 1); (1, 4, 1); (1, 3, 1); (2, 1, 1); (2, 3, 1);
              (3, 2, 1); (3, 4, 1); (3, 1, 1); (4, 1, 1); (4, 3, 1)] _ _ 1);
    first [vm_compute; reflexivity | set_solver].
Defined.

(** ** Distances between vertices *)

Section metric.
Implicit Types (adj : gmap Z (list (Z * Z))) (g : Graph.t).

(** What [getDistance] returns on two vertices, equal or not. *)
Lemma getDistance_vertices g u v :
  u ∈ Graph.vertices g → v ∈ Graph.vertices g →
  (Graph.getDistance g u v = Ret (-1) ∧ ∀ n, ¬ walk (Graph.adjList g) u v n) ∨
  (∃ n, Graph.getDistance g u v = Ret (Z.of_nat n) ∧ shortest (Graph.adjList g) u v n).
Proof.
  intros Hu Hv. destruct (decide (u = v)) as [->|Hne].
  - right. exists 0%nat. split.
    + unfold Graph.getDistance. by rewrite !decide_True.
    + split; [apply walk_nil|]. intros m _. lia.
  - destruct (getDistance_spec g u v Hu Hv Hne) as (d & Hd & [[-> Hno]|(n & -> & _ & Hn)]).
    + by left.
    + right. by exists n.
Qed.

End metric.

(** X17. Between vertices, [getDistance] behaves as a distance: on an
    undirected graph it does not depend on the direction, and when [v] is
    reached from [u] and [w] from [v], [w] is reached from [u] by no more
    edges than the two distances together. *)
Theorem X17_getDistance_metric k g u v w :
  reachable k g →
  u ∈ Graph.vertices g → v ∈ Graph.vertices g → w ∈ Graph.vertices g →
  (Graph.isDirected g = false → Graph.getDistance g u v = Graph.getDistance g v u) ∧
  (∀ a b, Graph.getDistance g u v = Ret a → Graph.getDistance g v w = Ret b →
          a ≠ -1 → b ≠ -1 →
          ∃ c, Graph.getDistance g u w = Ret c ∧ 0 ≤ c ≤ a + b).
Proof.
  intros Hr Hu Hv Hw.
  pose proof (reachable_symmetry_invariant _ _ Hr) as (_ & _ & Hsym). split.
  - intros Hund. specialize (Hsym Hund).
    destruct (getDistance_vertices g u v Hu Hv) as [[-> Hno]|(n & -> & Hn & Hmin)],
             (getDistance_vertices g v u Hv Hu) as [[-> Hno']|(m & -> & Hm & Hmin')].
    + done.
    + destruct (Hno m). by apply walk_sym.
    + destruct (Hno' n). by apply walk_sym.
    + f_equal. assert (n ≤ m)%nat by by apply Hmin, walk_sym.
      assert (m ≤ n)%nat by by apply Hmin', walk_sym. lia.
  - intros a b Ha Hb Hna Hnb.
    destruct (getDistance_vertices g u v Hu Hv) as [[Huv _]|(n & Huv & Hn & _)];
      [congruence|].
    destruct (getDistance_vertices g v w Hv Hw) as [[Hvw _]|(m & Hvw & Hm & _)];
      [congruence|].
    assert (a = Z.of_nat n) as -> by congruence.
    assert (b = Z.of_nat m) as -> by congruence.
    destruct (getDistance_vertices g u w Hu Hw) as [[_ Hno]|(c & -> & Hc & Hmin)].
    + destruct (Hno (n + m)%nat). by eapply walk_trans.
    + exists (Z.of_nat c). split; [done|].
      assert (c ≤ n + m)%nat by (apply Hmin; by eapply walk_trans). lia.
Qed.

Lemma X17_getDistance_metric_witness :
  Graph.getDistance scenario_C 1 3 = Graph.getDistance scenario_C 3 1 ∧
  ∃ c, Graph.getDistance scenario_C 1 3 = Ret c ∧ 0 ≤ c ≤ 1 + 1.
Proof.
  destruct (X17_getDistance_metric KBipartiteGraph scenario_C 1 3 1 scenario_C_reachable)
    as [Hsym _]; [in_set..|].
  destruct (X17_getDistance_metric KBipartiteGraph scenario_C 1 2 3 scenario_C_reachable)
    as [_ Htri]; [in_set..|].
  split; [apply Hsym; vm_compute; reflexivity|].
  apply (Htri 1 1); [vm_compute; reflexivity..|lia|lia].
Defined.

(** ** The order of the breadth-first traversal *)

Section level_order.
Implicit Types (adj : gmap Z (list (Z * Z))) (s : Graph.bfs_state).

Lemma BFS_explore_levels adj start dest current l :
  dest ∉ targets adj →
  ∀ s,
    level_inv adj start dest s (current :: Graph.bfs_q s) →
    (∀ p, p ∈ l → edge adj current p.1) →
    let s' := Graph.BFS_explore current l s in
    level_inv adj start dest s' (current :: Graph.bfs_q s') ∧
    Graph.bfs_visited s ⊆ Graph.bfs_visited s' ∧
    (∀ w, w ∈ Graph.bfs_visited s →
          Graph.bfs_level s' !!! w = Graph.bfs_level s !!! w) ∧
    (∀ p, p ∈ l → p.1 ∈ Graph.bfs_visited s' ∧
                  Graph.bfs_level s' !!! p.1 ≤ Graph.bfs_level s' !!! current + 1).
Proof.
  intros Hdest. unfold Graph.BFS_explore.
  induction l as [|p l IH]; intros s Hinv Hl; simpl.
  { split_and!; try done. by intros p ?%elem_of_nil. }
  assert (Hcur : current ∈ Graph.bfs_visited s).
  { apply (di_pending _ _ _ _ _ _ (li_distance _ _ _ _ _ Hinv)), list_elem_of_here. }
  assert (He : edge adj current p.1) by apply Hl, list_elem_of_here.
  assert (Hl' : ∀ p', p' ∈ l → edge adj current p'.1).
  { intros p' Hp'. by apply Hl, list_elem_of_further. }
  case_decide as Hp.
  - destruct (IH s Hinv Hl') as (Hinv' & Hsub & Hstable & Hnbrs).
    split_and!; try done.
    intros p' [->|Hp']%elem_of_cons; [|by apply Hnbrs].
    split; [by apply Hsub|]. rewrite !Hstable by done.
    by apply (di_near _ _ _ _ _ _ (li_distance _ _ _ _ _ Hinv)).
  - set (s1 := Graph.mk_bfs _ _ _ _ _).
    assert (Hold : ∀ x, x ∈ Graph.bfs_visited s →
              <[p.1 := Graph.bfs_level s !!! current + 1]> (Graph.bfs_level s) !!! x
              = Graph.bfs_level s !!! x).
    { intros x Hx. apply lookup_total_insert_ne. by intros <-. }
    assert (Hinv1 : level_inv adj start dest s1 (current :: Graph.bfs_q s1)).
    { destruct Hinv as [Hdist Hsorted Hvis]. split; simpl.
      - apply distance_inv_discover; [done..|].
        intros Heq. apply Hdest. rewrite <-Heq. by eapply edge_targets.
      - rewrite app_assoc. apply StronglySorted_app. split_and!.
        + intros x1 x2 Hx1 ->%list_elem_of_singleton.
          rewrite lookup_total_insert_eq.
          rewrite lookup_total_insert_ne by (intros <-; by apply Hp, Hvis).
          by apply (di_near _ _ _ _ _ _ Hdist); [apply Hvis|].
        + eapply StronglySorted_agree; [|done]. intros x y Hx Hy. simpl.
          intros Hxy. by rewrite (Hold x (Hvis x Hx)), (Hold y (Hvis y Hy)).
        + repeat constructor.
      - intros x. rewrite app_assoc. intros [Hx| ->%list_elem_of_singleton]%elem_of_app.
        + apply elem_of_union_r. by apply Hvis.
        + apply elem_of_union_l. by apply elem_of_singleton. }
    destruct (IH s1 Hinv1 Hl') as (Hinv' & Hsub & Hstable & Hnbrs).
    split_and!; [done|simpl in Hsub; set_solver| |].
    + intros w Hw. rewrite Hstable by (simpl; set_solver). by apply Hold.
    + intros p' [->|Hp']%elem_of_cons; [|by apply Hnbrs].
      split; [apply Hsub; simpl; set_solver|].
      rewrite !Hstable by (simpl; set_solver).
      simpl. rewrite (Hold current Hcur), lookup_total_insert_eq. lia.
Qed.

Lemma BFS_level_levels adj start dest n :
  dest ∉ targets adj →
  ∀ s, level_inv adj start dest s (Graph.bfs_q s) →
       level_inv adj start dest (Graph.BFS_level adj n s)
         (Graph.bfs_q (Graph.BFS_level adj n s)).
Proof.
  intros Hdest.
  induction n as [|n IH]; intros s Hinv; simpl; [by destruct (Graph.bfs_q s)|].
  destruct (Graph.bfs_q s) as [|current q] eqn:Hq; [by rewrite <-Hq in Hinv|].
  apply IH.
  set (s1 := Graph.mk_bfs _ _ _ _ _).
  assert (Hinv1 : level_inv adj start dest s1 (current :: Graph.bfs_q s1)).
  { destruct Hinv as [Hdist Hsorted Hvis]. rewrite Hq in *. split; simpl.
    - done.
    - by rewrite <-app_assoc.
    - intros x. rewrite <-app_assoc. apply Hvis. }
  assert (Hclose : ∀ s2,
            level_inv adj start dest s2 (current :: Graph.bfs_q s2) →
            (∀ w, edge adj current w →
                  w ∈ Graph.bfs_visited s2 ∧
                  Graph.bfs_level s2 !!! w ≤ Graph.bfs_level s2 !!! current + 1) →
            level_inv adj start dest s2 (Graph.bfs_q s2)).
  { intros s2 [Hdist Hsorted Hvis] Hall. split; [|done..].
    eapply distance_inv_pop; [exact Hdist|exact Hall]. }
  destruct (adj !! current) as [l|] eqn:Hl.
  - destruct (BFS_explore_levels adj start dest current l Hdest s1 Hinv1)
      as (H1 & _ & _ & H4).
    { intros p Hp. exists l. split; [done|]. apply list_elem_of_fmap. by exists p. }
    apply Hclose; [done|]. intros w (l' & Hl' & Hw). rewrite Hl in Hl'.
    injection Hl' as <-. apply list_elem_of_fmap in Hw as (p & -> & Hp). by apply H4.
  - apply Hclose; [done|]. intros w (l' & Hl' & _). by rewrite Hl in Hl'.
Qed.

Lemma BFS_loop_levels adj start dest fuel :
  dest ∉ targets adj →
  ∀ s s', level_inv adj start dest s (Graph.bfs_q s) →
          Graph.BFS_loop fuel adj s = Ret s' →
          level_inv adj start dest s' [] ∧ Graph.bfs_q s' = [].
Proof.
  intros Hdest.
  induction fuel as [|fuel IH]; intros s s' Hinv; simpl.
  - destruct (Graph.bfs_q s) eqn:Hq; [|done]. intros [= <-]. by split.
  - destruct (Graph.bfs_q s) eqn:Hq; [intros [= <-]; by split|].
    apply IH. apply BFS_level_levels; [done|]. by rewrite Hq.
Qed.

Lemma level_inv_init adj start dest :
  start ≠ dest →
  level_inv adj start dest
    (Graph.mk_bfs [] {[start]} [start] {[start := start]} {[start := 0]}) [start].
Proof.
  intros Hne. split; simpl.
  - by apply distance_inv_init.
  - repeat constructor.
  - intros x ->%list_elem_of_singleton. by apply elem_of_singleton.
Qed.

(** Once the queue is empty the level of a vertex is its distance. *)
Lemma level_inv_shortest adj start dest s x :
  level_inv adj start dest s [] → x ∈ Graph.bfs_visited s →
  shortest adj start x (Z.to_nat (Graph.bfs_level s !!! x)).
Proof.
  intros [Hdist _ _] Hx.
  destruct (di_sound _ _ _ _ _ _ Hdist x Hx) as (n & Hn & Hwalk).
  rewrite Hn, Nat2Z.id. split; [done|]. intros m Hm.
  destruct (distance_inv_walk _ _ _ _ _ _ _ _ Hdist Hm) as [_ Hle];
    [by intros y ?%elem_of_nil|]. lia.
Qed.

End level_order.

(** X18. [BFS] lists the vertices in order of distance: every listed vertex
    has a least number of edges by which [start] reaches it, and along the
    returned list this number never decreases. *)
Theorem X18_BFS_lists_by_distance g start traversal :
  Graph.BFS g start = Ret traversal →
  ∃ dist : Z → nat,
    (∀ v, v ∈ traversal → shortest (Graph.adjList g) start v (dist v)) ∧
    StronglySorted (λ a b, (dist a ≤ dist b)%nat) traversal.
Proof.
  unfold Graph.BFS. case_decide as Hs; [|done].
  destruct (Graph.BFS_loop _ _ _) as [s'| |] eqn:Hloop; [|done..].
  intros [= <-].
  destruct (exist_fresh (targets (Graph.adjList g) ∪ {[start]})) as [dest Hfresh].
  assert (Hnot : dest ∉ targets (Graph.adjList g)).
  { intros Hin. apply Hfresh, elem_of_union. by left. }
  assert (Hne : start ≠ dest).
  { intros ->. apply Hfresh, elem_of_union. right. by apply elem_of_singleton. }
  destruct (BFS_loop_levels _ start dest _ Hnot _ _ (level_inv_init _ _ _ Hne) Hloop)
    as [Hinv Hq].
  exists (λ v, Z.to_nat (Graph.bfs_level s' !!! v)).
  pose proof Hinv as [Hdist Hsorted Hvis]. rewrite Hq, app_nil_r in *. split.
  - intros v Hv. eapply level_inv_shortest; [done|]. by apply Hvis.
  - eapply StronglySorted_agree; [|done]. intros x y Hx Hy. simpl.
    destruct (di_sound _ _ _ _ _ _ Hdist x (Hvis x Hx)) as (n & -> & _).
    destruct (di_sound _ _ _ _ _ _ Hdist y (Hvis y Hy)) as (m & -> & _).
    rewrite !Nat2Z.id. lia.
Qed.

Lemma X18_BFS_lists_by_distance_witness :
  ∃ dist : Z → nat,
    (∀ v, v ∈ [1; 2; 3; 4] → shortest (Graph.adjList scenario_E) 1 v (dist v)) ∧
    StronglySorted (λ a b, (dist a ≤ dist b)%nat) [1; 2; 3; 4].
Proof.
  apply (X18_BFS_lists_by_distance scenario_E 1 [1; 2; 3; 4]).
  vm_compute. reflexivity.
Defined.

(** ** The cycle check of [CyclicGraph] *)

Section cyclic.
Implicit Types (adj : gmap Z (list (Z * Z))) (visited : gset Z) (stack : list Z)
  (par : Z → Z) (depth : Z → nat).

Lemma tree_edge_sym par depth u w : tree_edge par depth u w → tree_edge par depth w u.
Proof. unfold tree_edge. naive_solver. Qed.

Lemma tree_edge_agree par depth par' depth' u w :
  par' u = par u → depth' u = depth u → par' w = par w → depth' w = depth w →
  tree_edge par depth u w → tree_edge par' depth' u w.
Proof. unfold tree_edge. intros -> -> -> ->. done. Qed.

Lemma chain_of_stack adj rest : ∀ pre w,
  stack_chain adj (pre ++ w :: rest) → chain adj w rest.
Proof.
  induction rest as [|v rest IH]; intros pre w Hst; [done|]. split.
  - by apply (Hst pre w v rest).
  - apply (IH (pre ++ [w])). by rewrite <-app_assoc.
Qed.

Lemma stack_chain_snoc adj stack vertex :
  stack_chain adj stack →
  (∀ parent, last stack = Some parent → edge adj parent vertex) →
  stack_chain adj (stack ++ [vertex]).
Proof.
  intros Hst Hlast pre u v rest Heq.
  destruct (decide (rest = [])) as [->|Hne].
  - change (pre ++ [u; v]) with (pre ++ [u] ++ [v]) in Heq. rewrite app_assoc in Heq.
    apply app_inj_tail in Heq as [-> ->]. apply Hlast. by rewrite last_snoc.
  - destruct (exists_last Hne) as (rest' & x & ->).
    change (pre ++ u :: v :: rest' ++ [x]) with (pre ++ (u :: v :: rest') ++ [x]) in Heq.
    rewrite app_assoc in Heq. apply app_inj_tail in Heq as [-> ->].
    by apply (Hst pre u v rest').
Qed.

Lemma cyc_inv_agree adj visited stack par depth par' depth' :
  cyc_inv adj visited stack par depth →
  (∀ x, x ∈ visited → par' x = par x ∧ depth' x = depth x) →
  cyc_inv adj visited stack par' depth'.
Proof.
  intros [Hnd Hstack Hchain Hpar Htree Hback] Hag. split; try done.
  - intros x Hx. destruct (Hag x Hx) as [-> _]. by apply Hpar.
  - intros u w Hu Hns He. destruct (Htree u w Hu Hns He) as [Hw Ht]. split; [done|].
    destruct (Hag u Hu) as [? ?], (Hag w Hw) as [? ?].
    by apply (tree_edge_agree par depth).
  - intros u w Hu Hns He. destruct (Hag u Hu) as [-> _]. by apply Hback.
Qed.

Lemma parent_ok_agree adj visited stack par depth par' depth' vertex parent :
  parent_ok adj stack par depth vertex parent →
  (∀ x, x ∈ stack → x ∈ visited) → vertex ∈ visited →
  (∀ x, x ∈ visited → par' x = par x ∧ depth' x = depth x) →
  parent_ok adj stack par' depth' vertex parent.
Proof.
  intros [(-> & -> & Hp)|(Hlast & He & Hp & Hd)] Hstack Hv Hag.
  - left. destruct (Hag vertex Hv) as [-> _]. done.
  - right. assert (parent ∈ visited) as Hpv.
    { apply Hstack. by apply last_Some_elem_of. }
    destruct (Hag vertex Hv) as [-> ->], (Hag parent Hpv) as [_ ->]. done.
Qed.

(** [visited.insert(vertex)]: the vertex goes on the stack. *)
Lemma cyc_inv_push adj visited stack par depth vertex parent :
  cyc_inv adj visited stack par depth →
  vertex ∉ visited → parent_ok adj stack par depth vertex parent →
  cyc_inv adj ({[vertex]} ∪ visited) (stack ++ [vertex]) par depth.
Proof.
  intros [Hnd Hstack Hchain Hpar Htree Hback] Hv Hok. split.
  - apply NoDup_app. split_and!; [done| |apply NoDup_singleton].
    intros x Hx ->%list_elem_of_singleton. by apply Hv, Hstack.
  - intros x [Hx| ->%list_elem_of_singleton]%elem_of_app; [|set_solver].
    apply elem_of_union_r. by apply Hstack.
  - apply stack_chain_snoc; [done|]. intros p Hp.
    destruct Hok as [(-> & _)|(Hlast & He & _)]; [done|]. congruence.
  - intros x [->%elem_of_singleton|Hx]%elem_of_union.
    + destruct Hok as [(_ & _ & ->)|(Hlast & _ & -> & _)]; [set_solver|].
      apply elem_of_union_r, Hstack. by apply last_Some_elem_of.
    + apply elem_of_union_r. by apply Hpar.
  - intros u w Hu Hns He.
    assert (u ∈ visited ∧ u ∉ stack) as [Hu' Hns'].
    { rewrite elem_of_app, list_elem_of_singleton in Hns. set_solver. }
    destruct (Htree u w Hu' Hns' He) as [Hw Ht]. split; [set_solver|done].
  - intros u w Hu Hns He.
    assert (u ∈ visited ∧ u ∉ stack) as [Hu' Hns'].
    { rewrite elem_of_app, list_elem_of_singleton in Hns. set_solver. }
    destruct (Htree u w Hu' Hns' He) as [Hw _].
    destruct (Hback u w Hu' Hns' He) as [Hn|Hp]; [|by right]. left.
    rewrite elem_of_app, list_elem_of_singleton. intros [?| ->]; [done|]. by apply Hv.
Qed.

(** The end of a call that found nothing: the vertex leaves the stack. *)
Lemma cyc_inv_finish adj visited stack par depth vertex :
  cyc_inv adj visited (stack ++ [vertex]) par depth →
  (∀ w, edge adj vertex w →
        w ∈ visited ∧ tree_edge par depth vertex w ∧ (w ∉ stack ∨ par vertex = w)) →
  cyc_inv adj visited stack par depth.
Proof.
  intros [Hnd Hstack Hchain Hpar Htree Hback] Hall. split.
  - by apply NoDup_app in Hnd as (? & _ & _).
  - intros x Hx. apply Hstack, elem_of_app. by left.
  - intros pre u v rest ->. apply (Hchain pre u v (rest ++ [vertex])).
    by rewrite <-app_assoc.
  - done.
  - intros u w Hu Hns He. destruct (decide (u = vertex)) as [->|Hne].
    + destruct (Hall w He) as (? & ? & _). done.
    + apply Htree; [done| |done].
      rewrite elem_of_app, list_elem_of_singleton. tauto.
  - intros u w Hu Hns He. destruct (decide (u = vertex)) as [->|Hne].
    + by destruct (Hall w He) as (_ & _ & ?).
    + destruct (Hback u w Hu) as [Hn|Hp]; [|done| |by right].
      * rewrite elem_of_app, list_elem_of_singleton. tauto.
      * left. intros Hw. apply Hn, elem_of_app. by left.
Qed.

(** A visited neighbour on the stack that is not the parent closes a cycle
    through three vertices or more. *)
Lemma stack_cycle adj stack vertex parent w :
  NoDup (stack ++ [vertex]) → stack_chain adj (stack ++ [vertex]) →
  last stack = Some parent → w ∈ stack → w ≠ parent → edge adj vertex w →
  ∃ c, simple_cycle adj c ∧ (3 ≤ length c)%nat.
Proof.
  intros Hnd Hchain Hlast Hw Hne He.
  apply list_elem_of_split in Hw as (pre & mid & ->).
  destruct mid as [|m mid].
  { rewrite last_snoc in Hlast. congruence. }
  exists (w :: (m :: mid) ++ [vertex]). split.
  - split_and!.
    + rewrite <-app_assoc in Hnd. by apply NoDup_app in Hnd as (_ & _ & ?).
    + apply (chain_of_stack adj _ pre). by rewrite <-app_assoc in Hchain.
    + rewrite last_last. done.
  - simpl. rewrite length_app. simpl. lia.
Qed.

Lemma cyc_inv_empty adj par depth : cyc_inv adj ∅ [] par depth.
Proof.
  split.
  - apply NoDup_nil_2.
  - by intros x ?%elem_of_nil.
  - intros pre u v rest Heq. by destruct pre.
  - by intros x ?%elem_of_empty.
  - by intros u w ?%elem_of_empty.
  - by intros u w ?%elem_of_empty.
Qed.

Section search.
Context (adj : gmap Z (list (Z * Z))).
Hypothesis Hsym : symmetric adj.
Hypothesis Hclosed : ∀ u w, edge adj u w → is_Some (adj !! w).

Lemma edge_mirror u w : edge adj u w → edge adj w u.
Proof.
  intros (l & Hl & ([w' x] & -> & Hp)%list_elem_of_fmap).
  destruct (Hsym u l w' x Hl Hp) as (l' & Hl' & Hin).
  exists l'. split; [done|]. apply list_elem_of_fmap. by exists (u, x).
Qed.

Lemma cyclic_scan_spec fuel vertex parent stack full (V0 : gset Z) :
  (∀ vertex visited parent stack par depth,
     cyc_inv adj visited stack par depth →
     vertex ∉ visited → is_Some (adj !! vertex) →
     parent_ok adj stack par depth vertex parent →
     (size (dom adj ∖ visited) ≤ fuel)%nat →
     ∃ r, CyclicGraph.hasCycleDFS fuel adj vertex visited parent = Ret r ∧
          search_post adj visited stack par depth vertex r) →
  adj !! vertex = Some full →
  vertex ∉ V0 →
  ∀ l done visited par depth,
    full = done ++ l →
    cyc_inv adj visited (stack ++ [vertex]) par depth →
    parent_ok adj stack par depth vertex parent →
    V0 ⊆ visited → vertex ∈ visited →
    (size (dom adj ∖ visited) ≤ fuel)%nat →
    (∀ p, p ∈ done → p.1 ∈ visited ∧ tree_edge par depth vertex p.1 ∧
                     (p.1 ∉ stack ∨ par vertex = p.1)) →
    (∀ x, x ∈ visited → par x = vertex → x ≠ vertex → x ∈ done.*1) →
    (∀ x, x ∈ visited → x ∉ V0 → x ≠ vertex → par x ∉ V0) →
    ∃ r, CyclicGraph.hasCycle_scan
           (λ next visited, CyclicGraph.hasCycleDFS fuel adj next visited vertex)
           parent l visited = Ret r ∧
         if r.1 then cycle_found adj
         else ∃ par' depth',
           cyc_inv adj r.2 (stack ++ [vertex]) par' depth' ∧
           visited ⊆ r.2 ∧
           (∀ x, x ∈ visited → par' x = par x ∧ depth' x = depth x) ∧
           (∀ p, p ∈ full → p.1 ∈ r.2 ∧ tree_edge par' depth' vertex p.1 ∧
                            (p.1 ∉ stack ∨ par' vertex = p.1)) ∧
           (∀ x, x ∈ r.2 → x ∉ V0 → x ≠ vertex → par' x ∉ V0).
Proof.
  intros IHdfs Hfull Hv0.
  induction l as [|p l IH];
    intros done visited par depth Heq Hinv Hok Hsub Hvis Hfuel Hdone Hchild Hnew; simpl.
  { exists (false, visited). split; [done|]. simpl. exists par, depth.
    rewrite app_nil_r in Heq. subst done. split_and!; done. }
  assert (Hedge : edge adj vertex p.1).
  { exists full. split; [done|]. apply list_elem_of_fmap_2. subst full.
    apply elem_of_app. right. apply list_elem_of_here. }
  assert (Heq' : full = (done ++ [p]) ++ l) by by rewrite <-app_assoc.
  destruct (decide (p.1 ∈ visited)) as [Hp|Hp].
  - destruct (decide (p.1 ≠ parent)) as [Hne|Hpar%dec_stable].
    + exists (true, visited). split; [done|]. simpl. intros Hsimple.
      destruct (Hsimple vertex full Hfull) as [Hnodup Hself].
      destruct (decide (p.1 ∈ stack ++ [vertex])) as [Hin|Hout].
      * apply elem_of_app in Hin as [Hin|Hin%list_elem_of_singleton].
        -- destruct Hok as [(-> & _)|(Hlast & _)]; [by apply elem_of_nil in Hin|].
           eapply stack_cycle; [apply (ci_nodup _ _ _ _ _ Hinv)
                               |apply (ci_chain _ _ _ _ _ Hinv)|done..].
        -- destruct Hself. rewrite <-Hin. destruct Hedge as (l' & Hl' & Hin').
           congruence.
      * exfalso.
        destruct (ci_back _ _ _ _ _ Hinv p.1 vertex Hp Hout (edge_mirror _ _ Hedge))
          as [Hn|Hc].
        { apply Hn, elem_of_app. right. apply list_elem_of_here. }
        assert (p.1 ≠ vertex) as Hpv.
        { intros Hpv. apply Hout. rewrite Hpv, elem_of_app. right. apply list_elem_of_here. }
        pose proof (Hchild p.1 Hp Hc Hpv) as Hd.
        rewrite Heq, fmap_app, fmap_cons in Hnodup.
        apply NoDup_app in Hnodup as (_ & Hdis & _).
        apply (Hdis p.1 Hd), list_elem_of_here.
    + apply (IH (done ++ [p]) visited par depth); try done.
      * intros p' [Hp'| ->%list_elem_of_singleton]%elem_of_app; [by apply Hdone|].
        split; [done|].
        destruct Hok as [(-> & -> & Hroot)|(Hlast & He & Hpv & Hd)].
        -- split; [|left; by intros ?%elem_of_nil].
           destruct (decide (vertex = p.1)) as [Heqv|Hnev]; [by left|].
           apply tree_edge_sym.
           apply (ci_tree _ _ _ _ _ Hinv p.1 vertex Hp); [|by apply edge_mirror].
           simpl. intros Heqv%list_elem_of_singleton. by destruct Hnev.
        -- split; [|right; congruence]. right. left. rewrite Hpar. done.
      * intros x Hx Hpx Hne. rewrite fmap_app. apply elem_of_app. left. by apply Hchild.
  - set (par1 := λ x, if decide (x = p.1) then vertex else par x).
    set (depth1 := λ x, if decide (x = p.1) then S (depth vertex) else depth x).
    assert (Hag1 : ∀ x, x ∈ visited → par1 x = par x ∧ depth1 x = depth x).
    { intros x Hx. unfold par1, depth1. rewrite !decide_False; [done|..];
        intros ->; done. }
    assert (Hinv1 : cyc_inv adj visited (stack ++ [vertex]) par1 depth1)
      by by eapply cyc_inv_agree.
    assert (vertex ≠ p.1) as Hvp by (intros Heqv; apply Hp; by rewrite <-Heqv).
    destruct (IHdfs p.1 visited vertex (stack ++ [vertex]) par1 depth1 Hinv1 Hp)
      as ([b visited'] & -> & Hpost); [by eapply Hclosed| |done|].
    { right. unfold par1, depth1. rewrite last_snoc, !decide_True by done.
      rewrite decide_False by done. done. }
    destruct b; simpl in Hpost.
    { exists (true, visited'). done. }
    destruct Hpost as (par' & depth' & Hinv' & Hsub' & Hin' & Hag' & Hnew').
    assert (Hag : ∀ x, x ∈ visited → par' x = par x ∧ depth' x = depth x).
    { intros x Hx. destruct (Hag' x (or_introl Hx)) as [-> ->]. by apply Hag1. }
    destruct (Hag' p.1 (or_intror eq_refl)) as [Hpp Hdp].
    unfold par1, depth1 in Hpp, Hdp.
    rewrite decide_True in Hpp by done. rewrite decide_True in Hdp by done.
    destruct (IH (done ++ [p]) visited' par' depth') as (r & Hr & Hres); try done.
    + eapply parent_ok_agree; [done| |done|done].
      intros x Hx. apply (ci_stack _ _ _ _ _ Hinv), elem_of_app. by left.
    + by transitivity visited.
    + by apply Hsub'.
    + assert (size (dom adj ∖ visited') ≤ size (dom adj ∖ visited))%nat; [|lia].
      apply subseteq_size. intros x [Hx Hn]%elem_of_difference.
      apply elem_of_difference. split; [done|]. intros ?. by apply Hn, Hsub'.
    + intros p' [Hp'| ->%list_elem_of_singleton]%elem_of_app.
      * destruct (Hdone p' Hp') as (Hv' & Ht & Hb).
        destruct (Hag vertex Hvis) as [Hpv Hdv], (Hag p'.1 Hv') as [? ?].
        split_and!; [by apply Hsub'| |by rewrite Hpv].
        by apply (tree_edge_agree par depth).
      * split_and!; [done| |].
        -- right. right. destruct (Hag vertex Hvis) as [_ ->]. done.
        -- left. intros Hst. apply Hp, (ci_stack _ _ _ _ _ Hinv), elem_of_app. by left.
    + intros x Hx Hpx Hne. rewrite fmap_app. apply elem_of_app.
      destruct (decide (x = p.1)) as [->|Hxp]; [right; apply list_elem_of_here|].
      destruct (decide (x ∈ visited)) as [Hxv|Hxv].
      * left. apply Hchild; [done| |done]. destruct (Hag x Hxv) as [<- _]. done.
      * destruct (Hnew' x Hx Hxv Hxp). by rewrite Hpx.
    + intros x Hx Hx0 Hne.
      destruct (decide (x = p.1)) as [->|Hxp]; [by rewrite Hpp|].
      destruct (decide (x ∈ visited)) as [Hxv|Hxv].
      * destruct (Hag x Hxv) as [-> _]. by apply Hnew.
      * intros Hin0. apply (Hnew' x Hx Hxv Hxp). by apply Hsub.
    + exists r. split; [done|]. destruct r as [[] visited'']; simpl in *; [done|].
      destruct Hres as (par'' & depth'' & Hinv'' & Hsub'' & Hag'' & Hall & Hnew'').
      exists par'', depth''. split_and!; [done|by transitivity visited'| |done|done].
      intros x Hx. destruct (Hag'' x (Hsub' x Hx)) as [-> ->]. by apply Hag.
Qed.

Lemma cyclic_DFS_spec fuel :
  ∀ vertex visited parent stack par depth,
    cyc_inv adj visited stack par depth →
    vertex ∉ visited → is_Some (adj !! vertex) →
    parent_ok adj stack par depth vertex parent →
    (size (dom adj ∖ visited) ≤ fuel)%nat →
    ∃ r, CyclicGraph.hasCycleDFS fuel adj vertex visited parent = Ret r ∧
         search_post adj visited stack par depth vertex r.
Proof.
  induction fuel as [|fuel IH];
    intros vertex visited parent stack par depth Hinv Hv [full Hfull] Hok Hfuel.
  { exfalso.
    rewrite (size_difference_discover (dom adj) visited vertex) in Hfuel;
      [lia|by apply elem_of_dom|done]. }
  simpl. rewrite Hfull.
  rewrite (size_difference_discover (dom adj) visited vertex) in Hfuel;
    [|by apply elem_of_dom|done].
  pose proof (cyc_inv_push _ _ _ _ _ _ _ Hinv Hv Hok) as Hinv1.
  destruct (cyclic_scan_spec fuel vertex parent stack full visited IH Hfull Hv
              full [] ({[vertex]} ∪ visited) par depth)
    as ([b visited'] & -> & Hres); try done.
  - set_solver.
  - set_solver.
  - lia.
  - by intros p ?%elem_of_nil.
  - intros x [->%elem_of_singleton|Hx]%elem_of_union Hpx Hne; [done|].
    destruct Hv. rewrite <-Hpx. by apply (ci_par _ _ _ _ _ Hinv).
  - intros x [->%elem_of_singleton|Hx]%elem_of_union; done.
  - exists (b, visited'). split; [done|]. unfold search_post. destruct b; simpl in *; [done|].
    destruct Hres as (par' & depth' & Hinv' & Hsub & Hag & Hall & Hnew).
    exists par', depth'. split_and!.
    + eapply cyc_inv_finish; [done|].
      intros w (l & Hl & ([w' x] & -> & Hp)%list_elem_of_fmap).
      rewrite Hfull in Hl. injection Hl as <-. by apply (Hall (w', x)).
    + set_solver.
    + set_solver.
    + intros x Hx. apply Hag. set_solver.
    + done.
Qed.

Lemma cyclic_roots_spec fuel roots :
  ∀ visited par depth,
    cyc_inv adj visited [] par depth →
    (∀ x, x ∈ roots → is_Some (adj !! x)) →
    (size (dom adj) ≤ fuel)%nat →
    ∃ b, CyclicGraph.hasCycle_roots fuel adj roots visited = Ret b ∧
         if b then cycle_found adj
         else ∃ visited' par' depth',
           cyc_inv adj visited' [] par' depth' ∧ visited ⊆ visited' ∧
           ∀ x, x ∈ roots → x ∈ visited'.
Proof.
  induction roots as [|vertex roots IH]; intros visited par depth Hinv Hroots Hfuel; simpl.
  { exists false. split; [done|]. exists visited, par, depth.
    split_and!; [done..|]. by intros x ?%elem_of_nil. }
  assert (Hroots' : ∀ x, x ∈ roots → is_Some (adj !! x)).
  { intros x Hx. by apply Hroots, list_elem_of_further. }
  case_decide as Hv.
  - destruct (IH visited par depth Hinv Hroots' Hfuel) as (b & -> & Hres).
    exists b. split; [done|]. destruct b; [done|].
    destruct Hres as (visited' & par' & depth' & Hinv' & Hsub & Hall).
    exists visited', par', depth'. split_and!; [done..|].
    intros x [->|Hx]%elem_of_cons; [by apply Hsub|by apply Hall].
  - set (par1 := λ x, if decide (x = vertex) then vertex else par x).
    assert (Hinv1 : cyc_inv adj visited [] par1 depth).
    { eapply cyc_inv_agree; [done|]. intros x Hx. unfold par1.
      rewrite decide_False; [done|]. by intros ->. }
    destruct (cyclic_DFS_spec fuel vertex visited 0 [] par1 depth Hinv1 Hv)
      as ([b visited'] & -> & Hpost).
    + apply Hroots, list_elem_of_here.
    + left. unfold par1. by rewrite decide_True.
    + assert (size (dom adj ∖ visited) ≤ size (dom adj))%nat; [|lia].
      apply subseteq_size. set_solver.
    + unfold search_post in Hpost. destruct b; simpl in Hpost.
      { by exists true. }
      destruct Hpost as (par' & depth' & Hinv' & Hsub & Hin & _ & _).
      destruct (IH visited' par' depth' Hinv' Hroots' Hfuel) as (b & -> & Hres).
      exists b. split; [done|]. destruct b; [done|].
      destruct Hres as (visited'' & par'' & depth'' & Hinv'' & Hsub' & Hall).
      exists visited'', par'', depth''. split_and!; [done|set_solver|].
      intros x [->|Hx]%elem_of_cons; [by apply Hsub'|by apply Hall].
Qed.

End search.

(** In a cycle, every vertex can be taken as the first. *)
Lemma last_app_cons_default {A} (l1 l2 : list A) (a d : A) :
  List.last (l1 ++ a :: l2) d = List.last l2 a.
Proof.
  revert d. induction l1 as [|b l1 IH]; intros d; [apply last_cons_default|].
  change ((b :: l1) ++ a :: l2) with (b :: l1 ++ a :: l2).
  by rewrite last_cons_default, IH.
Qed.

Lemma chain_app adj u p q :
  chain adj u (p ++ q) ↔ chain adj u p ∧ chain adj (List.last p u) q.
Proof.
  revert u. induction p as [|v p IH]; intros u; [simpl; tauto|].
  rewrite last_cons_default. cbn [chain app]. rewrite IH. tauto.
Qed.

Lemma simple_cycle_rotate adj c v :
  simple_cycle adj c → v ∈ c →
  ∃ p, simple_cycle adj (v :: p) ∧ v :: p ≡ₚ c.
Proof.
  destruct c as [|start p]; [done|]. intros (Hnd & Hch & Hlast) Hv.
  apply list_elem_of_split in Hv as (l1 & l2 & Heq).
  destruct l1 as [|s l1]; simpl in Heq.
  { injection Heq as -> ->. exists l2. by split. }
  injection Heq as <- ->.
  exists (l2 ++ start :: l1). split.
  - apply chain_app in Hch as [Hch1 Hch2]. destruct Hch2 as [He Hch2].
    rewrite last_app_cons_default in Hlast.
    split_and!.
    + eapply NoDup_Permutation_proper; [|exact Hnd].
      change (v :: l2 ++ start :: l1) with ((v :: l2) ++ start :: l1).
      rewrite (Permutation_app_comm (v :: l2) (start :: l1)). done.
    + apply chain_app. split; [done|]. split; [done|done].
    + rewrite last_app_cons_default. done.
  - change (v :: l2 ++ start :: l1) with ((v :: l2) ++ start :: l1).
    rewrite (Permutation_app_comm (v :: l2) (start :: l1)). done.
Qed.

Lemma deepest (depth : Z → nat) (c : list Z) :
  c ≠ [] → ∃ v, v ∈ c ∧ ∀ x, x ∈ c → (depth x ≤ depth v)%nat.
Proof.
  induction c as [|a c IH]; [done|]. intros _. destruct c as [|b c].
  { exists a. split; [apply list_elem_of_here|]. by intros x ->%list_elem_of_singleton. }
  destruct IH as (v & Hv & Hmax); [done|].
  destruct (decide (depth a ≤ depth v)%nat).
  - exists v. split; [by apply list_elem_of_further|].
    intros x [->|Hx]%elem_of_cons; [done|by apply Hmax].
  - exists a. split; [apply list_elem_of_here|].
    intros x [->|Hx]%elem_of_cons; [done|]. specialize (Hmax x Hx). lia.
Qed.

(** A cycle through three vertices or more has an entry that joins no
    vertex to its parent. *)
Lemma cycle_leaves_forest adj par depth (Q : Z → Z → Prop) c :
  simple_cycle adj c → (3 ≤ length c)%nat →
  (∀ u w, u ∈ c → w ∈ c → edge adj u w → tree_edge par depth u w ∨ Q u w) →
  ∃ u w, u ∈ c ∧ w ∈ c ∧ edge adj u w ∧ Q u w.
Proof.
  intros Hc Hlen Htree.
  destruct (deepest depth c) as (v & Hv & Hmax); [by destruct c|].
  destruct (simple_cycle_rotate adj c v Hc Hv) as (p & (Hnd & Hch & Hlast) & Hperm).
  assert (length (v :: p) = length c) as Hlp by by rewrite Hperm.
  destruct p as [|b [|b' q]]; simpl in Hlp; [lia..|].
  destruct Hch as [Hvb _].
  set (a := List.last (b :: b' :: q) v) in *.
  assert (Ha : a ∈ b' :: q).
  { unfold a. rewrite last_cons_default.
    destruct (exists_last (l := b' :: q)) as (q' & x & Hq); [done|].
    rewrite Hq, last_last. apply elem_of_app. right. apply list_elem_of_here. }
  apply NoDup_cons in Hnd as [Hvn Hnd]. apply NoDup_cons in Hnd as [Hbn _].
  assert (Hac : a ∈ c).
  { rewrite <-Hperm. by do 2 apply list_elem_of_further. }
  assert (Hbc : b ∈ c).
  { rewrite <-Hperm. apply list_elem_of_further, list_elem_of_here. }
  pose proof (Hmax a Hac) as Hda. pose proof (Hmax b Hbc) as Hdb.
  destruct (Htree v b Hv Hbc Hvb) as [Htb|HQ]; [|by exists v, b].
  destruct (Htree a v Hac Hv Hlast) as [Hta|HQ]; [|by exists a, v].
  exfalso.
  assert (par v = b) as Hpb.
  { destruct Htb as [->|[[? _]|[_ ?]]]; [|done|lia].
    destruct Hvn. apply list_elem_of_here. }
  assert (par v = a) as Hpa.
  { destruct Hta as [Heq|[[_ ?]|[? _]]]; [|lia|done].
    destruct Hvn. rewrite <-Heq. by apply list_elem_of_further. }
  apply Hbn. by rewrite <-Hpb, Hpa.
Qed.

(** When every entry joins a vertex to its parent or to one of its children,
    no cycle passes through three vertices. *)
Lemma forest_no_cycle adj par depth c :
  (∀ u w, edge adj u w → tree_edge par depth u w) →
  simple_cycle adj c → (length c < 3)%nat.
Proof.
  intros Htree Hc. destruct (decide (length c < 3)%nat) as [|Hlen]; [done|].
  destruct (cycle_leaves_forest adj par depth (λ _ _, False) c Hc)
    as (u & w & _ & _ & _ & []); [lia|].
  intros u w _ _ He. left. by apply Htree.
Qed.

End cyclic.

Lemma cyclic_triangle_reachable : reachable KCyclicGraph cyclic_triangle.
Proof. do 3 apply reach_addEdge. apply reach_new. constructor. Qed.

(** What [hasCycle] of [CyclicGraph] returns. *)
Lemma hasCycle_cases g :
  reachable KCyclicGraph g → Graph.isDirected g = false →
  ∃ b, CyclicGraph.hasCycle g = Ret b ∧
       (b = false →
        ∀ c, simple_cycle (Graph.adjList g) c → (length c < 3)%nat) ∧
       (b = true → simple_graph (Graph.adjList g) →
        ∃ c, simple_cycle (Graph.adjList g) c ∧ (3 ≤ length c)%nat).
Proof.
  intros Hr Hund. pose proof (reachable_wf _ _ Hr) as Hwf.
  pose proof (reachable_symmetry_invariant _ _ Hr) as (_ & _ & Hsym).
  specialize (Hsym Hund). destruct Hwf as (_ & Hdom & Hnbr).
  assert (Hclosed : ∀ u w, edge (Graph.adjList g) u w → is_Some (Graph.adjList g !! w)).
  { intros u w (l & Hl & (p & -> & Hp)%list_elem_of_fmap).
    apply elem_of_dom. rewrite Hdom. by eapply Hnbr. }
  destruct (cyclic_roots_spec (Graph.adjList g) Hsym Hclosed
              (S (size (dom (Graph.adjList g)))) (sorted_elems (Graph.vertices g))
              ∅ (λ x, x) (λ _, 0%nat)) as (b & Hb & Hres).
  - apply cyc_inv_empty.
  - intros x Hx%elem_of_sorted_elems. apply elem_of_dom. by rewrite Hdom.
  - lia.
  - exists b. split; [done|]. split; intros ->; [|done].
    destruct Hres as (visited & par & depth & Hinv & _ & Hall).
    intros c Hc. apply (forest_no_cycle (Graph.adjList g) par depth); [|done].
    intros u w He. apply (ci_tree _ _ _ _ _ Hinv); [|by intros ?%elem_of_nil|done].
    apply Hall, elem_of_sorted_elems. rewrite <-Hdom. apply elem_of_dom.
    destruct He as (l & Hl & _). by exists l.
Qed.

(** X19. On an undirected [CyclicGraph], [hasCycle()] returns, and when it
    answers [false] no cycle passes through three or more distinct vertices.
    When no adjacency list repeats a neighbour or names its own vertex, the
    answer [true] means that there is such a cycle. *)
Theorem X19_CyclicGraph_hasCycle g :
  reachable KCyclicGraph g → Graph.isDirected g = false →
  ∃ b, CyclicGraph.hasCycle g = Ret b ∧
       (b = false →
        ∀ c, simple_cycle (Graph.adjList g) c → (length c < 3)%nat) ∧
       (b = true → simple_graph (Graph.adjList g) →
        ∃ c, simple_cycle (Graph.adjList g) c ∧ (3 ≤ length c)%nat).
Proof. apply hasCycle_cases. Qed.

Lemma X19_CyclicGraph_hasCycle_witness :
  CyclicGraph.hasCycle cyclic_triangle = Ret true ∧
  ∃ c, simple_cycle (Graph.adjList cyclic_triangle) c ∧ (3 ≤ length c)%nat.
Proof.
  destruct (X19_CyclicGraph_hasCycle cyclic_triangle cyclic_triangle_reachable eq_refl)
    as (b & Hb & _ & Htrue).
  change (CyclicGraph.hasCycle cyclic_triangle) with (@Ret bool true) in Hb.
  injection Hb as <-. split; [vm_compute; reflexivity|].
  apply Htrue; [done|]. clear. unfold simple_graph. in_set.
Defined.

(** ** The degrees of an undirected graph *)

Section balance.
Implicit Types (adj : gmap Z (list (Z * Z))) (g : Graph.t).

Lemma tcount_push adj s d w u v :
  tcount (adj_modify (push_back (d, w)) s adj) u v
  = (tcount adj u v + if decide (u = s ∧ v = d) then 1 else 0)%nat.
Proof.
  unfold tcount. rewrite lookup_total_adj_modify. case_decide as Hu.
  - subst u. unfold push_back. rewrite filter_app, length_app, filter_cons, filter_nil.
    simpl. repeat case_decide; simpl; try lia; naive_solver.
  - rewrite decide_False by naive_solver. lia.
Qed.

Lemma length_filter_remove_target d v (l : list (Z * Z)) :
  length (filter (λ p, p.1 = v) (remove_target d l))
  = if decide (v = d) then 0%nat else length (filter (λ p, p.1 = v) l).
Proof.
  unfold remove_target. induction l as [|p l IH]; [by case_decide|].
  rewrite (filter_cons (λ p, p.1 ≠ d)). destruct (decide (p.1 ≠ d)) as [Hp|Hp%dec_stable].
  - rewrite !filter_cons. destruct (decide (p.1 = v)) as [Hv|Hv]; simpl; rewrite IH.
    + rewrite !decide_False by congruence. done.
    + done.
  - rewrite IH. rewrite filter_cons. case_decide; [done|].
    rewrite decide_False by congruence. done.
Qed.

Lemma tcount_remove adj s d u v :
  tcount (adj_modify (remove_target d) s adj) u v
  = if decide (u = s ∧ v = d) then 0%nat else tcount adj u v.
Proof.
  unfold tcount. rewrite lookup_total_adj_modify. case_decide as Hu.
  - subst u. rewrite length_filter_remove_target.
    repeat case_decide; try done; naive_solver.
  - rewrite decide_False by naive_solver. done.
Qed.

Lemma tcount_scrub adj x u v :
  tcount (remove_target x <$> delete x adj) u v
  = if decide (u = x ∨ v = x) then 0%nat else tcount adj u v.
Proof.
  unfold tcount. rewrite !lookup_total_alt, lookup_fmap.
  destruct (decide (u = x)) as [->|Hu].
  - rewrite lookup_delete_eq. simpl. by rewrite decide_True by by left.
  - rewrite lookup_delete_ne by done.
    destruct (adj !! u) as [l|]; simpl.
    + rewrite length_filter_remove_target.
      repeat case_decide; try done; naive_solver.
    + by case_decide.
Qed.

Lemma tcount_insert_nil adj x u v :
  adj !! x = None → tcount (<[x := []]> adj) u v = tcount adj u v.
Proof.
  intros Hx. unfold tcount. destruct (decide (u = x)) as [->|Hu].
  - by rewrite lookup_total_insert_eq, lookup_total_alt, Hx.
  - by rewrite lookup_total_insert_ne.
Qed.

Lemma balanced_empty : balanced ∅.
Proof. intros u v. unfold tcount. rewrite !lookup_total_empty. split; [done|by exists 0%nat]. Qed.

Lemma balanced_push_both adj s d w :
  balanced adj →
  balanced (adj_modify (push_back (s, w)) d (adj_modify (push_back (d, w)) s adj)).
Proof.
  intros Hb u v. destruct (Hb u v) as [Huv [m Hm]]. rewrite !tcount_push. split.
  - rewrite Huv. repeat case_decide; try lia; naive_solver.
  - rewrite Hm. repeat case_decide; try naive_solver.
    + exists (S m). lia.
    + exists m. lia.
Qed.

Lemma balanced_remove_both adj s d :
  balanced adj →
  balanced (adj_modify (remove_target s) d (adj_modify (remove_target d) s adj)).
Proof.
  intros Hb u v. destruct (Hb u v) as [Huv Heven]. rewrite !tcount_remove. split.
  - repeat case_decide; try done; naive_solver.
  - repeat case_decide; try done; by exists 0%nat.
Qed.

Lemma balanced_scrub adj x : balanced adj → balanced (remove_target x <$> delete x adj).
Proof.
  intros Hb u v. destruct (Hb u v) as [Huv Heven]. rewrite !tcount_scrub. split.
  - repeat case_decide; try done; naive_solver.
  - repeat case_decide; try done; by exists 0%nat.
Qed.

Lemma balanced_ok_new weighted : balanced_ok (Graph.new false weighted).
Proof. split_and!; [apply wf_new|done|apply balanced_empty]. Qed.

Lemma balanced_ok_addVertex g v : balanced_ok g → balanced_ok (Graph.addVertex g v).
Proof.
  intros (Hwf & Hu & Hb). split_and!.
  - by apply wf_addVertex.
  - by rewrite (proj1 (flags_addVertex g v)).
  - unfold Graph.addVertex. case_decide as Hv; [done|]. simpl.
    intros x y. rewrite !tcount_insert_nil; [done|..];
      destruct Hwf as (_ & Hd & _); apply not_elem_of_dom; by rewrite Hd.
Qed.

Lemma balanced_ok_addEdge g s d w : balanced_ok g → balanced_ok (Graph.addEdge g s d w).
Proof.
  intros Hg. pose proof Hg as (Hwf & Hu & _). split_and!.
  - by apply wf_addEdge.
  - by rewrite (proj1 (flags_addEdge g s d w)).
  - destruct (balanced_ok_addVertex _ d (balanced_ok_addVertex _ s Hg)) as (_ & Hu' & Hb').
    unfold Graph.addEdge. cbn zeta. rewrite Hu'. by apply balanced_push_both.
Qed.

Lemma balanced_ok_deleteVertex g v :
  balanced_ok g → balanced_ok (Graph.deleteVertex g v).1.
Proof.
  intros (Hwf & Hu & Hb). split_and!.
  - by apply wf_deleteVertex.
  - by rewrite (proj1 (flags_deleteVertex g v)).
  - unfold Graph.deleteVertex. case_decide; [|done]. simpl. by apply balanced_scrub.
Qed.

Lemma balanced_ok_deleteEdge g s d :
  balanced_ok g → balanced_ok (Graph.deleteEdge g s d).1.
Proof.
  intros (Hwf & Hu & Hb). split_and!.
  - by apply wf_deleteEdge.
  - by rewrite (proj1 (flags_deleteEdge g s d)).
  - unfold Graph.deleteEdge. case_decide; [|done]. simpl. rewrite Hu.
    by apply balanced_remove_both.
Qed.

Lemma balanced_ok_BipartiteGraph_addEdge g s d w :
  balanced_ok g → balanced_ok (BipartiteGraph.addEdge g s d w).1.
Proof.
  intros Hg. split_and!.
  - apply wf_BipartiteGraph_addEdge, Hg.
  - destruct (flags_virtual_addEdge KBipartiteGraph g s d w) as [Hf _].
    simpl in Hf. rewrite Hf. apply Hg.
  - apply (balanced_ok_addEdge _ s d w) in Hg as (_ & _ & Hb).
    unfold BipartiteGraph.addEdge.
    destruct (BipartiteGraph.isBipartiteCheck _) as [[]| |]; simpl; try done.
    by apply balanced_remove_both.
Qed.

Lemma balanced_ok_static_addVertex k g v :
  balanced_ok g → balanced_ok (addVertex k g v).
Proof.
  intros Hg. destruct k; simpl; auto using balanced_ok_addVertex.
  unfold CompleteGraph.addVertex. case_decide; [done|].
  apply balanced_ok_addVertex, connect_preserves;
    auto using balanced_ok_addEdge.
Qed.

Lemma balanced_ok_virtual_addEdge k g s d w :
  k ≠ KDirectedAcyclicGraph →
  balanced_ok g → balanced_ok (addEdge k g s d w).1.
Proof.
  intros Hk Hg. destruct k; simpl;
    auto using balanced_ok_addEdge, balanced_ok_BipartiteGraph_addEdge.
  done.
Qed.

Lemma balance_invariant_step k g g' :
  same_flags g g' → (wf g → wf g') →
  (k ≠ KDirectedAcyclicGraph → balanced_ok g → balanced_ok g') →
  balance_invariant k g → balance_invariant k g'.
Proof.
  intros [Hf _] Hwf' Hstep (Hwf & Hk & Hs). split_and!; [auto| |].
  - intros Hk'. rewrite Hf. auto.
  - intros Hu. rewrite Hf in Hu. apply Hstep; [|split_and!; auto].
    intros ->. by rewrite Hk in Hu.
Qed.

Lemma constructed_balance_invariant k g : constructed k g → balance_invariant k g.
Proof.
  intros Hc. split_and!; [by apply (reachable_wf k), reach_new| |].
  - intros ->. by inversion Hc.
  - intros _. destruct Hc; try apply balanced_empty.
    apply (balanced_ok_addVertex (Graph.new false false)), balanced_ok_new.
Qed.

Lemma reachable_balance_invariant k g : reachable k g → balance_invariant k g.
Proof.
  apply reachable_invariant.
  - apply constructed_balance_invariant.
  - intros directed weighted ->. apply constructed_balance_invariant. constructor.
  - intros g' s d w _. apply balance_invariant_step;
      auto using flags_addEdge, balanced_ok_addEdge, wf_addEdge.
  - intros g' v. apply balance_invariant_step;
      auto using flags_addVertex, balanced_ok_addVertex, wf_addVertex.
  - intros g' v. apply balance_invariant_step;
      auto using flags_static_addVertex, balanced_ok_static_addVertex,
                 wf_static_addVertex.
  - intros g' s d w. apply balance_invariant_step;
      auto using flags_virtual_addEdge, balanced_ok_virtual_addEdge,
                 wf_virtual_addEdge.
  - intros g' v. apply balance_invariant_step;
      auto using flags_deleteVertex, balanced_ok_deleteVertex, wf_deleteVertex.
  - intros g' s d. apply balance_invariant_step;
      auto using flags_deleteEdge, balanced_ok_deleteEdge, wf_deleteEdge.
Qed.

(** Each entry of a list is counted at its target. *)
Lemma sum_of_tcounts (vs : list Z) (l : list (Z * Z)) :
  NoDup vs → (∀ p, p ∈ l → p.1 ∈ vs) →
  sum_list_Z ((λ v, Z.of_nat (length (filter (λ p : Z * Z, p.1 = v) l))) <$> vs)
  = Z.of_nat (length l).
Proof.
  intros Hnd. induction l as [|e l IH]; intros Hl.
  - simpl. apply sum_list_Z_zero.
  - rewrite (sum_list_Z_ext _
      (λ v, (if decide (e.1 = v) then 1 else 0)
            + Z.of_nat (length (filter (λ p : Z * Z, p.1 = v) l)))).
    + rewrite sum_list_Z_add, sum_list_Z_indicator, IH.
      * simpl length. lia.
      * intros e' He'. by apply Hl, list_elem_of_further.
      * done.
      * apply Hl, list_elem_of_here.
    + intros v _. rewrite filter_cons. case_decide; simpl length; lia.
Qed.

(** A symmetric table with an even diagonal has an even sum. *)
Lemma symmetric_sum_even (c : Z → Z → Z) (vs : list Z) :
  (∀ u v, c u v = c v u) → (∀ u, ∃ m, c u u = 2 * m) →
  ∃ m, sum_list_Z ((λ u, sum_list_Z (c u <$> vs)) <$> vs) = 2 * m.
Proof.
  intros Hsym Hdiag. induction vs as [|a vs [m IH]]; [by exists 0|].
  destruct (Hdiag a) as [ma Hma].
  exists (ma + sum_list_Z (c a <$> vs) + m).
  assert (Heq : sum_list_Z ((λ u, sum_list_Z (c u <$> a :: vs)) <$> a :: vs)
                = c a a + sum_list_Z (c a <$> vs)
                  + (sum_list_Z (c a <$> vs)
                     + sum_list_Z ((λ u, sum_list_Z (c u <$> vs)) <$> vs))).
  { csimpl. f_equal. rewrite <-sum_list_Z_add. apply sum_list_Z_ext.
    intros u _. csimpl. by rewrite (Hsym u a). }
  rewrite Heq, IH, Hma. lia.
Qed.

Lemma num_entries_even g :
  wf g → balanced (Graph.adjList g) →
  ∃ m, Z.of_nat (Graph.num_entries (Graph.adjList g)) = 2 * m.
Proof.
  intros Hwf Hb.
  destruct (symmetric_sum_even (λ u v, Z.of_nat (tcount (Graph.adjList g) u v))
              (sorted_elems (dom (Graph.adjList g)))) as [m Hm].
  - intros u v. by destruct (Hb u v) as [-> _].
  - intros u. destruct (Hb u u) as [_ [m ->]]. exists (Z.of_nat m). lia.
  - exists m. rewrite <-Hm, <-count_entries_sum. apply sum_list_Z_ext.
    intros u Hu%elem_of_sorted_elems. symmetry. apply sum_of_tcounts.
    + apply NoDup_sorted_elems.
    + intros [n w] Hp. apply elem_of_sorted_elems. simpl.
      apply elem_of_dom in Hu as [l Hl].
      rewrite lookup_total_alt, Hl in Hp. simpl in Hp.
      destruct Hwf as (_ & Hd & Hn). rewrite Hd. apply (Hn u l (n, w) Hl Hp).
Qed.

End balance.

(** X20. On an undirected graph the degrees of the vertices add up to twice
    [getNumEdges()]: the stored entries come in pairs, a self-loop counts as
    one edge and two units of degree, and the halving that [getNumEdges]
    performs never rounds. *)
Theorem X20_undirected_degree_sum k g :
  reachable k g → Graph.isDirected g = false →
  ∃ degrees,
    Forall2 (λ v d, Graph.getDegree g v = Ret d) (sorted_elems (Graph.vertices g)) degrees ∧
    sum_list_Z degrees = 2 * Graph.getNumEdges g ∧
    2 * Graph.getNumEdges g = Z.of_nat (Graph.num_entries (Graph.adjList g)).
Proof.
  intros Hr Hu. destruct (reachable_balance_invariant k g Hr) as (Hwf & _ & Hb).
  destruct (num_entries_even g Hwf (Hb Hu)) as [m Hm].
  assert (Hnum : 2 * Graph.getNumEdges g
                 = Z.of_nat (Graph.num_entries (Graph.adjList g))).
  { unfold Graph.getNumEdges. rewrite Hu, count_entries, Hm.
    replace (2 * m) with (m * 2) by lia. rewrite Z.quot_mul by done. lia. }
  exists ((λ v, Z.of_nat (length (Graph.adjList g !!! v)))
            <$> sorted_elems (Graph.vertices g)).
  split_and!; [| |done].
  - apply Forall2_fmap_r, Forall_Forall2_diag, Forall_forall.
    intros v Hv%elem_of_sorted_elems. by apply getDegree_vertex.
  - rewrite Hnum. destruct Hwf as (_ & <- & _). apply count_entries_sum.
Qed.

Lemma X20_undirected_degree_sum_witness :
  ∃ degrees,
    Forall2 (λ v d, Graph.getDegree complete_23 v = Ret d)
            (sorted_elems (Graph.vertices complete_23)) degrees ∧
    sum_list_Z degrees = 2.
Proof.
  destruct (X20_undirected_degree_sum KCompleteGraph complete_23 complete_23_reachable)
    as (degrees & Hdeg & Hsum & _); [vm_compute; reflexivity|].
  exists degrees. split; [done|].
  by change (Graph.getNumEdges complete_23) with 1 in Hsum.
Defined.

(** ** The girth of an undirected graph *)

Section tree.
Context (adj : gmap Z (list (Z * Z))) (s : Z) (V : gset Z)
  (par : Z → Z) (depth : Z → nat).
Hypothesis Hmirror : ∀ u w, edge adj u w → edge adj w u.
Hypothesis Htree : search_tree adj s V par depth.

Lemma tree_root x : x ∈ V → depth x = 0%nat → x = s.
Proof.
  intros Hx Hd. destruct (decide (x = s)) as [|Hne]; [done|].
  destruct Htree as (_ & _ & Ht). destruct (Ht x Hx Hne) as (_ & Hdx & _). lia.
Qed.

Lemma tree_parent x :
  x ∈ V → (0 < depth x)%nat →
  par x ∈ V ∧ depth x = S (depth (par x)) ∧ edge adj (par x) x.
Proof.
  intros Hx Hd. destruct Htree as (_ & Hs & Ht). apply Ht; [done|].
  intros ->. lia.
Qed.

Lemma iter_parent k : ∀ x,
  x ∈ V → (k ≤ depth x)%nat →
  Nat.iter k par x ∈ V ∧ depth (Nat.iter k par x) = (depth x - k)%nat.
Proof.
  induction k as [|k IH]; intros x Hx Hk; simpl.
  - split; [done|lia].
  - destruct (IH x Hx) as [Hy Hdy]; [lia|].
    destruct (tree_parent _ Hy) as (Hp & Hdp & _); [lia|]. split; [done|lia].
Qed.

Lemma up_depth k : ∀ x y,
  x ∈ V → (k ≤ depth x)%nat → y ∈ branch_up par x k →
  y ∈ V ∧ (depth x < depth y + k)%nat ∧ (y = x ∨ depth y < depth x)%nat.
Proof.
  induction k as [|k IH]; intros x y Hx Hk; simpl; [by intros ?%elem_of_nil|].
  destruct (tree_parent x Hx) as (Hp & Hdp & _); [lia|].
  intros [->|Hy]%elem_of_cons.
  - split; [done|]. split; [lia|by left].
  - destruct (IH (par x) y Hp) as (HyV & Hlow & Hhigh); [lia|done|].
    split; [done|]. split; [lia|]. right. destruct Hhigh as [->|]; lia.
Qed.

Lemma NoDup_up k : ∀ x, x ∈ V → (k ≤ depth x)%nat → NoDup (branch_up par x k).
Proof.
  induction k as [|k IH]; intros x Hx Hk; simpl; [apply NoDup_nil_2|].
  destruct (tree_parent x Hx) as (Hp & Hdp & _); [lia|].
  apply NoDup_cons. split; [|apply IH; [done|lia]].
  intros Hin. destruct (up_depth k (par x) x Hp) as (_ & _ & [Heq|Hlt]); [lia|done| |lia].
  rewrite <-Heq in Hdp. lia.
Qed.

Lemma down_rev k : ∀ x, branch_down par x k = reverse (branch_up par x k).
Proof.
  induction k as [|k IH]; intros x; simpl; [done|]. by rewrite reverse_cons, IH.
Qed.

Lemma length_up k x : length (branch_up par x k) = k.
Proof. revert x. induction k as [|k IH]; intros x; simpl; [done|]. by rewrite IH. Qed.

Lemma last_down k x : List.last (branch_down par x k) (Nat.iter k par x) = x.
Proof. destruct k; simpl; [done|]. by rewrite last_last. Qed.

Lemma last_up k x d : List.last (branch_up par x (S k)) d = Nat.iter k par x.
Proof.
  revert x d. induction k as [|k IH]; intros x d; [done|].
  change (branch_up par x (S (S k))) with (x :: branch_up par (par x) (S k)).
  rewrite last_cons_default, IH. by rewrite Nat.iter_succ_r.
Qed.

Lemma chain_down k : ∀ x,
  x ∈ V → (k ≤ depth x)%nat → chain adj (Nat.iter k par x) (branch_down par x k).
Proof.
  induction k as [|k IH]; intros x Hx Hk; [done|].
  destruct (tree_parent x Hx) as (Hp & Hdp & He); [lia|].
  rewrite Nat.iter_succ_r. cbn [branch_down]. apply chain_app. split.
  - apply IH; [done|lia].
  - rewrite last_down. by split.
Qed.

Lemma chain_up k : ∀ x,
  x ∈ V → (S k ≤ depth x)%nat → chain adj x (branch_up par (par x) k).
Proof.
  induction k as [|k IH]; intros x Hx Hk; [done|].
  destruct (tree_parent x Hx) as (Hp & Hdp & He); [lia|].
  destruct (tree_parent (par x) Hp) as (_ & _ & He'); [lia|].
  cbn [branch_up chain]. split; [by apply Hmirror|]. apply IH; [done|lia].
Qed.

(** Two vertices of the tree have a common ancestor above which their
    branches do not meet. *)
Lemma branches_meet n : ∀ u v,
  u ∈ V → v ∈ V → (depth u + depth v ≤ n)%nat →
  ∃ ku kv, (ku ≤ depth u)%nat ∧ (kv ≤ depth v)%nat ∧
           Nat.iter ku par u = Nat.iter kv par v ∧
           ∀ y, y ∈ branch_up par u ku → y ∉ branch_up par v kv.
Proof.
  induction n as [|n IH]; intros u v Hu Hv Hn.
  { exists 0%nat, 0%nat. split_and!; [lia..| |by intros y ?%elem_of_nil].
    simpl. rewrite (tree_root u), (tree_root v); [done|done|lia|done|lia]. }
  destruct (decide (u = v)) as [->|Hne].
  { exists 0%nat, 0%nat. split_and!; [lia..|done|by intros y ?%elem_of_nil]. }
  destruct (decide (depth v ≤ depth u)%nat) as [Hle|Hlt].
  - assert (0 < depth u)%nat as Hpos.
    { destruct (decide (0 < depth u)%nat); [done|]. destruct Hne.
      rewrite (tree_root u), (tree_root v); [done|done|lia|done|lia]. }
    destruct (tree_parent u Hu Hpos) as (Hp & Hdp & _).
    destruct (IH (par u) v Hp Hv) as (ku & kv & Hku & Hkv & Heq & Hdis); [lia|].
    exists (S ku), kv. split_and!; [lia|done|by rewrite Nat.iter_succ_r|].
    intros y [->|Hy]%elem_of_cons; [|by apply Hdis].
    intros Hin. destruct (up_depth kv v u Hv Hkv Hin) as (_ & _ & [?|?]); [done|lia].
  - assert (0 < depth v)%nat as Hpos by lia.
    destruct (tree_parent v Hv Hpos) as (Hp & Hdp & _).
    destruct (IH u (par v) Hu Hp) as (ku & kv & Hku & Hkv & Heq & Hdis); [lia|].
    exists ku, (S kv). split_and!; [done|lia|by rewrite Nat.iter_succ_r|].
    intros y Hy [->|Hin]%elem_of_cons; [|by apply (Hdis y)].
    destruct (up_depth ku u v Hu Hku Hy) as (_ & _ & [?|?]); [done|lia].
Qed.

(** An entry between two vertices of the tree, neither the parent of the
    other, closes a cycle no longer than their depths and one. *)
Lemma tree_cycle u v :
  u ∈ V → v ∈ V → u ≠ v → edge adj u v → par u ≠ v → par v ≠ u →
  ∃ c, simple_cycle adj c ∧ (3 ≤ length c)%nat ∧
       (length c ≤ depth u + depth v + 1)%nat.
Proof.
  intros Hu Hv Hne He Hpu Hpv.
  destruct (branches_meet (depth u + depth v) u v Hu Hv) as (ku & kv & Hku & Hkv & Heq & Hdis);
    [done|].
  set (w := Nat.iter ku par u) in *.
  destruct (iter_parent ku u Hu Hku) as [Hw Hdw]. fold w in Hw, Hdw.
  exists (w :: branch_down par u ku ++ branch_up par v kv). split_and!.
  - split_and!.
    + apply NoDup_cons. split.
      * rewrite elem_of_app, down_rev, elem_of_reverse. intros [Hin|Hin].
        -- destruct (up_depth ku u w Hu Hku Hin) as (_ & ? & _). lia.
        -- destruct (up_depth kv v w Hv Hkv Hin) as (_ & ? & _).
           destruct (iter_parent kv v Hv Hkv) as [_ Hdw']. rewrite <-Heq in Hdw'. lia.
      * apply NoDup_app. split_and!.
        -- rewrite down_rev, reverse_Permutation. by apply NoDup_up.
        -- intros y. rewrite down_rev, elem_of_reverse. apply Hdis.
        -- by apply NoDup_up.
    + apply chain_app. split; [by apply chain_down|].
      rewrite last_down. destruct kv as [|kv]; [done|]. cbn [branch_up chain].
      split; [done|]. by apply chain_up.
    + destruct kv as [|kv].
      * rewrite app_nil_r, last_down. simpl in Heq. by rewrite Heq.
      * cbn [branch_up]. rewrite last_app_cons_default.
        destruct (iter_parent kv v Hv) as [Hy Hdy]; [lia|].
        destruct (tree_parent _ Hy) as (_ & _ & He'); [lia|].
        assert (List.last (branch_up par (par v) kv) v = Nat.iter kv par v) as ->.
        { destruct kv as [|kv']; [done|]. by rewrite last_up, Nat.iter_succ_r. }
        apply Hmirror. rewrite Heq. done.
  - simpl. rewrite length_app, down_rev, length_reverse, !length_up.
    destruct ku as [|[|ku]], kv as [|[|kv]]; simpl in *; try lia; congruence.
  - simpl. rewrite length_app, down_rev, length_reverse, !length_up. lia.
Qed.

End tree.

Section cycle_walks.
Implicit Types (adj : gmap Z (list (Z * Z))).

Lemma chain_walk_prefix adj pre : ∀ a p x rest,
  chain adj a p → a :: p = pre ++ x :: rest → walk adj a x (length pre).
Proof.
  induction pre as [|a' pre IH]; intros a p x rest Hch Heq.
  - injection Heq as -> _. apply walk_nil.
  - injection Heq as <- ->. destruct pre as [|b pre].
    + destruct Hch as [He _]. simpl. eapply walk_snoc; [apply walk_nil|done].
    + destruct Hch as [He Hch]. simpl. eapply walk_cons; [done|].
      by apply (IH b (pre ++ x :: rest) x rest).
Qed.

Lemma chain_suffix adj pre : ∀ a p x rest,
  chain adj a p → a :: p = pre ++ x :: rest → chain adj x rest.
Proof.
  induction pre as [|a' pre IH]; intros a p x rest Hch Heq.
  - by injection Heq as -> ->.
  - injection Heq as <- ->. destruct pre as [|b pre]; simpl in Hch.
    + by destruct Hch.
    + destruct Hch as [_ Hch]. by apply (IH b (pre ++ x :: rest) x rest).
Qed.

Lemma chain_walk_last adj p : ∀ a, chain adj a p → walk adj a (List.last p a) (length p).
Proof.
  induction p as [|b p IH]; intros a Hch; [apply walk_nil|].
  destruct Hch as [He Hch]. rewrite last_cons_default. simpl.
  eapply walk_cons; [done|]. by apply IH.
Qed.

(** Two distinct vertices of a cycle through [s] are reached from [s], one
    along the cycle and the other against it, by fewer steps together than
    the cycle has vertices. *)
Lemma cycle_reaches adj s p u w :
  (∀ x y, edge adj x y → edge adj y x) →
  simple_cycle adj (s :: p) → u ∈ s :: p → w ∈ s :: p → u ≠ w →
  ∃ i j, walk adj s u i ∧ walk adj s w j ∧ (i + j + 1 ≤ length (s :: p))%nat.
Proof.
  intros Hmirror (Hnd & Hch & Hlast).
  assert (Hback : ∀ x y n, walk adj x y n → walk adj y x n).
  { intros x y n Hw. induction Hw as [|y z n _ IH Hyz]; [apply walk_nil|].
    eapply walk_cons; [by apply Hmirror|done]. }
  assert (Hord : ∀ u w l1 l2 l3, s :: p = l1 ++ u :: l2 ++ w :: l3 →
            ∃ i j, walk adj s u i ∧ walk adj s w j ∧ (i + j + 1 ≤ length (s :: p))%nat).
  { intros u' w' l1 l2 l3 Heq.
    assert (Heq' : s :: p = (l1 ++ u' :: l2) ++ w' :: l3) by by rewrite <-app_assoc.
    exists (length l1), (S (length l3)). split_and!.
    - by eapply chain_walk_prefix.
    - apply Hback.
      pose proof (chain_suffix _ _ _ _ _ _ Hch Heq') as Hch'.
      apply chain_walk_last in Hch'. eapply walk_snoc; [done|].
      assert (List.last l3 w' = List.last p s) as ->; [|done].
      by rewrite <-(last_cons_default s s p), Heq', last_app_cons_default.
    - rewrite Heq', !length_app. simpl. lia. }
  intros Hu Hw Hne.
  apply list_elem_of_split in Hu as (l1 & l2 & Heq).
  rewrite Heq in Hw. apply elem_of_app in Hw as [Hw|[?|Hw]%elem_of_cons]; [|done|].
  - apply list_elem_of_split in Hw as (l1a & l1b & ->).
    destruct (Hord w u l1a l1b l2) as (i & j & Hi & Hj & Hij).
    { by rewrite Heq, <-app_assoc. }
    exists j, i. split_and!; [done..|lia].
  - apply list_elem_of_split in Hw as (l2a & l2b & ->).
    by apply (Hord u w l1 l2a l2b).
Qed.
End cycle_walks.

Section girth_search.
Context (adj : gmap Z (list (Z * Z))) (s dest : Z) (bound : Z).
Hypothesis Hmirror : ∀ u w, edge adj u w → edge adj w u.
Hypothesis Hsimple : simple_graph adj.
Hypothesis Hdest : dest ∉ targets adj.
Hypothesis Hsd : s ≠ dest.

Lemma simple_no_loop u : ¬ edge adj u u.
Proof.
  intros (l & Hl & Hin). destruct (Hsimple u l Hl) as [_ Hself]. done.
Qed.

Lemma girth_inv_current cur D q girth par :
  girth_inv adj s dest bound [cur] D q girth par →
  cur ∈ dom D ∧ (cur ∉ q.*1) ∧ (∀ x, x ∈ q.*1 → x ∈ dom D) ∧ s ∈ dom D ∧ D !!! s = 0.
Proof.
  intros Hinv. pose proof (gi_dist _ _ _ _ _ _ _ _ _ Hinv) as Hd.
  pose proof (gi_nodup _ _ _ _ _ _ _ _ _ Hinv) as Hnd. simpl in Hnd.
  apply NoDup_cons in Hnd as [Hc _]. split_and!.
  - apply (di_pending _ _ _ _ _ _ Hd), list_elem_of_here.
  - done.
  - intros x Hx. by apply (di_pending _ _ _ _ _ _ Hd), list_elem_of_further.
  - apply (di_src _ _ _ _ _ _ Hd).
  - apply (di_src _ _ _ _ _ _ Hd).
Qed.

Lemma girth_inv_tree scanning D q girth par :
  girth_inv adj s dest bound scanning D q girth par →
  search_tree adj s (dom D) par (λ x, Z.to_nat (D !!! x)).
Proof.
  intros Hinv. pose proof (gi_dist _ _ _ _ _ _ _ _ _ Hinv) as Hd.
  destruct (di_src _ _ _ _ _ _ Hd) as [Hs Hs0]. split_and!; [done|by rewrite Hs0|].
  intros x Hx Hne. destruct (gi_tree _ _ _ _ _ _ _ _ _ Hinv x Hx Hne) as (Hp & Hdx & He).
  split_and!; [done| |done].
  destruct (di_sound _ _ _ _ _ _ Hd _ Hp) as (n & Hn & _). rewrite Hdx, Hn. lia.
Qed.

(** A neighbour that has no distance yet is given one and joins the queue. *)
Lemma girth_discover cur n D q girth par :
  girth_inv adj s dest bound [cur] D q girth par →
  edge adj cur n → n ∉ dom D →
  girth_inv adj s dest bound [cur] (<[n := D !!! cur + 1]> D) (q ++ [(n, cur)]) girth
    (set_parent par n cur).
Proof.
  intros Hinv He Hn.
  destruct (girth_inv_current _ _ _ _ _ Hinv) as (Hcur & Hcq & Hq & Hs & Hs0).
  destruct Hinv as [Hdist Hnd Htree Hqueue Hfresh Hseed Hscanned Hsound].
  assert (Hold : ∀ x, x ∈ dom D → <[n := D !!! cur + 1]> D !!! x = D !!! x).
  { intros x Hx. apply lookup_total_insert_ne. by intros <-. }
  assert (Hpar : ∀ x, x ∈ dom D → set_parent par n cur x = par x).
  { intros x Hx. unfold set_parent. rewrite decide_False; [done|]. by intros ->. }
  assert (Hnew : set_parent par n cur n = cur).
  { unfold set_parent. by rewrite decide_True. }
  assert (Hagree : ∀ u w, u ∈ dom D → w ∈ dom D →
            tree_edge par (λ x, Z.to_nat (D !!! x)) u w →
            tree_edge (set_parent par n cur)
              (λ x, Z.to_nat (<[n := D !!! cur + 1]> D !!! x)) u w).
  { intros u w Hu Hw. apply tree_edge_agree; simpl; rewrite ?Hold, ?Hpar; done. }
  assert (Hsub : ∀ x, x ∈ dom D → x ∈ dom (<[n := D !!! cur + 1]> D)).
  { intros x Hx. rewrite dom_insert_L. apply elem_of_union. by right. }
  assert (Hcases : ∀ x, x ∈ dom (<[n := D !!! cur + 1]> D) → x = n ∨ x ∈ dom D).
  { intros x. rewrite dom_insert_L, elem_of_union, elem_of_singleton. done. }
  assert (Hnq : n ∉ cur :: q.*1).
  { intros [->|Hx]%elem_of_cons; [done|]. by apply Hn, Hq. }
  split.
  - rewrite dom_insert_L, fmap_app. simpl. apply distance_inv_discover; [done..|].
    intros ->. apply Hdest. by eapply edge_targets.
  - rewrite fmap_app. simpl. rewrite app_comm_cons. apply NoDup_app.
    split_and!; [done| |apply NoDup_singleton].
    by intros x Hx ->%list_elem_of_singleton.
  - intros x [->|Hx]%Hcases Hne.
    + rewrite Hnew, lookup_total_insert_eq, Hold by done.
      split_and!; [by apply Hsub|done|done].
    + destruct (Htree x Hx Hne) as (Hp & Hdx & Hex).
      rewrite (Hpar x Hx), !Hold by done. split_and!; [by apply Hsub|done|done].
  - intros x p [Hin|[= -> ->]%list_elem_of_singleton]%elem_of_app.
    + destruct (Hqueue x p Hin) as [<- Hne]. split; [|done].
      apply Hpar, Hq. apply list_elem_of_fmap. by exists (x, par x).
    + split; [done|]. by intros ->.
  - intros x [->|Hx]%Hcases Hne; rewrite fmap_app; simpl.
    + rewrite Hnew. intros [Hin| ->%list_elem_of_singleton]%elem_of_app; done.
    + rewrite (Hpar x Hx). destruct (Htree x Hx Hne) as (Hp & _ & _).
      intros [Hin| Heq%list_elem_of_singleton]%elem_of_app.
      * by apply (Hfresh x Hx Hne).
      * apply Hn. by rewrite <-Heq.
  - intros Hns x Hx. destruct (Hseed Hns x Hx) as [Hxd Hxp].
    rewrite (Hpar x Hxd). split; [by apply Hsub|done].
  - intros u w [->|Hu]%Hcases Hnp Hedge; rewrite fmap_app in Hnp; simpl in Hnp.
    + destruct Hnp. apply list_elem_of_further, elem_of_app. right. apply list_elem_of_here.
    + destruct (Hscanned u w Hu) as [Hw Hcase]; [|done|].
      { intros Hin. apply Hnp. simpl in Hin.
        apply elem_of_cons in Hin as [->|Hin]; [apply list_elem_of_here|].
        apply list_elem_of_further, elem_of_app. by left. }
      split; [by apply Hsub|].
      rewrite !Hold by done. destruct Hcase as [Ht|Hg]; [left; by apply Hagree|by right].
  - done.
Qed.

(** A neighbour with a distance that is not the parent: [girth] takes the
    length of a closed walk, which contains a cycle. *)
Lemma girth_detect cur n D q girth par :
  girth_inv adj s dest bound [cur] D q girth par →
  cur ≠ s → edge adj cur n → n ∈ dom D → n ≠ par cur →
  (n ≠ s → par n ≠ cur) →
  girth_inv adj s dest bound [cur] D q (Z.min girth (D !!! cur + D !!! n + 1)) par.
Proof.
  intros Hinv Hcs He Hn Hnp Hchild.
  destruct (girth_inv_current _ _ _ _ _ Hinv) as (Hcur & Hcq & Hq & Hs & Hs0).
  pose proof (girth_inv_tree _ _ _ _ _ Hinv) as Htr.
  destruct Hinv as [Hdist Hnd Htree Hqueue Hfresh Hseed Hscanned Hsound].
  split; try done.
  - intros u w Hu Hnp' Hedge. destruct (Hscanned u w Hu Hnp' Hedge) as [Hw [Ht|Hg]].
    + split; [done|by left].
    + split; [done|]. right. lia.
  - destruct Hsound as [Hle Hcase]. split; [lia|].
    destruct (Z.min_spec girth (D !!! cur + D !!! n + 1)) as [[_ ->]|[_ ->]]; [done|].
    right.
    assert (par n ≠ cur) as Hpn.
    { apply Hchild. intros ->.
      assert (s ∉ [cur]) as Hns.
      { intros Heq%list_elem_of_singleton. by destruct Hcs. }
      destruct (Hseed Hns cur (Hmirror _ _ He)) as [_ Hps]. by destruct Hnp. }
    destruct (tree_cycle adj s (dom D) par (λ x, Z.to_nat (D !!! x)) Hmirror Htr cur n)
      as (c & Hc & Hlen & Hshort); try done.
    { intros Heq. rewrite Heq in He. by apply (simple_no_loop n). }
    exists c. split_and!; [done..|].
    destruct (di_sound _ _ _ _ _ _ Hdist _ Hcur) as (i & Hi & _).
    destruct (di_sound _ _ _ _ _ _ Hdist _ Hn) as (j & Hj & _).
    rewrite Hi, Hj, !Nat2Z.id in *. lia.
Qed.

(** The vertex whose neighbours have all been enumerated is dealt with. *)
Lemma girth_pop cur D q girth par :
  girth_inv adj s dest bound [cur] D q girth par →
  (∀ w, edge adj cur w →
        w ∈ dom D ∧ D !!! w ≤ D !!! cur + 1 ∧
        (tree_edge par (λ x, Z.to_nat (D !!! x)) cur w ∨
         girth ≤ D !!! cur + D !!! w + 1)) →
  (cur = s → ∀ w, edge adj s w → par w = s) →
  girth_inv adj s dest bound [] D q girth par.
Proof.
  intros [Hdist Hnd Htree Hqueue Hfresh Hseed Hscanned Hsound] Hall Hroot. split; try done.
  - simpl in *. eapply distance_inv_pop; [done|].
    intros w Hw. destruct (Hall w Hw) as (? & ? & _). done.
  - simpl in *. by apply NoDup_cons in Hnd as [_ ?].
  - intros _ x Hx. destruct (decide (cur = s)) as [->|Hne].
    + destruct (Hall x Hx) as (? & _). split; [done|]. by apply Hroot.
    + apply Hseed; [|done]. by intros ?%list_elem_of_singleton.
  - intros u w Hu Hnp Hedge. simpl in *. destruct (decide (u = cur)) as [->|Hne].
    + destruct (Hall w Hedge) as (? & _ & ?). done.
    + apply Hscanned; [done| |done]. by intros [?|?]%elem_of_cons.
Qed.

(** The first vertex of the queue is taken. *)
Lemma girth_next cur parent D q girth par :
  girth_inv adj s dest bound [] D ((cur, parent) :: q) girth par →
  girth_inv adj s dest bound [cur] D q girth par ∧
  par cur = parent ∧ cur ≠ s ∧
  ∀ x, x ∈ dom D → x ≠ s → par x ≠ cur.
Proof.
  intros [Hdist Hnd Htree Hqueue Hfresh Hseed Hscanned Hsound].
  destruct (Hqueue cur parent) as [Hp Hne]; [apply list_elem_of_here|].
  split_and!; [|done|done|].
  - split; try done.
    + intros x p Hin. apply Hqueue. by apply list_elem_of_further.
    + intros x Hx Hxs Hin. apply (Hfresh x Hx Hxs). simpl. by apply list_elem_of_further.
    + intros _. apply Hseed. by intros ?%elem_of_nil.
  - intros x Hx Hxs Heq. apply (Hfresh x Hx Hxs). rewrite Heq. simpl. apply list_elem_of_here.
Qed.

End girth_search.

Section girth_loops.
Context (adj : gmap Z (list (Z * Z))) (s dest : Z) (bound : Z).
Hypothesis Hmirror : ∀ u w, edge adj u w → edge adj w u.
Hypothesis Hsimple : simple_graph adj.
Hypothesis Hdest : dest ∉ targets adj.
Hypothesis Hsd : s ≠ dest.

Lemma girth_entry_discovered cur n D q girth par :
  girth_inv adj s dest bound [cur] D q girth par →
  n ∉ dom D →
  girth_entry_ok (<[n := D !!! cur + 1]> D) girth (set_parent par n cur) cur n.
Proof.
  intros Hinv Hn.
  destruct (girth_inv_current _ _ _ _ _ _ _ _ _ Hinv) as (Hcur & _).
  destruct (di_sound _ _ _ _ _ _ (gi_dist _ _ _ _ _ _ _ _ _ Hinv) _ Hcur) as (i & Hi & _).
  assert (cur ≠ n) as Hne by (by intros ->).
  split_and!.
  - rewrite dom_insert_L. apply elem_of_union. left. by apply elem_of_singleton.
  - rewrite lookup_total_insert_eq, lookup_total_insert_ne by done. lia.
  - left. right. right. unfold set_parent. rewrite decide_True by done.
    split; [done|]. rewrite lookup_total_insert_eq, lookup_total_insert_ne by done.
    rewrite Hi. lia.
Qed.

Lemma girth_entry_stable cur n w D girth girth' par :
  n ∉ dom D → cur ∈ dom D → girth' ≤ girth →
  girth_entry_ok D girth par cur w →
  girth_entry_ok (<[n := D !!! cur + 1]> D) girth' (set_parent par n cur) cur w.
Proof.
  intros Hn Hcur Hle (Hw & Hd & Hcase).
  assert (Hold : ∀ x, x ∈ dom D → <[n := D !!! cur + 1]> D !!! x = D !!! x).
  { intros x Hx. apply lookup_total_insert_ne. by intros <-. }
  assert (Hpar : ∀ x, x ∈ dom D → set_parent par n cur x = par x).
  { intros x Hx. unfold set_parent. rewrite decide_False; [done|]. by intros ->. }
  split_and!.
  - rewrite dom_insert_L. apply elem_of_union. by right.
  - by rewrite !Hold.
  - rewrite !Hold by done. destruct Hcase as [Ht|Hg]; [left|right; lia].
    revert Ht. apply tree_edge_agree; simpl; rewrite ?Hold, ?Hpar; done.
Qed.

Lemma girth_entry_weaken cur w D girth girth' par :
  girth' ≤ girth → girth_entry_ok D girth par cur w → girth_entry_ok D girth' par cur w.
Proof.
  intros Hle (Hw & Hd & Hcase). split_and!; [done..|].
  destruct Hcase; [by left|right; lia].
Qed.

Lemma getGirth_scan_spec cur parent full :
  adj !! cur = Some full → cur ≠ s →
  ∀ l done D q girth par,
    full = done ++ l →
    girth_inv adj s dest bound [cur] D q girth par →
    par cur = parent →
    (∀ p, p ∈ done → girth_entry_ok D girth par cur p.1) →
    (∀ x, x ∈ dom D → x ≠ s → par x = cur → x ∈ done.*1) →
    ∃ D' q' girth' par',
      Graph.getGirth_scan cur parent l (D, q, girth) = (D', q', girth') ∧
      girth_inv adj s dest bound [cur] D' q' girth' par' ∧
      (∀ p, p ∈ full → girth_entry_ok D' girth' par' cur p.1).
Proof.
  intros Hfull Hcs. unfold Graph.getGirth_scan.
  induction l as [|p l IH]; intros done D q girth par Heq Hinv Hpar Hdone Hchild.
  { simpl. exists D, q, girth, par. rewrite app_nil_r in Heq. subst done. done. }
  destruct (girth_inv_current _ _ _ _ _ _ _ _ _ Hinv) as (Hcur & Hcq & Hq & Hs & Hs0).
  assert (Hedge : edge adj cur p.1).
  { exists full. split; [done|]. apply list_elem_of_fmap_2. subst full.
    apply elem_of_app. right. apply list_elem_of_here. }
  assert (Heq' : full = (done ++ [p]) ++ l) by by rewrite <-app_assoc.
  assert (Hfresh : p.1 ∉ done.*1).
  { destruct (Hsimple cur full Hfull) as [Hnodup _].
    rewrite Heq, fmap_app, fmap_cons in Hnodup.
    apply NoDup_app in Hnodup as (_ & Hdis & _).
    intros Hin. apply (Hdis _ Hin), list_elem_of_here. }
  simpl. destruct (decide (D !! p.1 = None)) as [Hnone|Hsome].
  - apply not_elem_of_dom in Hnone.
    apply (IH (done ++ [p]) _ _ _ (set_parent par p.1 cur));
      [done|by apply girth_discover| | |].
    + unfold set_parent. rewrite decide_False; [done|]. by intros ->.
    + intros p' [Hp'| ->%list_elem_of_singleton]%elem_of_app.
      * eapply girth_entry_stable; [done|done| |by apply Hdone]. lia.
      * by eapply girth_entry_discovered.
    + intros x Hx Hxs Hpx. rewrite fmap_app. apply elem_of_app.
      destruct (decide (x = p.1)) as [->|Hne]; [right; apply list_elem_of_here|].
      left. apply Hchild; [|done|].
      * rewrite dom_insert_L in Hx. set_solver.
      * unfold set_parent in Hpx. by rewrite decide_False in Hpx.
  - assert (Hin : p.1 ∈ dom D).
    { apply elem_of_dom. by destruct (D !! p.1); [eauto|]. }
    assert (Hnear : D !!! p.1 ≤ D !!! cur + 1).
    { by apply (di_near _ _ _ _ _ _ (gi_dist _ _ _ _ _ _ _ _ _ Hinv)). }
    destruct (decide (p.1 ≠ parent)) as [Hne|Hpp%dec_stable].
    + apply (IH (done ++ [p]) _ _ _ par); [done| |done| |].
      * apply girth_detect; [done..|congruence|].
        intros Hps Hpc. apply Hfresh. by apply Hchild.
      * intros p' [Hp'| ->%list_elem_of_singleton]%elem_of_app.
        -- eapply girth_entry_weaken; [|by apply Hdone]. lia.
        -- split_and!; [done..|]. right. lia.
      * intros x Hx Hxs Hpx. rewrite fmap_app. apply elem_of_app. left. by apply Hchild.
    + apply (IH (done ++ [p]) _ _ _ par); [done..| |].
      * intros p' [Hp'| ->%list_elem_of_singleton]%elem_of_app; [by apply Hdone|].
        split_and!; [done..|]. left. right. left.
        destruct (gi_tree _ _ _ _ _ _ _ _ _ Hinv cur Hcur Hcs) as (Hpd & Hdc & _).
        destruct (di_sound _ _ _ _ _ _ (gi_dist _ _ _ _ _ _ _ _ _ Hinv) _ Hpd)
          as (i & Hi & _).
        rewrite Hpp, <-Hpar. split; [done|]. rewrite Hdc, Hi. lia.
      * intros x Hx Hxs Hpx. rewrite fmap_app. apply elem_of_app. left. by apply Hchild.
Qed.

Lemma getGirth_seed_spec full girth :
  adj !! s = Some full →
  ∀ l done D q par,
    full = done ++ l →
    girth_inv adj s dest bound [s] D q girth par →
    (∀ x, x ∈ dom D → x = s ∨ x ∈ done.*1) →
    (∀ p, p ∈ done → girth_entry_ok D girth par s p.1 ∧ par p.1 = s) →
    ∃ D' q' par',
      foldl (λ '(distance, q) neighbor,
               (<[neighbor.1 := 1]> distance, q ++ [(neighbor.1, s)])) (D, q) l
      = (D', q') ∧
      girth_inv adj s dest bound [s] D' q' girth par' ∧
      (∀ p, p ∈ full → girth_entry_ok D' girth par' s p.1 ∧ par' p.1 = s).
Proof.
  intros Hfull.
  induction l as [|p l IH]; intros done D q par Heq Hinv Hdom Hdone.
  { simpl. exists D, q, par. rewrite app_nil_r in Heq. subst done. done. }
  destruct (girth_inv_current _ _ _ _ _ _ _ _ _ Hinv) as (Hcur & Hcq & Hq & Hs & Hs0).
  assert (Hedge : edge adj s p.1).
  { exists full. split; [done|]. apply list_elem_of_fmap_2. subst full.
    apply elem_of_app. right. apply list_elem_of_here. }
  assert (Heq' : full = (done ++ [p]) ++ l) by by rewrite <-app_assoc.
  assert (Hnew : p.1 ∉ dom D).
  { intros [Hps|Hpd]%Hdom.
    - apply (simple_no_loop adj Hsimple s). by rewrite <-Hps at 2.
    - destruct (Hsimple s full Hfull) as [Hnodup _].
      rewrite Heq, fmap_app, fmap_cons in Hnodup.
      apply NoDup_app in Hnodup as (_ & Hdis & _).
      apply (Hdis _ Hpd), list_elem_of_here. }
  pose proof (girth_discover adj s dest bound Hdest s p.1 D q girth par Hinv Hedge Hnew)
    as Hinv'.
  rewrite Hs0 in Hinv'. simpl in Hinv'. simpl.
  apply (IH (done ++ [p]) _ _ (set_parent par p.1 s)); [done|done| |].
  - intros x. rewrite dom_insert_L, elem_of_union, elem_of_singleton, fmap_app, elem_of_app.
    intros [->|[->|Hx]%Hdom]; [right; right; apply list_elem_of_here|by left|by right; left].
  - intros p' [Hp'| ->%list_elem_of_singleton]%elem_of_app.
    + destruct (Hdone p' Hp') as [Hok Hps].
      pose proof (girth_entry_stable s p.1 p'.1 D girth girth par Hnew Hs (Z.le_refl _) Hok)
        as Hok'.
      rewrite Hs0 in Hok'. split; [done|].
      unfold set_parent. rewrite decide_False; [done|].
      intros Heqp. apply Hnew. rewrite <-Heqp. apply Hok.
    + pose proof (girth_entry_discovered s p.1 D q girth par Hinv Hnew) as Hok.
      rewrite Hs0 in Hok. split; [done|]. unfold set_parent. by rewrite decide_True.
Qed.

Lemma getGirth_loop_spec fuel :
  ∀ D q girth par girth',
    girth_inv adj s dest bound [] D q girth par →
    Graph.getGirth_loop fuel adj D q girth = Ret girth' →
    ∃ D' par', girth_inv adj s dest bound [] D' [] girth' par'.
Proof.
  induction fuel as [|fuel IH]; intros D [|[cur parent] q] girth par girth' Hinv; simpl;
    try done.
  1, 2: intros [= <-]; by exists D, par.
  destruct (girth_next _ _ _ _ _ _ _ _ _ _ Hinv) as (Hinv1 & Hpar & Hcs & Hnochild).
  destruct (adj !! cur) as [full|] eqn:Hfull.
  - destruct (getGirth_scan_spec cur parent full Hfull Hcs full [] D q girth par)
      as (D' & q' & girth1 & par' & -> & Hinv' & Hall); try done.
    { by intros p ?%elem_of_nil. }
    { intros x Hx Hxs Hpx. by destruct (Hnochild x Hx Hxs). }
    apply (IH _ _ _ par'). eapply girth_pop; [done| |done].
    intros w (l & Hl & ([w' x] & -> & Hp)%list_elem_of_fmap).
    rewrite Hfull in Hl. injection Hl as <-. apply (Hall (w', x) Hp).
  - apply (IH _ _ _ par). eapply girth_pop; [done| |done].
    intros w (l & Hl & _). by rewrite Hfull in Hl.
Qed.

Lemma girth_inv_start par : girth_inv adj s dest bound [s] {[s := 0]} [] bound par.
Proof.
  split; simpl.
  - rewrite dom_singleton_L. by apply distance_inv_init.
  - apply NoDup_singleton.
  - intros x. rewrite dom_singleton_L. by intros ->%elem_of_singleton.
  - by intros x p ?%elem_of_nil.
  - by intros x _ _ ?%elem_of_nil.
  - intros Hns. destruct Hns. apply list_elem_of_here.
  - intros u w. rewrite dom_singleton_L. intros ->%elem_of_singleton Hn.
    destruct Hn. apply list_elem_of_here.
  - split; [lia|by left].
Qed.

Lemma getGirth_from_inv girth' :
  is_Some (adj !! s) →
  Graph.getGirth_from adj s bound = Ret girth' →
  ∃ D par, girth_inv adj s dest bound [] D [] girth' par.
Proof.
  intros [full Hfull]. unfold Graph.getGirth_from. rewrite Hfull.
  destruct (getGirth_seed_spec full bound Hfull full [] {[s := 0]} [] (λ x, x))
    as (D & q & par & -> & Hinv & Hall); try done.
  { apply girth_inv_start. }
  { intros x. rewrite dom_singleton_L. intros ->%elem_of_singleton. by left. }
  { by intros p ?%elem_of_nil. }
  apply (getGirth_loop_spec _ _ _ _ par). eapply girth_pop; [done| |].
  - intros w (l & Hl & ([w' x] & -> & Hp)%list_elem_of_fmap).
    rewrite Hfull in Hl. injection Hl as <-. apply (Hall (w', x) Hp).
  - intros _ w (l & Hl & ([w' x] & -> & Hp)%list_elem_of_fmap).
    rewrite Hfull in Hl. injection Hl as <-. apply (Hall (w', x) Hp).
Qed.

(** At the end of the search, [girth] is at most the length of any cycle
    through [s]. *)
Lemma girth_inv_complete D girth par c :
  girth_inv adj s dest bound [] D [] girth par →
  simple_cycle adj c → (3 ≤ length c)%nat → s ∈ c →
  girth ≤ Z.of_nat (length c).
Proof.
  intros Hinv Hc Hlen Hs.
  destruct (simple_cycle_rotate adj c s Hc Hs) as (p & Hc' & Hperm).
  pose proof (gi_dist _ _ _ _ _ _ _ _ _ Hinv) as Hdist. simpl in Hdist.
  assert (Hreach : ∀ x m, walk adj s x m → x ∈ dom D ∧ D !!! x ≤ Z.of_nat m).
  { intros x m Hw. eapply distance_inv_walk; [done..|]. by intros y ?%elem_of_nil. }
  assert (Hin : ∀ x, x ∈ s :: p → x ∈ dom D).
  { intros x Hx. destruct (decide (x = s)) as [->|Hne].
    - apply (di_src _ _ _ _ _ _ Hdist).
    - destruct (cycle_reaches adj s p x s Hmirror Hc' Hx) as (i & _ & Hi & _);
        [apply list_elem_of_here|done|]. by apply (Hreach x i). }
  destruct (cycle_leaves_forest adj par (λ x, Z.to_nat (D !!! x))
              (λ u w, girth ≤ D !!! u + D !!! w + 1) (s :: p) Hc')
    as (u & w & Hu & Hw & He & HQ).
  { by rewrite Hperm. }
  { intros u w Hu Hw He.
    by apply (gi_scanned _ _ _ _ _ _ _ _ _ Hinv u w (Hin u Hu)); [intros ?%elem_of_nil|]. }
  assert (u ≠ w) as Hne.
  { intros ->. by apply (simple_no_loop adj Hsimple w). }
  destruct (cycle_reaches adj s p u w Hmirror Hc' Hu Hw Hne) as (i & j & Hi & Hj & Hij).
  destruct (Hreach u i Hi) as [_ Hdu]. destruct (Hreach w j Hj) as [_ Hdw].
  rewrite <-Hperm. lia.
Qed.

End girth_loops.

Section girth_top.
Context (adj : gmap Z (list (Z * Z))).
Hypothesis Hmirror : ∀ u w, edge adj u w → edge adj w u.
Hypothesis Hsimple : simple_graph adj.

Lemma getGirth_from_spec s bound girth' :
  is_Some (adj !! s) →
  Graph.getGirth_from adj s bound = Ret girth' →
  girth' ≤ bound ∧
  (girth' = bound ∨
   ∃ c, simple_cycle adj c ∧ (3 ≤ length c)%nat ∧ Z.of_nat (length c) ≤ girth') ∧
  ∀ c, simple_cycle adj c → (3 ≤ length c)%nat → s ∈ c → girth' ≤ Z.of_nat (length c).
Proof.
  intros Hs Hret.
  destruct (exist_fresh (targets adj ∪ {[s]})) as [dest Hfresh].
  assert (Hnot : dest ∉ targets adj).
  { intros Hin. apply Hfresh, elem_of_union. by left. }
  assert (Hne : s ≠ dest).
  { intros ->. apply Hfresh, elem_of_union. right. by apply elem_of_singleton. }
  destruct (getGirth_from_inv adj s dest bound Hmirror Hsimple Hnot Hne girth' Hs Hret)
    as (D & par & Hinv).
  destruct (gi_sound _ _ _ _ _ _ _ _ _ Hinv) as [Hle Hcase]. split_and!; [done..|].
  intros c Hc Hlen Hin.
  by apply (girth_inv_complete adj s dest bound Hmirror Hsimple D girth' par c).
Qed.

Lemma getGirth_starts_spec starts :
  ∀ bound girth',
    (∀ x, x ∈ starts → is_Some (adj !! x)) →
    Graph.getGirth_starts adj starts bound = Ret girth' →
    girth' ≤ bound ∧
    (girth' = bound ∨
     ∃ c, simple_cycle adj c ∧ (3 ≤ length c)%nat ∧ Z.of_nat (length c) ≤ girth') ∧
    ∀ c x, simple_cycle adj c → (3 ≤ length c)%nat → x ∈ starts → x ∈ c →
           girth' ≤ Z.of_nat (length c).
Proof.
  induction starts as [|s starts IH]; intros bound girth' Hstarts; simpl.
  { intros [= <-]. split_and!; [lia|by left|]. by intros c x _ _ ?%elem_of_nil. }
  destruct (Graph.getGirth_from adj s bound) as [g1| |] eqn:Hfrom; [|done..].
  intros Hrest.
  destruct (getGirth_from_spec s bound g1) as (Hle1 & Hcase1 & Hall1); [|done|].
  { apply Hstarts, list_elem_of_here. }
  destruct (IH g1 girth') as (Hle & Hcase & Hall); [|done|].
  { intros x Hx. by apply Hstarts, list_elem_of_further. }
  split_and!.
  - lia.
  - destruct Hcase as [->|Hc]; [|by right]. done.
  - intros c x Hc Hlen [->|Hx]%elem_of_cons Hin.
    + specialize (Hall1 c Hc Hlen Hin). lia.
    + by apply (Hall c x).
Qed.

End girth_top.

Section girth_size.
Implicit Types (g : Graph.t).

Lemma simple_cycle_vertices g c x :
  wf g → simple_cycle (Graph.adjList g) c → x ∈ c → x ∈ Graph.vertices g.
Proof.
  intros Hwf Hc Hx.
  destruct (simple_cycle_rotate _ c x Hc Hx) as (p & Hc' & _).
  destruct (simple_cycle_start g _ Hwf Hc') as (x' & p' & [= <- <-] & Hv). done.
Qed.

Lemma simple_cycle_length g c :
  wf g → simple_cycle (Graph.adjList g) c → (length c ≤ size (Graph.vertices g))%nat.
Proof.
  intros Hwf Hc.
  assert (NoDup c) as Hnd by (destruct c; [done|apply Hc]).
  rewrite <-(size_list_to_set (C := gset Z) c Hnd). apply subseteq_size.
  intros x Hx%elem_of_list_to_set. by eapply simple_cycle_vertices.
Qed.
End girth_size.

(** What [getGirth] returns on an undirected graph without parallel edges
    and self-loops. *)
Lemma getGirth_cases k g :
  reachable k g → Graph.isDirected g = false → simple_graph (Graph.adjList g) →
  Graph.getNumVertices g < INT_MAX →
  ∃ girth, Graph.getGirth g = Ret girth ∧
    ((girth = -1 ∧
      ∀ c, simple_cycle (Graph.adjList g) c → (length c < 3)%nat) ∨
     (3 ≤ girth ∧
      (∃ c, simple_cycle (Graph.adjList g) c ∧ Z.of_nat (length c) = girth) ∧
      ∀ c, simple_cycle (Graph.adjList g) c → (3 ≤ length c)%nat →
           girth ≤ Z.of_nat (length c))).
Proof.
  intros Hr Hund Hsimple Hsize. pose proof (reachable_wf _ _ Hr) as Hwf.
  pose proof (reachable_symmetry_invariant _ _ Hr) as (_ & _ & Hsym).
  specialize (Hsym Hund).
  assert (Hmirror : ∀ u w, edge (Graph.adjList g) u w → edge (Graph.adjList g) w u)
    by by apply edge_mirror.
  destruct (getGirth_returns g) as [girth Hret]. exists girth. split; [done|].
  unfold Graph.getGirth in Hret. case_decide as Hempty.
  { injection Hret as <-. left. split; [done|]. intros c Hc.
    destruct (simple_cycle_start g c Hwf Hc) as (x & p & _ & Hx).
    rewrite Hempty in Hx. by apply elem_of_empty in Hx. }
  destruct (Graph.getGirth_starts _ _ _) as [found| |] eqn:Hstarts; [|done..].
  injection Hret as <-.
  destruct (getGirth_starts_spec (Graph.adjList g) Hmirror Hsimple
              (sorted_elems (Graph.vertices g)) INT_MAX found)
    as (Hle & Hcase & Hall); [|done|].
  { intros x Hx%elem_of_sorted_elems. apply elem_of_dom.
    destruct Hwf as (_ & -> & _). done. }
  assert (Hshort : ∀ c, simple_cycle (Graph.adjList g) c → (3 ≤ length c)%nat →
            found ≤ Z.of_nat (length c) ∧ Z.of_nat (length c) < INT_MAX).
  { intros c Hc Hlen. split.
    - destruct c as [|x p] eqn:Hcx; [done|]. rewrite <-Hcx in *.
      apply (Hall c x Hc Hlen).
      + apply elem_of_sorted_elems. eapply simple_cycle_vertices; [done..|].
        rewrite Hcx. apply list_elem_of_here.
      + rewrite Hcx. apply list_elem_of_here.
    - pose proof (simple_cycle_length g c Hwf Hc) as Hlc.
      destruct Hwf as (Hnum & _). unfold Graph.getNumVertices in Hsize. lia. }
  destruct Hcase as [->|(c & Hc & Hlen & Hfound)].
  - rewrite decide_True by done. left. split; [done|]. intros c Hc.
    destruct (decide (length c < 3)%nat) as [|Hlen]; [done|].
    destruct (Hshort c Hc); lia.
  - destruct (Hshort c Hc Hlen) as [Hge Hlt].
    rewrite decide_False by lia. right. split_and!; [lia| |].
    + exists c. split; [done|lia].
    + intros c' Hc' Hlen'. by apply Hshort.
Qed.

(** X21. On an undirected graph without parallel edges and self-loops and
    with fewer than [INT_MAX] vertices, [getGirth()] returns the length of a
    shortest cycle through three or more distinct vertices, and -1 when
    there is none. *)
Theorem X21_getGirth_of_a_simple_undirected_graph k g :
  reachable k g → Graph.isDirected g = false → simple_graph (Graph.adjList g) →
  Graph.getNumVertices g < INT_MAX →
  ∃ girth, Graph.getGirth g = Ret girth ∧
    ((girth = -1 ∧
      ∀ c, simple_cycle (Graph.adjList g) c → (length c < 3)%nat) ∨
     (3 ≤ girth ∧
      (∃ c, simple_cycle (Graph.adjList g) c ∧ Z.of_nat (length c) = girth) ∧
      ∀ c, simple_cycle (Graph.adjList g) c → (3 ≤ length c)%nat →
           girth ≤ Z.of_nat (length c))).
Proof. apply getGirth_cases. Qed.

Lemma X21_getGirth_of_a_simple_undirected_graph_witness :
  ∃ girth, Graph.getGirth cyclic_triangle = Ret girth ∧
    ((girth = -1 ∧
      ∀ c, simple_cycle (Graph.adjList cyclic_triangle) c → (length c < 3)%nat) ∨
     (3 ≤ girth ∧
      (∃ c, simple_cycle (Graph.adjList cyclic_triangle) c ∧ Z.of_nat (length c) = girth) ∧
      ∀ c, simple_cycle (Graph.adjList cyclic_triangle) c → (3 ≤ length c)%nat →
           girth ≤ Z.of_nat (length c))).
Proof.
  apply (X21_getGirth_of_a_simple_undirected_graph KCyclicGraph cyclic_triangle
           cyclic_triangle_reachable).
  - reflexivity.
  - unfold simple_graph. in_set.
  - vm_compute. reflexivity.
Defined.

(** ** Connectivity, diameter and radius together *)

Section centre.
Implicit Types (adj : gmap Z (list (Z * Z))) (V : gset Z).

(** Through a vertex of eccentricity [e], any two vertices of an undirected
    graph are joined by a walk of no more than [2 * e] edges. *)
Lemma walk_through_centre adj V u e x y :
  symmetric adj → eccentricity adj V u e → x ∈ V → y ∈ V →
  ∃ n, walk adj x y n ∧ (n ≤ 2 * e)%nat.
Proof.
  intros Hsym [Hall _] Hx Hy.
  assert (Hfrom : ∀ v, v ∈ V → ∃ n, walk adj u v n ∧ (n ≤ e)%nat).
  { intros v Hv. destruct (decide (v = u)) as [->|Hne].
    - exists 0%nat. split; [apply walk_nil|lia].
    - destruct (Hall v Hv Hne) as (n & [Hw _] & Hle). by exists n. }
  destruct (Hfrom x Hx) as (n & Hn & Hnle), (Hfrom y Hy) as (m & Hm & Hmle).
  exists (n + m)%nat. split; [|lia].
  eapply walk_trans; [|done]. by apply walk_sym.
Qed.

Lemma disconnected_no_centre adj V u e :
  symmetric adj → disconnected adj V → eccentricity adj V u e → False.
Proof.
  intros Hsym (x & y & Hx & Hy & _ & Hno) Hecc.
  destruct (walk_through_centre adj V u e x y Hsym Hecc Hx Hy) as (n & Hn & _).
  by apply (Hno n).
Qed.
End centre.

(** X22. On an undirected graph the three queries agree: [isConnected()]
    answers [true] exactly when [getDiameter()] is not -1, and exactly when
    [getRadius()] is not -1; the radius is then at most the diameter, and the
    diameter at most twice the radius. *)
Theorem X22_connected_diameter_radius k g :
  reachable k g → Graph.isDirected g = false → Graph.getNumVertices g ≤ INT_MAX →
  ∃ connected diameter radius,
    Graph.isConnected g = Ret connected ∧
    Graph.getDiameter g = Ret diameter ∧
    Graph.getRadius g = Ret radius ∧
    (connected = true ↔ diameter ≠ -1) ∧
    (connected = true ↔ radius ≠ -1) ∧
    (connected = true → 0 ≤ radius ∧ radius ≤ diameter ∧ diameter ≤ 2 * radius).
Proof.
  intros Hr Hund Hmax.
  pose proof (reachable_symmetry_invariant _ _ Hr) as (_ & _ & Hsym).
  specialize (Hsym Hund).
  destruct (isConnected_cases k g Hr) as (b & Hb & _ & _ & Hpairs).
  specialize (Hpairs Hund).
  destruct (getDiameter_cases g) as [Hd1 Hd2].
  destruct (getRadius_cases k g Hr) as [Hr1 Hr2].
  destruct (decide (size (Graph.vertices g) ≤ 1)%nat) as [Hsmall|Hbig].
  - exists b, 0, 0. rewrite Hd1, Hr1 by done.
    assert (b = true) as ->.
    { apply Hpairs. intros u v Hu Hv. exists 0%nat.
      assert (u = v) as ->; [|apply walk_nil].
      apply small_size in Hsmall as [He|Hone].
      - rewrite He in Hu. by apply elem_of_empty in Hu.
      - by apply (size_singleton_inv (Graph.vertices g)). }
    split_and!; [done..| | |]; [split; done|split; done|lia].
  - assert (1 < size (Graph.vertices g))%nat as Hsize by lia.
    destruct (Hd2 Hsize) as [[Hdia Hdis]|(d & Hdia & Hall & x & y & Hx & Hy & Hxy & Hsh)];
      destruct (Hr2 Hsize Hmax) as [[Hrad Hdis']|(r & Hrad & (u & Hu & Hecc) & Hmin)].
    + exists b, (-1), (-1). split_and!; [done..| | |].
      * split; [|done]. intros ->. destruct Hdis as (x & y & Hx & Hy & _ & Hno).
        destruct (proj1 Hpairs eq_refl x y Hx Hy) as [n Hn]. by destruct (Hno n).
      * split; [|done]. intros ->. destruct Hdis as (x & y & Hx & Hy & _ & Hno).
        destruct (proj1 Hpairs eq_refl x y Hx Hy) as [n Hn]. by destruct (Hno n).
      * intros ->. destruct Hdis as (x & y & Hx & Hy & _ & Hno).
        destruct (proj1 Hpairs eq_refl x y Hx Hy) as [n Hn]. by destruct (Hno n).
    + by destruct (disconnected_no_centre _ _ u r Hsym Hdis Hecc).
    + destruct Hdis' as (x' & y' & Hx' & Hy' & Hne & Hno).
      destruct (Hall x' y' Hx' Hy') as (n & [Hn _] & _); [done|]. by destruct (Hno n).
    + exists b, (Z.of_nat d), (Z.of_nat r).
      assert (b = true) as ->.
      { apply Hpairs. intros v w Hv Hw.
        destruct (walk_through_centre _ _ u r v w Hsym Hecc Hv Hw) as (n & Hn & _).
        by exists n. }
      split_and!; [done..| | |].
      * split; [lia|done].
      * split; [lia|done].
      * intros _. split_and!; [lia| |].
        -- destruct Hecc as [_ (v & Hv & Hvu & Hshv)].
           destruct (Hall u v Hu Hv Hvu) as (n & Hn & Hle).
           rewrite (shortest_unique _ _ _ _ _ Hshv Hn). lia.
        -- destruct (walk_through_centre _ _ u r x y Hsym Hecc Hx Hy) as (n & Hn & Hle).
           destruct Hsh as [_ Hleast]. specialize (Hleast n Hn). lia.
Qed.

Lemma X22_connected_diameter_radius_witness :
  ∃ connected diameter radius,
    Graph.isConnected scenario_C = Ret connected ∧
    Graph.getDiameter scenario_C = Ret diameter ∧
    Graph.getRadius scenario_C = Ret radius ∧
    (connected = true ↔ diameter ≠ -1) ∧
    (connected = true ↔ radius ≠ -1) ∧
    (connected = true → 0 ≤ radius ∧ radius ≤ diameter ∧ diameter ≤ 2 * radius).
Proof.
  apply (X22_connected_diameter_radius KBipartiteGraph scenario_C scenario_C_reachable).
  - reflexivity.
  - vm_compute. by intros [=].
Defined.

(** ** Joining twice *)

Section rejoin.
Implicit Types (g other : Graph.t).

(** The edge loop of [join] adds nothing when each edge is present or is
    one that the loop leaves out. *)
Lemma join_edges_nothing vaddEdge g es :
  (∀ s d w, (s, d, w) ∈ es →
            edge (Graph.adjList g) s d ∨ ¬ (Graph.isDirected g = true ∨ s < d)) →
  Graph.join_edges vaddEdge g es = (g, Ret ()).
Proof.
  induction es as [|[[s d] w] es IH]; intros Hes; simpl; [done|].
  assert (IH' : Graph.join_edges vaddEdge g es = (g, Ret ())).
  { apply IH. intros s' d' w' Hin. apply (Hes s' d' w'). by apply list_elem_of_further. }
  destruct (Hes s d w) as [(l & Hl & Hd)|Hno]; [apply list_elem_of_here| |].
  - rewrite Hl. unfold has_target. by rewrite bool_decide_eq_true_2.
  - destruct (match Graph.adjList g !! s with
              | Some l => has_target d l
              | None => false
              end); [done|].
    by rewrite decide_False.
Qed.

Lemma foldl_addVertex_nothing g vs :
  (∀ v, v ∈ vs → v ∈ Graph.vertices g) → foldl Graph.addVertex g vs = g.
Proof.
  induction vs as [|v vs IH]; intros Hvs; simpl; [done|].
  unfold Graph.addVertex at 2. rewrite decide_True by apply Hvs, list_elem_of_here.
  apply IH. intros x Hx. by apply Hvs, list_elem_of_further.
Qed.

End rejoin.

(** X23. [join] is idempotent.  Joining a graph with a copy of itself
    changes nothing and does not throw, whatever the class of the object;
    and after a [join] that has returned, joining the same graph again
    changes nothing. *)
Theorem X23_join_idempotent k k' g other :
  reachable k g → reachable k' other →
  join k g g = (g, Ret ()) ∧
  ((join k g other).2 = Ret () →
   join k (join k g other).1 other = ((join k g other).1, Ret ())).
Proof.
  intros Hr Hr'. split.
  - unfold join, Graph.join. rewrite !decide_False by (by intros []).
    rewrite foldl_addVertex_nothing by (by intros v ?%elem_of_sorted_elems).
    apply join_edges_nothing. intros s d w Hin%elem_of_edge_triples. left.
    apply edge_entry. by exists w.
  - intros Hret.
    assert (Graph.isDirected g = Graph.isDirected other ∧
            Graph.isWeighted g = Graph.isWeighted other) as [Hd Hw].
    { revert Hret. unfold join, Graph.join.
      destruct (decide (Graph.isDirected g ≠ Graph.isDirected other)) as [|Hd%dec_stable];
        [done|].
      destruct (decide (Graph.isWeighted g ≠ Graph.isWeighted other)) as [|Hw%dec_stable];
        [done|]. done. }
    destruct (join_spec k k' g other Hr Hr' Hd Hw) as [Hv He]. specialize (He Hret).
    destruct (flags_join k g other) as [Hfd Hfw].
    set (g' := (join k g other).1) in *.
    unfold join at 1. unfold Graph.join.
    rewrite !decide_False by congruence.
    rewrite foldl_addVertex_nothing.
    + apply join_edges_nothing. intros s d w Hin%elem_of_edge_triples.
      assert (edge (Graph.adjList other) s d) as Hsd by (apply edge_entry; by exists w).
      destruct (Graph.isDirected g) eqn:Hdir.
      * left. apply He. right. split; [done|by left].
      * destruct (decide (s = d)) as [->|Hne].
        -- right. rewrite Hfd. intros [?|?]; [done|lia].
        -- left. apply He. right. split; [done|by right].
    + intros v Hin%elem_of_sorted_elems. rewrite Hv. apply elem_of_union. by right.
Qed.

Lemma X23_join_idempotent_witness :
  join KUndirectedGraph one_edge one_edge = (one_edge, Ret ()) ∧
  join KUndirectedGraph (join KUndirectedGraph one_edge other_edge).1 other_edge
  = ((join KUndirectedGraph one_edge other_edge).1, Ret ()).
Proof.
  destruct (X23_join_idempotent KUndirectedGraph KUndirectedGraph one_edge other_edge
              one_edge_reachable other_edge_reachable) as [Hself Hagain].
  split; [done|]. apply Hagain. vm_compute. reflexivity.
Defined.

(** ** The cycle queries together *)

(** X24. On an undirected [CyclicGraph] without parallel edges and
    self-loops, the three cycle queries agree: [hasCycle()] answers [true]
    exactly when [getGirth()] is not -1, and exactly when
    [getCircumference()] is not -1; the girth is then at least 3 and at most
    the circumference. *)
Theorem X24_cycle_queries_agree g :
  reachable KCyclicGraph g → Graph.isDirected g = false →
  simple_graph (Graph.adjList g) → Graph.getNumVertices g < INT_MAX →
  ∃ found girth circumference,
    CyclicGraph.hasCycle g = Ret found ∧
    Graph.getGirth g = Ret girth ∧
    Graph.getCircumference g = Ret circumference ∧
    (found = true ↔ girth ≠ -1) ∧
    (found = true ↔ circumference ≠ -1) ∧
    (found = true → 3 ≤ girth ∧ girth ≤ circumference).
Proof.
  intros Hr Hund Hsimple Hsize.
  destruct (hasCycle_cases g Hr Hund) as (b & Hb & Hfalse & Htrue).
  destruct (getGirth_cases _ g Hr Hund Hsimple Hsize) as (girth & Hg & Hgirth).
  destruct (getCircumference_cases _ g Hr) as (circ & Hc & Hcirc).
  exists b, girth, circ. split_and!; [done..| | |].
  - destruct b.
    + destruct (Htrue eq_refl Hsimple) as (c & Hcy & Hlen).
      destruct Hgirth as [[_ Hnone]|[Hge _]]; [|split; [intros _; lia|done]].
      specialize (Hnone c Hcy). lia.
    + destruct Hgirth as [[-> _]|[Hge [(c & Hcy & Hlen) _]]]; [done|].
      specialize (Hfalse eq_refl c Hcy). lia.
  - destruct b.
    + destruct (Htrue eq_refl Hsimple) as (c & Hcy & Hlen).
      destruct Hcirc as [[_ Hnone]|[Hge _]]; [|split; [intros _; lia|done]].
      specialize (Hnone c Hcy). lia.
    + destruct Hcirc as [[-> _]|[Hge [(c & Hcy & Hlen) _]]]; [done|].
      specialize (Hfalse eq_refl c Hcy). lia.
  - intros ->. destruct (Htrue eq_refl Hsimple) as (c & Hcy & Hlen).
    destruct Hgirth as [[_ Hnone]|(Hge & _ & Hleast)].
    { specialize (Hnone c Hcy). lia. }
    destruct Hcirc as [[_ Hnone]|(Hge' & (c' & Hcy' & Hlen') & _)].
    { specialize (Hnone c Hcy). lia. }
    split; [done|]. rewrite <-Hlen'. apply Hleast; [done|lia].
Qed.

Lemma X24_cycle_queries_agree_witness :
  ∃ found girth circumference,
    CyclicGraph.hasCycle cyclic_triangle = Ret found ∧
    Graph.getGirth cyclic_triangle = Ret girth ∧
    Graph.getCircumference cyclic_triangle = Ret circumference ∧
    (found = true ↔ girth ≠ -1) ∧
    (found = true ↔ circumference ≠ -1) ∧
    (found = true → 3 ≤ girth ∧ girth ≤ circumference).
Proof.
  apply (X24_cycle_queries_agree cyclic_triangle cyclic_triangle_reachable).
  - reflexivity.
  - unfold simple_graph. in_set.
  - vm_compute. reflexivity.
Defined.

(** ** The two traversals together *)

(** X25. [BFS(start)] and [DFS(start)] visit the same vertices: both throw
    [invalid_argument] when [start] is not a vertex, and otherwise each
    returns a rearrangement of what the other returns. *)
Theorem X25_BFS_and_DFS_visit_the_same_vertices g start :
  (start ∉ Graph.vertices g →
   Graph.BFS g start = Throw (invalid_argument "Start vertex not found in graph") ∧
   Graph.DFS g start = Throw (invalid_argument "Start vertex not found in graph")) ∧
  (start ∈ Graph.vertices g →
   ∃ breadth depth,
     Graph.BFS g start = Ret breadth ∧ Graph.DFS g start = Ret depth ∧
     breadth ≡ₚ depth).
Proof.
  destruct (BFS_cases g start) as [Hb1 Hb2], (DFS_cases g start) as [Hd1 Hd2].
  split; intros Hs; [by split; [apply Hb1|apply Hd1]|].
  destruct (Hb2 Hs) as (breadth & Hb & Hnb & _ & Hib).
  destruct (Hd2 Hs) as (depth & Hd & Hnd & _ & Hid).
  exists breadth, depth. split_and!; [done..|].
  apply NoDup_Permutation; [done..|]. intros v. by rewrite Hib, Hid.
Qed.

Lemma X25_BFS_and_DFS_visit_the_same_vertices_witness :
  ∃ breadth depth,
    Graph.BFS scenario_E 1 = Ret breadth ∧ Graph.DFS scenario_E 1 = Ret depth ∧
    breadth ≡ₚ depth.
Proof.
  apply (X25_BFS_and_DFS_visit_the_same_vertices scenario_E 1). in_set.
Defined.

(** ** [TrivialGraph] never holds an edge *)

(** X26.  [TrivialGraph::addEdge] always throws [logic_error] and leaves the
    object as it was; after any sequence of public operations the object
    holds no edge: every adjacency list is empty, [getNumEdges()] is 0 and
    [deleteEdge] finds nothing and changes nothing.  The constructor leaves
    exactly the vertex it is given, with a count of 1 and an empty list. *)
Theorem X26_TrivialGraph_has_no_edge g :
  reachable KTrivialGraph g →
  (∀ src dest weight,
     addEdge KTrivialGraph g src dest weight
     = (g, Throw (logic_error "Cannot add edges to a Trivial Graph"))) ∧
  (∀ v l, Graph.adjList g !! v = Some l → l = []) ∧
  Graph.getNumEdges g = 0 ∧
  (∀ src dest, Graph.deleteEdge g src dest = (g, false)) ∧
  (∀ vertex, Graph.vertices (TrivialGraph.new vertex) = {[vertex]} ∧
             Graph.getNumVertices (TrivialGraph.new vertex) = 1 ∧
             Graph.adjList (TrivialGraph.new vertex) = {[vertex := []]}).
Proof.
  intros Hr. pose proof (reachable_TrivialGraph_no_edges g Hr) as Hno.
  split_and!; [done|done|by apply getNumEdges_no_edges| |].
  - intros s d. apply deleteEdge_no_edges; [|done]. by apply (reachable_wf KTrivialGraph).
  - intros v. unfold TrivialGraph.new, Graph.addVertex. simpl.
    rewrite decide_False by set_solver. simpl. split_and!; [set_solver|done|done].
Qed.

Lemma X26_TrivialGraph_has_no_edge_witness :
  Graph.getNumEdges trivial_grown = 0.
Proof.
  apply (X26_TrivialGraph_has_no_edge trivial_grown).
  apply reach_addVertex, reach_new. constructor.
Defined.
